(** * utxos-sdk: secret sharing, shard lifecycle and envelope encryption

    A shallow embedding of the key-custody core of the SDK:
    GF(256) arithmetic and the Shamir engine, the hex / UTF-8 / base64
    conversions of the platform encoding adapters, the envelope
    encryption functions, hashing, the shard lifecycle functions and the
    platform adapter singleton.

    JavaScript values are modelled as follows:
    - a [Uint8Array] is a [list byte] (Stdlib's 256-constructor [byte]);
    - a JS [string] is a list of UTF-16 code units ([jsstring]);
    - a function that can throw returns a [result]; the thrown value is
      an [exn] that carries the message of the JS [Error];
    - randomness and the platform crypto provider are explicit inputs. *)

From Stdlib Require Import String Ascii.
From Stdlib Require Import List NArith ZArith Lia Bool.
From Stdlib Require Import Strings.Byte.
From Stdlib Require Import Field.
Import ListNotations.

Set Implicit Arguments.

Local Open Scope N_scope.

(* ================================================================== *)
(** * Thrown values and fallible computations *)
(* ================================================================== *)

(** A thrown JS value: a plain [Error] with its message, a [SyntaxError]
    (what [JSON.parse] throws), a [TypeError] (a member of [undefined]
    or [null], a call of something that is not a function), or a
    [DOMException] with its name (what the Web Crypto provider
    throws). *)
Inductive exn : Type :=
| Error (message : string)
| SyntaxError (message : string)
| TypeError (message : string)
| DOMException (name : string).

Inductive result (A : Type) : Type :=
| Ok (value : A)
| Err (e : exn).

Arguments Ok {A} value.
Arguments Err {A} e.

Definition bind {A B : Type} (r : result A) (k : A -> result B) : result B :=
  match r with
  | Ok a => k a
  | Err e => Err e
  end.

Notation "x <- r ;; k" := (bind r (fun x => k))
  (at level 61, r at next level, right associativity).

Notation "'assert!' c 'else' e ;; k" := (if c then k else Err e)
  (at level 61, c at next level, e at next level, right associativity).

Definition is_ok {A : Type} (r : result A) : bool :=
  match r with Ok _ => true | Err _ => false end.

(** [mapM f l] runs [f] over [l] from left to right and stops at the
    first failure, like a [for] loop whose body can throw. *)
Fixpoint mapM {A B : Type} (f : A -> result B) (l : list A) : result (list B) :=
  match l with
  | [] => Ok []
  | a :: l' => b <- f a ;; bs <- mapM f l' ;; Ok (b :: bs)
  end.

(* ================================================================== *)
(** * Bytes *)
(* ================================================================== *)

Definition bytes : Type := list byte.

(** Storing a number into a [Uint8Array] slot keeps it modulo 256. *)
Definition byte_of_N (n : N) : byte :=
  match Byte.of_N (n mod 256) with
  | Some b => b
  | None => x00
  end.

Definition all_bytes : list byte :=
  map (fun n => byte_of_N (N.of_nat n)) (seq 0 256).

Definition forall_bytes (f : byte -> bool) : bool := forallb f all_bytes.


(** [forall_below n f]: [f] holds of every number below [n]. *)
Definition forall_below (n : nat) (f : N -> bool) : bool :=
  forallb (fun k => f (N.of_nat k)) (seq 0 n).
(* ================================================================== *)
(** * Finite-field arithmetic over GF(256) *)
(* ================================================================== *)

Module GF256.

(** Modelled from the spec: the finite-field module of the Shamir engine
    (shamir-secret-sharing.ts) is not among the sources.  The spec fixes
    addition as XOR and multiplication / division through exponent and
    logarithm tables "under a fixed irreducible polynomial"; the tables
    here are generated for the AES polynomial x^8+x^4+x^3+x+1 (0x11b)
    from the generator 0xe5. *)
Definition POLYNOMIAL : N := 0x11b.
Definition GENERATOR : N := 0xe5.

(** Multiplication by x modulo the polynomial. *)
Definition xtime (a : N) : N :=
  let d := N.shiftl a 1 in
  if 256 <=? d then N.lxor d POLYNOMIAL else d.

(** Shift-and-add product, used only to generate the tables. *)
Fixpoint clmul (steps : nat) (a b : N) : N :=
  match steps with
  | O => 0
  | S k =>
      N.lxor (if N.odd b then a else 0) (clmul k (xtime a) (N.div2 b))
  end.

Fixpoint powers (count : nat) (cur : N) : list N :=
  match count with
  | O => []
  | S k => cur :: powers k (clmul 8 cur GENERATOR)
  end.

(** Modelled from the spec: the exponent table, 255 entries,
    [EXP_TABLE[i] = GENERATOR^i]. *)
Definition EXP_TABLE : list N := Eval vm_compute in powers 255 1.

Fixpoint index_of (v : N) (l : list N) (i : N) : N :=
  match l with
  | [] => 0
  | w :: l' => if v =? w then i else index_of v l' (i + 1)
  end.

(** Modelled from the spec: the logarithm table, 256 entries; entry 0
    is a placeholder (0 has no logarithm). *)
Definition LOG_TABLE : list N :=
  Eval vm_compute in map (fun a => index_of (N.of_nat a) EXP_TABLE 0) (seq 0 256).

Definition exp (i : N) : byte := byte_of_N (nth (N.to_nat i) EXP_TABLE 0).
Definition log (a : byte) : N := nth (N.to_nat (Byte.to_N a)) LOG_TABLE 0.

(** Modelled from the spec: "add(a, b): byte-wise XOR". *)
Definition add (a b : byte) : byte :=
  byte_of_N (N.lxor (Byte.to_N a) (Byte.to_N b)).

(** Modelled from the spec: "multiply(a, b): 0 if either operand is 0;
    else exp[(log[a] + log[b]) mod 255]". *)
Definition multiply (a b : byte) : byte :=
  if Byte.eqb a x00 || Byte.eqb b x00 then x00
  else exp ((log a + log b) mod 255).

(** Modelled from the spec: "divide(a, b): fails with DivisionByZero if
    b == 0; else exp[(log[a] - log[b] + 255) mod 255]". *)
Definition DivisionByZero : exn := Error "cannot divide by zero".

Definition divide (a b : byte) : result byte :=
  if Byte.eqb b x00 then Err DivisionByZero
  else Ok (exp ((log a + 255 - log b) mod 255)).

(** The multiplicative inverse, a proof device: it is not part of the
    engine. *)
Definition inv (a : byte) : byte :=
  if Byte.eqb a x00 then x00 else exp ((255 - log a) mod 255).

Definition fdiv (a b : byte) : byte := multiply a (inv b).

(** In characteristic 2 every element is its own opposite. *)
Definition opp (a : byte) : byte := a.

End GF256.

(* ================================================================== *)
(** * The Shamir secret sharing engine *)
(* ================================================================== *)

Module Shamir.
Import GF256.

(** Modelled from the spec: shamir-secret-sharing.ts (shamirSplit,
    shamirCombine and their helpers) is not among the sources; only its
    tests and callers are.  The definitions follow section 4.2 of the
    spec and the messages asserted by the tests. *)

(** The random draws of one [shamirSplit] call, in the order the split
    uses them: [xCoordinates j] is the x-coordinate of share [j], and
    [coefficients i k] is the coefficient of degree [k + 1] of the
    polynomial of byte [i] of the secret. *)
Record Randomness : Type := {
  xCoordinates : nat -> byte;
  coefficients : nat -> nat -> byte
}.

Fixpoint distinctFrom (seen xs : list byte) : bool :=
  match xs with
  | [] => true
  | x :: rest => negb (existsb (Byte.eqb x) seen) && distinctFrom (x :: seen) rest
  end.

Definition distinctb (xs : list byte) : bool := distinctFrom [] xs.

(** The x-coordinates of the [shares] shares of a split. *)
Definition drawnCoordinates (rnd : Randomness) (shares : nat) : list byte :=
  map (xCoordinates rnd) (seq 0 shares).

(** What the spec requires of the draws: the x-coordinates of the
    [shares] shares are pairwise distinct and nonzero.  The
    coefficients are arbitrary. *)
Definition valid_randomness (rnd : Randomness) (shares : nat) : bool :=
  distinctb (drawnCoordinates rnd shares)
  && negb (existsb (Byte.eqb x00) (drawnCoordinates rnd shares)).

(** Modelled from the spec: evaluation of a polynomial, given by its
    coefficients from the constant term up, with the field arithmetic of
    section 4.1. *)
Fixpoint evaluate (coeffs : list byte) (x : byte) : byte :=
  match coeffs with
  | [] => x00
  | c :: rest => add c (multiply x (evaluate rest x))
  end.

(** Modelled from the spec: the share of x-coordinate [x] is the
    evaluation of every byte's polynomial at [x], followed by [x]. *)
Definition makeShare (polynomials : list (list byte)) (x : byte) : bytes :=
  map (fun p => evaluate p x) polynomials ++ [x].

(** Modelled from the spec: "a random polynomial of degree
    threshold-1 over GF(256) whose constant term is secret[i]". *)
Definition newCoefficients (intercept : byte) (degree : nat)
    (draws : nat -> byte) : list byte :=
  intercept :: map draws (seq 0 degree).

(** One polynomial for each byte of the secret. *)
Definition newPolynomials (rnd : Randomness) (secret : bytes)
    (threshold : nat) : list (list byte) :=
  map (fun i =>
         newCoefficients (nth i secret x00) (threshold - 1)
           (coefficients rnd i))
      (seq 0 (length secret)).

(** Modelled from the spec: "split(secret, shareCount, threshold)", with
    the four argument checks and their messages. *)
Definition shamirSplit (rnd : Randomness)
    (secret : bytes) (shares threshold : nat) : result (list bytes) :=
  assert! negb (length secret =? 0)%nat
    else Error "secret cannot be empty" ;;
  assert! ((2 <=? shares) && (shares <=? 255))%nat
    else Error "shares must be at least 2 and at most 255" ;;
  assert! ((2 <=? threshold) && (threshold <=? 255))%nat
    else Error "threshold must be at least 2 and at most 255" ;;
  assert! (threshold <=? shares)%nat
    else Error "shares cannot be less than threshold" ;;
  Ok (map (makeShare (newPolynomials rnd secret threshold))
          (drawnCoordinates rnd shares)).

(** Modelled from the spec: the Lagrange basis polynomial of sample [i]
    at [x], the product over [j <> i] of [(x + x_j) / (x_i + x_j)];
    [j] is the index of the head of [xSamples]. *)
Fixpoint basisPolynomial (xSamples : list byte) (j i : nat) (xi x : byte)
  : result byte :=
  match xSamples with
  | [] => Ok x01
  | xj :: rest =>
      if (j =? i)%nat then basisPolynomial rest (S j) i xi x
      else
        term <- divide (add x xj) (add xi xj) ;;
        basis <- basisPolynomial rest (S j) i xi x ;;
        Ok (multiply term basis)
  end.

Fixpoint interpolateLoop (xSamples : list byte) (samples : list (byte * byte))
    (i : nat) (x : byte) : result byte :=
  match samples with
  | [] => Ok x00
  | (xi, yi) :: rest =>
      basis <- basisPolynomial xSamples 0 i xi x ;;
      sum <- interpolateLoop xSamples rest (S i) x ;;
      Ok (add (multiply yi basis) sum)
  end.

(** Modelled from the spec: "Lagrange interpolation ... using the
    (x_j, y_j) pairs across all provided shares". *)
Definition interpolatePolynomial (xSamples ySamples : list byte) (x : byte)
  : result byte :=
  interpolateLoop xSamples (combine xSamples ySamples) 0 x.

Definition COUNT_MESSAGE : string :=
  "shares must have at least 2 and at most 255 elements".
Definition LENGTH_MESSAGE : string :=
  "all shares must have the same byte length".
Definition SHORT_MESSAGE : string :=
  "each share must be at least 2 bytes".
Definition DUPLICATE_MESSAGE : string :=
  "shares must contain unique values but a duplicate was found".

Fixpoint checkShares (shareLength : nat) (shares : list bytes) : result unit :=
  match shares with
  | [] => Ok tt
  | share :: rest =>
      assert! (length share =? shareLength)%nat else Error LENGTH_MESSAGE ;;
      assert! (2 <=? length share)%nat else Error SHORT_MESSAGE ;;
      checkShares shareLength rest
  end.

(** The x-coordinate of a share is its last byte. *)
Definition xCoordinate (share : bytes) : byte := last share x00.

Fixpoint collectSamples (seen : list byte) (shares : list bytes)
  : result (list byte) :=
  match shares with
  | [] => Ok []
  | share :: rest =>
      let sample := xCoordinate share in
      assert! negb (existsb (Byte.eqb sample) seen)
        else Error DUPLICATE_MESSAGE ;;
      samples <- collectSamples (sample :: seen) rest ;;
      Ok (sample :: samples)
  end.

(** Modelled from the spec: "combine(shares)": the four input checks,
    then one interpolation at 0 per byte position. *)
Definition shamirCombine (shares : list bytes) : result bytes :=
  assert! ((2 <=? length shares) && (length shares <=? 255))%nat
    else Error COUNT_MESSAGE ;;
  let shareLength := length (hd [] shares) in
  _ <- checkShares shareLength shares ;;
  xSamples <- collectSamples [] shares ;;
  mapM (fun i =>
          interpolatePolynomial xSamples
            (map (fun share => nth i share x00) shares) x00)
       (seq 0 (shareLength - 1)).

(** The four conditions the spec puts on the input of [shamirCombine]. *)
Definition countInRange (shares : list bytes) : Prop :=
  (2 <= length shares <= 255)%nat.

Definition sameByteLength (shares : list bytes) : Prop :=
  forall s1 s2, In s1 shares -> In s2 shares -> length s1 = length s2.

Definition atLeastTwoBytes (shares : list bytes) : Prop :=
  forall s, In s shares -> (2 <= length s)%nat.

Definition uniqueCoordinates (shares : list bytes) : Prop :=
  NoDup (map xCoordinate shares).

(** A secret and the draws of a 2-of-3 split, used to run the engine. *)
Definition exampleSecret : bytes := [x01; x02; xff].

Definition exampleRandomness : Randomness :=
  {| xCoordinates := fun j => nth j [x07; x2a; xf3] x00;
     coefficients :=
       fun i k =>
         nth k (nth i [[x11]; [x99]; [x00]]
                  [byte_of_N ((29 * N.of_nat i + 3) mod 256)]) x00 |}.

End Shamir.
(* ================================================================== *)
(** * Polynomials over GF(256): the mathematics behind the engine *)
(* ================================================================== *)

(** Nothing in this module is part of the SDK: these are the objects
    the correctness proof of split / combine speaks about. *)
Module Polynomial.
Import GF256 Shamir.

Definition gf_sum (l : list byte) : byte := fold_right add x00 l.

Fixpoint padd (p q : list byte) : list byte :=
  match p, q with
  | [], _ => q
  | _, [] => p
  | a :: p', b :: q' => add a b :: padd p' q'
  end.

Definition pscale (c : byte) (p : list byte) : list byte :=
  map (multiply c) p.

(** [plinear a c p] is the polynomial [c * (X + a) * p]. *)
Definition plinear (a c : byte) (p : list byte) : list byte :=
  pscale c (padd (pscale a p) (x00 :: p)).

(** [quotient a p'] is the quotient of [c :: p'] by [X + a]. *)
Fixpoint quotient (a : byte) (p' : list byte) : list byte :=
  match p' with
  | [] => []
  | _ :: p'' => evaluate p' a :: quotient a p''
  end.

(** The list without its element of index [k]. *)
Definition skip_nth {A : Type} (k : nat) (l : list A) : list A :=
  firstn k l ++ skipn (S k) l.

(** The value at [x] of the Lagrange basis polynomial of the node [xi]
    against the nodes [others]. *)
Definition basisProduct (others : list byte) (xi x : byte) : byte :=
  fold_right (fun xj acc => multiply (fdiv (add x xj) (add xi xj)) acc)
             x01 others.

Definition basisCoefficients (others : list byte) (xi : byte) : list byte :=
  fold_right (fun xj acc => plinear xj (inv (add xi xj)) acc) [x01] others.

Definition lagrangeTerm (xs ys : list byte) (x : byte) (i : nat) : byte :=
  multiply (nth i ys x00) (basisProduct (skip_nth i xs) (nth i xs x00) x).

Definition lagrangeSum (xs ys : list byte) (x : byte) : byte :=
  gf_sum (map (lagrangeTerm xs ys x) (seq 0 (length xs))).

Definition lagrangeCoefficients (xs ys : list byte) : list byte :=
  fold_right padd []
    (map (fun i => pscale (nth i ys x00)
                     (basisCoefficients (skip_nth i xs) (nth i xs x00)))
         (seq 0 (length xs))).

(** The value the engine's table division returns when it does not
    fail; it differs from the field division only for a zero dividend. *)
Definition tableQuotient (a b : byte) : byte :=
  exp ((log a + 255 - log b) mod 255).

(** The values [basisPolynomial] and [interpolatePolynomial] compute,
    as pure functions. *)
Definition tableBasis (others : list byte) (xi x : byte) : byte :=
  fold_right
    (fun xj acc => multiply (tableQuotient (add x xj) (add xi xj)) acc)
    x01 others.

Definition tableTerm (xs ys : list byte) (x : byte) (i : nat) : byte :=
  multiply (nth i ys x00) (tableBasis (skip_nth i xs) (nth i xs x00) x).

Definition tableSum (xs ys : list byte) (x : byte) : byte :=
  gf_sum (map (tableTerm xs ys x) (seq 0 (length xs))).

(** The samples [basisPolynomial xs j i] multiplies over. *)
Definition others_from {A : Type} (j i : nat) (xs : list A) : list A :=
  if (j <=? i)%nat then skip_nth (i - j) xs else xs.

(** The value [shamirCombine] returns on an input that passes the four
    checks. *)
Definition combinedBytes (shares : list bytes) : bytes :=
  map (fun i =>
         tableSum (map xCoordinate shares)
                  (map (fun share => nth i share x00) shares) x00)
      (seq 0 (length (hd [] shares) - 1)).

End Polynomial.
(* ================================================================== *)
(** * Strings and the platform encoding adapters *)
(* ================================================================== *)

(** A JavaScript string is a sequence of UTF-16 code units. *)
Definition jsstring : Type := list N.

(** The JS string of an ASCII literal. *)
Definition js (s : string) : jsstring :=
  map N_of_ascii (list_ascii_of_string s).

Module Encoding.

(** ** [bytesToHex] and [hexToBytes]
    (platforms/browser/encoding.browser.ts and
    platforms/react-native/encoding.native.ts: the two adapters have the
    same code for both functions) *)

(** The character of a hexadecimal digit, in lower case as
    [Number.prototype.toString(16)] writes it. *)
Definition hexDigit (d : N) : N := if d <? 10 then 48 + d else 87 + d.

(** [b.toString(16)] for an element [b] of a [Uint8Array]. *)
Definition toString16 (b : N) : jsstring :=
  if b <? 16 then [hexDigit b] else [hexDigit (b / 16); hexDigit (b mod 16)].

(** [s.padStart(targetLength, pad)] for a one-character [pad]. *)
Definition padStart (targetLength : nat) (pad : N) (s : jsstring) : jsstring :=
  repeat pad (targetLength - length s) ++ s.

Definition bytesToHex (bs : bytes) : jsstring :=
  concat (map (fun b => padStart 2 48 (toString16 (Byte.to_N b))) bs).

(** The characters the regular expression [.] does not match. *)
Definition isLineTerminator (c : N) : bool :=
  (c =? 0x0A) || (c =? 0x0D) || (c =? 0x2028) || (c =? 0x2029).

(** [hex.match(/.{1,2}/g)]: the successive greedy matches of one or two
    characters other than line terminators; a line terminator is
    skipped and ends the group before it. *)
Fixpoint matchGroups (s : jsstring) : list jsstring :=
  match s with
  | [] => []
  | c1 :: rest =>
      if isLineTerminator c1 then matchGroups rest
      else
        match rest with
        | [] => [[c1]]
        | c2 :: rest' =>
            if isLineTerminator c2 then [c1] :: matchGroups rest
            else [c1; c2] :: matchGroups rest'
        end
  end.

(** The characters [parseInt] skips at the start of its argument
    (ECMAScript's WhiteSpace and LineTerminator). *)
Definition isWhiteSpace (c : N) : bool :=
  (c =? 0x09) || (c =? 0x0B) || (c =? 0x0C) || (c =? 0x20) || (c =? 0xA0)
  || (c =? 0x1680) || ((0x2000 <=? c) && (c <=? 0x200A))
  || (c =? 0x202F) || (c =? 0x205F) || (c =? 0x3000) || (c =? 0xFEFF).

Definition isStrWhiteSpaceChar (c : N) : bool :=
  isWhiteSpace c || isLineTerminator c.

Fixpoint trimStart (s : jsstring) : jsstring :=
  match s with
  | [] => []
  | c :: rest => if isStrWhiteSpaceChar c then trimStart rest else s
  end.

Definition hexDigitValue (c : N) : option N :=
  if (48 <=? c) && (c <=? 57) then Some (c - 48)
  else if (97 <=? c) && (c <=? 102) then Some (c - 87)
  else if (65 <=? c) && (c <=? 70) then Some (c - 55)
  else None.

(** The values of the longest prefix of hexadecimal digits. *)
Fixpoint digitPrefix (s : jsstring) : list N :=
  match s with
  | [] => []
  | c :: rest =>
      match hexDigitValue c with
      | Some d => d :: digitPrefix rest
      | None => []
      end
  end.

Definition digitsValue (ds : list N) : N :=
  fold_left (fun acc d => 16 * acc + d) ds 0.

(** [parseInt(s, 16)]; [None] is [NaN].  Leading white space is
    skipped, then a sign, then a [0x] or [0X] prefix; the number is the
    longest prefix of hexadecimal digits of what remains.  (Exact as
    long as the value fits a double, which two digits do.) *)
Definition parseInt16 (s : jsstring) : option Z :=
  let trimmed := trimStart s in
  let signed :=
    match trimmed with
    | c :: rest =>
        if c =? 45 then (true, rest)
        else if c =? 43 then (false, rest)
        else (false, trimmed)
    | [] => (false, [])
    end in
  let digits :=
    match snd signed with
    | c0 :: cx :: rest =>
        if (c0 =? 48) && ((cx =? 120) || (cx =? 88)) then rest
        else snd signed
    | _ => snd signed
    end in
  match digitPrefix digits with
  | [] => None
  | ds =>
      let magnitude := Z.of_N (digitsValue ds) in
      Some (if fst signed then (- magnitude)%Z else magnitude)
  end.

(** What a [Uint8Array] stores for a number: 0 for [NaN], else the
    number modulo 256. *)
Definition toUint8 (v : option Z) : byte :=
  match v with
  | None => x00
  | Some z => byte_of_N (Z.to_N (z mod 256))
  end.

Definition hexToBytes (hex : jsstring) : bytes :=
  match matchGroups hex with
  | [] => []
  | matches => map (fun byte => toUint8 (parseInt16 byte)) matches
  end.

(** ** What the specification says of [hexToBytes] *)

Definition isHexDigit (c : N) : bool :=
  match hexDigitValue c with Some _ => true | None => false end.

(** A group is valid hexadecimal when all its characters are digits. *)
Definition validHexGroup (g : jsstring) : bool := forallb isHexDigit g.

(** "groups that are not valid hexadecimal are silently mapped to
    byte 0". *)
Definition invalidGroupsBecomeZero (hex : jsstring) : Prop :=
  forall i g,
    nth_error (matchGroups hex) i = Some g ->
    validHexGroup g = false ->
    nth_error (hexToBytes hex) i = Some x00.

(** "the trailing single character is parsed as its own group". *)
Definition trailingCharacterIsGroup (hex : jsstring) : Prop :=
  Nat.odd (length hex) = true ->
  exists c, last (matchGroups hex) [] = [c] /\ last hex 0 = c.

(** The successive pairs of a string, with a last single character when
    the length is odd. *)
Fixpoint pairsOf (s : jsstring) : list jsstring :=
  match s with
  | [] => []
  | [c] => [[c]]
  | c1 :: c2 :: rest => [c1; c2] :: pairsOf rest
  end.

End Encoding.
(* ================================================================== *)
(** * [TextEncoder] and [TextDecoder] (UTF-8, as the WHATWG Encoding
      standard defines them) *)
(* ================================================================== *)

Module Text.

Definition REPLACEMENT : N := 0xFFFD.
Definition BYTE_ORDER_MARK : N := 0xFEFF.

Definition isHighSurrogate (c : N) : bool := (0xD800 <=? c) && (c <=? 0xDBFF).
Definition isLowSurrogate (c : N) : bool := (0xDC00 <=? c) && (c <=? 0xDFFF).

(** The scalar values of a JS string: a surrogate pair is one code
    point above U+FFFF, an unpaired surrogate becomes U+FFFD. *)
Fixpoint toScalarValues (s : jsstring) : list N :=
  match s with
  | [] => []
  | c :: rest =>
      if isHighSurrogate c then
        match rest with
        | [] => [REPLACEMENT]
        | d :: rest' =>
            if isLowSurrogate d
            then (0x10000 + (c - 0xD800) * 0x400 + (d - 0xDC00))
                   :: toScalarValues rest'
            else REPLACEMENT :: toScalarValues rest
        end
      else if isLowSurrogate c then REPLACEMENT :: toScalarValues rest
      else c :: toScalarValues rest
  end.

(** The UTF-8 encoder: one to four bytes per scalar value. *)
Definition continuation (cp : N) (shift : N) : byte :=
  byte_of_N (N.lor 0x80 (N.land (N.shiftr cp shift) 0x3F)).

Definition encodeScalar (cp : N) : bytes :=
  if cp <=? 0x7F then [byte_of_N cp]
  else if cp <=? 0x7FF then
    [byte_of_N (N.shiftr cp 6 + 0xC0); continuation cp 0]
  else if cp <=? 0xFFFF then
    [byte_of_N (N.shiftr cp 12 + 0xE0); continuation cp 6; continuation cp 0]
  else
    [byte_of_N (N.shiftr cp 18 + 0xF0); continuation cp 12;
     continuation cp 6; continuation cp 0].

(** [new TextEncoder().encode(s)] *)
Definition utf8Encode (s : jsstring) : bytes :=
  flat_map encodeScalar (toScalarValues s).

(** The state of the UTF-8 decoder. *)
Record Decoder : Type := {
  codePoint : N;
  bytesSeen : N;
  bytesNeeded : N;
  lowerBoundary : N;
  upperBoundary : N
}.

Definition decoderStart : Decoder :=
  {| codePoint := 0; bytesSeen := 0; bytesNeeded := 0;
     lowerBoundary := 0x80; upperBoundary := 0xBF |}.

(** The decoder on a byte when no byte of a sequence is pending: the
    new state and the code points emitted. *)
Definition decodeLead (b : N) : Decoder * list N :=
  if b <=? 0x7F then (decoderStart, [b])
  else if (0xC2 <=? b) && (b <=? 0xDF) then
    ({| codePoint := N.land b 0x1F; bytesSeen := 0; bytesNeeded := 1;
        lowerBoundary := 0x80; upperBoundary := 0xBF |}, [])
  else if (0xE0 <=? b) && (b <=? 0xEF) then
    ({| codePoint := N.land b 0xF; bytesSeen := 0; bytesNeeded := 2;
        lowerBoundary := if b =? 0xE0 then 0xA0 else 0x80;
        upperBoundary := if b =? 0xED then 0x9F else 0xBF |}, [])
  else if (0xF0 <=? b) && (b <=? 0xF4) then
    ({| codePoint := N.land b 0x7; bytesSeen := 0; bytesNeeded := 3;
        lowerBoundary := if b =? 0xF0 then 0x90 else 0x80;
        upperBoundary := if b =? 0xF4 then 0x8F else 0xBF |}, [])
  else (decoderStart, [REPLACEMENT]).

(** One step of the decoder.  A byte outside the expected range ends
    the pending sequence with U+FFFD and is then read again as a lead
    byte. *)
Definition decodeByte (st : Decoder) (b : N) : Decoder * list N :=
  if bytesNeeded st =? 0 then decodeLead b
  else if negb ((lowerBoundary st <=? b) && (b <=? upperBoundary st)) then
    let (st', out) := decodeLead b in (st', REPLACEMENT :: out)
  else
    let cp := N.lor (N.shiftl (codePoint st) 6) (N.land b 0x3F) in
    if bytesSeen st + 1 =? bytesNeeded st then (decoderStart, [cp])
    else
      ({| codePoint := cp; bytesSeen := bytesSeen st + 1;
          bytesNeeded := bytesNeeded st;
          lowerBoundary := 0x80; upperBoundary := 0xBF |}, []).

(** The decoder over a whole input; at the end of the input a pending
    sequence is one more U+FFFD. *)
Fixpoint decodeBytes (st : Decoder) (bs : bytes) : list N :=
  match bs with
  | [] => if bytesNeeded st =? 0 then [] else [REPLACEMENT]
  | b :: rest =>
      let (st', out) := decodeByte st (Byte.to_N b) in
      out ++ decodeBytes st' rest
  end.

(** A [TextDecoder] made without options drops a leading U+FEFF. *)
Definition stripByteOrderMark (cps : list N) : list N :=
  match cps with
  | c :: rest => if c =? BYTE_ORDER_MARK then rest else cps
  | [] => []
  end.

Definition fromScalarValue (cp : N) : jsstring :=
  if cp <=? 0xFFFF then [cp]
  else [0xD800 + N.shiftr (cp - 0x10000) 10;
        0xDC00 + N.land (cp - 0x10000) 0x3FF].

(** [new TextDecoder().decode(bytes)] *)
Definition utf8Decode (bs : bytes) : jsstring :=
  flat_map fromScalarValue (stripByteOrderMark (decodeBytes decoderStart bs)).

(** A string [TextEncoder] encodes without loss: every code unit is 16
    bits wide and every surrogate is half of a pair. *)
Fixpoint wellFormed (s : jsstring) : bool :=
  match s with
  | [] => true
  | c :: rest =>
      if isHighSurrogate c then
        match rest with
        | [] => false
        | d :: rest' => isLowSurrogate d && wellFormed rest'
        end
      else negb (isLowSurrogate c) && (c <=? 0xFFFF) && wellFormed rest
  end.

Definition startsWithByteOrderMark (s : jsstring) : bool :=
  match s with
  | c :: _ => c =? BYTE_ORDER_MARK
  | [] => false
  end.

(** The decoder over a prefix of the input: the state reached and the
    code points emitted so far. *)
Fixpoint runDecoder (st : Decoder) (bs : bytes) : Decoder * list N :=
  match bs with
  | [] => (st, [])
  | b :: rest =>
      let (st', out) := decodeByte st (Byte.to_N b) in
      let (st'', out') := runDecoder st' rest in
      (st'', out ++ out')
  end.

Definition decoderEqb (a b : Decoder) : bool :=
  (codePoint a =? codePoint b) && (bytesSeen a =? bytesSeen b)
  && (bytesNeeded a =? bytesNeeded b)
  && (lowerBoundary a =? lowerBoundary b)
  && (upperBoundary a =? upperBoundary b).

(** The encoding of [cp] takes the decoder from its start state back to
    it and makes it emit exactly [cp]. *)
Definition decodesBack (cp : N) : bool :=
  let (st, out) := runDecoder decoderStart (encodeScalar cp) in
  decoderEqb st decoderStart
  && match out with
     | [c] => c =? cp
     | _ => false
     end.

Definition isScalarValue (cp : N) : bool :=
  (cp <=? 0x10FFFF) && negb ((0xD800 <=? cp) && (cp <=? 0xDFFF)).

End Text.
(* ================================================================== *)
(** * The encoding adapter interface and the React Native adapter *)
(* ================================================================== *)

(** adapters/types.ts, [EncodingAdapter].  [base64ToBytes] can throw:
    the browser adapter calls [atob]. *)
Record EncodingAdapter : Type := {
  bytesToBase64 : bytes -> jsstring;
  base64ToBytes : jsstring -> result bytes;
  bytesToHex : bytes -> jsstring;
  hexToBytes : jsstring -> bytes;
  bytesToUtf8 : bytes -> jsstring;
  utf8ToBytes : jsstring -> bytes
}.

(** platforms/react-native/encoding.native.ts *)
Module Native.

Definition BASE64_CHARS : jsstring :=
  js "ABCDEFGHIJKLMNOPQRSTUVWXYZabcdefghijklmnopqrstuvwxyz0123456789+/".

Definition PAD : N := 61.

(** [BASE64_CHARS[n]] *)
Definition charAt (n : N) : N := nth (N.to_nat n) BASE64_CHARS 0.

(** [base64Encode(str)], three characters of the binary string at a
    time; a missing second or third character counts as 0 and is
    written as [=]. *)
Fixpoint base64Encode (str : jsstring) : jsstring :=
  match str with
  | [] => []
  | a :: rest1 =>
      match rest1 with
      | [] =>
          [charAt (N.shiftr a 2);
           charAt (N.lor (N.shiftl (N.land a 3) 4) (N.shiftr 0 4));
           PAD; PAD]
      | b :: rest2 =>
          match rest2 with
          | [] =>
              [charAt (N.shiftr a 2);
               charAt (N.lor (N.shiftl (N.land a 3) 4) (N.shiftr b 4));
               charAt (N.lor (N.shiftl (N.land b 15) 2) (N.shiftr 0 6));
               PAD]
          | c :: rest3 =>
              charAt (N.shiftr a 2)
              :: charAt (N.lor (N.shiftl (N.land a 3) 4) (N.shiftr b 4))
              :: charAt (N.lor (N.shiftl (N.land b 15) 2) (N.shiftr c 6))
              :: charAt (N.land c 63)
              :: base64Encode rest3
          end
      end
  end.

(** [String.fromCharCode(byte)] for every byte, then [base64Encode]. *)
Definition bytesToBase64 (bs : bytes) : jsstring :=
  base64Encode (map Byte.to_N bs).

(** [BASE64_CHARS.indexOf(ch)]: the position of the character, or -1. *)
Definition indexOf (ch : N) : Z :=
  (fix find (chars : jsstring) (i : Z) : Z :=
     match chars with
     | [] => (-1)%Z
     | c :: chars' => if c =? ch then i else find chars' (i + 1)%Z
     end) BASE64_CHARS 0%Z.

(** [base64.replace(/-/g, '+').replace(/_/g, '/')] *)
Definition normalize (base64 : jsstring) : jsstring :=
  map (fun c => if c =? 95 then 47 else c)
      (map (fun c => if c =? 45 then 43 else c) base64).

(** [normalized.replace(/=/g, '')] *)
Definition removePadding (normalized : jsstring) : jsstring :=
  filter (fun c => negb (c =? PAD)) normalized.

(** The three values one turn of the decoding loop computes. *)
Definition decodeGroup (a b c d : Z) : list Z :=
  [Z.lor (Z.shiftl a 2) (Z.shiftr b 4);
   Z.lor (Z.shiftl (Z.land b 15) 4) (Z.shiftr c 2);
   Z.lor (Z.shiftl (Z.land c 3) 6) d].

(** The values the decoding loop computes, four characters at a time.
    Past the end of the string, [cleanBase64[i + 1] ?? ''] is the empty
    string, whose [indexOf] is 0, and the third and fourth indices are
    0. *)
Fixpoint decodeValues (clean : jsstring) : list Z :=
  match clean with
  | [] => []
  | ca :: rest1 =>
      match rest1 with
      | [] => decodeGroup (indexOf ca) 0 0 0
      | cb :: rest2 =>
          match rest2 with
          | [] => decodeGroup (indexOf ca) (indexOf cb) 0 0
          | cc :: rest3 =>
              match rest3 with
              | [] => decodeGroup (indexOf ca) (indexOf cb) (indexOf cc) 0
              | cd :: rest4 =>
                  decodeGroup (indexOf ca) (indexOf cb) (indexOf cc)
                              (indexOf cd)
                  ++ decodeValues rest4
              end
          end
      end
  end.

(** [base64ToBytes(base64)]: the array has [floor(len * 3 / 4)] bytes;
    the loop stores its values in order while there is room (a store
    past the end of a typed array does nothing), each modulo 256. *)
Definition base64ToBytes (base64 : jsstring) : bytes :=
  let cleanBase64 := removePadding (normalize base64) in
  let byteLen := (length cleanBase64 * 3 / 4)%nat in
  map (fun v => byte_of_N (Z.to_N (v mod 256)))
      (firstn byteLen (decodeValues cleanBase64)).

(** The adapter, on a platform that has [TextEncoder] and
    [TextDecoder]. *)
Definition encodingAdapter : EncodingAdapter :=
  Build_EncodingAdapter
    bytesToBase64
    (fun base64 => Ok (base64ToBytes base64))
    Encoding.bytesToHex
    Encoding.hexToBytes
    Text.utf8Decode
    Text.utf8Encode.

End Native.
(* ================================================================== *)
(** * The platform adapter singleton (internal/platform-context) *)
(* ================================================================== *)

Module PlatformContext.

Section Adapters.

(** The four adapter interfaces; the singleton only stores and returns
    them. *)
Variables CryptoAdapter StorageAdapter LinkingAdapter EncodingAdapter : Type.

Record PlatformAdapters : Type := {
  crypto : CryptoAdapter;
  storage : StorageAdapter;
  linking : LinkingAdapter;
  encoding : EncodingAdapter
}.

(** The module-level variables [_adapters] and [_initialized], and the
    lines written with [console.warn]. *)
Record State : Type := {
  _adapters : option PlatformAdapters;
  _initialized : bool;
  warnings : list string
}.

Definition initialState : State :=
  {| _adapters := None; _initialized := false; warnings := [] |}.

Definition development (nodeEnv : option string) : bool :=
  match nodeEnv with
  | Some env => String.eqb env "development"
  | None => false
  end.

(** [setAdapters(adapters)]; [nodeEnv] is the value of
    [process.env.NODE_ENV] when the call is made. *)
Definition setAdapters (nodeEnv : option string) (adapters : PlatformAdapters)
    (st : State) : State :=
  if _initialized st then
    if development nodeEnv then
      {| _adapters := Some adapters;
         _initialized := true;
         warnings :=
           warnings st
           ++ ["@utxos/sdk: Re-initializing adapters (development mode)"%string] |}
    else
      {| _adapters := _adapters st;
         _initialized := _initialized st;
         warnings :=
           warnings st
           ++ ["@utxos/sdk: Adapters already initialized, ignoring"%string] |}
  else
    {| _adapters := Some adapters;
       _initialized := true;
       warnings := warnings st |}.

Definition doubleQuote : string := String (ascii_of_nat 34) EmptyString.

Definition NOT_INITIALIZED : exn :=
  Error ("@utxos/sdk: Platform adapters not initialized. "
         ++ "This usually means the SDK was imported incorrectly. "
         ++ "Import from " ++ doubleQuote ++ "@utxos/sdk" ++ doubleQuote
         ++ " directly, not from internal paths.")%string.

Definition getAdapters (st : State) : result PlatformAdapters :=
  match _adapters st with
  | None => Err NOT_INITIALIZED
  | Some adapters => Ok adapters
  end.

Definition isInitialized (st : State) : bool := _initialized st.

Definition getCrypto (st : State) : result CryptoAdapter :=
  adapters <- getAdapters st ;; Ok (crypto adapters).

Definition getStorage (st : State) : result StorageAdapter :=
  adapters <- getAdapters st ;; Ok (storage adapters).

Definition getLinking (st : State) : result LinkingAdapter :=
  adapters <- getAdapters st ;; Ok (linking adapters).

Definition getEncoding (st : State) : result EncodingAdapter :=
  adapters <- getAdapters st ;; Ok (encoding adapters).

(** A history of [setAdapters] calls, oldest first, run from the state
    the module is loaded in. *)
Definition runCalls (calls : list (option string * PlatformAdapters))
    (st : State) : State :=
  fold_left (fun st call => setAdapters (fst call) (snd call) st) calls st.

End Adapters.

End PlatformContext.
(* ================================================================== *)
(** * Shard lifecycle: key-shard functions *)
(* ================================================================== *)

Module Convertors.

(** Modelled from the spec: functions/convertors.ts is not among the
    sources.  Its tests and the spec ("deterministic conversions between
    UTF-8 strings, raw bytes, and hexadecimal text", "lowercase hex")
    fix the three conversions below; [hexToBytes] is a parameter of the
    functions that call it. *)
Definition stringToBytes (str : jsstring) : bytes := Text.utf8Encode str.
Definition bytesToString (bs : bytes) : jsstring := Text.utf8Decode bs.
Definition bytesToHex (bs : bytes) : jsstring := Encoding.bytesToHex bs.

End Convertors.

Module KeyShard.
Import Shamir Convertors.

(** Modelled from the spec: functions/key-shard/spilt-key-into-shards.ts
    is not among the sources.  "UTF-8-encodes the input, calls split
    with fixed shareCount=3, threshold=2, hex-encodes each resulting
    share."  [rnd] is the randomness the split draws. *)
Definition spiltKeyIntoShards (rnd : Randomness) (secret : jsstring)
  : result (list jsstring) :=
  shares <- shamirSplit rnd (stringToBytes secret) 3 2 ;;
  Ok (map bytesToHex shares).

Definition isLowerHexChar (c : N) : bool :=
  ((48 <=? c) && (c <=? 57)) || ((97 <=? c) && (c <=? 102)).

(** [networkId: 0 | 1] *)
Inductive NetworkId : Type := Testnet | Mainnet.

Inductive BitcoinNetwork : Type := BitcoinMainnet | BitcoinTestnet.
Inductive SparkNetwork : Type := SparkMAINNET | SparkREGTEST.

(** [str.split(sep)] for a one-character separator. *)
Definition split (sep : N) (str : jsstring) : list jsstring :=
  fold_right
    (fun c acc =>
       if c =? sep then [] :: acc
       else match acc with
            | current :: rest => (c :: current) :: rest
            | [] => [[c]]
            end)
    [[]] str.

Definition SPACE : N := 32.

Section CombineShardsBuildWallet.

(** The collaborators of [combineShardsBuildWallet]: the hexadecimal
    decoder of functions/convertors.ts and the wallet constructors of
    the chain libraries; each of them can throw. *)
Variables BitcoinProvider Fetcher : Type.
Variables BitcoinWallet CardanoWallet SparkWallet : Type.
Variable hexToBytes : jsstring -> result bytes.
Variable newEmbeddedWallet :
  BitcoinNetwork -> list jsstring -> option BitcoinProvider ->
  result BitcoinWallet.
Variable cardanoFromMnemonic :
  list jsstring -> NetworkId -> option Fetcher -> result CardanoWallet.
Variable sparkInitialize : jsstring -> SparkNetwork -> result SparkWallet.

Record Wallets : Type := {
  key : jsstring;
  bitcoinWallet : BitcoinWallet;
  cardanoWallet : CardanoWallet;
  sparkWallet : SparkWallet
}.

(** functions/key-shard/combine-shards-build-wallet.ts *)
Definition combineShardsBuildWallet (networkId : NetworkId)
    (keyShard1 keyShard2 : jsstring)
    (bitcoinProvider : option BitcoinProvider) (fetcher : option Fetcher)
  : result Wallets :=
  _share1 <- hexToBytes keyShard1 ;;
  _share2 <- hexToBytes keyShard2 ;;
  reconstructed <- shamirCombine [_share1; _share2] ;;
  let mnemonic := bytesToString reconstructed in
  bitcoinWallet <-
    newEmbeddedWallet
      (match networkId with Mainnet => BitcoinMainnet | Testnet => BitcoinTestnet end)
      (split SPACE mnemonic) bitcoinProvider ;;
  cardanoWallet <- cardanoFromMnemonic (split SPACE mnemonic) networkId fetcher ;;
  sparkWallet <-
    sparkInitialize mnemonic
      (match networkId with Mainnet => SparkMAINNET | Testnet => SparkREGTEST end) ;;
  Ok {| key := mnemonic;
        bitcoinWallet := bitcoinWallet;
        cardanoWallet := cardanoWallet;
        sparkWallet := sparkWallet |}.

End CombineShardsBuildWallet.

End KeyShard.
(* ================================================================== *)
(** * Envelope encryption and hashing (functions/crypto) *)
(* ================================================================== *)

(** What [JSON.parse] returns. *)
#[local] Unset Elimination Schemes.
Inductive JsonValue : Type :=
| JNull
| JBoolean (b : bool)
| JNumber (n : Z)
| JString (s : jsstring)
| JArray (items : list JsonValue)
| JObject (members : list (jsstring * JsonValue)).
#[local] Set Elimination Schemes.

Definition jsstring_eqb (a b : jsstring) : bool :=
  (length a =? length b)%nat && forallb (fun p => fst p =? snd p) (combine a b).

Module Crypto.

(** [value.name] for a parsed value: a member of [null] is a
    [TypeError]; a value without that member gives [undefined]. *)
Definition getMember (value : JsonValue) (name : jsstring)
  : result (option JsonValue) :=
  match value with
  | JNull =>
      Err (TypeError "Cannot read properties of null")
  | JObject members =>
      Ok (option_map snd
            (find (fun member => jsstring_eqb (fst member) name) members))
  | _ => Ok None
  end.

(** The adapters call [base64.replace(...)] on their argument: anything
    but a string is a [TypeError]. *)
Definition asString (value : option JsonValue) : result jsstring :=
  match value with
  | Some (JString s) => Ok s
  | Some _ => Err (TypeError "base64.replace is not a function")
  | None => Err (TypeError "Cannot read properties of undefined")
  end.

(** The two members of a symmetric envelope. *)
Definition envelope (iv ciphertext : jsstring) : JsonValue :=
  JObject [(js "iv", JString iv); (js "ciphertext", JString ciphertext)].

Definition IV_LENGTH : nat := 16.
Definition AES_GCM : string := "AES-GCM".

Section Platform.

(** The platform under the SDK: the key objects and the AEAD of
    [crypto.subtle], [JSON], and the installed encoding adapter. *)
Variable CryptoKey : Type.
Variable subtleEncrypt :
  string -> bytes -> CryptoKey -> bytes -> result bytes.
Variable subtleDecrypt :
  string -> bytes -> CryptoKey -> bytes -> result bytes.
Variable JSON_stringify : JsonValue -> jsstring.
Variable JSON_parse : jsstring -> result JsonValue.
Variable getEncoding : result EncodingAdapter.

(** [encryptWithCipher({ data, key, algorithm, initializationVectorSize })];
    [getRandomValues size] is what [crypto.getRandomValues] puts in an
    array of [size] bytes at this call. *)
Definition encryptWithCipher (getRandomValues : nat -> bytes)
    (data : jsstring) (key : CryptoKey)
    (algorithm : string) (initializationVectorSize : nat) : result jsstring :=
  let iv := getRandomValues initializationVectorSize in
  encrypted <- subtleEncrypt algorithm iv key (Text.utf8Encode data) ;;
  encoding <- getEncoding ;;
  Ok (JSON_stringify
        (envelope (bytesToBase64 encoding iv)
                  (bytesToBase64 encoding encrypted))).

(** [decryptWithCipher({ encryptedDataJSON, key, algorithm })] *)
Definition decryptWithCipher (encryptedDataJSON : jsstring) (key : CryptoKey)
    (algorithm : string) : result jsstring :=
  _encryptedData <- JSON_parse encryptedDataJSON ;;
  encoding <- getEncoding ;;
  ivMember <- getMember _encryptedData (js "iv") ;;
  ivText <- asString ivMember ;;
  decodedIv <- base64ToBytes encoding ivText ;;
  ciphertextMember <- getMember _encryptedData (js "ciphertext") ;;
  ciphertextText <- asString ciphertextMember ;;
  decodedEncryptedData <- base64ToBytes encoding ciphertextText ;;
  decrypted <- subtleDecrypt algorithm decodedIv key decodedEncryptedData ;;
  Ok (Text.utf8Decode decrypted).

(** The round trip the specification states, for one input. *)
Definition envelopeRoundTrip (getRandomValues : nat -> bytes)
    (data : jsstring) (key : CryptoKey) : Prop :=
  exists encryptedDataJSON,
    encryptWithCipher getRandomValues data key AES_GCM IV_LENGTH
    = Ok encryptedDataJSON
    /\ decryptWithCipher encryptedDataJSON key AES_GCM = Ok data.

End Platform.

(** ** A small platform to run the functions on

    A stand-in for AES-GCM (not a cipher to use): the bytes are masked
    with one byte derived from key and IV, and followed by a one-byte
    tag, the value at the mask of the polynomial whose coefficients are
    the plain bytes; decryption checks the tag. *)
Module Reference.

Definition xorAll (bs : bytes) : byte := fold_right GF256.add x00 bs.

Definition OperationError : exn := DOMException "OperationError".

Definition encrypt (algorithm : string) (iv : bytes) (key : bytes)
    (data : bytes) : result bytes :=
  let mask := GF256.add (xorAll key) (xorAll iv) in
  Ok (map (GF256.add mask) data ++ [Shamir.evaluate (x01 :: data) mask]).

Definition decrypt (algorithm : string) (iv : bytes) (key : bytes)
    (data : bytes) : result bytes :=
  let mask := GF256.add (xorAll key) (xorAll iv) in
  match rev data with
  | [] => Err OperationError
  | tag :: body =>
      let plain := map (GF256.add mask) (rev body) in
      if Byte.eqb tag (Shamir.evaluate (x01 :: plain) mask) then Ok plain
      else Err OperationError
  end.

Definition QUOTE : N := 34.

(** [JSON.stringify], for envelopes of strings that need no escape. *)
Definition stringify (value : JsonValue) : jsstring :=
  match value with
  | JObject [(name1, JString text1); (name2, JString text2)] =>
      js "{" ++ [QUOTE] ++ name1 ++ [QUOTE] ++ js ":" ++ [QUOTE] ++ text1
      ++ [QUOTE] ++ js "," ++ [QUOTE] ++ name2 ++ [QUOTE] ++ js ":"
      ++ [QUOTE] ++ text2 ++ [QUOTE] ++ js "}"
  | _ => js "null"
  end.

(** The text up to the next quote, and what follows the quote. *)
Fixpoint untilQuote (s : jsstring) : option (jsstring * jsstring) :=
  match s with
  | [] => None
  | c :: rest =>
      if c =? QUOTE then Some ([], rest)
      else match untilQuote rest with
           | Some (text, after) => Some (c :: text, after)
           | None => None
           end
  end.

(** [s] without the prefix [prefix], if it starts with it. *)
Fixpoint dropPrefix (prefix s : jsstring) : option jsstring :=
  match prefix, s with
  | [], _ => Some s
  | p :: prefix', c :: s' => if p =? c then dropPrefix prefix' s' else None
  | _ :: _, [] => None
  end.

Definition NOT_JSON : exn := SyntaxError "Unexpected token".

(** [JSON.parse], for objects of two string members without escapes. *)
Definition parse (text : jsstring) : result JsonValue :=
  match dropPrefix (js "{" ++ [QUOTE]) text with
  | None => Err NOT_JSON
  | Some s1 =>
  match untilQuote s1 with
  | None => Err NOT_JSON
  | Some (name1, s2) =>
  match dropPrefix (js ":" ++ [QUOTE]) s2 with
  | None => Err NOT_JSON
  | Some s3 =>
  match untilQuote s3 with
  | None => Err NOT_JSON
  | Some (text1, s4) =>
  match dropPrefix (js "," ++ [QUOTE]) s4 with
  | None => Err NOT_JSON
  | Some s5 =>
  match untilQuote s5 with
  | None => Err NOT_JSON
  | Some (name2, s6) =>
  match dropPrefix (js ":" ++ [QUOTE]) s6 with
  | None => Err NOT_JSON
  | Some s7 =>
  match untilQuote s7 with
  | None => Err NOT_JSON
  | Some (text2, s8) =>
      if jsstring_eqb s8 (js "}")
      then Ok (JObject [(name1, JString text1); (name2, JString text2)])
      else Err NOT_JSON
  end end end end end end end end.

Definition encryptWithCipher :=
  Crypto.encryptWithCipher encrypt stringify (Ok Native.encodingAdapter).

Definition decryptWithCipher :=
  Crypto.decryptWithCipher decrypt parse (Ok Native.encodingAdapter).

(** A key, and a generator that returns the bytes 1, 2, 3, ... *)
Definition exampleKey : bytes := [x2b; x7e; x15; x16].

Definition countingBytes (size : nat) : bytes :=
  map (fun k => byte_of_N (N.of_nat k)) (seq 1 size).

End Reference.

End Crypto.
(* ================================================================== *)
(** * Shard lifecycle: the recovery flow (functions/client) *)
(* ================================================================== *)

Module Client.
Import Shamir Convertors KeyShard Crypto.

Record RecoveryResult : Type := {
  deviceShard : jsstring;
  authShard : jsstring;
  fullKey : jsstring
}.

(** What the flow draws: the randomness of the new split and the IV of
    the new device shard. *)
Record Entropy : Type := {
  splitRandomness : Randomness;
  getRandomValues : nat -> bytes
}.

Definition INVALID_RECOVERY_ANSWER : exn := Error "Invalid recovery answer".

Section Recovery.

Variable CryptoKey : Type.
Variable subtleEncrypt :
  string -> bytes -> CryptoKey -> bytes -> result bytes.
Variable subtleDecrypt :
  string -> bytes -> CryptoKey -> bytes -> result bytes.
Variable JSON_stringify : JsonValue -> jsstring.
Variable JSON_parse : jsstring -> result JsonValue.
Variable getEncoding : result EncodingAdapter.
Variable hexToBytes : jsstring -> result bytes.

(** Modelled from the spec: functions/client/recovery.ts is not among
    the sources.  The steps of the flow, section 4.3: "decrypts an
    encrypted recovery shard with a recovery key, combines it with the
    existing auth shard to reconstruct the mnemonic, re-splits the
    mnemonic into a brand-new set of 3 shares, encrypts the new device
    shard under a newly supplied device key, and returns
    { deviceShard: encrypted, authShard: new hex, fullKey: mnemonic }". *)
Definition recoverySteps (entropy : Entropy)
    (authShard recoveryShard : jsstring)
    (recoveryShardEncryptionKey newDeviceShardEncryptionKey : CryptoKey)
  : result RecoveryResult :=
  keyShare3 <-
    decryptWithCipher subtleDecrypt JSON_parse getEncoding
      recoveryShard recoveryShardEncryptionKey AES_GCM ;;
  share2 <- hexToBytes authShard ;;
  share3 <- hexToBytes keyShare3 ;;
  reconstructed <- shamirCombine [share2; share3] ;;
  let mnemonic := bytesToString reconstructed in
  newShards <- spiltKeyIntoShards (splitRandomness entropy) mnemonic ;;
  encryptedDeviceShard <-
    encryptWithCipher subtleEncrypt JSON_stringify getEncoding
      (getRandomValues entropy) (nth 0 newShards [])
      newDeviceShardEncryptionKey AES_GCM IV_LENGTH ;;
  Ok {| deviceShard := encryptedDeviceShard;
        authShard := nth 1 newShards [];
        fullKey := mnemonic |}.

(** Modelled from the spec: "All internal failures ... are caught and
    re-signaled uniformly as a single opaque "Invalid recovery answer"
    error". *)
Definition clientRecovery (entropy : Entropy)
    (authShard recoveryShard : jsstring)
    (recoveryShardEncryptionKey newDeviceShardEncryptionKey : CryptoKey)
  : result RecoveryResult :=
  match recoverySteps entropy authShard recoveryShard
          recoveryShardEncryptionKey newDeviceShardEncryptionKey with
  | Ok recovered => Ok recovered
  | Err _ => Err INVALID_RECOVERY_ANSWER
  end.

End Recovery.

End Client.
(* ================================================================== *)
(** * Hashing (functions/crypto/hash.ts and the browser crypto adapter) *)
(* ================================================================== *)

(** ** SHA-256 and HMAC, what the Web Crypto provider computes

    These are the standard algorithms (FIPS 180-4, RFC 2104), here to
    run [hashData] on a provider that computes real digests. *)
Module SHA256.

Definition word (x : N) : N := N.land x 0xFFFFFFFF.
Definition plus (x y : N) : N := word (x + y).
Definition rotr (n x : N) : N := word (N.lor (N.shiftr x n) (N.shiftl x (32 - n))).
Definition shr (n x : N) : N := N.shiftr x n.
Definition complement (x : N) : N := N.lxor x 0xFFFFFFFF.

Definition Ch (x y z : N) : N := N.lxor (N.land x y) (N.land (complement x) z).
Definition Maj (x y z : N) : N :=
  N.lxor (N.lxor (N.land x y) (N.land x z)) (N.land y z).
Definition bigSigma0 (x : N) : N := N.lxor (N.lxor (rotr 2 x) (rotr 13 x)) (rotr 22 x).
Definition bigSigma1 (x : N) : N := N.lxor (N.lxor (rotr 6 x) (rotr 11 x)) (rotr 25 x).
Definition sigma0 (x : N) : N := N.lxor (N.lxor (rotr 7 x) (rotr 18 x)) (shr 3 x).
Definition sigma1 (x : N) : N := N.lxor (N.lxor (rotr 17 x) (rotr 19 x)) (shr 10 x).

(** The primes found by trial division among the [fuel] numbers from
    [candidate] on. *)
Fixpoint primesFrom (fuel : nat) (candidate : N) (found : list N) : list N :=
  match fuel with
  | O => found
  | S k =>
      if forallb (fun p => negb (candidate mod p =? 0)) found
      then primesFrom k (candidate + 1) (found ++ [candidate])
      else primesFrom k (candidate + 1) found
  end.

(** The first 64 primes, 2 to 311. *)
Definition PRIMES : list N := Eval vm_compute in primesFrom 310 2 [].

(** The largest [r] below [2 ^ bits] with [r ^ degree <= n], one bit at
    a time from the highest. *)
Fixpoint rootBits (degree : N) (bits : nat) (n root : N) : N :=
  match bits with
  | O => root
  | S k =>
      let candidate := root + 2 ^ N.of_nat k in
      rootBits degree k n (if candidate ^ degree <=? n then candidate else root)
  end.

(** The first 32 bits of the fractional part of the root of [p]. *)
Definition fractionOfRoot (degree p : N) : N :=
  word (rootBits degree 40 (N.shiftl p (32 * degree)) 0).

(** The round constants: from the cube roots of the first 64 primes. *)
Definition K : list N := Eval vm_compute in map (fractionOfRoot 3) PRIMES.

(** The initial hash value: from the square roots of the first 8
    primes. *)
Definition INITIAL : list N :=
  Eval vm_compute in map (fractionOfRoot 2) (firstn 8 PRIMES).

(** The message followed by the bit 1, zeros, and its length in bits on
    8 bytes, up to a multiple of 64 bytes. *)
Definition bigEndian (width : nat) (x : N) : list N :=
  map (fun i => N.land (N.shiftr x (8 * N.of_nat (width - 1 - i))) 0xFF)
      (seq 0 width).

Definition pad (message : list N) : list N :=
  let len := length message in
  let zeros := ((64 - (len + 9) mod 64) mod 64)%nat in
  message ++ [0x80] ++ repeat 0 zeros ++ bigEndian 8 (8 * N.of_nat len).

Definition wordOf (b0 b1 b2 b3 : N) : N :=
  N.lor (N.lor (N.shiftl b0 24) (N.shiftl b1 16)) (N.lor (N.shiftl b2 8) b3).

Fixpoint wordsOf (bs : list N) : list N :=
  match bs with
  | b0 :: b1 :: b2 :: b3 :: rest => wordOf b0 b1 b2 b3 :: wordsOf rest
  | _ => []
  end.

(** The message schedule: [count] more words after the ones in
    [schedule], which is kept newest first. *)
Fixpoint extend (count : nat) (schedule : list N) : list N :=
  match count with
  | O => schedule
  | S k =>
      let w := plus (plus (sigma1 (nth 1 schedule 0)) (nth 6 schedule 0))
                    (plus (sigma0 (nth 14 schedule 0)) (nth 15 schedule 0)) in
      extend k (w :: schedule)
  end.

Definition schedule (block : list N) : list N := rev (extend 48 (rev block)).

Record Registers : Type := {
  a : N; b : N; c : N; d : N; e : N; f : N; g : N; h : N
}.

Definition round (r : Registers) (kw : N * N) : Registers :=
  let t1 := plus (plus (plus (h r) (bigSigma1 (e r))) (Ch (e r) (f r) (g r)))
                 (plus (fst kw) (snd kw)) in
  let t2 := plus (bigSigma0 (a r)) (Maj (a r) (b r) (c r)) in
  {| a := plus t1 t2; b := a r; c := b r; d := c r;
     e := plus (d r) t1; f := e r; g := f r; h := g r |}.

Definition compress (state : Registers) (block : list N) : Registers :=
  let r := fold_left round (combine K (schedule block)) state in
  {| a := plus (a state) (a r); b := plus (b state) (b r);
     c := plus (c state) (c r); d := plus (d state) (d r);
     e := plus (e state) (e r); f := plus (f state) (f r);
     g := plus (g state) (g r); h := plus (h state) (h r) |}.

(** The blocks of 16 words of a padded message; [blocks] bounds their
    number. *)
Fixpoint compressAll (blocks : nat) (state : Registers) (words : list N)
  : Registers :=
  match blocks with
  | O => state
  | S k =>
      match words with
      | [] => state
      | _ => compressAll k (compress state (firstn 16 words)) (skipn 16 words)
      end
  end.

Definition start : Registers :=
  {| a := nth 0 INITIAL 0; b := nth 1 INITIAL 0; c := nth 2 INITIAL 0;
     d := nth 3 INITIAL 0; e := nth 4 INITIAL 0; f := nth 5 INITIAL 0;
     g := nth 6 INITIAL 0; h := nth 7 INITIAL 0 |}.

Definition digest (message : bytes) : bytes :=
  let words := wordsOf (pad (map Byte.to_N message)) in
  let r := compressAll (length words) start words in
  map byte_of_N
      (flat_map (bigEndian 4) [a r; b r; c r; d r; e r; f r; g r; h r]).

Definition BLOCK_SIZE : nat := 64.

(** RFC 2104: a key longer than a block is hashed, a shorter one padded
    with zeros. *)
Definition hmac (key message : bytes) : bytes :=
  let key' := if (BLOCK_SIZE <? length key)%nat then digest key else key in
  let block := key' ++ repeat x00 (BLOCK_SIZE - length key') in
  let inner := map (GF256.add x36) block in
  let outer := map (GF256.add x5c) block in
  digest (outer ++ digest (inner ++ message)).

End SHA256.

Module Hash.

(** adapters/types.ts, [CryptoAdapter]: the method [hashData] calls. *)
Record CryptoAdapter : Type := {
  hmacSign : jsstring -> bytes -> bytes -> result bytes
}.

Definition isDigit (c : N) : bool := (48 <=? c) && (c <=? 57).

(** [s.startsWith(prefix)] *)
Fixpoint startsWith (prefix s : jsstring) : bool :=
  match prefix, s with
  | [], _ => true
  | p :: prefix', c :: s' => (p =? c) && startsWith prefix' s'
  | _ :: _, [] => false
  end.

(** [s.includes(c)] for one character. *)
Definition includes (c : N) (s : jsstring) : bool := existsb (N.eqb c) s.

(** The longest prefix of digits, and the rest. *)
Fixpoint takeDigits (s : jsstring) : jsstring * jsstring :=
  match s with
  | c :: rest =>
      if isDigit c
      then let (digits, after) := takeDigits rest in (c :: digits, after)
      else ([], s)
  | [] => ([], [])
  end.

(** A match of [/SHA-?(\d+)/i] at the start of [s]: the digits and what
    follows them. *)
Definition matchSha (s : jsstring) : option (jsstring * jsstring) :=
  match s with
  | c1 :: c2 :: c3 :: rest =>
      if ((c1 =? 83) || (c1 =? 115)) && ((c2 =? 72) || (c2 =? 104))
         && ((c3 =? 65) || (c3 =? 97))
      then
        let afterDash :=
          match rest with
          | dash :: rest' =>
              if (dash =? 45) && match rest' with
                                 | c :: _ => isDigit c
                                 | [] => false
                                 end
              then rest' else rest
          | [] => rest
          end in
        match takeDigits afterDash with
        | ([], _) => None
        | (digits, after) => Some (digits, after)
        end
      else None
  | _ => None
  end.

(** [s.replace(/SHA-?(\d+)/i, 'SHA-$1')]: the leftmost match is
    rewritten. *)
Fixpoint replaceSha (s : jsstring) : jsstring :=
  match matchSha s with
  | Some (digits, after) => js "SHA-" ++ digits ++ after
  | None =>
      match s with
      | [] => []
      | c :: rest => c :: replaceSha rest
      end
  end.

(** [String.prototype.toUpperCase] on ASCII text. *)
Definition asciiUpperCase (s : jsstring) : jsstring :=
  map (fun c => if (97 <=? c) && (c <=? 122) then c - 32 else c) s.

Definition DEFAULT_ALGORITHM : jsstring := js "sha256".

Definition orDefault (fallback : jsstring) (argument : option jsstring)
  : jsstring :=
  match argument with
  | Some value => value
  | None => fallback
  end.

Section Hashing.

Variable toUpperCase : jsstring -> jsstring.

(** hash.ts, [normalizeAlgorithm]: "sha256" becomes "SHA-256". *)
Definition normalizeAlgorithm (algorithm : jsstring) : jsstring :=
  let upper := toUpperCase algorithm in
  if startsWith (js "SHA") upper && negb (includes 45 upper) then
    (* upper.replace(/^SHA(\d+)$/, 'SHA-$1') *)
    match takeDigits (skipn 3 upper) with
    | ((_ :: _) as digits, []) => js "SHA-" ++ digits
    | _ => upper
    end
  else upper.

Variable getEncoding : result EncodingAdapter.
Variable getCrypto : result CryptoAdapter.

(** hash.ts, [hashData({ data, privateKey = "", algorithm = "sha256" })],
    for [data] a string. *)
Definition hashData (data : jsstring) (privateKey algorithm : option jsstring)
  : result jsstring :=
  encoding <- getEncoding ;;
  crypto <- getCrypto ;;
  let dataBytes := utf8ToBytes encoding data in
  let keyBytes := utf8ToBytes encoding (orDefault [] privateKey) in
  let normalizedAlgorithm :=
    normalizeAlgorithm (orDefault DEFAULT_ALGORITHM algorithm) in
  signatureBytes <- hmacSign crypto normalizedAlgorithm keyBytes dataBytes ;;
  Ok (bytesToHex encoding signatureBytes).

(** crypto.browser.ts: [getHmacAlgorithm] and [hmacSign];
    [subtleHmac hash key data] is [crypto.subtle.importKey] of the raw
    key for HMAC with that hash, then [crypto.subtle.sign]. *)
Variable subtleHmac : jsstring -> bytes -> bytes -> result bytes.

Definition getHmacAlgorithm (algorithm : jsstring) : jsstring :=
  replaceSha (toUpperCase algorithm).

Definition browserCryptoAdapter : CryptoAdapter :=
  {| hmacSign := fun algorithm key data =>
                   subtleHmac (getHmacAlgorithm algorithm) key data |}.

(** What the specification says of a call without a key: "plain hash
    ... when no key given". *)
Definition plainHashWithoutKey (digest : bytes -> bytes) : Prop :=
  forall data,
    hashData data None None
    = Ok (Encoding.bytesToHex (digest (Text.utf8Encode data))).

End Hashing.

Definition DATA_ERROR : exn := DOMException "DataError".

(** A provider that knows SHA-256.  As [crypto.subtle.importKey] does
    for HMAC, it refuses a hash it does not know and then a key of
    length zero. *)
Definition referenceHmac (hash : jsstring) (key data : bytes) : result bytes :=
  if negb (jsstring_eqb hash (js "SHA-256"))
  then Err (DOMException "NotSupportedError")
  else
    match key with
    | [] => Err DATA_ERROR
    | _ :: _ => Ok (SHA256.hmac key data)
    end.

Definition referenceHashData :=
  hashData asciiUpperCase (Ok Native.encodingAdapter)
    (Ok (browserCryptoAdapter asciiUpperCase referenceHmac)).

End Hash.
(* ================================================================== *)
(** * The crypto adapters of the two platforms, and [generateHash] *)
(* ================================================================== *)

(** platforms/react-native/crypto.native.ts *)
Module NativeCrypto.

(** What the adapter uses of a Web Crypto implementation:
    [getRandomValues] on a typed array, and [subtleHmac hash key data],
    which is [subtle.importKey] of the raw key with
    [{ name: 'HMAC', hash }] followed by [subtle.sign]. *)
Record WebCrypto : Type := {
  getRandomValues : bytes -> result bytes;
  subtleHmac : jsstring -> bytes -> bytes -> result bytes
}.

Definition NO_CRYPTO : exn :=
  Error ("@utxos/sdk: No crypto implementation found. "
         ++ "Install react-native-quick-crypto or react-native-get-random-values").

Section Modules.

(** [QuickCrypto?.webcrypto], when the module is installed, and
    [global.crypto], when it exists and has a [subtle]. *)
Variables quickCrypto globalCrypto : option WebCrypto.

(** The module's own [getCrypto()]. *)
Definition getCrypto : result WebCrypto :=
  match quickCrypto with
  | Some webcrypto => Ok webcrypto
  | None =>
      match globalCrypto with
      | Some crypto => Ok crypto
      | None => Err NO_CRYPTO
      end
  end.

(** [getRandomBytes(size)]: a new array of [size] zero bytes, filled by
    [getRandomValues]. *)
Definition getRandomBytes (size : nat) : result bytes :=
  crypto <- getCrypto ;;
  getRandomValues crypto (repeat x00 size).

(** [hmacSign(algorithm, key, data)]: the key is imported with
    [{ name: 'HMAC', hash: algorithm }], the name as it was given. *)
Definition hmacSign (algorithm : jsstring) (key data : bytes) : result bytes :=
  crypto <- getCrypto ;;
  subtleHmac crypto algorithm key data.

Definition cryptoAdapter : Hash.CryptoAdapter :=
  {| Hash.hmacSign := hmacSign |}.

End Modules.

(** A Web Crypto that knows HMAC-SHA-256 and fills arrays with the
    bytes 1, 2, 3, ... *)
Definition referenceWebCrypto : WebCrypto :=
  {| getRandomValues :=
       fun buffer => Ok (Crypto.Reference.countingBytes (length buffer));
     subtleHmac := Hash.referenceHmac |}.

End NativeCrypto.

(** platforms/browser/crypto.browser.ts *)
Module BrowserCrypto.
Import Hash.

(** [getRandomBytes(size)], over the [crypto.getRandomValues] of the
    browser. *)
Definition getRandomBytes (getRandomValues : bytes -> result bytes)
    (size : nat) : result bytes :=
  getRandomValues (repeat x00 size).

(** The third argument [importKey] passes to [crypto.subtle.importKey]:
    [{ name }] or [{ name: 'HMAC', hash: { name: hash } }]. *)
Inductive AlgorithmParams : Type :=
| Named (name : jsstring)
| Hmac (hash : jsstring).

(** A character [[- ]] matches. *)
Definition isSeparator (c : N) : bool := (c =? 45) || (c =? 32).

(** The first group of the match of [/HMAC[- ]?(SHA[- ]?\d+)?/i] in a
    text that starts with [HMAC]; [None] when the group took no part in
    the match.  The match starts at the first character; the optional
    separator is taken when it is there, and the group matches when
    [SHA], an optional separator and at least one digit follow. *)
Definition hmacHashGroup (normalized : jsstring) : option jsstring :=
  let afterHmac := skipn 4 normalized in
  let afterSeparator :=
    match afterHmac with
    | c :: rest => if isSeparator c then rest else afterHmac
    | [] => []
    end in
  match afterSeparator with
  | c1 :: c2 :: c3 :: rest =>
      if ((c1 =? 83) || (c1 =? 115)) && ((c2 =? 72) || (c2 =? 104))
         && ((c3 =? 65) || (c3 =? 97))
      then
        let '(separator, afterSha) :=
          match rest with
          | c :: rest' =>
              if isSeparator c && match rest' with
                                  | d :: _ => isDigit d
                                  | [] => false
                                  end
              then ([c], rest') else ([], rest)
          | [] => ([], rest)
          end in
        match takeDigits afterSha with
        | ([], _) => None
        | (digits, _) => Some ([c1; c2; c3] ++ separator ++ digits)
        end
      else None
  | _ => None
  end.

(** [text.replace(/[- ]/g, '-')] *)
Definition dashes (text : jsstring) : jsstring :=
  map (fun c => if isSeparator c then 45 else c) text.

(** [s.includes(needle)] *)
Fixpoint includesText (needle s : jsstring) : bool :=
  startsWith needle s
  || match s with
     | [] => false
     | _ :: rest => includesText needle rest
     end.

Section ImportKey.

Variable toUpperCase : jsstring -> jsstring.

(** [importKey(keyData, algorithm, usages)]: the algorithm parameters
    chosen from the name. *)
Definition importKeyAlgorithm (algorithm : jsstring) : AlgorithmParams :=
  let normalizedAlgorithm := toUpperCase algorithm in
  if jsstring_eqb normalizedAlgorithm (js "AES-GCM")
     || jsstring_eqb normalizedAlgorithm (js "AESGCM")
  then Named (js "AES-GCM")
  else if startsWith (js "HMAC") normalizedAlgorithm then
    Hmac (match hmacHashGroup normalizedAlgorithm with
          | Some group => dashes group
          | None => js "SHA-256"
          end)
  else if includesText (js "SHA") normalizedAlgorithm then
    Hmac (replaceSha normalizedAlgorithm)
  else Named algorithm.

End ImportKey.

End BrowserCrypto.

(** functions/crypto/hash.ts, [generateHash] *)
Module HashRandom.

Definition DEFAULT_SIZE : nat := 64.

Section GenerateHash.

(** [getCrypto().getRandomBytes], or what [getCrypto()] throws. *)
Variable getRandomBytes : result (nat -> result bytes).
Variable getEncoding : result EncodingAdapter.

(** [generateHash({ size = 64 })]; a throw inside the executor of the
    promise rejects it. *)
Definition generateHash (size : option nat) : result jsstring :=
  randomBytes <- getRandomBytes ;;
  bytes <- randomBytes (match size with
                        | Some given => given
                        | None => DEFAULT_SIZE
                        end) ;;
  encoding <- getEncoding ;;
  Ok (bytesToHex encoding bytes).

End GenerateHash.

End HashRandom.
(* ================================================================== *)
(** * The browser encoding adapter (platforms/browser/encoding.browser.ts) *)
(* ================================================================== *)

Module Browser.

(** ** [btoa] and [atob]

    The two functions of the HTML standard, over the forgiving-base64
    encoding and decoding of the Infra standard. *)

Definition INVALID_CHARACTER : exn := DOMException "InvalidCharacterError".

(** The character of a 6-bit value in the base64 alphabet. *)
Definition charOfSextet (v : N) : N :=
  if v <? 26 then 65 + v
  else if v <? 52 then 71 + v
  else if v <? 62 then v - 4
  else if v =? 62 then 43
  else 47.

(** The value of a character of the alphabet. *)
Definition sextetOf (c : N) : option N :=
  if (65 <=? c) && (c <=? 90) then Some (c - 65)
  else if (97 <=? c) && (c <=? 122) then Some (c - 71)
  else if (48 <=? c) && (c <=? 57) then Some (c + 4)
  else if c =? 43 then Some 62
  else if c =? 47 then Some 63
  else None.

(** Base64 of a sequence of octets, three at a time, the last group
    padded with [=]. *)
Fixpoint encodeOctets (octets : list N) : jsstring :=
  match octets with
  | [] => []
  | a :: rest1 =>
      match rest1 with
      | [] =>
          [charOfSextet (a / 4); charOfSextet ((a mod 4) * 16); 61; 61]
      | b :: rest2 =>
          match rest2 with
          | [] =>
              [charOfSextet (a / 4);
               charOfSextet ((a mod 4) * 16 + b / 16);
               charOfSextet ((b mod 16) * 4);
               61]
          | c :: rest3 =>
              charOfSextet (a / 4)
              :: charOfSextet ((a mod 4) * 16 + b / 16)
              :: charOfSextet ((b mod 16) * 4 + c / 64)
              :: charOfSextet (c mod 64)
              :: encodeOctets rest3
          end
      end
  end.

(** [btoa(data)]: a character above U+00FF is an error. *)
Definition btoa (data : jsstring) : result jsstring :=
  if forallb (fun c => c <=? 255) data then Ok (encodeOctets data)
  else Err INVALID_CHARACTER.

(** TAB, LF, FF, CR and SPACE. *)
Definition isAsciiWhitespace (c : N) : bool :=
  (c =? 9) || (c =? 10) || (c =? 12) || (c =? 13) || (c =? 32).

(** "If data's length divides by 4 leaving no remainder, then: if data
    ends with one or two U+003D (=) code points, then remove them". *)
Definition stripPadding (data : jsstring) : jsstring :=
  if (length data mod 4 =? 0)%nat then
    match rev data with
    | last1 :: last2 :: before =>
        if last1 =? 61 then
          if last2 =? 61 then rev before else rev (last2 :: before)
        else data
    | _ => data
    end
  else data.

(** The values of the characters, when all are of the alphabet. *)
Fixpoint sextets (data : jsstring) : option (list N) :=
  match data with
  | [] => Some []
  | c :: rest =>
      match sextetOf c, sextets rest with
      | Some v, Some vs => Some (v :: vs)
      | _, _ => None
      end
  end.

(** The octets of a sequence of 6-bit values: three for every four
    values; of the bits of two or three values left at the end, the
    last four or two are discarded. *)
Fixpoint decodeSextets (values : list N) : list N :=
  match values with
  | [] => []
  | a :: rest1 =>
      match rest1 with
      | [] => []
      | b :: rest2 =>
          match rest2 with
          | [] => [a * 4 + b / 16]
          | c :: rest3 =>
              match rest3 with
              | [] => [a * 4 + b / 16; (b mod 16) * 16 + c / 4]
              | d :: rest4 =>
                  (a * 4 + b / 16)
                  :: ((b mod 16) * 16 + c / 4)
                  :: ((c mod 4) * 64 + d)
                  :: decodeSextets rest4
              end
          end
      end
  end.

(** [atob(data)]: ASCII whitespace is removed, then the padding; a
    length that leaves a remainder of 1 and a character outside the
    alphabet are errors. *)
Definition atob (data : jsstring) : result jsstring :=
  let stripped :=
    stripPadding (filter (fun c => negb (isAsciiWhitespace c)) data) in
  if (length stripped mod 4 =? 1)%nat then Err INVALID_CHARACTER
  else
    match sextets stripped with
    | Some values => Ok (decodeSextets values)
    | None => Err INVALID_CHARACTER
    end.

(** ** The adapter *)

(** [bytesToBase64(bytes)]: [btoa] of the binary string of the bytes.
    No character of that string is above U+00FF, so [btoa] does not
    throw. *)
Definition bytesToBase64 (bs : bytes) : jsstring :=
  encodeOctets (map Byte.to_N bs).

(** [base64ToBytes(base64)] *)
Definition base64ToBytes (base64 : jsstring) : result bytes :=
  let normalized := Native.normalize base64 in
  binary <- atob normalized ;;
  Ok (map byte_of_N binary).

Definition encodingAdapter : EncodingAdapter :=
  Build_EncodingAdapter
    bytesToBase64
    base64ToBytes
    Encoding.bytesToHex
    Encoding.hexToBytes
    Text.utf8Decode
    Text.utf8Encode.

End Browser.
(* ================================================================== *)
(** * Encryption to a public key (functions/crypto/encryption.ts) *)
(* ================================================================== *)

Module Asymmetric.
Import Crypto.

(** The three members of an envelope made for a public key. *)
Definition publicEnvelope (ephemeralPublicKey iv ciphertext : jsstring)
  : JsonValue :=
  JObject [(js "ephemeralPublicKey", JString ephemeralPublicKey);
           (js "iv", JString iv);
           (js "ciphertext", JString ciphertext)].

(** What [generateKeyPair] returns: the two keys in base64. *)
Record KeyPairText : Type := {
  publicKey : jsstring;
  privateKey : jsstring
}.

Definition PUBLIC_IV_LENGTH : nat := 12.
Definition ENCRYPT : string := "encrypt".
Definition DECRYPT : string := "decrypt".

Section Platform.

(** The platform under the functions.  The key objects of
    [crypto.subtle]: ECDH public and private keys on P-256, and AES-GCM
    keys.  [exportSpki] and [exportPkcs8] are [exportKey] in the two
    formats, [importSpki] and [importPkcs8] are [importKey] for ECDH on
    P-256, and [deriveKey public private usage] is [deriveKey] of a
    256-bit AES-GCM key that allows [usage]. *)
Variables PublicKey PrivateKey CryptoKey : Type.
Variable exportSpki : PublicKey -> result bytes.
Variable exportPkcs8 : PrivateKey -> result bytes.
Variable importSpki : bytes -> result PublicKey.
Variable importPkcs8 : bytes -> result PrivateKey.
Variable deriveKey : PublicKey -> PrivateKey -> string -> result CryptoKey.
Variable subtleEncrypt :
  string -> bytes -> CryptoKey -> bytes -> result bytes.
Variable subtleDecrypt :
  string -> bytes -> CryptoKey -> bytes -> result bytes.
Variable JSON_stringify : JsonValue -> jsstring.
Variable JSON_parse : jsstring -> result JsonValue.
Variable getEncoding : result EncodingAdapter.

(** [generateKeyPair()]; [generated] is what [crypto.subtle.generateKey]
    gives at this call. *)
Definition generateKeyPair (generated : result (PublicKey * PrivateKey))
  : result KeyPairText :=
  keyPair <- generated ;;
  publicKey <- exportSpki (fst keyPair) ;;
  privateKey <- exportPkcs8 (snd keyPair) ;;
  encoding <- getEncoding ;;
  Ok {| publicKey := bytesToBase64 encoding publicKey;
        privateKey := bytesToBase64 encoding privateKey |}.

(** [encryptWithPublicKey({ publicKey, data })]; [generated] is the
    ephemeral key pair and [getRandomValues] the IV of this call. *)
Definition encryptWithPublicKey
    (generated : result (PublicKey * PrivateKey))
    (getRandomValues : nat -> bytes)
    (publicKey data : jsstring) : result jsstring :=
  encoding <- getEncoding ;;
  publicKeyBuffer <- base64ToBytes encoding publicKey ;;
  _publicKey <- importSpki publicKeyBuffer ;;
  ephemeralKeyPair <- generated ;;
  sharedSecret <- deriveKey _publicKey (snd ephemeralKeyPair) ENCRYPT ;;
  let iv := getRandomValues PUBLIC_IV_LENGTH in
  encrypted <- subtleEncrypt AES_GCM iv sharedSecret (Text.utf8Encode data) ;;
  ephemeralPublicKey <- exportSpki (fst ephemeralKeyPair) ;;
  Ok (JSON_stringify
        (publicEnvelope (bytesToBase64 encoding ephemeralPublicKey)
                        (bytesToBase64 encoding iv)
                        (bytesToBase64 encoding encrypted))).

(** [decryptWithPrivateKey({ privateKey, encryptedDataJSON })] *)
Definition decryptWithPrivateKey (privateKey encryptedDataJSON : jsstring)
  : result jsstring :=
  encoding <- getEncoding ;;
  privateKeyBuffer <- base64ToBytes encoding privateKey ;;
  _encryptedData <- JSON_parse encryptedDataJSON ;;
  keyMember <- getMember _encryptedData (js "ephemeralPublicKey") ;;
  keyText <- asString keyMember ;;
  ephemeralPublicKeyBytes <- base64ToBytes encoding keyText ;;
  ivMember <- getMember _encryptedData (js "iv") ;;
  ivText <- asString ivMember ;;
  iv <- base64ToBytes encoding ivText ;;
  ciphertextMember <- getMember _encryptedData (js "ciphertext") ;;
  ciphertextText <- asString ciphertextMember ;;
  ciphertext <- base64ToBytes encoding ciphertextText ;;
  _privateKey <- importPkcs8 privateKeyBuffer ;;
  ephemeralPublicKey <- importSpki ephemeralPublicKeyBytes ;;
  sharedSecret <- deriveKey ephemeralPublicKey _privateKey DECRYPT ;;
  decrypted <- subtleDecrypt AES_GCM iv sharedSecret ciphertext ;;
  Ok (Text.utf8Decode decrypted).

End Platform.

(** ** A small platform to run the functions on

    A stand-in for ECDH (not a key agreement to use): a key is one
    byte, the public key of a private key is 7 times it modulo 251, and
    the key two parties derive is the product of one's public key and
    the other's private key modulo 251. *)
Module Reference.

Definition MODULUS : N := 251.
Definition BASE : N := 7.

Definition DataError : exn := DOMException "DataError".

Definition publicOf (private : byte) : byte :=
  byte_of_N ((BASE * Byte.to_N private) mod MODULUS).

Definition exportKey (key : byte) : result bytes := Ok [key].

Definition importKey (data : bytes) : result byte :=
  match data with
  | [key] => Ok key
  | _ => Err DataError
  end.

Definition deriveKey (public private : byte) (usage : string)
  : result bytes :=
  Ok [byte_of_N ((Byte.to_N public * Byte.to_N private) mod MODULUS)].

(** [JSON.stringify] and [JSON.parse], for objects whose members are
    strings that need no escape. *)
Fixpoint membersText (members : list (jsstring * JsonValue))
  : option jsstring :=
  match members with
  | [] => Some []
  | (name, JString text) :: rest =>
      match membersText rest with
      | Some [] =>
          Some ([Crypto.Reference.QUOTE] ++ name ++ [Crypto.Reference.QUOTE]
                ++ js ":" ++ [Crypto.Reference.QUOTE] ++ text
                ++ [Crypto.Reference.QUOTE])
      | Some others =>
          Some ([Crypto.Reference.QUOTE] ++ name ++ [Crypto.Reference.QUOTE]
                ++ js ":" ++ [Crypto.Reference.QUOTE] ++ text
                ++ [Crypto.Reference.QUOTE] ++ js "," ++ others)
      | None => None
      end
  | _ => None
  end.

Definition stringify (value : JsonValue) : jsstring :=
  match value with
  | JObject members =>
      match membersText members with
      | Some text => js "{" ++ text ++ js "}"
      | None => js "null"
      end
  | _ => js "null"
  end.

(** The members up to the closing brace, which ends the text. *)
Fixpoint parseMembers (fuel : nat) (s : jsstring)
  : option (list (jsstring * JsonValue)) :=
  match fuel with
  | O => None
  | S fuel' =>
      match Crypto.Reference.dropPrefix [Crypto.Reference.QUOTE] s with
      | None => None
      | Some s1 =>
      match Crypto.Reference.untilQuote s1 with
      | None => None
      | Some (name, s2) =>
      match Crypto.Reference.dropPrefix
              (js ":" ++ [Crypto.Reference.QUOTE]) s2 with
      | None => None
      | Some s3 =>
      match Crypto.Reference.untilQuote s3 with
      | None => None
      | Some (text, s4) =>
          if jsstring_eqb s4 (js "}") then Some [(name, JString text)]
          else
            match Crypto.Reference.dropPrefix (js ",") s4 with
            | None => None
            | Some s5 =>
                match parseMembers fuel' s5 with
                | Some rest => Some ((name, JString text) :: rest)
                | None => None
                end
            end
      end end end end
  end.

Definition parse (text : jsstring) : result JsonValue :=
  match Crypto.Reference.dropPrefix (js "{") text with
  | None => Err Crypto.Reference.NOT_JSON
  | Some s =>
      if jsstring_eqb s (js "}") then Ok (JObject [])
      else
        match parseMembers (length s) s with
        | Some members => Ok (JObject members)
        | None => Err Crypto.Reference.NOT_JSON
        end
  end.

Definition generateKeyPair :=
  Asymmetric.generateKeyPair exportKey exportKey (Ok Native.encodingAdapter).

Definition encryptWithPublicKey :=
  Asymmetric.encryptWithPublicKey exportKey importKey deriveKey
    Crypto.Reference.encrypt stringify (Ok Native.encodingAdapter).

Definition decryptWithPrivateKey :=
  Asymmetric.decryptWithPrivateKey importKey importKey deriveKey
    Crypto.Reference.decrypt parse (Ok Native.encodingAdapter).

End Reference.

End Asymmetric.
(* ================================================================== *)
(** * Shard lifecycle: generating and deriving a wallet
      (functions/client) *)
(* ================================================================== *)

Module Wallet.
Import Crypto KeyShard.

(** What [clientGenerateWallet] returns.  [authShard] is the second
    element of the array of shards, [undefined] when there is none. *)
Record GeneratedWallet : Type := {
  encryptedDeviceShard : jsstring;
  authShard : option jsstring;
  encryptedRecoveryShard : jsstring;
  bitcoinMainnetPubKeyHash : jsstring;
  bitcoinTestnetPubKeyHash : jsstring;
  cardanoPubKeyHash : jsstring;
  cardanoStakeCredentialHash : jsstring;
  sparkMainnetPubKeyHash : jsstring;
  sparkRegtestPubKeyHash : jsstring;
  sparkMainnetStaticDepositAddress : jsstring;
  sparkRegtestStaticDepositAddress : jsstring
}.

(** [deserializeBech32Address(address)] *)
Record KeyHashes : Type := {
  pubKeyHash : jsstring;
  stakeCredentialHash : jsstring
}.

(** The four values [clientGenerateWallet] awaits together from the two
    Spark wallets. *)
Record SparkKeys : Type := {
  mainnetIdentityPublicKey : jsstring;
  regtestIdentityPublicKey : jsstring;
  mainnetStaticDepositAddress : jsstring;
  regtestStaticDepositAddress : jsstring
}.

Section Client.

(** The platform, as for [encryptWithCipher] and [decryptWithCipher]. *)
Variable CryptoKey : Type.
Variable subtleEncrypt :
  string -> bytes -> CryptoKey -> bytes -> result bytes.
Variable subtleDecrypt :
  string -> bytes -> CryptoKey -> bytes -> result bytes.
Variable JSON_stringify : JsonValue -> jsstring.
Variable JSON_parse : jsstring -> result JsonValue.
Variable getEncoding : result EncodingAdapter.

(** The collaborators: the split of functions/key-shard and the
    hexadecimal decoder of functions/convertors.ts, which are not among
    the sources, and the chain libraries. *)
Variables BitcoinProvider Fetcher : Type.
Variables BitcoinWallet CardanoWallet SparkWallet : Type.
Variable spiltKeyIntoShards : jsstring -> result (list jsstring).
Variable hexToBytes : jsstring -> result bytes.
Variable newEmbeddedWallet :
  BitcoinNetwork -> list jsstring -> option BitcoinProvider ->
  result BitcoinWallet.
Variable getPublicKey : BitcoinWallet -> result jsstring.
Variable cardanoFromMnemonic :
  list jsstring -> NetworkId -> option Fetcher -> result CardanoWallet.
Variable getChangeAddressBech32 : CardanoWallet -> result jsstring.
Variable deserializeBech32Address : jsstring -> result KeyHashes.
Variable sparkInitialize : jsstring -> SparkNetwork -> result SparkWallet.
Variable sparkKeys : SparkWallet -> SparkWallet -> result SparkKeys.

(** generate-wallet.ts, [clientGenerateWallet].  [generateMnemonic] is
    the outcome of [generateMnemonic(256)] at this call, and the two
    [...RandomValues] are the IVs of the two encryptions.  A shard that
    the array does not have is [undefined], which [TextEncoder] encodes
    as the empty string. *)
Definition clientGenerateWallet
    (generateMnemonic : result jsstring)
    (deviceRandomValues recoveryRandomValues : nat -> bytes)
    (deviceShardEncryptionKey recoveryShardEncryptionKey : CryptoKey)
  : result GeneratedWallet :=
  mnemonic <- generateMnemonic ;;
  shards <- spiltKeyIntoShards mnemonic ;;
  encryptedDeviceShard <-
    encryptWithCipher subtleEncrypt JSON_stringify getEncoding
      deviceRandomValues (nth 0 shards []) deviceShardEncryptionKey
      AES_GCM IV_LENGTH ;;
  encryptedRecoveryShard <-
    encryptWithCipher subtleEncrypt JSON_stringify getEncoding
      recoveryRandomValues (nth 2 shards []) recoveryShardEncryptionKey
      AES_GCM IV_LENGTH ;;
  bitcoinTestnetWallet <-
    newEmbeddedWallet BitcoinTestnet (split SPACE mnemonic) None ;;
  bitcoinMainnetWallet <-
    newEmbeddedWallet BitcoinMainnet (split SPACE mnemonic) None ;;
  bitcoinTestnetPubKeyHash <- getPublicKey bitcoinTestnetWallet ;;
  bitcoinMainnetPubKeyHash <- getPublicKey bitcoinMainnetWallet ;;
  cardanoWallet <- cardanoFromMnemonic (split SPACE mnemonic) Mainnet None ;;
  cardanoBaseAddress <- getChangeAddressBech32 cardanoWallet ;;
  cardanoKeyHashes <- deserializeBech32Address cardanoBaseAddress ;;
  sparkMainnetWallet <- sparkInitialize mnemonic SparkMAINNET ;;
  sparkRegtestWallet <- sparkInitialize mnemonic SparkREGTEST ;;
  fromSpark <- sparkKeys sparkMainnetWallet sparkRegtestWallet ;;
  Ok {| encryptedDeviceShard := encryptedDeviceShard;
        authShard := nth_error shards 1;
        encryptedRecoveryShard := encryptedRecoveryShard;
        bitcoinMainnetPubKeyHash := bitcoinMainnetPubKeyHash;
        bitcoinTestnetPubKeyHash := bitcoinTestnetPubKeyHash;
        cardanoPubKeyHash := pubKeyHash cardanoKeyHashes;
        cardanoStakeCredentialHash := stakeCredentialHash cardanoKeyHashes;
        sparkMainnetPubKeyHash := mainnetIdentityPublicKey fromSpark;
        sparkRegtestPubKeyHash := regtestIdentityPublicKey fromSpark;
        sparkMainnetStaticDepositAddress :=
          mainnetStaticDepositAddress fromSpark;
        sparkRegtestStaticDepositAddress :=
          regtestStaticDepositAddress fromSpark |}.

(** derive-wallet.ts, [clientDeriveWallet] *)
Definition clientDeriveWallet
    (encryptedKeyShard : jsstring) (deviceShardEncryptionKey : CryptoKey)
    (custodialShard : jsstring) (networkId : NetworkId)
    (bitcoinProvider : option BitcoinProvider) (fetcher : option Fetcher)
  : result (Wallets BitcoinWallet CardanoWallet SparkWallet) :=
  keyShare1 <-
    decryptWithCipher subtleDecrypt JSON_parse getEncoding
      encryptedKeyShard deviceShardEncryptionKey AES_GCM ;;
  let keyShare2 := custodialShard in
  wallets <-
    combineShardsBuildWallet hexToBytes newEmbeddedWallet cardanoFromMnemonic
      sparkInitialize networkId keyShare1 keyShare2 bitcoinProvider fetcher ;;
  Ok {| key := key wallets;
        bitcoinWallet := bitcoinWallet wallets;
        cardanoWallet := cardanoWallet wallets;
        sparkWallet := sparkWallet wallets |}.

End Client.

(** ** Collaborators to run the two functions on: a wallet is the
    words or the text it was made from. *)
Module Reference.

Definition newEmbeddedWallet (network : BitcoinNetwork) (words : list jsstring)
    (provider : option unit) : result (BitcoinNetwork * list jsstring) :=
  Ok (network, words).

Definition getPublicKey (wallet : BitcoinNetwork * list jsstring)
  : result jsstring :=
  Ok (match fst wallet with
      | BitcoinMainnet => js "mainnet"
      | BitcoinTestnet => js "testnet"
      end).

Definition cardanoFromMnemonic (words : list jsstring) (networkId : NetworkId)
    (fetcher : option unit) : result (NetworkId * list jsstring) :=
  Ok (networkId, words).

Definition getChangeAddressBech32 (wallet : NetworkId * list jsstring)
  : result jsstring :=
  Ok (js "addr").

Definition deserializeBech32Address (address : jsstring) : result KeyHashes :=
  Ok {| pubKeyHash := address ++ js "-key";
        stakeCredentialHash := address ++ js "-stake" |}.

Definition sparkInitialize (mnemonic : jsstring) (network : SparkNetwork)
  : result (SparkNetwork * jsstring) :=
  Ok (network, mnemonic).

Definition sparkKeys (mainnet regtest : SparkNetwork * jsstring)
  : result SparkKeys :=
  Ok {| mainnetIdentityPublicKey := js "spark-main";
        regtestIdentityPublicKey := js "spark-regtest";
        mainnetStaticDepositAddress := js "deposit-main";
        regtestStaticDepositAddress := js "deposit-regtest" |}.

Definition hexToBytes (hex : jsstring) : result bytes :=
  Ok (Encoding.hexToBytes hex).

Definition clientGenerateWallet :=
  Wallet.clientGenerateWallet Crypto.Reference.encrypt
    Crypto.Reference.stringify (Ok Native.encodingAdapter)
    (spiltKeyIntoShards Shamir.exampleRandomness)
    newEmbeddedWallet getPublicKey cardanoFromMnemonic
    getChangeAddressBech32 deserializeBech32Address sparkInitialize
    sparkKeys.

Definition clientDeriveWallet :=
  Wallet.clientDeriveWallet Crypto.Reference.decrypt
    Crypto.Reference.parse (Ok Native.encodingAdapter)
    hexToBytes newEmbeddedWallet cardanoFromMnemonic sparkInitialize.

End Reference.

End Wallet.
(* ================================================================== *)
(** * The React Native encoding adapter without [TextEncoder] and
      [TextDecoder] (platforms/react-native/encoding.native.ts) *)
(* ================================================================== *)

Module NativeFallback.

(** The URI functions of ECMAScript either return or throw a
    [URIError]. *)
Inductive outcome (A : Type) : Type :=
| Returns (value : A)
| ThrowsURIError.

Arguments ThrowsURIError {A}.

(** [head + tail], when [tail] was computed. *)
Definition after (head : jsstring) (tail : outcome jsstring)
  : outcome jsstring :=
  match tail with
  | Returns text => Returns (head ++ text)
  | ThrowsURIError => ThrowsURIError
  end.

Definition PERCENT : N := 37.
Definition LOWER_U : N := 117.

Definition isAlphanumeric (c : N) : bool :=
  ((65 <=? c) && (c <=? 90)) || ((97 <=? c) && (c <=? 122))
  || ((48 <=? c) && (c <=? 57)).

(** The characters [encodeURIComponent] leaves as they are. *)
Definition uriUnescaped (c : N) : bool :=
  isAlphanumeric c || existsb (N.eqb c) (js "-_.!~*'()").

(** The characters [escape] leaves as they are. *)
Definition escapeUnescaped (c : N) : bool :=
  isAlphanumeric c || existsb (N.eqb c) (js "@*_+-./").

Definition upperHexDigit (value : N) : N :=
  if value <? 10 then 48 + value else 55 + value.

(** [%XX] for an octet, in upper case. *)
Definition percentEncode (octet : N) : jsstring :=
  [PERCENT; upperHexDigit (octet / 16); upperHexDigit (octet mod 16)].

Definition hexValue (c : N) : option N :=
  if (48 <=? c) && (c <=? 57) then Some (c - 48)
  else if (65 <=? c) && (c <=? 70) then Some (c - 55)
  else if (97 <=? c) && (c <=? 102) then Some (c - 87)
  else None.

Definition hexOctet (a b : N) : option N :=
  match hexValue a, hexValue b with
  | Some high, Some low => Some (16 * high + low)
  | _, _ => None
  end.

Definition hexQuad (a b c d : N) : option N :=
  match hexOctet a b, hexOctet c d with
  | Some high, Some low => Some (256 * high + low)
  | _, _ => None
  end.

(** [encodeURIComponent(string)]: a character of the unescaped set is
    kept; any other code point is written as the [%XX] of its UTF-8
    octets; a surrogate that is not half of a pair throws. *)
Fixpoint encodeURIComponent (string : jsstring) : outcome jsstring :=
  match string with
  | [] => Returns []
  | c :: rest =>
      if uriUnescaped c then after [c] (encodeURIComponent rest)
      else if Text.isLowSurrogate c then ThrowsURIError
      else if Text.isHighSurrogate c then
        match rest with
        | d :: rest' =>
            if Text.isLowSurrogate d then
              let cp := 0x10000 + (c - 0xD800) * 0x400 + (d - 0xDC00) in
              after (flat_map percentEncode
                       (map Byte.to_N (Text.encodeScalar cp)))
                    (encodeURIComponent rest')
            else ThrowsURIError
        | [] => ThrowsURIError
        end
      else
        after (flat_map percentEncode (map Byte.to_N (Text.encodeScalar c)))
              (encodeURIComponent rest)
  end.

(** [unescape(string)]: [%uXXXX] and [%XX] become the code unit they
    name, everything else is kept. *)
Fixpoint unescape (string : jsstring) : jsstring :=
  match string with
  | [] => []
  | c :: rest =>
      let unchanged := c :: unescape rest in
      if negb (c =? PERCENT) then unchanged
      else
        match rest with
        | a :: b :: rest2 =>
            let twoDigits :=
              match hexOctet a b with
              | Some n => n :: unescape rest2
              | None => unchanged
              end in
            if a =? LOWER_U then
              match rest2 with
              | h2 :: h3 :: h4 :: rest5 =>
                  match hexQuad b h2 h3 h4 with
                  | Some n => n :: unescape rest5
                  | None => unchanged
                  end
              | _ => twoDigits
              end
            else twoDigits
        | _ => unchanged
        end
  end.

(** [escape(string)]: a code unit outside the unescaped set is written
    as [%XX] when it is below 256 and as [%uXXXX] otherwise. *)
Definition escapeUnit (c : N) : jsstring :=
  if escapeUnescaped c then [c]
  else if c <? 256 then percentEncode c
  else [PERCENT; LOWER_U; upperHexDigit (c / 4096);
        upperHexDigit ((c / 256) mod 16); upperHexDigit ((c / 16) mod 16);
        upperHexDigit (c mod 16)].

Definition escape (string : jsstring) : jsstring := flat_map escapeUnit string.

(** The number of bytes a UTF-8 sequence that starts with [octet] has:
    the count of its leading 1 bits. *)
Definition leadingOnes (octet : N) : nat :=
  if octet <? 0x80 then 0
  else if octet <? 0xC0 then 1
  else if octet <? 0xE0 then 2
  else if octet <? 0xF0 then 3
  else if octet <? 0xF8 then 4
  else 5.

(** [count] more escapes [%XX] at the start of [string]: their octets
    and the rest of the string. *)
Fixpoint continuationOctets (count : nat) (string : jsstring)
  : option (list N * jsstring) :=
  match count with
  | O => Some ([], string)
  | S count' =>
      match string with
      | p :: a :: b :: rest =>
          if p =? PERCENT then
            match hexOctet a b with
            | Some octet =>
                match continuationOctets count' rest with
                | Some (octets, rest') => Some (octet :: octets, rest')
                | None => None
                end
            | None => None
            end
          else None
      | _ => None
      end
  end.

(** The six payload bits of a continuation byte. *)
Definition payload (octet : N) : option N :=
  if (0x80 <=? octet) && (octet <=? 0xBF) then Some (N.land octet 0x3F)
  else None.

Fixpoint withPayloads (value : N) (octets : list N) : option N :=
  match octets with
  | [] => Some value
  | octet :: others =>
      match payload octet with
      | Some bits => withPayloads (N.lor (N.shiftl value 6) bits) others
      | None => None
      end
  end.

(** The code point a sequence of two to four octets is the UTF-8
    encoding of, when it is valid: not longer than needed, no
    surrogate, at most U+10FFFF. *)
Definition codePointOf (octets : list N) : option N :=
  match octets with
  | [b0; _] =>
      match withPayloads (N.land b0 0x1F) (tl octets) with
      | Some v => if 0x80 <=? v then Some v else None
      | None => None
      end
  | [b0; _; _] =>
      match withPayloads (N.land b0 0xF) (tl octets) with
      | Some v =>
          if (0x800 <=? v) && negb ((0xD800 <=? v) && (v <=? 0xDFFF))
          then Some v else None
      | None => None
      end
  | [b0; _; _; _] =>
      match withPayloads (N.land b0 0x7) (tl octets) with
      | Some v =>
          if (0x10000 <=? v) && (v <=? 0x10FFFF) then Some v else None
      | None => None
      end
  | _ => None
  end.

(** One round of the loop of [decodeURIComponent] on a string that is
    not empty: the text to append and the rest of the string. *)
Definition decodeStep (string : jsstring) : outcome (jsstring * jsstring) :=
  match string with
  | [] => ThrowsURIError
  | c :: rest =>
      if negb (c =? PERCENT) then Returns ([c], rest)
      else
        match rest with
        | a :: b :: rest2 =>
            match hexOctet a b with
            | None => ThrowsURIError
            | Some octet =>
                match leadingOnes octet with
                | O => Returns ([octet], rest2)
                | S O => ThrowsURIError
                | S (S more) =>
                    if (2 <? more)%nat then ThrowsURIError
                    else
                      match continuationOctets (S more) rest2 with
                      | None => ThrowsURIError
                      | Some (octets, rest') =>
                          match codePointOf (octet :: octets) with
                          | Some v => Returns (Text.fromScalarValue v, rest')
                          | None => ThrowsURIError
                          end
                      end
                end
            end
        | _ => ThrowsURIError
        end
  end.

(** The loop, for at most [rounds] rounds; every round takes at least
    one character. *)
Fixpoint decodeRounds (rounds : nat) (string : jsstring) : outcome jsstring :=
  match string with
  | [] => Returns []
  | _ :: _ =>
      match rounds with
      | O => ThrowsURIError
      | S rounds' =>
          match decodeStep string with
          | Returns (text, rest) => after text (decodeRounds rounds' rest)
          | ThrowsURIError => ThrowsURIError
          end
      end
  end.

(** [decodeURIComponent(string)] *)
Definition decodeURIComponent (string : jsstring) : outcome jsstring :=
  decodeRounds (length string) string.

(** [bytesToUtf8(bytes)]; [textDecoderDefined] says whether
    [typeof TextDecoder !== 'undefined']. *)
Definition bytesToUtf8 (textDecoderDefined : bool) (bytes : bytes)
  : outcome jsstring :=
  if textDecoderDefined then Returns (Text.utf8Decode bytes)
  else
    let str := map Byte.to_N bytes in
    decodeURIComponent (escape str).

(** [utf8ToBytes(str)]; [textEncoderDefined] says whether
    [typeof TextEncoder !== 'undefined']. *)
Definition utf8ToBytes (textEncoderDefined : bool) (str : jsstring)
  : outcome bytes :=
  if textEncoderDefined then Returns (Text.utf8Encode str)
  else
    match encodeURIComponent str with
    | Returns component =>
        let encoded := unescape component in
        Returns (map byte_of_N encoded)
    | ThrowsURIError => ThrowsURIError
    end.

End NativeFallback.
(* ================================================================== *)
(** * Notions used to state properties of the conversions *)
(* ================================================================== *)

Module Forms.

(** The URL-safe spelling of a base64 text: [-] for [+] and [_] for
    [/]. *)
Definition urlSafe (base64 : jsstring) : jsstring :=
  map (fun c => if c =? 43 then 45 else if c =? 47 then 95 else c) base64.

(** A character [bytesToBase64] can write. *)
Definition isBase64Char (c : N) : bool :=
  existsb (N.eqb c) Native.BASE64_CHARS || (c =? Native.PAD).

(** A character the browser's [base64ToBytes] can accept: one of the
    alphabet, of its URL-safe spelling, a [=] or ASCII whitespace. *)
Definition isBase64Text (c : N) : bool :=
  isBase64Char c || (c =? 45) || (c =? 95) || Browser.isAsciiWhitespace c.

(** The two characters [bytesToHex] writes for a byte. *)
Definition hexOfByte (b : byte) : jsstring :=
  Encoding.padStart 2 48 (Encoding.toString16 (Byte.to_N b)).

(** [String.prototype.toWellFormed]: every surrogate that is not half
    of a pair becomes U+FFFD. *)
Fixpoint toWellFormed (s : jsstring) : jsstring :=
  match s with
  | [] => []
  | c :: rest =>
      if Text.isHighSurrogate c then
        match rest with
        | [] => [Text.REPLACEMENT]
        | d :: rest' =>
            if Text.isLowSurrogate d then c :: d :: toWellFormed rest'
            else Text.REPLACEMENT :: toWellFormed rest
        end
      else if Text.isLowSurrogate c then Text.REPLACEMENT :: toWellFormed rest
      else c :: toWellFormed rest
  end.

(** The string without a U+FEFF at its start. *)
Definition dropByteOrderMark (s : jsstring) : jsstring :=
  match s with
  | c :: rest => if c =? Text.BYTE_ORDER_MARK then rest else s
  | [] => []
  end.

(** Every code unit is 16 bits wide. *)
Definition codeUnits (s : jsstring) : bool := forallb (fun c => c <? 65536) s.

Definition isAscii (c : N) : bool := c <? 128.

(** A character [toUpperCase] leaves as it is, of those an algorithm
    name is written with: a digit, an upper-case ASCII letter, a hyphen
    or a space. *)
Definition isPlainUpper (c : N) : bool :=
  Hash.isDigit c || ((65 <=? c) && (c <=? 90)) || (c =? 45) || (c =? 32).

(** [algorithm] spells the hash [SHA-<digits>]: in upper case it is
    [SHA] and the digits, with or without a hyphen between them. *)
Definition spellsSha (toUpperCase : jsstring -> jsstring)
    (algorithm digits : jsstring) : Prop :=
  digits <> [] /\ forallb Hash.isDigit digits = true
  /\ (toUpperCase algorithm = js "SHA" ++ digits
      \/ toUpperCase algorithm = js "SHA-" ++ digits).

End Forms.
(* ================================================================== *)
(** * Properties: bytes *)
(* ================================================================== *)

Lemma to_N_lt (b : byte) : Byte.to_N b < 256.
Proof. pose proof (Byte.to_N_bounded b). lia. Qed.

Lemma byte_of_to_N (b : byte) : byte_of_N (Byte.to_N b) = b.
Proof.
  unfold byte_of_N. rewrite N.mod_small by apply to_N_lt.
  now rewrite Byte.of_to_N.
Qed.

Lemma to_N_byte_of_N (n : N) : Byte.to_N (byte_of_N n) = n mod 256.
Proof.
  unfold byte_of_N.
  destruct (Byte.of_N (n mod 256)) as [b|] eqn:E.
  - now apply Byte.to_of_N.
  - apply Byte.of_N_None_iff in E.
    pose proof (N.mod_upper_bound n 256). lia.
Qed.

Lemma to_N_inj (a b : byte) : Byte.to_N a = Byte.to_N b -> a = b.
Proof.
  intros H. rewrite <- (byte_of_to_N a), <- (byte_of_to_N b). now rewrite H.
Qed.

Lemma all_bytes_complete (b : byte) : In b all_bytes.
Proof.
  unfold all_bytes. apply in_map_iff.
  exists (N.to_nat (Byte.to_N b)). split.
  - rewrite N2Nat.id. apply byte_of_to_N.
  - apply in_seq. pose proof (to_N_lt b). lia.
Qed.

Lemma forall_bytes_spec (f : byte -> bool) :
  forall_bytes f = true -> forall b, f b = true.
Proof.
  unfold forall_bytes. rewrite forallb_forall.
  intros H b. apply H, all_bytes_complete.
Qed.

Lemma forall_bytes2_spec (f : byte -> byte -> bool) :
  forall_bytes (fun a => forall_bytes (f a)) = true ->
  forall a b, f a b = true.
Proof.
  intros H a b.
  apply (forall_bytes_spec (f a)).
  apply (forall_bytes_spec (fun a => forall_bytes (f a)) H).
Qed.

Lemma byte_eqb_eq (a b : byte) : Byte.eqb a b = true <-> a = b.
Proof.
  split.
  - apply Byte.byte_dec_bl.
  - apply Byte.byte_dec_lb.
Qed.

Lemma byte_eqb_neq (a b : byte) : Byte.eqb a b = false <-> a <> b.
Proof.
  split.
  - apply Byte.eqb_false.
  - intros H. destruct (Byte.eqb a b) eqn:E; [|reflexivity].
    apply byte_eqb_eq in E. contradiction.
Qed.

Lemma byte_eqb_refl (a : byte) : Byte.eqb a a = true.
Proof. now apply byte_eqb_eq. Qed.


(** ** Fallible loops *)

Lemma mapM_ok {A B : Type} (f : A -> result B) (g : A -> B) (l : list A) :
  (forall a, In a l -> f a = Ok (g a)) -> mapM f l = Ok (map g l).
Proof.
  induction l as [|a l IH]; intros H; [reflexivity|].
  simpl. rewrite (H a) by now left. simpl.
  rewrite IH by (intros b Hb; apply H; now right). reflexivity.
Qed.

Lemma mapM_length {A B : Type} (f : A -> result B) (l : list A) (out : list B) :
  mapM f l = Ok out -> length out = length l.
Proof.
  revert out. induction l as [|a l IH]; intros out H.
  - inversion H. reflexivity.
  - simpl in H. destruct (f a) as [b|e]; [|discriminate]. simpl in H.
    destruct (mapM f l) as [bs|e]; [|discriminate]. simpl in H.
    inversion H. simpl. f_equal. now apply IH.
Qed.

Lemma map_nth_seq {A : Type} (d : A) (l : list A) :
  map (fun i => nth i l d) (seq 0 (length l)) = l.
Proof.
  apply (nth_ext _ _ d d).
  - now rewrite length_map, length_seq.
  - intros n Hn. rewrite length_map, length_seq in Hn.
    rewrite (nth_indep _ d (nth 0 l d)) by now rewrite length_map, length_seq.
    rewrite (map_nth (fun i => nth i l d) (seq 0 (length l)) 0%nat n).
    now rewrite seq_nth.
Qed.

Lemma forall_below_spec (n : nat) (f : N -> bool) :
  forall_below n f = true -> forall c, c < N.of_nat n -> f c = true.
Proof.
  unfold forall_below. rewrite forallb_forall. intros H c Hc.
  rewrite <- (N2Nat.id c). apply H. apply in_seq. lia.
Qed.
(* ================================================================== *)
(** * Properties: GF(256) is a field *)
(* ================================================================== *)

Module GF256Facts.
Import GF256.

(** ** Facts checked by running the tables over all bytes *)

Lemma lxor_byte_lt (a b : byte) : N.lxor (Byte.to_N a) (Byte.to_N b) < 256.
Proof.
  apply N.ltb_lt.
  revert a b.
  apply (forall_bytes2_spec
           (fun a b => N.lxor (Byte.to_N a) (Byte.to_N b) <? 256)).
  vm_compute. reflexivity.
Qed.

Lemma to_N_add (a b : byte) :
  Byte.to_N (add a b) = N.lxor (Byte.to_N a) (Byte.to_N b).
Proof.
  unfold add. rewrite to_N_byte_of_N.
  apply N.mod_small, lxor_byte_lt.
Qed.

Lemma exp_log (a : byte) : a <> x00 -> exp (log a) = a /\ log a < 255.
Proof.
  intros Ha.
  assert (H : (Byte.eqb a x00
               || (Byte.eqb (exp (log a)) a && (log a <? 255)))%bool = true).
  { revert a Ha. intros a _. revert a. apply forall_bytes_spec.
    vm_compute. reflexivity. }
  apply byte_eqb_neq in Ha. rewrite Ha in H. simpl in H.
  apply andb_true_iff in H. destruct H as [H1 H2].
  split; [now apply byte_eqb_eq | now apply N.ltb_lt].
Qed.

Lemma log_exp (i : N) : i < 255 -> log (exp i) = i /\ exp i <> x00.
Proof.
  intros Hi.
  assert (H : forallb (fun n => let j := N.of_nat n in
                         (log (exp j) =? j) && negb (Byte.eqb (exp j) x00))
                (seq 0 255) = true) by (vm_compute; reflexivity).
  rewrite forallb_forall in H.
  specialize (H (N.to_nat i)). rewrite N2Nat.id in H. cbv zeta in H.
  assert (Hin : In (N.to_nat i) (seq 0 255)) by (apply in_seq; lia).
  apply H in Hin. apply andb_true_iff in Hin. destruct Hin as [H1 H2].
  split; [now apply N.eqb_eq |].
  apply negb_true_iff in H2. now apply byte_eqb_neq.
Qed.

Lemma log_one : log x01 = 0.
Proof. reflexivity. Qed.

Lemma mul_one_plus (b d : byte) :
  multiply b (add x01 d) = add b (multiply b d).
Proof.
  apply byte_eqb_eq. revert b d.
  apply (forall_bytes2_spec
           (fun b d => Byte.eqb (multiply b (add x01 d)) (add b (multiply b d)))).
  vm_compute. reflexivity.
Qed.

Lemma inv_l (a : byte) : a <> x00 -> multiply (inv a) a = x01.
Proof.
  intros Ha.
  assert (H : (Byte.eqb a x00 || Byte.eqb (multiply (inv a) a) x01)%bool = true).
  { clear Ha. revert a. apply forall_bytes_spec. vm_compute. reflexivity. }
  apply byte_eqb_neq in Ha. rewrite Ha in H. now apply byte_eqb_eq.
Qed.

(** ** Addition *)

Lemma add_comm (a b : byte) : add a b = add b a.
Proof. apply to_N_inj. rewrite !to_N_add. apply N.lxor_comm. Qed.

Lemma add_assoc (a b c : byte) : add a (add b c) = add (add a b) c.
Proof.
  apply to_N_inj. rewrite !to_N_add. symmetry. apply N.lxor_assoc.
Qed.

Lemma add_0_l (a : byte) : add x00 a = a.
Proof. apply to_N_inj. rewrite to_N_add. apply N.lxor_0_l. Qed.

Lemma add_0_r (a : byte) : add a x00 = a.
Proof. rewrite add_comm. apply add_0_l. Qed.

Lemma add_self (a : byte) : add a a = x00.
Proof. apply to_N_inj. rewrite to_N_add. apply N.lxor_nilpotent. Qed.

Lemma add_eq_0 (a b : byte) : add a b = x00 <-> a = b.
Proof.
  split.
  - intros H. apply to_N_inj. apply N.lxor_eq.
    rewrite <- to_N_add, H. reflexivity.
  - intros ->. apply add_self.
Qed.

(** ** Multiplication *)

Lemma mul_0_l (a : byte) : multiply x00 a = x00.
Proof. reflexivity. Qed.

Lemma mul_0_r (a : byte) : multiply a x00 = x00.
Proof. unfold multiply. now rewrite orb_true_r. Qed.

Lemma mul_comm (a b : byte) : multiply a b = multiply b a.
Proof.
  unfold multiply. rewrite orb_comm, N.add_comm. reflexivity.
Qed.

Lemma mul_nonzero (a b : byte) :
  a <> x00 -> b <> x00 ->
  multiply a b = exp ((log a + log b) mod 255).
Proof.
  intros Ha Hb. unfold multiply.
  apply byte_eqb_neq in Ha, Hb. now rewrite Ha, Hb.
Qed.

Lemma mul_eq_0 (a b : byte) : multiply a b = x00 -> a = x00 \/ b = x00.
Proof.
  intros H.
  destruct (Byte.byte_eq_dec a x00) as [|Ha]; [now left|].
  destruct (Byte.byte_eq_dec b x00) as [|Hb]; [now right|].
  exfalso. rewrite mul_nonzero in H by assumption.
  assert (Hlt : (log a + log b) mod 255 < 255) by (apply N.mod_upper_bound; lia).
  now apply (proj2 (log_exp Hlt)).
Qed.

Lemma mul_assoc (a b c : byte) :
  multiply a (multiply b c) = multiply (multiply a b) c.
Proof.
  destruct (Byte.byte_eq_dec a x00) as [->|Ha]; [reflexivity|].
  destruct (Byte.byte_eq_dec b x00) as [->|Hb].
  { now rewrite mul_0_l, !mul_0_r, mul_0_l. }
  destruct (Byte.byte_eq_dec c x00) as [->|Hc].
  { now rewrite !mul_0_r. }
  assert (Hbc : (log b + log c) mod 255 < 255) by (apply N.mod_upper_bound; lia).
  assert (Hab : (log a + log b) mod 255 < 255) by (apply N.mod_upper_bound; lia).
  rewrite (mul_nonzero Hb Hc), (mul_nonzero Ha Hb).
  rewrite (mul_nonzero Ha (proj2 (log_exp Hbc))).
  rewrite (mul_nonzero (proj2 (log_exp Hab)) Hc).
  rewrite (proj1 (log_exp Hbc)), (proj1 (log_exp Hab)).
  f_equal.
  rewrite N.Div0.add_mod_idemp_r, N.Div0.add_mod_idemp_l.
  f_equal. lia.
Qed.

Lemma mul_1_l (a : byte) : multiply x01 a = a.
Proof.
  destruct (Byte.byte_eq_dec a x00) as [->|Ha]; [reflexivity|].
  rewrite mul_nonzero by (assumption || discriminate).
  rewrite log_one, N.add_0_l.
  destruct (exp_log Ha) as [He Hl].
  now rewrite N.mod_small.
Qed.

Lemma mul_add_distr_r (a b c : byte) :
  multiply a (add b c) = add (multiply a b) (multiply a c).
Proof.
  destruct (Byte.byte_eq_dec b x00) as [->|Hb].
  { now rewrite add_0_l, mul_0_r, add_0_l. }
  (* c = b * d with d = c / b *)
  set (d := multiply (inv b) c).
  assert (Hc : c = multiply b d).
  { unfold d. rewrite mul_assoc, (mul_comm b), (inv_l Hb). now rewrite mul_1_l. }
  rewrite Hc at 1.
  rewrite <- mul_one_plus.
  rewrite mul_assoc, mul_one_plus.
  rewrite <- mul_assoc, <- Hc. reflexivity.
Qed.

Lemma mul_add_distr_l (a b c : byte) :
  multiply (add a b) c = add (multiply a c) (multiply b c).
Proof.
  rewrite mul_comm, mul_add_distr_r.
  now rewrite (mul_comm c a), (mul_comm c b).
Qed.

(** ** The field structure, and the [field] tactic for bytes *)

Lemma gf_ring : ring_theory x00 x01 add multiply add opp (@eq byte).
Proof.
  constructor.
  - apply add_0_l.
  - apply add_comm.
  - apply add_assoc.
  - apply mul_1_l.
  - apply mul_comm.
  - apply mul_assoc.
  - apply mul_add_distr_l.
  - reflexivity.
  - apply add_self.
Qed.

Lemma gf_field : field_theory x00 x01 add multiply add opp fdiv inv (@eq byte).
Proof.
  constructor.
  - apply gf_ring.
  - discriminate.
  - reflexivity.
  - apply inv_l.
Qed.

Add Field gf256 : gf_field.

(** ** The table division of the engine against the field division *)

Lemma inv_nonzero (b : byte) : b <> x00 -> inv b = exp ((255 - log b) mod 255).
Proof. intros Hb. unfold inv. apply byte_eqb_neq in Hb. now rewrite Hb. Qed.

Lemma inv_neq_0 (b : byte) : b <> x00 -> inv b <> x00.
Proof.
  intros Hb H. pose proof (inv_l Hb) as E. rewrite H in E. discriminate.
Qed.

Lemma divide_by_zero (a : byte) : divide a x00 = Err DivisionByZero.
Proof. reflexivity. Qed.

Lemma divide_nonzero (a b : byte) :
  a <> x00 -> b <> x00 -> divide a b = Ok (fdiv a b).
Proof.
  intros Ha Hb. unfold divide, fdiv.
  pose proof Hb as Hb'. apply byte_eqb_neq in Hb'. rewrite Hb'. f_equal.
  destruct (exp_log Ha) as [_ Hla]. destruct (exp_log Hb) as [_ Hlb].
  assert (Hi : (255 - log b) mod 255 < 255) by (apply N.mod_upper_bound; lia).
  rewrite (mul_nonzero Ha (inv_neq_0 Hb)).
  rewrite (inv_nonzero Hb), (proj1 (log_exp Hi)).
  f_equal. rewrite N.Div0.add_mod_idemp_r. f_equal. lia.
Qed.

Lemma divide_ok (a b : byte) : b <> x00 -> exists q, divide a b = Ok q.
Proof.
  intros Hb. unfold divide. apply byte_eqb_neq in Hb. rewrite Hb. eauto.
Qed.

End GF256Facts.
(* ================================================================== *)
(** * Properties: polynomials and Lagrange interpolation over GF(256) *)
(* ================================================================== *)

Module PolynomialFacts.
Import GF256 GF256Facts Shamir Polynomial.

(** ** Evaluation is compatible with the operations on coefficients *)

Lemma evaluate_zero (p : list byte) : evaluate p x00 = hd x00 p.
Proof.
  destruct p as [|c p]; [reflexivity|].
  simpl. rewrite mul_0_l. apply add_0_r.
Qed.

Lemma evaluate_padd (p q : list byte) (x : byte) :
  evaluate (padd p q) x = add (evaluate p x) (evaluate q x).
Proof.
  revert q. induction p as [|a p IH]; intros q.
  - simpl. now rewrite add_0_l.
  - destruct q as [|b q]; simpl.
    + now rewrite add_0_r.
    + rewrite IH. ring.
Qed.

Lemma evaluate_pscale (c : byte) (p : list byte) (x : byte) :
  evaluate (pscale c p) x = multiply c (evaluate p x).
Proof.
  induction p as [|a p IH].
  - simpl. now rewrite mul_0_r.
  - change (evaluate (pscale c (a :: p)) x)
      with (add (multiply c a) (multiply x (evaluate (pscale c p) x))).
    rewrite IH. simpl. ring.
Qed.

Lemma evaluate_plinear (a c : byte) (p : list byte) (x : byte) :
  evaluate (plinear a c p) x
  = multiply (multiply (add x a) c) (evaluate p x).
Proof.
  unfold plinear.
  rewrite evaluate_pscale, evaluate_padd, evaluate_pscale.
  simpl. ring.
Qed.

Lemma length_padd (p q : list byte) :
  length (padd p q) = Nat.max (length p) (length q).
Proof.
  revert q. induction p as [|a p IH]; intros [|b q]; simpl; auto.
Qed.

Lemma length_pscale (c : byte) (p : list byte) :
  length (pscale c p) = length p.
Proof. apply length_map. Qed.

Lemma length_plinear (a c : byte) (p : list byte) :
  length (plinear a c p) = S (length p).
Proof.
  unfold plinear. rewrite length_pscale, length_padd, length_pscale.
  simpl. lia.
Qed.

Lemma length_quotient (a : byte) (p : list byte) :
  length (quotient a p) = length p.
Proof. induction p as [|c p IH]; simpl; auto. Qed.

(** ** A polynomial with more roots than coefficients vanishes *)

(** Division by [X + a]: the remainder is the value at [a]. *)
Lemma quotient_spec (a c : byte) (p : list byte) (z : byte) :
  evaluate (c :: p) z
  = add (multiply (add z a) (evaluate (quotient a p) z)) (evaluate (c :: p) a).
Proof.
  revert c. induction p as [|d p IH]; intros c.
  - simpl. ring.
  - change (evaluate (c :: d :: p) z)
      with (add c (multiply z (evaluate (d :: p) z))).
    rewrite (IH d).
    change (evaluate (quotient a (d :: p)) z)
      with (add (evaluate (d :: p) a) (multiply z (evaluate (quotient a p) z))).
    change (evaluate (c :: d :: p) a)
      with (add c (multiply a (evaluate (d :: p) a))).
    generalize (evaluate (d :: p) a) (evaluate (quotient a p) z).
    intros e q.
    (* the two copies of [a * e] cancel: [a] is its own opposite *)
    change (add c (multiply z (add (multiply (add z (opp a)) q) e))
            = add (multiply (add z (opp a)) (add e (multiply z q)))
                  (add c (multiply a e))).
    ring.
Qed.

Theorem roots_bound (xs : list byte) :
  NoDup xs ->
  forall p : list byte,
    (length p <= length xs)%nat ->
    (forall x, In x xs -> evaluate p x = x00) ->
    forall z, evaluate p z = x00.
Proof.
  induction 1 as [|a xs Ha Hnd IH]; intros p Hlen Hroots z.
  - destruct p; [reflexivity | simpl in Hlen; lia].
  - destruct p as [|c p]; [reflexivity|].
    assert (Hq : forall w, evaluate (quotient a p) w = x00).
    { apply IH.
      - rewrite length_quotient. simpl in Hlen. lia.
      - intros x Hx.
        pose proof (quotient_spec a c p x) as E.
        rewrite (Hroots x) in E by now right.
        rewrite (Hroots a) in E by now left.
        rewrite add_0_r in E. symmetry in E.
        apply mul_eq_0 in E. destruct E as [E|E]; [|exact E].
        apply -> add_eq_0 in E. subst x. contradiction. }
    rewrite (quotient_spec a c p z), Hq, (Hroots a) by now left.
    ring.
Qed.

(** ** The Lagrange basis *)

Lemma fdiv_self (a : byte) : a <> x00 -> fdiv a a = x01.
Proof. intros Ha. unfold fdiv. rewrite mul_comm. now apply inv_l. Qed.

Lemma fdiv_0_l (a : byte) : fdiv x00 a = x00.
Proof. reflexivity. Qed.

Lemma basisProduct_node (others : list byte) (xi : byte) :
  ~ In xi others -> basisProduct others xi xi = x01.
Proof.
  induction others as [|xj others IH]; intros Hn; [reflexivity|].
  simpl. rewrite IH by (intros H; apply Hn; now right).
  rewrite fdiv_self; [ring|].
  intros E. apply -> add_eq_0 in E. apply Hn. now left.
Qed.

Lemma basisProduct_other (others : list byte) (xi x : byte) :
  In x others -> basisProduct others xi x = x00.
Proof.
  induction others as [|xj others IH]; intros Hin; [contradiction|].
  simpl. destruct Hin as [->|Hin].
  - rewrite add_self, fdiv_0_l. ring.
  - rewrite IH by assumption. ring.
Qed.

Lemma evaluate_basisCoefficients (others : list byte) (xi x : byte) :
  evaluate (basisCoefficients others xi) x = basisProduct others xi x.
Proof.
  induction others as [|xj others IH].
  - simpl. ring.
  - simpl. rewrite evaluate_plinear, IH. reflexivity.
Qed.

Lemma length_basisCoefficients (others : list byte) (xi : byte) :
  length (basisCoefficients others xi) = S (length others).
Proof.
  induction others as [|xj others IH]; [reflexivity|].
  simpl. now rewrite length_plinear, IH.
Qed.

(** ** Removing one element of a list *)

Lemma length_skip_nth {A : Type} (k : nat) (l : list A) :
  (k < length l)%nat -> S (length (skip_nth k l)) = length l.
Proof.
  intros Hk. unfold skip_nth.
  rewrite length_app, length_firstn, length_skipn. lia.
Qed.

Lemma skip_nth_cons {A : Type} (k : nat) (a : A) (l : list A) :
  skip_nth (S k) (a :: l) = a :: skip_nth k l.
Proof. reflexivity. Qed.

Lemma in_skip_nth {A : Type} (d : A) (i m : nat) (l : list A) :
  (m < length l)%nat -> i <> m -> In (nth m l d) (skip_nth i l).
Proof.
  revert i m. induction l as [|a l IH]; intros i m Hm Hne.
  - simpl in Hm. lia.
  - destruct i as [|i], m as [|m]; simpl in *.
    + congruence.
    + unfold skip_nth. simpl. apply nth_In. lia.
    + now left.
    + right. apply IH; lia.
Qed.

Lemma skip_nth_incl {A : Type} (i : nat) (l : list A) (a : A) :
  In a (skip_nth i l) -> In a l.
Proof.
  unfold skip_nth. intros H. apply in_app_or in H. destruct H as [H|H].
  - rewrite <- (firstn_skipn i l). apply in_or_app. now left.
  - rewrite <- (firstn_skipn (S i) l). apply in_or_app. now right.
Qed.

Lemma NoDup_skip_nth {A : Type} (d : A) (i : nat) (l : list A) :
  NoDup l -> (i < length l)%nat -> ~ In (nth i l d) (skip_nth i l).
Proof.
  intros Hnd. revert i. induction Hnd as [|a l Ha Hnd IH]; intros i Hi.
  - simpl in Hi. lia.
  - destruct i as [|i].
    + exact Ha.
    + rewrite skip_nth_cons. simpl. intros [E|H].
      * apply Ha. rewrite E. apply nth_In. simpl in Hi. lia.
      * apply (IH i); [simpl in Hi; lia | exact H].
Qed.

(** ** The interpolating sum takes the sampled values at the nodes *)

Lemma gf_sum_single (f : nat -> byte) (indices : list nat) (m : nat) :
  NoDup indices -> In m indices ->
  (forall i, In i indices -> i <> m -> f i = x00) ->
  gf_sum (map f indices) = f m.
Proof.
  induction 1 as [|i indices Hi Hnd IH]; intros Hin Hz; [contradiction|].
  simpl. destruct Hin as [->|Hin].
  - assert (E : gf_sum (map f indices) = x00).
    { clear IH. induction indices as [|j indices IH]; [reflexivity|].
      simpl. rewrite (Hz j).
      - rewrite add_0_l. apply IH.
        + intros H. apply Hi. now right.
        + now inversion Hnd.
        + intros k Hk. apply Hz. simpl in *. tauto.
      - simpl. tauto.
      - intros ->. apply Hi. now left. }
    rewrite E. apply add_0_r.
  - rewrite (Hz i).
    + rewrite add_0_l. apply IH; [exact Hin|].
      intros k Hk. apply Hz. now right.
    + now left.
    + intros ->. contradiction.
Qed.

Lemma lagrangeSum_node (xs ys : list byte) (m : nat) :
  NoDup xs -> (m < length xs)%nat ->
  lagrangeSum xs ys (nth m xs x00) = nth m ys x00.
Proof.
  intros Hnd Hm. unfold lagrangeSum.
  rewrite (gf_sum_single (lagrangeTerm xs ys (nth m xs x00))
             (indices := seq 0 (length xs)) (m := m)).
  - unfold lagrangeTerm.
    rewrite basisProduct_node by now apply NoDup_skip_nth.
    ring.
  - apply seq_NoDup.
  - apply in_seq. lia.
  - intros i Hi Hne. unfold lagrangeTerm.
    rewrite basisProduct_other by now apply in_skip_nth.
    ring.
Qed.

(** ** The interpolating sum is a polynomial with few coefficients *)

Lemma evaluate_fold_padd (ps : list (list byte)) (x : byte) :
  evaluate (fold_right padd [] ps) x
  = gf_sum (map (fun p => evaluate p x) ps).
Proof.
  induction ps as [|p ps IH]; [reflexivity|].
  simpl. now rewrite evaluate_padd, IH.
Qed.

Lemma length_fold_padd (n : nat) (ps : list (list byte)) :
  Forall (fun p => length p <= n)%nat ps ->
  (length (fold_right padd [] ps) <= n)%nat.
Proof.
  induction 1 as [|p ps Hp _ IH]; simpl; [lia|].
  rewrite length_padd. lia.
Qed.

Lemma evaluate_lagrangeCoefficients (xs ys : list byte) (x : byte) :
  evaluate (lagrangeCoefficients xs ys) x = lagrangeSum xs ys x.
Proof.
  unfold lagrangeCoefficients, lagrangeSum.
  rewrite evaluate_fold_padd, map_map. f_equal.
  apply map_ext. intros i. unfold lagrangeTerm.
  now rewrite evaluate_pscale, evaluate_basisCoefficients.
Qed.

Lemma length_lagrangeCoefficients (xs ys : list byte) :
  (length (lagrangeCoefficients xs ys) <= length xs)%nat.
Proof.
  unfold lagrangeCoefficients. apply length_fold_padd.
  apply Forall_forall. intros p Hp.
  apply in_map_iff in Hp. destruct Hp as [i [<- Hi]].
  apply in_seq in Hi.
  rewrite length_pscale, length_basisCoefficients, length_skip_nth; lia.
Qed.

(** ** Lagrange interpolation recovers a polynomial from enough samples *)

Theorem lagrange_interpolation (xs p : list byte) :
  NoDup xs -> (length p <= length xs)%nat ->
  forall z, lagrangeSum xs (map (evaluate p) xs) z = evaluate p z.
Proof.
  intros Hnd Hlen z.
  set (ys := map (evaluate p) xs).
  apply add_eq_0.
  rewrite <- evaluate_lagrangeCoefficients, <- evaluate_padd.
  apply (roots_bound Hnd).
  - rewrite length_padd.
    pose proof (length_lagrangeCoefficients xs ys). lia.
  - intros x Hx.
    destruct (In_nth xs x x00 Hx) as [m [Hm <-]].
    rewrite evaluate_padd, evaluate_lagrangeCoefficients.
    rewrite (lagrangeSum_node ys Hnd Hm).
    apply add_eq_0. unfold ys.
    rewrite (nth_indep _ x00 (evaluate p x00)) by now rewrite length_map.
    apply map_nth.
Qed.

End PolynomialFacts.
(* ================================================================== *)
(** * Properties: the Shamir engine *)
(* ================================================================== *)

Module ShamirFacts.
Import GF256 GF256Facts Shamir Polynomial PolynomialFacts.

(** ** The interpolation loops compute the Lagrange sum *)

Lemma divide_table (a b : byte) :
  b <> x00 -> divide a b = Ok (tableQuotient a b).
Proof.
  intros Hb. unfold divide. apply byte_eqb_neq in Hb. now rewrite Hb.
Qed.

Lemma tableQuotient_fdiv (a b : byte) :
  a <> x00 -> b <> x00 -> tableQuotient a b = fdiv a b.
Proof.
  intros Ha Hb.
  pose proof (divide_nonzero Ha Hb) as E.
  rewrite (divide_table a Hb) in E. now inversion E.
Qed.

Lemma add_neq_0 (a b : byte) : a <> b -> add a b <> x00.
Proof. intros Hne E. apply Hne. now apply add_eq_0. Qed.

Lemma basisPolynomial_table (xs : list byte) (j i : nat) (xi x : byte) :
  (forall xj, In xj (others_from j i xs) -> xj <> xi) ->
  basisPolynomial xs j i xi x = Ok (tableBasis (others_from j i xs) xi x).
Proof.
  revert j. induction xs as [|xj xs IH]; intros j Hne.
  - unfold others_from, skip_nth. simpl.
    destruct (j <=? i)%nat; simpl; [|reflexivity].
    now rewrite firstn_nil.
  - simpl. destruct (Nat.eqb_spec j i) as [->|Hji].
    + rewrite IH.
      * unfold others_from. rewrite Nat.leb_refl, Nat.sub_diag.
        destruct (Nat.leb_spec (S i) i); [lia|]. reflexivity.
      * intros y Hy. apply Hne. unfold others_from in *.
        rewrite Nat.leb_refl, Nat.sub_diag.
        destruct (Nat.leb_spec (S i) i); [lia|]. exact Hy.
    + assert (E : others_from j i (xj :: xs) = xj :: others_from (S j) i xs).
      { unfold others_from.
        destruct (Nat.leb_spec j i), (Nat.leb_spec (S j) i); try lia.
        - replace (i - j)%nat with (S (i - S j)) by lia. reflexivity.
        - reflexivity. }
      rewrite E in *.
      assert (Hxj : xj <> xi) by (apply Hne; now left).
      rewrite divide_table by (apply add_neq_0; congruence).
      simpl. rewrite IH by (intros y Hy; apply Hne; now right).
      reflexivity.
Qed.

Lemma interpolateLoop_table (xs ys : list byte) (x : byte) :
  NoDup xs ->
  forall (samples : list (byte * byte)) (i : nat),
    (forall k, (k < length samples)%nat ->
               nth k samples (x00, x00)
               = (nth (i + k) xs x00, nth (i + k) ys x00)) ->
    (i + length samples = length xs)%nat ->
    interpolateLoop xs samples i x
    = Ok (gf_sum (map (tableTerm xs ys x) (seq i (length samples)))).
Proof.
  intros Hnd samples.
  induction samples as [|[xi yi] samples IH]; intros i Hnth Hlen.
  - reflexivity.
  - simpl in Hlen.
    pose proof (Hnth 0%nat ltac:(simpl; lia)) as E0.
    simpl in E0. rewrite Nat.add_0_r in E0. inversion E0; subst xi yi.
    cbn [interpolateLoop].
    rewrite basisPolynomial_table.
    + simpl. rewrite (IH (S i)).
      * unfold others_from. simpl. rewrite Nat.sub_0_r. reflexivity.
      * intros k Hk. specialize (Hnth (S k) ltac:(simpl; lia)).
        simpl in Hnth. rewrite Hnth. now rewrite Nat.add_succ_r.
      * lia.
    + unfold others_from. simpl. rewrite Nat.sub_0_r.
      intros y Hy E. subst y.
      revert Hy. apply NoDup_skip_nth; [assumption | lia].
Qed.

Lemma interpolatePolynomial_table (xs ys : list byte) (x : byte) :
  NoDup xs -> length ys = length xs ->
  interpolatePolynomial xs ys x = Ok (tableSum xs ys x).
Proof.
  intros Hnd Hlen. unfold interpolatePolynomial, tableSum.
  rewrite (@interpolateLoop_table xs ys x Hnd (combine xs ys) 0%nat).
  - now rewrite length_combine, Hlen, Nat.min_id.
  - intros k Hk. simpl. apply combine_nth. now symmetry.
  - rewrite length_combine, Hlen, Nat.min_id. reflexivity.
Qed.

Lemma tableBasis_basisProduct (others : list byte) (xi x : byte) :
  ~ In x others -> ~ In xi others ->
  tableBasis others xi x = basisProduct others xi x.
Proof.
  induction others as [|xj others IH]; intros Hx Hxi; [reflexivity|].
  simpl in Hx, Hxi. simpl.
  rewrite IH by tauto.
  rewrite tableQuotient_fdiv; [reflexivity | |];
    apply add_neq_0; intros ->; tauto.
Qed.

Lemma tableSum_lagrangeSum (xs ys : list byte) (x : byte) :
  NoDup xs -> ~ In x xs -> tableSum xs ys x = lagrangeSum xs ys x.
Proof.
  intros Hnd Hx. unfold tableSum, lagrangeSum. f_equal.
  apply map_ext_in. intros i Hi. apply in_seq in Hi.
  unfold tableTerm, lagrangeTerm. f_equal.
  apply tableBasis_basisProduct.
  - intros H. apply Hx. eapply skip_nth_incl, H.
  - apply NoDup_skip_nth; [assumption | lia].
Qed.

(** Interpolating at a point that is not a sample recovers the value
    of the polynomial the samples were taken from. *)
Theorem interpolatePolynomial_evaluate (xs p : list byte) (x : byte) :
  NoDup xs -> ~ In x xs -> (length p <= length xs)%nat ->
  interpolatePolynomial xs (map (evaluate p) xs) x = Ok (evaluate p x).
Proof.
  intros Hnd Hx Hlen.
  rewrite interpolatePolynomial_table by (assumption || apply length_map).
  rewrite tableSum_lagrangeSum by assumption.
  now rewrite lagrange_interpolation.
Qed.

(** ** The input checks of [shamirCombine] *)

Lemma existsb_eqb_In (x : byte) (l : list byte) :
  existsb (Byte.eqb x) l = true <-> In x l.
Proof.
  rewrite existsb_exists. split.
  - intros [y [Hy E]]. apply byte_eqb_eq in E. now subst.
  - intros H. exists x. split; [assumption | apply byte_eqb_refl].
Qed.

Lemma checkShares_spec (n : nat) (shares : list bytes) :
  match checkShares n shares with
  | Ok _ => forall s, In s shares -> length s = n /\ (2 <= length s)%nat
  | Err e =>
      (e = Error LENGTH_MESSAGE /\ exists s, In s shares /\ length s <> n)
      \/ (e = Error SHORT_MESSAGE
          /\ exists s, In s shares /\ (length s < 2)%nat)
  end.
Proof.
  induction shares as [|share shares IH]; cbn [checkShares].
  - intros s [].
  - destruct (Nat.eqb_spec (length share) n) as [E|E]; cbv iota.
    + destruct (Nat.leb_spec 2 (length share)) as [L|L]; cbv iota.
      * destruct (checkShares n shares) as [u|e].
        -- intros s [<-|Hs]; [now split | now apply IH].
        -- destruct IH as [[-> [s [Hs Hl]]]|[-> [s [Hs Hl]]]];
             [left | right]; (split; [reflexivity|]); exists s;
               (split; [now right | assumption]).
      * right. split; [reflexivity|]. exists share. split; [now left | lia].
    + left. split; [reflexivity|]. exists share. split; [now left | assumption].
Qed.

Lemma collectSamples_spec (shares : list bytes) (seen : list byte) :
  match collectSamples seen shares with
  | Ok xs =>
      xs = map xCoordinate shares /\ NoDup xs
      /\ (forall x, In x xs -> ~ In x seen)
  | Err e =>
      e = Error DUPLICATE_MESSAGE
      /\ ~ (NoDup (map xCoordinate shares)
            /\ forall x, In x (map xCoordinate shares) -> ~ In x seen)
  end.
Proof.
  revert seen. induction shares as [|share shares IH]; intros seen; simpl.
  - repeat split; [constructor | intros x []].
  - destruct (existsb (Byte.eqb (xCoordinate share)) seen) eqn:E; simpl.
    + split; [reflexivity|]. intros [_ H].
      apply existsb_eqb_In in E. apply (H (xCoordinate share)); tauto.
    + assert (Hn : ~ In (xCoordinate share) seen).
      { intros H. apply existsb_eqb_In in H. congruence. }
      specialize (IH (xCoordinate share :: seen)).
      destruct (collectSamples (xCoordinate share :: seen) shares) as [xs|e];
        simpl.
      * destruct IH as [-> [Hnd Hseen]]. repeat split.
        -- constructor; [|assumption].
           intros H. apply (Hseen _ H). now left.
        -- intros x [<-|Hx]; [assumption|].
           intros H. apply (Hseen _ Hx). now right.
      * destruct IH as [-> Hbad]. split; [reflexivity|].
        intros [Hnd Hseen]. apply Hbad. inversion Hnd; subst. split.
        -- assumption.
        -- intros x Hx [<-|H]; [contradiction|].
           apply (Hseen x); tauto.
Qed.

Lemma sameByteLength_hd (shares : list bytes) :
  sameByteLength shares <->
  forall s, In s shares -> length s = length (hd [] shares).
Proof.
  split.
  - intros H s Hs. destruct shares as [|s0 shares]; [contradiction|].
    apply H; [assumption | now left].
  - intros H s1 s2 H1 H2. now rewrite (H s1), (H s2).
Qed.

Lemma shamirCombine_accepts (shares : list bytes) :
  countInRange shares -> sameByteLength shares ->
  atLeastTwoBytes shares -> uniqueCoordinates shares ->
  shamirCombine shares = Ok (combinedBytes shares).
Proof.
  intros [Hc1 Hc2] Hsame Hlong Huniq. unfold shamirCombine.
  destruct (Nat.leb_spec 2 (length shares)); [|lia].
  destruct (Nat.leb_spec (length shares) 255); [|lia].
  cbn [andb].
  pose proof (checkShares_spec (length (hd [] shares)) shares) as Hchk.
  destruct (checkShares (length (hd [] shares)) shares) as [u|e].
  - cbn [bind].
    pose proof (collectSamples_spec shares []) as Hcol.
    destruct (collectSamples [] shares) as [xs|e].
    + destruct Hcol as [-> [Hnd _]]. cbn [bind].
      apply mapM_ok. intros i _.
      apply interpolatePolynomial_table; [assumption|].
      now rewrite !length_map.
    + exfalso. destruct Hcol as [_ Hbad]. apply Hbad. split; [assumption|].
      intros x _ [].
  - exfalso. pose proof (proj1 (sameByteLength_hd shares) Hsame) as Hhd.
    destruct Hchk as [[_ [s [Hs Hl]]]|[_ [s [Hs Hl]]]].
    + now apply Hl, Hhd.
    + specialize (Hlong s Hs). lia.
Qed.

Lemma shamirCombine_rejects (shares : list bytes) (e : exn) :
  shamirCombine shares = Err e ->
  (e = Error COUNT_MESSAGE /\ ~ countInRange shares)
  \/ (e = Error LENGTH_MESSAGE /\ ~ sameByteLength shares)
  \/ (e = Error SHORT_MESSAGE /\ ~ atLeastTwoBytes shares)
  \/ (e = Error DUPLICATE_MESSAGE /\ ~ uniqueCoordinates shares).
Proof.
  unfold shamirCombine. intros H.
  destruct (Nat.leb_spec 2 (length shares)) as [L1|L1];
    [destruct (Nat.leb_spec (length shares) 255) as [L2|L2]|];
    cbn [andb] in H.
  - pose proof (checkShares_spec (length (hd [] shares)) shares) as Hchk.
    destruct (checkShares (length (hd [] shares)) shares) as [u|e'].
    + cbn [bind] in H.
      pose proof (collectSamples_spec shares []) as Hcol.
      destruct (collectSamples [] shares) as [xs|e'].
      * exfalso. destruct Hcol as [-> [Hnd _]]. cbn [bind] in H.
        rewrite (@mapM_ok _ _ _
                   (fun i => tableSum (map xCoordinate shares)
                               (map (fun share => nth i share x00) shares) x00))
          in H; [discriminate|].
        intros i _. apply interpolatePolynomial_table; [assumption|].
        now rewrite !length_map.
      * cbn [bind] in H. inversion H; subst e'.
        destruct Hcol as [-> Hbad].
        right; right; right. split; [reflexivity|].
        intros Hu. apply Hbad. split; [exact Hu | intros x _ []].
    + cbn [bind] in H. inversion H; subst e'.
      destruct Hchk as [[-> [s [Hs Hl]]]|[-> [s [Hs Hl]]]].
      * right; left. split; [reflexivity|].
        intros Hsame. apply Hl.
        now apply (proj1 (sameByteLength_hd shares) Hsame).
      * right; right; left. split; [reflexivity|].
        intros Hlong. specialize (Hlong s Hs). lia.
  - inversion H. left. split; [reflexivity|]. unfold countInRange. lia.
  - inversion H. left. split; [reflexivity|]. unfold countInRange. lia.
Qed.

(** ** The shares [shamirSplit] returns *)

Lemma distinctFrom_spec (xs seen : list byte) :
  distinctFrom seen xs = true ->
  NoDup xs /\ forall x, In x xs -> ~ In x seen.
Proof.
  revert seen. induction xs as [|x xs IH]; intros seen H.
  - split; [constructor | intros x []].
  - cbn [distinctFrom] in H. apply andb_true_iff in H. destruct H as [H1 H2].
    apply negb_true_iff in H1.
    assert (Hx : ~ In x seen).
    { intros Hin. apply existsb_eqb_In in Hin. congruence. }
    destruct (IH _ H2) as [Hnd Hseen]. split.
    + constructor; [|assumption]. intros Hin. apply (Hseen _ Hin). now left.
    + intros y [<-|Hy]; [assumption|].
      intros Hin. apply (Hseen _ Hy). now right.
Qed.

Lemma length_drawnCoordinates (rnd : Randomness) (n : nat) :
  length (drawnCoordinates rnd n) = n.
Proof. unfold drawnCoordinates. now rewrite length_map, length_seq. Qed.

Lemma valid_randomness_spec (rnd : Randomness) (n : nat) :
  valid_randomness rnd n = true ->
  NoDup (drawnCoordinates rnd n) /\ ~ In x00 (drawnCoordinates rnd n).
Proof.
  unfold valid_randomness. intros H.
  apply andb_true_iff in H. destruct H as [H1 H2]. split.
  - now apply (distinctFrom_spec _ [] H1).
  - intros Hin. apply existsb_eqb_In in Hin.
    apply negb_true_iff in H2. congruence.
Qed.

Lemma shamirSplit_accepts (rnd : Randomness) (secret : bytes) (n t : nat) :
  (1 <= length secret)%nat -> (2 <= t)%nat -> (t <= n)%nat -> (n <= 255)%nat ->
  shamirSplit rnd secret n t
  = Ok (map (makeShare (newPolynomials rnd secret t)) (drawnCoordinates rnd n)).
Proof.
  intros Hs Ht Htn Hn. unfold shamirSplit.
  destruct (Nat.eqb_spec (length secret) 0); [lia|]. cbn [negb].
  destruct (Nat.leb_spec 2 n); [|lia].
  destruct (Nat.leb_spec n 255); [|lia].
  destruct (Nat.leb_spec 2 t); [|lia].
  destruct (Nat.leb_spec t 255); [|lia].
  destruct (Nat.leb_spec t n); [|lia].
  reflexivity.
Qed.

(** The shares of a split that returns. *)
Lemma shamirSplit_inversion (rnd : Randomness) (secret : bytes) (n t : nat)
    (shares : list bytes) :
  shamirSplit rnd secret n t = Ok shares ->
  (1 <= length secret)%nat
  /\ shares
     = map (makeShare (newPolynomials rnd secret t)) (drawnCoordinates rnd n).
Proof.
  unfold shamirSplit. intros H.
  destruct (Nat.eqb_spec (length secret) 0); [discriminate|].
  repeat match type of H with
         | (if ?c then _ else _) = _ => destruct c; [|discriminate]
         end.
  inversion H. split; [lia | reflexivity].
Qed.

Lemma xCoordinate_makeShare (ps : list (list byte)) (x : byte) :
  xCoordinate (makeShare ps x) = x.
Proof. unfold xCoordinate, makeShare. apply last_last. Qed.

Lemma length_makeShare (ps : list (list byte)) (x : byte) :
  length (makeShare ps x) = S (length ps).
Proof.
  unfold makeShare. rewrite length_app, length_map. simpl. lia.
Qed.

Lemma nth_makeShare (ps : list (list byte)) (x : byte) (i : nat) :
  (i < length ps)%nat ->
  nth i (makeShare ps x) x00 = evaluate (nth i ps []) x.
Proof.
  intros Hi. unfold makeShare.
  rewrite app_nth1 by now rewrite length_map.
  change x00 with (evaluate [] x).
  apply (map_nth (fun p => evaluate p x)).
Qed.

Lemma length_newPolynomials (rnd : Randomness) (secret : bytes) (t : nat) :
  length (newPolynomials rnd secret t) = length secret.
Proof. unfold newPolynomials. now rewrite length_map, length_seq. Qed.

Lemma nth_newPolynomials (rnd : Randomness) (secret : bytes) (t i : nat) :
  (i < length secret)%nat ->
  nth i (newPolynomials rnd secret t) []
  = newCoefficients (nth i secret x00) (t - 1) (coefficients rnd i).
Proof.
  intros Hi. unfold newPolynomials.
  rewrite (nth_indep _ []
             ((fun i => newCoefficients (nth i secret x00) (t - 1)
                          (coefficients rnd i)) 0%nat))
    by now rewrite length_map, length_seq.
  rewrite (map_nth (fun i => newCoefficients (nth i secret x00) (t - 1)
                               (coefficients rnd i))).
  now rewrite seq_nth.
Qed.

Lemma length_newCoefficients (intercept : byte) (degree : nat)
    (draws : nat -> byte) :
  length (newCoefficients intercept degree draws) = S degree.
Proof.
  unfold newCoefficients. cbn [length]. now rewrite length_map, length_seq.
Qed.

(** ** Split then combine *)

(** A duplicate-free selection of shares of one split is the image of a
    duplicate-free selection of its x-coordinates. *)
Lemma subset_of_shares (ps : list (list byte)) (xs : list byte)
    (subset : list bytes) :
  NoDup subset -> incl subset (map (makeShare ps) xs) ->
  let ys := map xCoordinate subset in
  subset = map (makeShare ps) ys /\ NoDup ys /\ incl ys xs.
Proof.
  intros Hnd Hincl ys.
  assert (Hshape : forall s, In s subset ->
                     In (xCoordinate s) xs /\ s = makeShare ps (xCoordinate s)).
  { intros s Hs. apply Hincl, in_map_iff in Hs.
    destruct Hs as [x [<- Hx]]. now rewrite xCoordinate_makeShare. }
  assert (E : subset = map (makeShare ps) ys).
  { unfold ys. rewrite map_map.
    rewrite <- (map_id subset) at 1.
    apply map_ext_in. intros s Hs. now apply Hshape. }
  repeat split.
  - exact E.
  - rewrite E in Hnd. now apply NoDup_map_inv in Hnd.
  - intros y Hy. apply in_map_iff in Hy. destruct Hy as [s [<- Hs]].
    now apply Hshape.
Qed.

Lemma combinedBytes_of_split (rnd : Randomness) (secret : bytes) (t : nat)
    (ys : list byte) :
  (1 <= t)%nat -> (t <= length ys)%nat -> NoDup ys -> ~ In x00 ys ->
  combinedBytes (map (makeShare (newPolynomials rnd secret t)) ys) = secret.
Proof.
  intros Ht Hlen Hnd Hz.
  set (ps := newPolynomials rnd secret t).
  assert (Hps : length ps = length secret)
    by apply length_newPolynomials.
  unfold combinedBytes.
  assert (Hhd : (length (hd [] (map (makeShare ps) ys)) - 1)%nat
                = length secret).
  { destruct ys as [|y ys]; [simpl in Hlen; lia|].
    simpl. rewrite length_makeShare. lia. }
  rewrite Hhd.
  rewrite <- (map_nth_seq x00 secret) at 2.
  apply map_ext_in. intros i Hi. apply in_seq in Hi.
  rewrite !map_map.
  rewrite (map_ext _ (fun y => y) (fun y => xCoordinate_makeShare ps y)).
  rewrite map_id.
  rewrite (map_ext _ (evaluate (nth i ps []))
             (fun y => nth_makeShare ps y (i := i) ltac:(lia))).
  rewrite tableSum_lagrangeSum by assumption.
  assert (Hp : length (nth i ps []) = t).
  { unfold ps. rewrite nth_newPolynomials by lia.
    rewrite length_newCoefficients. lia. }
  rewrite lagrange_interpolation by (assumption || lia).
  rewrite evaluate_zero. unfold ps.
  rewrite nth_newPolynomials by lia. reflexivity.
Qed.

(** Any duplicate-free selection of at least [t] of the shares of a
    split with distinct nonzero x-coordinates combines to the secret. *)
Lemma combine_selection (rnd : Randomness) (secret : bytes) (n t : nat)
    (subset : list bytes) :
  (1 <= length secret)%nat -> (2 <= t)%nat -> (n <= 255)%nat ->
  valid_randomness rnd n = true ->
  NoDup subset ->
  incl subset
    (map (makeShare (newPolynomials rnd secret t)) (drawnCoordinates rnd n)) ->
  (t <= length subset)%nat ->
  shamirCombine subset = Ok secret.
Proof.
  intros Hs Ht Hn Hrnd Hnd Hincl Hlen.
  destruct (valid_randomness_spec _ _ Hrnd) as [Hxnd Hxz].
  destruct (@subset_of_shares _ _ _ Hnd Hincl) as [E [Hynd Hyincl]].
  set (ys := map xCoordinate subset) in *.
  assert (Hylen : length ys = length subset) by apply length_map.
  assert (Hyle : (length ys <= n)%nat).
  { rewrite <- (length_drawnCoordinates rnd n).
    now apply NoDup_incl_length. }
  rewrite shamirCombine_accepts.
  - f_equal. rewrite E.
    apply combinedBytes_of_split; try assumption; try lia.
    intros Hin. apply Hxz. now apply Hyincl.
  - unfold countInRange. lia.
  - intros s1 s2 H1 H2. rewrite E in H1, H2.
    apply in_map_iff in H1, H2.
    destruct H1 as [y1 [<- _]], H2 as [y2 [<- _]].
    now rewrite !length_makeShare.
  - intros s H. rewrite E in H. apply in_map_iff in H.
    destruct H as [y [<- _]].
    rewrite length_makeShare, length_newPolynomials. lia.
  - exact Hynd.
Qed.

(** C1. Split / combine round trip: for every non-empty secret and every
    [(shareCount, threshold)] with [2 <= threshold <= shareCount <= 255],
    whatever the random draws of the split are (distinct nonzero
    x-coordinates, arbitrary coefficients), [shamirSplit] returns
    [shareCount] shares, and [shamirCombine] applied to any selection of
    at least [threshold] of them, in any order, returns exactly the
    secret. *)
Theorem shamir_split_combine_roundtrip
    (rnd : Randomness) (secret : bytes) (shareCount threshold : nat) :
  (1 <= length secret)%nat ->
  (2 <= threshold)%nat -> (threshold <= shareCount)%nat ->
  (shareCount <= 255)%nat ->
  valid_randomness rnd shareCount = true ->
  exists shares,
    shamirSplit rnd secret shareCount threshold = Ok shares
    /\ length shares = shareCount
    /\ forall subset,
         NoDup subset -> incl subset shares ->
         (threshold <= length subset)%nat ->
         shamirCombine subset = Ok secret.
Proof.
  intros Hs Ht Htn Hn Hrnd.
  exists (map (makeShare (newPolynomials rnd secret threshold))
            (drawnCoordinates rnd shareCount)).
  split; [now apply shamirSplit_accepts|].
  split; [now rewrite length_map, length_drawnCoordinates|].
  intros subset Hnd Hincl Hlen.
  now apply (@combine_selection rnd secret shareCount threshold subset).
Qed.


(** The round trip at a 2-of-3 split of three bytes. *)
Lemma shamir_split_combine_roundtrip_witness :
  exists shares,
    shamirSplit exampleRandomness exampleSecret 3 2 = Ok shares
    /\ length shares = 3%nat
    /\ forall subset,
         NoDup subset -> incl subset shares ->
         (2 <= length subset)%nat ->
         shamirCombine subset = Ok exampleSecret.
Proof.
  apply (@shamir_split_combine_roundtrip exampleRandomness exampleSecret 3 2).
  - simpl. lia.
  - lia.
  - lia.
  - lia.
  - reflexivity.
Defined.

(** ** Which inputs [shamirCombine] rejects *)

Lemma length_combinedBytes (shares : list bytes) :
  length (combinedBytes shares) = (length (hd [] shares) - 1)%nat.
Proof. unfold combinedBytes. now rewrite length_map, length_seq. Qed.

Lemma shamirCombine_mixed_splits
    (rnd1 rnd2 : Randomness) (secret1 secret2 : bytes) (n t : nat)
    (shares1 shares2 : list bytes) (s1 s2 : bytes) :
  shamirSplit rnd1 secret1 n t = Ok shares1 ->
  shamirSplit rnd2 secret2 n t = Ok shares2 ->
  length secret1 = length secret2 ->
  In s1 shares1 -> In s2 shares2 ->
  xCoordinate s1 <> xCoordinate s2 ->
  exists garbage,
    shamirCombine [s1; s2] = Ok garbage /\ length garbage = length secret1.
Proof.
  intros H1 H2 Hlen Hs1 Hs2 Hx.
  destruct (shamirSplit_inversion _ _ _ _ H1) as [Hne1 ->].
  destruct (shamirSplit_inversion _ _ _ _ H2) as [Hne2 ->].
  assert (L1 : length s1 = S (length secret1)).
  { apply in_map_iff in Hs1. destruct Hs1 as [x [<- _]].
    now rewrite length_makeShare, length_newPolynomials. }
  assert (L2 : length s2 = S (length secret2)).
  { apply in_map_iff in Hs2. destruct Hs2 as [x [<- _]].
    now rewrite length_makeShare, length_newPolynomials. }
  exists (combinedBytes [s1; s2]). split.
  - apply shamirCombine_accepts.
    + unfold countInRange. simpl. lia.
    + intros a b [<-|[<-|[]]] [<-|[<-|[]]]; lia.
    + intros a [<-|[<-|[]]]; lia.
    + unfold uniqueCoordinates. simpl.
      repeat constructor; simpl; intuition congruence.
  - rewrite length_combinedBytes. simpl. lia.
Qed.

Lemma shamirCombine_ok_inv (shares : list bytes) (secret : bytes) :
  shamirCombine shares = Ok secret ->
  countInRange shares /\ sameByteLength shares
  /\ atLeastTwoBytes shares /\ uniqueCoordinates shares.
Proof.
  unfold shamirCombine. intros H.
  destruct (Nat.leb_spec 2 (length shares)) as [L1|L1];
    [destruct (Nat.leb_spec (length shares) 255) as [L2|L2]|];
    cbn [andb] in H; try discriminate.
  pose proof (checkShares_spec (length (hd [] shares)) shares) as Hchk.
  destruct (checkShares (length (hd [] shares)) shares) as [u|e];
    [|discriminate].
  cbn [bind] in H.
  pose proof (collectSamples_spec shares []) as Hcol.
  destruct (collectSamples [] shares) as [xs|e]; [|discriminate].
  destruct Hcol as [-> [Hnd _]].
  repeat split.
  - assumption.
  - assumption.
  - apply sameByteLength_hd. intros s Hs. now apply Hchk.
  - intros s Hs. now apply Hchk.
  - exact Hnd.
Qed.

(** C3. [shamirCombine] fails exactly when its input violates one of
    the four conditions (2 to 255 shares, equal byte lengths, at least 2
    bytes each, pairwise distinct trailing x-coordinate bytes); every
    failure carries one of four pairwise distinct messages, and the
    message names a condition the input violates; every input that
    satisfies the four conditions yields bytes, one fewer than a share
    has; in particular two shares taken from two different splits of
    secrets of equal length, with different x-coordinates, combine
    without an error. *)
Theorem shamirCombine_validation :
  (forall shares,
      (exists e, shamirCombine shares = Err e)
      <-> ~ (countInRange shares /\ sameByteLength shares
             /\ atLeastTwoBytes shares /\ uniqueCoordinates shares))
  /\ (forall shares e,
        shamirCombine shares = Err e ->
        (e = Error COUNT_MESSAGE /\ ~ countInRange shares)
        \/ (e = Error LENGTH_MESSAGE /\ ~ sameByteLength shares)
        \/ (e = Error SHORT_MESSAGE /\ ~ atLeastTwoBytes shares)
        \/ (e = Error DUPLICATE_MESSAGE /\ ~ uniqueCoordinates shares))
  /\ (COUNT_MESSAGE <> LENGTH_MESSAGE /\ COUNT_MESSAGE <> SHORT_MESSAGE
      /\ COUNT_MESSAGE <> DUPLICATE_MESSAGE /\ LENGTH_MESSAGE <> SHORT_MESSAGE
      /\ LENGTH_MESSAGE <> DUPLICATE_MESSAGE
      /\ SHORT_MESSAGE <> DUPLICATE_MESSAGE)
  /\ (forall shares,
        countInRange shares -> sameByteLength shares ->
        atLeastTwoBytes shares -> uniqueCoordinates shares ->
        exists secret,
          shamirCombine shares = Ok secret
          /\ S (length secret) = length (hd [] shares))
  /\ (forall rnd1 rnd2 secret1 secret2 n t shares1 shares2 s1 s2,
        shamirSplit rnd1 secret1 n t = Ok shares1 ->
        shamirSplit rnd2 secret2 n t = Ok shares2 ->
        length secret1 = length secret2 ->
        In s1 shares1 -> In s2 shares2 ->
        xCoordinate s1 <> xCoordinate s2 ->
        exists garbage,
          shamirCombine [s1; s2] = Ok garbage
          /\ length garbage = length secret1).
Proof.
  split; [|split; [|split; [|split]]].
  - intros shares. split.
    + intros [e He] [Hc [Hs [Hl Hu]]].
      rewrite shamirCombine_accepts in He by assumption. discriminate.
    + intros Hbad. destruct (shamirCombine shares) as [secret|e] eqn:E.
      * exfalso. apply Hbad. now apply shamirCombine_ok_inv with secret.
      * now exists e.
  - exact shamirCombine_rejects.
  - repeat split; discriminate.
  - intros shares Hc Hs Hl Hu. exists (combinedBytes shares). split.
    + now apply shamirCombine_accepts.
    + rewrite length_combinedBytes.
      destruct shares as [|s shares]; [unfold countInRange in Hc; simpl in Hc; lia|].
      specialize (Hl s ltac:(now left)). simpl. lia.
  - exact shamirCombine_mixed_splits.
Qed.

End ShamirFacts.
(* ================================================================== *)
(** * Properties: the hexadecimal conversions of the encoding adapters *)
(* ================================================================== *)

Module EncodingFacts.
Import Encoding.

(** Induction over a string two characters at a time. *)
Lemma pair_induction (P : jsstring -> Prop) :
  P [] -> (forall c, P [c]) ->
  (forall c1 c2 s, P s -> P (c1 :: c2 :: s)) ->
  forall s, P s.
Proof.
  intros H0 H1 H2.
  assert (H : forall s, P s /\ forall c, P (c :: s)).
  { induction s as [|c s [IH1 IH2]].
    - split; [exact H0 | exact H1].
    - split; [apply IH2 | intros c'; now apply H2]. }
  intros s. apply H.
Qed.

Lemma matchGroups_pairsOf (hex : jsstring) :
  Forall (fun c => isLineTerminator c = false) hex ->
  matchGroups hex = pairsOf hex.
Proof.
  induction hex as [| c | c1 c2 s IH] using pair_induction; intros H.
  - reflexivity.
  - inversion H as [|? ? Hc _]; subst. simpl. now rewrite Hc.
  - inversion H as [|? ? Hc1 H']; subst.
    inversion H' as [|? ? Hc2 H'']; subst.
    cbn [matchGroups pairsOf]. rewrite Hc1, Hc2. f_equal. now apply IH.
Qed.

Lemma length_pairsOf (hex : jsstring) :
  length (pairsOf hex) = Nat.div2 (S (length hex)).
Proof.
  induction hex as [| c | c1 c2 s IH] using pair_induction.
  - reflexivity.
  - reflexivity.
  - cbn [pairsOf length]. rewrite IH. reflexivity.
Qed.

Lemma hexToBytes_map (hex : jsstring) :
  hexToBytes hex = map (fun g => toUint8 (parseInt16 g)) (matchGroups hex).
Proof. unfold hexToBytes. now destruct (matchGroups hex). Qed.

Lemma toUint8_small (n : N) : n < 256 -> toUint8 (Some (Z.of_N n)) = byte_of_N n.
Proof.
  intros H. unfold toUint8. f_equal.
  rewrite Z.mod_small by lia. apply N2Z.id.
Qed.

Lemma hexDigitValue_lt (c d : N) : hexDigitValue c = Some d -> d < 16.
Proof.
  unfold hexDigitValue. intros H.
  destruct (N.leb_spec 48 c), (N.leb_spec c 57); cbn [andb] in H;
    try (inversion H; lia);
  destruct (N.leb_spec 97 c), (N.leb_spec c 102); cbn [andb] in H;
    try (inversion H; lia);
  destruct (N.leb_spec 65 c), (N.leb_spec c 70); cbn [andb] in H;
    try (inversion H; lia); discriminate.
Qed.

(** A hexadecimal digit is neither white space, nor a sign, nor [x]. *)
Lemma hexDigit_plain (c d : N) :
  hexDigitValue c = Some d ->
  isStrWhiteSpaceChar c = false /\ (c =? 45) = false /\ (c =? 43) = false
  /\ (c =? 120) = false /\ (c =? 88) = false.
Proof.
  intros H.
  assert (Hc : c < 103).
  { unfold hexDigitValue in H.
    destruct (N.leb_spec 48 c), (N.leb_spec c 57); cbn [andb] in H;
      try lia;
    destruct (N.leb_spec 97 c), (N.leb_spec c 102); cbn [andb] in H;
      try lia;
    destruct (N.leb_spec 65 c), (N.leb_spec c 70); cbn [andb] in H;
      try lia; discriminate. }
  assert (K : (negb (isHexDigit c)
               || (negb (isStrWhiteSpaceChar c) && negb (c =? 45)
                   && negb (c =? 43) && negb (c =? 120) && negb (c =? 88)))%bool
              = true).
  { clear H. revert c Hc. apply (forall_below_spec 103). vm_compute. reflexivity. }
  unfold isHexDigit in K. rewrite H in K. cbn [negb orb] in K.
  repeat (apply andb_true_iff in K; destruct K as [K ?]).
  repeat split; now apply negb_true_iff.
Qed.

(** A group of two digits is the byte they write. *)
Lemma parse_two_digits (c1 c2 d1 d2 : N) :
  hexDigitValue c1 = Some d1 -> hexDigitValue c2 = Some d2 ->
  toUint8 (parseInt16 [c1; c2]) = byte_of_N (16 * d1 + d2).
Proof.
  intros H1 H2.
  destruct (hexDigit_plain _ H1) as [W1 [M1 [P1 _]]].
  destruct (hexDigit_plain _ H2) as [_ [_ [_ [X2 X2']]]].
  unfold parseInt16. cbn [trimStart]. rewrite W1, M1, P1. cbn [snd fst].
  rewrite X2, X2'. cbn [orb]. rewrite andb_false_r.
  cbn [digitPrefix]. rewrite H1, H2. cbn [digitPrefix].
  unfold digitsValue. cbn [fold_left].
  pose proof (hexDigitValue_lt _ H1). pose proof (hexDigitValue_lt _ H2).
  rewrite N.mul_0_r, N.add_0_l. apply toUint8_small. lia.
Qed.

(** A digit followed by something else is parsed as the digit alone. *)
Lemma parse_digit_then_other (c1 c2 d1 : N) :
  hexDigitValue c1 = Some d1 -> hexDigitValue c2 = None ->
  toUint8 (parseInt16 [c1; c2]) = byte_of_N d1.
Proof.
  intros H1 H2.
  destruct (hexDigit_plain _ H1) as [W1 [M1 [P1 _]]].
  unfold parseInt16. cbn [trimStart]. rewrite W1, M1, P1. cbn [snd fst].
  destruct ((c1 =? 48) && ((c2 =? 120) || (c2 =? 88)))%bool eqn:E.
  - apply andb_true_iff in E. destruct E as [E _].
    apply N.eqb_eq in E. subst c1.
    cbn in H1. inversion H1. reflexivity.
  - cbn [digitPrefix]. rewrite H1, H2.
    unfold digitsValue. cbn [fold_left].
    pose proof (hexDigitValue_lt _ H1).
    rewrite N.mul_0_r, N.add_0_l. apply toUint8_small. lia.
Qed.

Lemma parse_one_digit (c d : N) :
  hexDigitValue c = Some d -> toUint8 (parseInt16 [c]) = byte_of_N d.
Proof.
  intros H.
  destruct (hexDigit_plain _ H) as [W [M [P _]]].
  unfold parseInt16. cbn [trimStart]. rewrite W, M, P. cbn [snd fst].
  cbn [digitPrefix]. rewrite H.
  unfold digitsValue. cbn [fold_left].
  pose proof (hexDigitValue_lt _ H).
  rewrite N.mul_0_r, N.add_0_l. apply toUint8_small. lia.
Qed.

(** A group that starts with anything but a digit, white space or a
    sign is [NaN], stored as 0. *)
Lemma parse_no_digit (c : N) (rest : jsstring) :
  hexDigitValue c = None -> isStrWhiteSpaceChar c = false ->
  (c =? 45) = false -> (c =? 43) = false ->
  toUint8 (parseInt16 (c :: rest)) = x00.
Proof.
  intros H W M P.
  unfold parseInt16. cbn [trimStart]. rewrite W, M, P. cbn [snd fst].
  assert (E : (c =? 48) = false).
  { destruct (N.eqb_spec c 48); [subst; discriminate | reflexivity]. }
  destruct rest as [|cx rest]; [| rewrite E; cbn [andb]];
    cbn [digitPrefix]; rewrite H; reflexivity.
Qed.

(** One step of the matching. *)
Lemma matchGroups_step (c1 c2 : N) (rest : jsstring) :
  matchGroups (c1 :: c2 :: rest)
  = if isLineTerminator c1 then matchGroups (c2 :: rest)
    else if isLineTerminator c2 then [c1] :: matchGroups (c2 :: rest)
    else [c1; c2] :: matchGroups rest.
Proof. reflexivity. Qed.

(** A line terminator cuts the string: the groups are those of what
    precedes it, then those of what follows it. *)
Lemma matchGroups_terminator (before after : jsstring) (c : N) :
  isLineTerminator c = true ->
  matchGroups (before ++ c :: after) = matchGroups before ++ matchGroups after.
Proof.
  intros Hc.
  assert (E : matchGroups (c :: after) = matchGroups after).
  { destruct after as [|a after']; cbn [matchGroups]; now rewrite Hc. }
  assert (H : forall s,
             matchGroups (s ++ c :: after) = matchGroups s ++ matchGroups after
             /\ forall c0,
                  matchGroups ((c0 :: s) ++ c :: after)
                  = matchGroups (c0 :: s) ++ matchGroups after).
  { induction s as [|x s [IH1 IH2]].
    - split; [exact E|]. intros c0. cbn [app].
      rewrite matchGroups_step, Hc, E. cbn [matchGroups].
      now destruct (isLineTerminator c0).
    - split; [apply IH2|]. intros c0.
      change ((c0 :: x :: s) ++ c :: after)
        with (c0 :: x :: (s ++ c :: after)).
      rewrite !matchGroups_step.
      change (x :: s ++ c :: after) with ((x :: s) ++ c :: after).
      rewrite IH1, (IH2 x).
      destruct (isLineTerminator c0); [reflexivity|].
      now destruct (isLineTerminator x). }
  apply H.
Qed.

(** C9, amended.  [hexToBytes] returns bytes for every string (it has
    no failing path): the empty string gives no byte; a string without
    line terminators is cut in pairs, a trailing single character being
    a group of its own, so it gives one byte for every two characters,
    rounded up; a line terminator is skipped and ends the group before
    it, so the bytes of a string with a line terminator are the bytes
    of what precedes it followed by the bytes of what follows it; each
    group is read by [parseInt(group, 16)]: two digits give the byte
    they write, a digit followed by another character gives the digit
    alone, and a group that starts with neither a digit, nor white
    space, nor a sign gives 0. *)
Theorem hexToBytes_lenient :
  hexToBytes [] = []
  /\ (forall hex,
        Forall (fun c => isLineTerminator c = false) hex ->
        hexToBytes hex = map (fun g => toUint8 (parseInt16 g)) (pairsOf hex)
        /\ length (hexToBytes hex) = Nat.div2 (S (length hex)))
  /\ (forall before after c,
        isLineTerminator c = true ->
        hexToBytes (before ++ c :: after)
        = hexToBytes before ++ hexToBytes after)
  /\ (forall c1 c2 d1 d2,
        hexDigitValue c1 = Some d1 -> hexDigitValue c2 = Some d2 ->
        hexToBytes [c1; c2] = [byte_of_N (16 * d1 + d2)])
  /\ (forall c1 c2 d1,
        hexDigitValue c1 = Some d1 -> hexDigitValue c2 = None ->
        isLineTerminator c2 = false ->
        hexToBytes [c1; c2] = [byte_of_N d1])
  /\ (forall c d,
        hexDigitValue c = Some d -> hexToBytes [c] = [byte_of_N d])
  /\ (forall c rest,
        hexDigitValue c = None -> isStrWhiteSpaceChar c = false ->
        (c =? 45) = false -> (c =? 43) = false ->
        toUint8 (parseInt16 (c :: rest)) = x00).
Proof.
  assert (LT : forall c d, hexDigitValue c = Some d ->
                           isLineTerminator c = false).
  { intros c d H. destruct (hexDigit_plain _ H) as [W _].
    unfold isStrWhiteSpaceChar in W. now apply orb_false_iff in W. }
  split; [reflexivity|].
  split; [|split; [|split; [|split; [|split]]]].
  - intros hex H. rewrite hexToBytes_map, (matchGroups_pairsOf H).
    split; [reflexivity|]. now rewrite length_map, length_pairsOf.
  - intros before after c Hc.
    rewrite !hexToBytes_map, (@matchGroups_terminator before after c Hc).
    apply map_app.
  - intros c1 c2 d1 d2 H1 H2. rewrite hexToBytes_map.
    cbn [matchGroups]. rewrite (LT _ _ H1), (LT _ _ H2). cbn [map].
    now rewrite (parse_two_digits _ _ H1 H2).
  - intros c1 c2 d1 H1 H2 L2. rewrite hexToBytes_map.
    cbn [matchGroups]. rewrite (LT _ _ H1), L2. cbn [map].
    now rewrite (parse_digit_then_other _ _ H1 H2).
  - intros c d H. rewrite hexToBytes_map.
    cbn [matchGroups]. rewrite (LT _ _ H). cbn [map].
    now rewrite (parse_one_digit _ H).
  - exact parse_no_digit.
Qed.

(** C9 as stated fails: the group "1g" is not valid hexadecimal, yet it
    is stored as 1, not 0; and in "ab" followed by a line feed, a string
    of odd length, the trailing character is in no group. *)
Lemma hexToBytes_counterexample :
  ~ (forall hex, invalidGroupsBecomeZero hex)
  /\ ~ (forall hex, trailingCharacterIsGroup hex).
Proof.
  split.
  - intros H. specialize (H (js "1g") 0%nat (js "1g") eq_refl eq_refl).
    vm_compute in H. discriminate.
  - intros H. destruct (H [97; 98; 10] eq_refl) as [c [Hl Hc]].
    vm_compute in Hl. discriminate.
Qed.

End EncodingFacts.
(* ================================================================== *)
(** * Properties: UTF-8 encoding and decoding *)
(* ================================================================== *)

Module TextFacts.
Import Text.

(** ** The decoder reads back what the encoder writes *)

(** Checked by running the encoder and the decoder over every code
    point up to U+10FFFF. *)
Lemma decodesBack_all (cp : N) : isScalarValue cp = true -> decodesBack cp = true.
Proof.
  intros H.
  assert (Hle : cp <= 0x10FFFF).
  { unfold isScalarValue in H. apply andb_true_iff in H.
    now apply N.leb_le. }
  set (planes := map N.of_nat (seq 0 17)).
  assert (K : forall hi lo a, In a planes ->
                (negb (isScalarValue (a * 65536 + 256 * Byte.to_N hi + Byte.to_N lo))
                 || decodesBack (a * 65536 + 256 * Byte.to_N hi + Byte.to_N lo))%bool
                = true).
  { intros hi lo.
    apply (forallb_forall
             (fun a => (negb (isScalarValue
                                (a * 65536 + 256 * Byte.to_N hi + Byte.to_N lo))
                        || decodesBack
                             (a * 65536 + 256 * Byte.to_N hi + Byte.to_N lo))%bool)
             planes).
    revert hi lo.
    apply (forall_bytes2_spec
             (fun hi lo =>
                forallb
                  (fun a => (negb (isScalarValue
                                     (a * 65536 + 256 * Byte.to_N hi
                                      + Byte.to_N lo))
                             || decodesBack
                                  (a * 65536 + 256 * Byte.to_N hi
                                   + Byte.to_N lo))%bool)
                  planes)).
    vm_compute. reflexivity. }
  specialize (K (byte_of_N (cp / 256)) (byte_of_N cp) (cp / 65536)).
  rewrite !to_N_byte_of_N in K.
  assert (E : cp / 65536 * 65536 + 256 * ((cp / 256) mod 256) + cp mod 256 = cp).
  { pose proof (N.div_mod cp 256 ltac:(lia)) as E1.
    pose proof (N.div_mod (cp / 256) 256 ltac:(lia)) as E2.
    rewrite N.Div0.div_div in E2. change (256 * 256) with 65536 in E2. lia. }
  rewrite E, H in K. apply K.
  unfold planes. apply in_map_iff. exists (N.to_nat (cp / 65536)). split.
  - apply N2Nat.id.
  - apply in_seq.
    assert (Hq : cp / 65536 < 17) by (apply N.Div0.div_lt_upper_bound; lia).
    clear - Hq. generalize dependent (cp / 65536). intros q Hq. lia.
Qed.

Lemma decoderEqb_eq (a b : Decoder) : decoderEqb a b = true -> a = b.
Proof.
  unfold decoderEqb. intros H.
  repeat (apply andb_true_iff in H; destruct H as [H ?]).
  destruct a, b. simpl in *.
  repeat match goal with E : (_ =? _) = true |- _ => apply N.eqb_eq in E end.
  now subst.
Qed.

Lemma decodeBytes_app (st : Decoder) (l1 l2 : bytes) :
  decodeBytes st (l1 ++ l2)
  = snd (runDecoder st l1) ++ decodeBytes (fst (runDecoder st l1)) l2.
Proof.
  revert st. induction l1 as [|b l1 IH]; intros st; [reflexivity|].
  cbn [app decodeBytes runDecoder].
  destruct (decodeByte st (Byte.to_N b)) as [st' out].
  rewrite IH. destruct (runDecoder st' l1) as [st'' out'].
  cbn [fst snd]. now rewrite app_assoc.
Qed.

Lemma decode_encodeScalar (cp : N) (rest : bytes) :
  isScalarValue cp = true ->
  decodeBytes decoderStart (encodeScalar cp ++ rest)
  = cp :: decodeBytes decoderStart rest.
Proof.
  intros H. apply decodesBack_all in H. unfold decodesBack in H.
  rewrite decodeBytes_app.
  destruct (runDecoder decoderStart (encodeScalar cp)) as [st out].
  apply andb_true_iff in H. destruct H as [Hst Hout].
  apply decoderEqb_eq in Hst. subst st. cbn [fst snd].
  destruct out as [|c [|c' out]]; try discriminate.
  apply N.eqb_eq in Hout. now subst.
Qed.

Lemma decode_encode_scalars (cps : list N) :
  Forall (fun cp => isScalarValue cp = true) cps ->
  decodeBytes decoderStart (flat_map encodeScalar cps) = cps.
Proof.
  induction 1 as [|cp cps Hcp _ IH]; [reflexivity|].
  cbn [flat_map]. rewrite decode_encodeScalar by assumption. now rewrite IH.
Qed.

(** ** Well-formed strings are their scalar values *)

Lemma surrogate_pair (c d : N) :
  isHighSurrogate c = true -> isLowSurrogate d = true ->
  let cp := 0x10000 + (c - 0xD800) * 0x400 + (d - 0xDC00) in
  isScalarValue cp = true /\ fromScalarValue cp = [c; d]
  /\ (cp =? BYTE_ORDER_MARK) = false.
Proof.
  intros Hc Hd cp. unfold isHighSurrogate, isLowSurrogate in Hc, Hd.
  apply andb_true_iff in Hc, Hd. destruct Hc as [Hc1 Hc2], Hd as [Hd1 Hd2].
  apply N.leb_le in Hc1, Hc2, Hd1, Hd2.
  assert (Hlo : 0x10000 <= cp) by (unfold cp; lia).
  assert (Hhi : cp <= 0x10FFFF) by (unfold cp; lia).
  repeat split.
  - unfold isScalarValue.
    destruct (N.leb_spec cp 0x10FFFF); [|lia].
    destruct (N.leb_spec 0xD800 cp); [|lia].
    destruct (N.leb_spec cp 0xDFFF); [lia|]. reflexivity.
  - unfold fromScalarValue.
    destruct (N.leb_spec cp 0xFFFF); [lia|].
    replace (cp - 0x10000) with ((d - 0xDC00) + (c - 0xD800) * 2 ^ 10)
      by (unfold cp; change (2 ^ 10) with 1024; lia).
    rewrite N.shiftr_div_pow2.
    change 0x3FF with (N.ones 10). rewrite N.land_ones.
    rewrite N.div_add by discriminate.
    rewrite N.Div0.mod_add.
    rewrite N.div_small, N.mod_small by (change (2 ^ 10) with 1024; lia).
    f_equal; [|f_equal]; lia.
  - apply N.eqb_neq. unfold BYTE_ORDER_MARK. lia.
Qed.

Lemma plain_unit (c : N) :
  isHighSurrogate c = false -> isLowSurrogate c = false ->
  (c <=? 0xFFFF) = true ->
  isScalarValue c = true /\ fromScalarValue c = [c].
Proof.
  unfold isHighSurrogate, isLowSurrogate, isScalarValue, fromScalarValue.
  intros Hh Hl Hc. rewrite Hc. split; [|reflexivity].
  apply N.leb_le in Hc.
  destruct (N.leb_spec c 0x10FFFF); [|lia].
  destruct (N.leb_spec 0xD800 c), (N.leb_spec c 0xDFFF);
    try reflexivity.
  exfalso.
  destruct (N.leb_spec c 0xDBFF), (N.leb_spec 0xDC00 c);
    cbn [andb] in *; try discriminate; lia.
Qed.

Lemma wellFormed_scalars (s : jsstring) :
  wellFormed s = true ->
  Forall (fun cp => isScalarValue cp = true) (toScalarValues s)
  /\ flat_map fromScalarValue (toScalarValues s) = s
  /\ (startsWithByteOrderMark s = false ->
      stripByteOrderMark (toScalarValues s) = toScalarValues s).
Proof.
  assert (G : forall n s, (length s <= n)%nat -> wellFormed s = true ->
                Forall (fun cp => isScalarValue cp = true) (toScalarValues s)
                /\ flat_map fromScalarValue (toScalarValues s) = s
                /\ (startsWithByteOrderMark s = false ->
                    stripByteOrderMark (toScalarValues s) = toScalarValues s)).
  { induction n as [|n IH]; intros s' Hlen Hwf.
    - destruct s'; [|simpl in Hlen; lia].
      split; [constructor | split; [reflexivity | intros _; reflexivity]].
    - destruct s' as [|c rest];
        [split; [constructor | split; [reflexivity | intros _; reflexivity]]|].
      cbn [wellFormed toScalarValues] in *.
      destruct (isHighSurrogate c) eqn:Hh.
      + destruct rest as [|d rest']; [discriminate|].
        apply andb_true_iff in Hwf. destruct Hwf as [Hd Hwf].
        rewrite Hd.
        destruct (surrogate_pair c d Hh Hd) as [Hsc [Hfrom Hbom]].
        destruct (IH rest' ltac:(simpl in Hlen; lia) Hwf) as [F [R _]].
        repeat split.
        * now constructor.
        * cbn [flat_map]. rewrite Hfrom, R. reflexivity.
        * intros _. cbn [stripByteOrderMark]. now rewrite Hbom.
      + apply andb_true_iff in Hwf. destruct Hwf as [Hwf Hrest].
        apply andb_true_iff in Hwf. destruct Hwf as [Hl Hc].
        apply negb_true_iff in Hl. rewrite Hl.
        destruct (plain_unit c Hh Hl Hc) as [Hsc Hfrom].
        destruct (IH rest ltac:(simpl in Hlen; lia) Hrest) as [F [R _]].
        repeat split.
        * now constructor.
        * cbn [flat_map]. rewrite Hfrom, R. reflexivity.
        * cbn [startsWithByteOrderMark stripByteOrderMark].
          now intros ->. }
  intros H. now apply (G (length s)).
Qed.

(** Decoding the UTF-8 encoding of a well-formed string that does not
    start with U+FEFF gives the string back. *)
Theorem utf8_roundtrip (s : jsstring) :
  wellFormed s = true -> startsWithByteOrderMark s = false ->
  utf8Decode (utf8Encode s) = s.
Proof.
  intros Hwf Hbom.
  destruct (wellFormed_scalars s Hwf) as [F [R B]].
  unfold utf8Decode, utf8Encode.
  rewrite decode_encode_scalars by assumption.
  now rewrite (B Hbom).
Qed.

(** A non-empty string has a non-empty encoding. *)
Lemma encodeScalar_nonempty (cp : N) : encodeScalar cp <> [].
Proof.
  unfold encodeScalar.
  destruct (cp <=? 0x7F), (cp <=? 0x7FF), (cp <=? 0xFFFF); discriminate.
Qed.

Lemma utf8Encode_nonempty (s : jsstring) : s <> [] -> utf8Encode s <> [].
Proof.
  intros Hs. unfold utf8Encode.
  destruct s as [|c rest]; [contradiction|].
  assert (E : exists cp cps, toScalarValues (c :: rest) = cp :: cps).
  { cbn [toScalarValues].
    destruct (isHighSurrogate c).
    - destruct rest as [|d rest']; [eauto|].
      destruct (isLowSurrogate d); eauto.
    - destruct (isLowSurrogate c); eauto. }
  destruct E as [cp [cps ->]]. cbn [flat_map].
  pose proof (encodeScalar_nonempty cp).
  destruct (encodeScalar cp); [contradiction | discriminate].
Qed.

End TextFacts.
(* ================================================================== *)
(** * Properties: base64 in the React Native adapter *)
(* ================================================================== *)

Module NativeFacts.
Import Native.

Definition sextet2 (x y : N) : N := N.lor (N.shiftl (N.land x 3) 4) (N.shiftr y 4).
Definition sextet3 (y z : N) : N := N.lor (N.shiftl (N.land y 15) 2) (N.shiftr z 6).

Definition storedByte (v : Z) : byte := byte_of_N (Z.to_N (v mod 256)).

(** ** Facts checked over all sextets and all bytes *)

Lemma indexOf_charAt (n : N) :
  n < 64 ->
  indexOf (charAt n) = Z.of_N n
  /\ (charAt n =? PAD) = false
  /\ (charAt n =? 45) = false /\ (charAt n =? 95) = false.
Proof.
  intros Hn.
  assert (H : ((indexOf (charAt n) =? Z.of_N n)%Z
               && negb (charAt n =? PAD)
               && negb (charAt n =? 45) && negb (charAt n =? 95))%bool = true).
  { revert n Hn. apply (forall_below_spec 64). vm_compute. reflexivity. }
  repeat (apply andb_true_iff in H; destruct H as [H ?]).
  repeat split; try (now apply negb_true_iff).
  now apply Z.eqb_eq.
Qed.

Lemma sextets_lt (x y : byte) :
  N.shiftr (Byte.to_N x) 2 < 64
  /\ sextet2 (Byte.to_N x) (Byte.to_N y) < 64
  /\ sextet3 (Byte.to_N x) (Byte.to_N y) < 64
  /\ N.land (Byte.to_N x) 63 < 64.
Proof.
  assert (H : ((N.shiftr (Byte.to_N x) 2 <? 64)
               && (sextet2 (Byte.to_N x) (Byte.to_N y) <? 64)
               && (sextet3 (Byte.to_N x) (Byte.to_N y) <? 64)
               && (N.land (Byte.to_N x) 63 <? 64))%bool = true).
  { revert x y.
    apply (forall_bytes2_spec
             (fun x y => ((N.shiftr (Byte.to_N x) 2 <? 64)
                          && (sextet2 (Byte.to_N x) (Byte.to_N y) <? 64)
                          && (sextet3 (Byte.to_N x) (Byte.to_N y) <? 64)
                          && (N.land (Byte.to_N x) 63 <? 64))%bool)).
    vm_compute. reflexivity. }
  repeat (apply andb_true_iff in H; destruct H as [H ?]).
  repeat split; now apply N.ltb_lt.
Qed.

(** The first value of a group is the first byte. *)
Lemma first_value (x y : byte) :
  Z.lor (Z.shiftl (Z.of_N (N.shiftr (Byte.to_N x) 2)) 2)
        (Z.shiftr (Z.of_N (sextet2 (Byte.to_N x) (Byte.to_N y))) 4)
  = Z.of_N (Byte.to_N x).
Proof.
  apply Z.eqb_eq. revert x y.
  apply (forall_bytes2_spec
           (fun x y =>
              (Z.lor (Z.shiftl (Z.of_N (N.shiftr (Byte.to_N x) 2)) 2)
                     (Z.shiftr (Z.of_N (sextet2 (Byte.to_N x) (Byte.to_N y))) 4)
               =? Z.of_N (Byte.to_N x))%Z)).
  vm_compute. reflexivity.
Qed.

(** The low half of the second sextet and the high part of the third
    are the two halves of the second byte. *)
Lemma second_value_parts (x y z : byte) :
  Z.land (Z.of_N (sextet2 (Byte.to_N x) (Byte.to_N y))) 15
  = Z.of_N (N.shiftr (Byte.to_N y) 4)
  /\ Z.shiftr (Z.of_N (sextet3 (Byte.to_N y) (Byte.to_N z))) 2
     = Z.of_N (N.land (Byte.to_N y) 15)
  /\ Z.lor (Z.shiftl (Z.of_N (N.shiftr (Byte.to_N y) 4)) 4)
           (Z.of_N (N.land (Byte.to_N y) 15))
     = Z.of_N (Byte.to_N y).
Proof.
  repeat split.
  - apply Z.eqb_eq. revert x y.
    apply (forall_bytes2_spec
             (fun x y =>
                (Z.land (Z.of_N (sextet2 (Byte.to_N x) (Byte.to_N y))) 15
                 =? Z.of_N (N.shiftr (Byte.to_N y) 4))%Z)).
    vm_compute. reflexivity.
  - apply Z.eqb_eq. revert y z.
    apply (forall_bytes2_spec
             (fun y z =>
                (Z.shiftr (Z.of_N (sextet3 (Byte.to_N y) (Byte.to_N z))) 2
                 =? Z.of_N (N.land (Byte.to_N y) 15))%Z)).
    vm_compute. reflexivity.
  - apply Z.eqb_eq. revert y.
    apply (forall_bytes_spec
             (fun y =>
                (Z.lor (Z.shiftl (Z.of_N (N.shiftr (Byte.to_N y) 4)) 4)
                       (Z.of_N (N.land (Byte.to_N y) 15))
                 =? Z.of_N (Byte.to_N y))%Z)).
    vm_compute. reflexivity.
Qed.

Lemma third_value_parts (y z : byte) :
  Z.land (Z.of_N (sextet3 (Byte.to_N y) (Byte.to_N z))) 3
  = Z.of_N (N.shiftr (Byte.to_N z) 6)
  /\ Z.lor (Z.shiftl (Z.of_N (N.shiftr (Byte.to_N z) 6)) 6)
           (Z.of_N (N.land (Byte.to_N z) 63))
     = Z.of_N (Byte.to_N z).
Proof.
  split.
  - apply Z.eqb_eq. revert y z.
    apply (forall_bytes2_spec
             (fun y z =>
                (Z.land (Z.of_N (sextet3 (Byte.to_N y) (Byte.to_N z))) 3
                 =? Z.of_N (N.shiftr (Byte.to_N z) 6))%Z)).
    vm_compute. reflexivity.
  - apply Z.eqb_eq. revert z.
    apply (forall_bytes_spec
             (fun z =>
                (Z.lor (Z.shiftl (Z.of_N (N.shiftr (Byte.to_N z) 6)) 6)
                       (Z.of_N (N.land (Byte.to_N z) 63))
                 =? Z.of_N (Byte.to_N z))%Z)).
    vm_compute. reflexivity.
Qed.

Lemma storedByte_of_byte (x : byte) : storedByte (Z.of_N (Byte.to_N x)) = x.
Proof.
  unfold storedByte. pose proof (to_N_lt x).
  rewrite Z.mod_small by lia. rewrite N2Z.id. apply byte_of_to_N.
Qed.

(** ** One group of three bytes *)

Lemma decodeGroup_full (x y z : byte) :
  map storedByte
      (decodeGroup
         (Z.of_N (N.shiftr (Byte.to_N x) 2))
         (Z.of_N (sextet2 (Byte.to_N x) (Byte.to_N y)))
         (Z.of_N (sextet3 (Byte.to_N y) (Byte.to_N z)))
         (Z.of_N (N.land (Byte.to_N z) 63)))
  = [x; y; z].
Proof.
  unfold decodeGroup. cbn [map].
  rewrite first_value.
  destruct (second_value_parts x y z) as [-> [-> ->]].
  destruct (third_value_parts y z) as [-> ->].
  now rewrite !storedByte_of_byte.
Qed.

(** A sextet character survives [normalize] and [removePadding]. *)
Lemma clean_charAt (n : N) (rest : jsstring) :
  n < 64 ->
  removePadding (normalize (charAt n :: rest))
  = charAt n :: removePadding (normalize rest).
Proof.
  intros Hn. destruct (indexOf_charAt Hn) as [_ [Hp [Hm Hu]]].
  unfold removePadding, normalize. cbn [map filter].
  rewrite Hm, Hu, Hp. reflexivity.
Qed.

Lemma clean_pad (rest : jsstring) :
  removePadding (normalize (PAD :: rest)) = removePadding (normalize rest).
Proof. reflexivity. Qed.

(** Induction over bytes three at a time. *)
Lemma triple_induction (P : bytes -> Prop) :
  P [] -> (forall x, P [x]) -> (forall x y, P [x; y]) ->
  (forall x y z bs, P bs -> P (x :: y :: z :: bs)) ->
  forall bs, P bs.
Proof.
  intros H0 H1 H2 H3.
  assert (H : forall bs, P bs /\ (forall x, P (x :: bs))
                         /\ forall x y, P (x :: y :: bs)).
  { induction bs as [|b bs [IH0 [IH1 IH2]]].
    - repeat split; auto.
    - repeat split; auto. }
  intros bs. apply H.
Qed.

(** ** Decoding what was encoded *)

Theorem base64_roundtrip (bs : bytes) :
  base64ToBytes (bytesToBase64 bs) = bs.
Proof.
  unfold base64ToBytes, bytesToBase64.
  fold storedByte.
  induction bs as [| x | x y | x y z bs IH] using triple_induction.
  - reflexivity.
  - destruct (sextets_lt x x00) as [S1 [S2 _]].
    cbn [map base64Encode].
    change (N.lor (N.shiftl (N.land (Byte.to_N x) 3) 4) (N.shiftr 0 4))
      with (sextet2 (Byte.to_N x) (Byte.to_N x00)).
    rewrite (clean_charAt _ S1), (clean_charAt _ S2), !clean_pad.
    cbn [normalize removePadding map filter length decodeValues].
    rewrite (proj1 (indexOf_charAt S1)), (proj1 (indexOf_charAt S2)).
    change (2 * 3 / 4)%nat with 1%nat.
    unfold decodeGroup. cbn [firstn map].
    now rewrite first_value, storedByte_of_byte.
  - destruct (sextets_lt x y) as [S1 [S2 _]].
    destruct (sextets_lt y x00) as [_ [_ [S3 _]]].
    cbn [map base64Encode].
    change (N.lor (N.shiftl (N.land (Byte.to_N y) 15) 2) (N.shiftr 0 6))
      with (sextet3 (Byte.to_N y) (Byte.to_N x00)).
    change (N.lor (N.shiftl (N.land (Byte.to_N x) 3) 4)
                  (N.shiftr (Byte.to_N y) 4))
      with (sextet2 (Byte.to_N x) (Byte.to_N y)).
    rewrite (clean_charAt _ S1), (clean_charAt _ S2), (clean_charAt _ S3),
      !clean_pad.
    cbn [normalize removePadding map filter length decodeValues].
    rewrite (proj1 (indexOf_charAt S1)), (proj1 (indexOf_charAt S2)),
      (proj1 (indexOf_charAt S3)).
    change (3 * 3 / 4)%nat with 2%nat.
    unfold decodeGroup. cbn [firstn map].
    rewrite first_value.
    destruct (second_value_parts x y x00) as [-> [-> ->]].
    now rewrite !storedByte_of_byte.
  - destruct (sextets_lt x y) as [S1 [S2 _]].
    destruct (sextets_lt y z) as [_ [_ [S3 _]]].
    destruct (sextets_lt z z) as [_ [_ [_ S4]]].
    cbn [map base64Encode].
    change (N.lor (N.shiftl (N.land (Byte.to_N y) 15) 2)
                  (N.shiftr (Byte.to_N z) 6))
      with (sextet3 (Byte.to_N y) (Byte.to_N z)).
    change (N.lor (N.shiftl (N.land (Byte.to_N x) 3) 4)
                  (N.shiftr (Byte.to_N y) 4))
      with (sextet2 (Byte.to_N x) (Byte.to_N y)).
    rewrite (clean_charAt _ S1), (clean_charAt _ S2), (clean_charAt _ S3),
      (clean_charAt _ S4).
    set (clean := removePadding (normalize (base64Encode (map Byte.to_N bs))))
      in *.
    cbn [length decodeValues].
    rewrite (proj1 (indexOf_charAt S1)), (proj1 (indexOf_charAt S2)),
      (proj1 (indexOf_charAt S3)), (proj1 (indexOf_charAt S4)).
    replace (S (S (S (S (length clean)))) * 3 / 4)%nat
      with (3 + length clean * 3 / 4)%nat.
    + rewrite firstn_app.
      change (length (decodeGroup _ _ _ _)) with 3%nat.
      rewrite firstn_all2 by (simpl; lia).
      replace (3 + length clean * 3 / 4 - 3)%nat
        with (length clean * 3 / 4)%nat by lia.
      rewrite map_app, decodeGroup_full, IH. reflexivity.
    + replace (S (S (S (S (length clean)))) * 3)%nat
        with (length clean * 3 + 3 * 4)%nat by lia.
      rewrite Nat.div_add by discriminate. lia.
Qed.

End NativeFacts.
(* ================================================================== *)
(** * Properties: the platform adapter singleton *)
(* ================================================================== *)

Module PlatformContextFacts.
Import PlatformContext.

Section AdaptersFacts.

Variables CryptoAdapter StorageAdapter LinkingAdapter EncodingAdapter : Type.

Let Adapters : Type :=
  PlatformAdapters CryptoAdapter StorageAdapter LinkingAdapter EncodingAdapter.
Let ContextState : Type :=
  State CryptoAdapter StorageAdapter LinkingAdapter EncodingAdapter.
Let start : ContextState :=
  initialState CryptoAdapter StorageAdapter LinkingAdapter EncodingAdapter.

(** A state is installed when the flag is set and a bundle is stored. *)
Definition installed (st : ContextState) : Prop :=
  _initialized st = true /\ _adapters st <> None.

Lemma setAdapters_installs (env : option string) (a : Adapters)
    (st : ContextState) :
  _initialized st = false ->
  _adapters (setAdapters env a st) = Some a
  /\ _initialized (setAdapters env a st) = true.
Proof. intros H. unfold setAdapters. rewrite H. now split. Qed.

Lemma setAdapters_ignored (env : option string) (a : Adapters)
    (st : ContextState) :
  _initialized st = true -> development env = false ->
  _adapters (setAdapters env a st) = _adapters st
  /\ _initialized (setAdapters env a st) = true.
Proof. intros H Hd. unfold setAdapters. rewrite H, Hd. now split. Qed.

Lemma setAdapters_installed (env : option string) (a : Adapters)
    (st : ContextState) :
  installed st -> installed (setAdapters env a st).
Proof.
  intros [Hi Ha]. unfold installed, setAdapters. rewrite Hi.
  destruct (development env); simpl; split; congruence.
Qed.

Lemma runCalls_installed (calls : list (option string * Adapters))
    (st : ContextState) :
  installed st -> installed (runCalls calls st).
Proof.
  revert st. induction calls as [|call calls IH]; intros st H; [exact H|].
  apply IH, setAdapters_installed, H.
Qed.

Lemma runCalls_ignored (later : list (option string * Adapters))
    (st : ContextState) :
  _initialized st = true ->
  Forall (fun call => development (fst call) = false) later ->
  _adapters (runCalls later st) = _adapters st.
Proof.
  revert st. induction later as [|call later IH]; intros st Hi Hnd.
  - reflexivity.
  - inversion Hnd as [|c l Hc Hl]; subst.
    change (runCalls (call :: later) st)
      with (runCalls later (setAdapters (fst call) (snd call) st)).
    destruct (@setAdapters_ignored (fst call) (snd call) st Hi Hc) as [Ea Ei].
    rewrite (IH _ Ei Hl). exact Ea.
Qed.

(** C10. From the state the module is loaded in, and for any history
    of [setAdapters] calls: [getAdapters] throws exactly when the
    history is empty; and when every call after the first is made
    outside development mode, the bundle stored after any number of
    calls is the one the first call installed, so [getAdapters],
    [getCrypto], [getStorage], [getLinking] and [getEncoding] return
    the first bundle and its fields. *)
Theorem adapters_write_once (calls : list (option string * Adapters)) :
  ((exists e, getAdapters (runCalls calls start) = Err e) <-> calls = [])
  /\ (forall env first later,
        calls = (env, first) :: later ->
        Forall (fun call => development (fst call) = false) later ->
        (forall k,
            _adapters (runCalls (firstn (S k) calls) start) = Some first)
        /\ getAdapters (runCalls calls start) = Ok first
        /\ getCrypto (runCalls calls start) = Ok (crypto first)
        /\ getStorage (runCalls calls start) = Ok (storage first)
        /\ getLinking (runCalls calls start) = Ok (linking first)
        /\ getEncoding (runCalls calls start) = Ok (encoding first)).
Proof.
  split.
  - split.
    + intros [e He]. destruct calls as [|[env a] calls]; [reflexivity|].
      exfalso.
      assert (H : installed (runCalls ((env, a) :: calls) start)).
      { simpl. apply runCalls_installed. split; [reflexivity | discriminate]. }
      destruct H as [_ H]. unfold getAdapters in He.
      destruct (_adapters (runCalls ((env, a) :: calls) start));
        [discriminate | now apply H].
    + intros ->. now exists NOT_INITIALIZED.
  - intros env first later -> Hnd.
    assert (Hpre : forall l,
               Forall (fun call => development (fst call) = false) l ->
               _adapters (runCalls ((env, first) :: l) start) = Some first).
    { intros l Hl. simpl.
      rewrite runCalls_ignored; [reflexivity | reflexivity | exact Hl]. }
    split.
    + intros k. cbn [firstn]. apply Hpre.
      apply Forall_forall. intros c Hc.
      rewrite Forall_forall in Hnd. apply Hnd.
      rewrite <- (firstn_skipn k later). apply in_or_app. now left.
    + specialize (Hpre later Hnd).
      unfold getCrypto, getStorage, getLinking, getEncoding, getAdapters.
      rewrite Hpre. simpl. repeat split.
Qed.

End AdaptersFacts.

End PlatformContextFacts.
(* ================================================================== *)
(** * Properties: key-shard functions *)
(* ================================================================== *)

Module KeyShardFacts.
Import Shamir ShamirFacts Convertors KeyShard.

(** ** Hexadecimal text of bytes *)

Lemma hex_of_byte (b : byte) :
  length (Encoding.padStart 2 48 (Encoding.toString16 (Byte.to_N b))) = 2%nat
  /\ forallb isLowerHexChar
       (Encoding.padStart 2 48 (Encoding.toString16 (Byte.to_N b))) = true.
Proof.
  assert (H : ((length (Encoding.padStart 2 48
                          (Encoding.toString16 (Byte.to_N b))) =? 2)%nat
               && forallb isLowerHexChar
                    (Encoding.padStart 2 48
                       (Encoding.toString16 (Byte.to_N b))))%bool = true).
  { revert b. apply forall_bytes_spec. vm_compute. reflexivity. }
  apply andb_true_iff in H. destruct H as [H1 H2].
  split; [now apply Nat.eqb_eq | exact H2].
Qed.

Lemma length_bytesToHex (bs : bytes) :
  length (bytesToHex bs) = (length bs * 2)%nat.
Proof.
  unfold bytesToHex, Encoding.bytesToHex.
  induction bs as [|b bs IH]; [reflexivity|].
  cbn [map concat]. rewrite length_app, IH.
  rewrite (proj1 (hex_of_byte b)). simpl. lia.
Qed.

Lemma bytesToHex_lowercase (bs : bytes) :
  forallb isLowerHexChar (bytesToHex bs) = true.
Proof.
  unfold bytesToHex, Encoding.bytesToHex.
  induction bs as [|b bs IH]; [reflexivity|].
  cbn [map concat]. rewrite forallb_app, IH.
  now rewrite (proj2 (hex_of_byte b)).
Qed.

(** ** [combineShardsBuildWallet] *)

Section CombineFacts.

Variables BitcoinProvider Fetcher : Type.
Variables BitcoinWallet CardanoWallet SparkWallet : Type.
Variable hexToBytes : jsstring -> result bytes.
Variable newEmbeddedWallet :
  BitcoinNetwork -> list jsstring -> option BitcoinProvider ->
  result BitcoinWallet.
Variable cardanoFromMnemonic :
  list jsstring -> NetworkId -> option Fetcher -> result CardanoWallet.
Variable sparkInitialize : jsstring -> SparkNetwork -> result SparkWallet.

Let build :=
  combineShardsBuildWallet hexToBytes newEmbeddedWallet cardanoFromMnemonic
    sparkInitialize.

(** C5. For every pair of shards and every network:
    an error of [shamirCombine] on the decoded shards is the error of
    [combineShardsBuildWallet], unchanged; a returned key is the UTF-8
    decoding of what [shamirCombine] returns on the decoded shards; and
    the key is returned whenever decoding, combining and the three
    wallet constructors succeed. *)
Theorem combineShardsBuildWallet_key
    (networkId : NetworkId) (keyShard1 keyShard2 : jsstring)
    (bitcoinProvider : option BitcoinProvider) (fetcher : option Fetcher) :
  (forall share1 share2 e,
      hexToBytes keyShard1 = Ok share1 -> hexToBytes keyShard2 = Ok share2 ->
      shamirCombine [share1; share2] = Err e ->
      build networkId keyShard1 keyShard2 bitcoinProvider fetcher = Err e)
  /\ (forall wallets,
        build networkId keyShard1 keyShard2 bitcoinProvider fetcher
        = Ok wallets ->
        exists share1 share2 reconstructed,
          hexToBytes keyShard1 = Ok share1
          /\ hexToBytes keyShard2 = Ok share2
          /\ shamirCombine [share1; share2] = Ok reconstructed
          /\ key wallets = bytesToString reconstructed)
  /\ (forall share1 share2 reconstructed,
        hexToBytes keyShard1 = Ok share1 -> hexToBytes keyShard2 = Ok share2 ->
        shamirCombine [share1; share2] = Ok reconstructed ->
        (exists wallets,
            build networkId keyShard1 keyShard2 bitcoinProvider fetcher
            = Ok wallets
            /\ key wallets = bytesToString reconstructed)
        \/ (exists e,
               build networkId keyShard1 keyShard2 bitcoinProvider fetcher
               = Err e
               /\ (newEmbeddedWallet
                     (match networkId with
                      | Mainnet => BitcoinMainnet
                      | Testnet => BitcoinTestnet
                      end)
                     (split SPACE (bytesToString reconstructed))
                     bitcoinProvider = Err e
                   \/ cardanoFromMnemonic
                        (split SPACE (bytesToString reconstructed))
                        networkId fetcher = Err e
                   \/ sparkInitialize (bytesToString reconstructed)
                        (match networkId with
                         | Mainnet => SparkMAINNET
                         | Testnet => SparkREGTEST
                         end) = Err e))).
Proof.
  unfold build, combineShardsBuildWallet.
  split; [|split].
  - intros share1 share2 e -> -> H. cbn [bind]. now rewrite H.
  - intros wallets H.
    destruct (hexToBytes keyShard1) as [share1|]; [|discriminate].
    destruct (hexToBytes keyShard2) as [share2|]; [|discriminate].
    cbn [bind] in H.
    destruct (shamirCombine [share1; share2]) as [reconstructed|] eqn:Hc;
      [|discriminate].
    cbn [bind] in H.
    destruct (newEmbeddedWallet _ _ _); [|discriminate]. cbn [bind] in H.
    destruct (cardanoFromMnemonic _ _ _); [|discriminate]. cbn [bind] in H.
    destruct (sparkInitialize _ _); [|discriminate]. cbn [bind] in H.
    inversion H; subst. exists share1, share2, reconstructed.
    repeat split; assumption.
  - intros share1 share2 reconstructed -> -> H. cbn [bind]. rewrite H.
    cbn [bind].
    destruct (newEmbeddedWallet _ _ _) as [b|e]; cbn [bind];
      [|right; exists e; split; [reflexivity | now left]].
    destruct (cardanoFromMnemonic _ _ _) as [c|e]; cbn [bind];
      [|right; exists e; split; [reflexivity | right; now left]].
    destruct (sparkInitialize _ _) as [s|e]; cbn [bind];
      [|right; exists e; split; [reflexivity | right; now right]].
    left. eexists. split; reflexivity.
Qed.

End CombineFacts.

End KeyShardFacts.
(* ================================================================== *)
(** * Properties: envelope encryption *)
(* ================================================================== *)

Module CryptoFacts.
Import Crypto.

Lemma jsstring_eqb_refl (s : jsstring) : jsstring_eqb s s = true.
Proof.
  unfold jsstring_eqb. rewrite Nat.eqb_refl. cbn [andb].
  induction s as [|c s IH]; [reflexivity|].
  cbn [combine forallb fst snd]. now rewrite N.eqb_refl, IH.
Qed.

Section PlatformFacts.

Variable CryptoKey : Type.
Variable subtleEncrypt :
  string -> bytes -> CryptoKey -> bytes -> result bytes.
Variable subtleDecrypt :
  string -> bytes -> CryptoKey -> bytes -> result bytes.
Variable JSON_stringify : JsonValue -> jsstring.
Variable JSON_parse : jsstring -> result JsonValue.
Variable encoding : EncodingAdapter.

(** What the functions rely on: the AEAD decrypts what it encrypted
    under the same key and IV; [JSON.parse] reads back a stringified
    envelope of base64 text; the installed adapter decodes the base64
    it encodes. *)
Hypothesis aead_correct :
  forall algorithm iv key data encrypted,
    subtleEncrypt algorithm iv key data = Ok encrypted ->
    subtleDecrypt algorithm iv key encrypted = Ok data.
Hypothesis json_envelope :
  forall iv encrypted : bytes,
    JSON_parse
      (JSON_stringify
         (envelope (bytesToBase64 encoding iv)
                   (bytesToBase64 encoding encrypted)))
    = Ok (envelope (bytesToBase64 encoding iv)
                   (bytesToBase64 encoding encrypted)).
Hypothesis base64_correct :
  forall bs, base64ToBytes encoding (bytesToBase64 encoding bs) = Ok bs.

Let encrypt :=
  encryptWithCipher subtleEncrypt JSON_stringify (Ok encoding).
Let decrypt :=
  decryptWithCipher subtleDecrypt JSON_parse (Ok encoding).

(** Decryption returns the text [TextDecoder] reads in the bytes
    [TextEncoder] wrote. *)
Lemma decrypt_encrypt (getRandomValues : nat -> bytes) (data : jsstring)
    (key : CryptoKey) (algorithm : string) (size : nat) (json : jsstring) :
  encrypt getRandomValues data key algorithm size = Ok json ->
  decrypt json key algorithm = Ok (Text.utf8Decode (Text.utf8Encode data)).
Proof.
  unfold encrypt, decrypt, encryptWithCipher, decryptWithCipher.
  intros H.
  destruct (subtleEncrypt algorithm (getRandomValues size) key
              (Text.utf8Encode data)) as [encrypted|e] eqn:E;
    [|discriminate].
  cbn [bind] in H. inversion H as [Hjson]. clear H.
  rewrite json_envelope. cbn [bind].
  change (getMember (envelope ?a ?b) (js "iv")) with (Ok (Some (JString a))).
  cbn [bind asString]. rewrite base64_correct. cbn [bind].
  change (getMember (envelope ?a ?b) (js "ciphertext"))
    with (Ok (Some (JString b))).
  cbn [bind asString]. rewrite base64_correct. cbn [bind].
  rewrite (aead_correct E). reflexivity.
Qed.

(** C6, amended.  On a platform whose AEAD, JSON and base64 are
    correct, for every key and every IV drawn: if [data] is well-formed
    UTF-16 (no unpaired surrogate) and does not start with U+FEFF, and
    the AEAD encrypts it, then [encryptWithCipher] returns an envelope
    and [decryptWithCipher] of that envelope under the same key returns
    exactly [data]. *)
Theorem envelope_roundtrip (getRandomValues : nat -> bytes)
    (data : jsstring) (key : CryptoKey) :
  Text.wellFormed data = true ->
  Text.startsWithByteOrderMark data = false ->
  (exists encrypted,
      subtleEncrypt AES_GCM (getRandomValues IV_LENGTH) key
        (Text.utf8Encode data) = Ok encrypted) ->
  envelopeRoundTrip subtleEncrypt subtleDecrypt JSON_stringify JSON_parse
    (Ok encoding) getRandomValues data key.
Proof.
  intros Hwf Hbom [encrypted E].
  unfold envelopeRoundTrip.
  assert (Henc : exists json,
             encrypt getRandomValues data key AES_GCM IV_LENGTH = Ok json).
  { unfold encrypt, encryptWithCipher. rewrite E. cbn [bind]. eauto. }
  destruct Henc as [json Hjson]. exists json. split; [exact Hjson|].
  change (decrypt json key AES_GCM = Ok data).
  rewrite (decrypt_encrypt _ _ _ _ _ Hjson).
  now rewrite TextFacts.utf8_roundtrip.
Qed.

(** A leading U+FEFF is lost on the way: what comes back is the rest
    of the string. *)
Lemma decrypt_drops_byte_order_mark (getRandomValues : nat -> bytes)
    (rest : jsstring) (key : CryptoKey) (algorithm : string) (size : nat)
    (json : jsstring) :
  Text.wellFormed rest = true ->
  encrypt getRandomValues (Text.BYTE_ORDER_MARK :: rest) key algorithm size
  = Ok json ->
  decrypt json key algorithm = Ok rest.
Proof.
  intros Hwf H. rewrite (decrypt_encrypt _ _ _ _ _ H). f_equal.
  destruct (TextFacts.wellFormed_scalars rest Hwf) as [F [R _]].
  unfold Text.utf8Decode, Text.utf8Encode.
  change (Text.toScalarValues (Text.BYTE_ORDER_MARK :: rest))
    with (Text.BYTE_ORDER_MARK :: Text.toScalarValues rest).
  rewrite TextFacts.decode_encode_scalars
    by (constructor; [reflexivity | exact F]).
  exact R.
Qed.

End PlatformFacts.

(** ** The reference platform is correct *)

Lemma reference_aead (algorithm : string) (iv key data encrypted : bytes) :
  Reference.encrypt algorithm iv key data = Ok encrypted ->
  Reference.decrypt algorithm iv key encrypted = Ok data.
Proof.
  unfold Reference.encrypt, Reference.decrypt. intros H.
  inversion H as [E]. clear H E.
  set (mask := GF256.add _ _).
  rewrite rev_app_distr. cbn [rev app]. rewrite rev_involutive.
  rewrite map_map.
  assert (E : map (fun b => GF256.add mask (GF256.add mask b)) data = data).
  { rewrite <- (map_id data) at 2. apply map_ext. intros b.
    rewrite GF256Facts.add_assoc, GF256Facts.add_self.
    apply GF256Facts.add_0_l. }
  rewrite E, byte_eqb_refl. reflexivity.
Qed.

Lemma untilQuote_app (text after : jsstring) :
  Forall (fun c => c <> Reference.QUOTE) text ->
  Reference.untilQuote (text ++ Reference.QUOTE :: after) = Some (text, after).
Proof.
  induction 1 as [|c text Hc _ IH]; cbn [app Reference.untilQuote].
  - now rewrite N.eqb_refl.
  - apply N.eqb_neq in Hc. now rewrite Hc, IH.
Qed.

(** Base64 text has no quote. *)
Lemma base64Encode_no_quote (bs : bytes) :
  Forall (fun c => c <> Reference.QUOTE) (Native.bytesToBase64 bs).
Proof.
  assert (Hchar : forall n, n < 64 -> Native.charAt n <> Reference.QUOTE).
  { assert (K : forall n, n < 64 ->
                negb (Native.charAt n =? Reference.QUOTE) = true)
      by (apply (forall_below_spec 64); vm_compute; reflexivity).
    intros n Hn. apply N.eqb_neq, negb_true_iff. now apply K. }
  unfold Native.bytesToBase64.
  induction bs as [| x | x y | x y z bs IH] using NativeFacts.triple_induction.
  - constructor.
  - destruct (NativeFacts.sextets_lt x x00) as [S1 [S2 _]].
    cbn [map Native.base64Encode].
    repeat constructor; try discriminate; now apply Hchar.
  - destruct (NativeFacts.sextets_lt x y) as [S1 [S2 _]].
    destruct (NativeFacts.sextets_lt y x00) as [_ [_ [S3 _]]].
    cbn [map Native.base64Encode].
    repeat constructor; try discriminate; now apply Hchar.
  - destruct (NativeFacts.sextets_lt x y) as [S1 [S2 _]].
    destruct (NativeFacts.sextets_lt y z) as [_ [_ [S3 _]]].
    destruct (NativeFacts.sextets_lt z z) as [_ [_ [_ S4]]].
    cbn [map Native.base64Encode].
    repeat (constructor; [now apply Hchar|]). exact IH.
Qed.

Lemma reference_json (text1 text2 : jsstring) :
  Forall (fun c => c <> Reference.QUOTE) text1 ->
  Forall (fun c => c <> Reference.QUOTE) text2 ->
  Reference.parse (Reference.stringify (envelope text1 text2))
  = Ok (envelope text1 text2).
Proof.
  intros H1 H2. unfold Reference.parse, envelope.
  cbn [Reference.stringify].
  change (js "{") with [123]. change (js ":") with [58].
  change (js ",") with [44]. change (js "}") with [125].
  change (js "iv") with [105; 118].
  change (js "ciphertext")
    with [99; 105; 112; 104; 101; 114; 116; 101; 120; 116].
  cbn [app Reference.dropPrefix N.eqb Pos.eqb Reference.QUOTE
       Reference.untilQuote].
  rewrite (untilQuote_app _ H1).
  cbn [app Reference.dropPrefix N.eqb Pos.eqb Reference.QUOTE
       Reference.untilQuote].
  rewrite (untilQuote_app _ H2).
  reflexivity.
Qed.

Lemma reference_json_base64 (iv encrypted : bytes) :
  Reference.parse
    (Reference.stringify
       (envelope (bytesToBase64 Native.encodingAdapter iv)
                 (bytesToBase64 Native.encodingAdapter encrypted)))
  = Ok (envelope (bytesToBase64 Native.encodingAdapter iv)
                 (bytesToBase64 Native.encodingAdapter encrypted)).
Proof. apply reference_json; apply base64Encode_no_quote. Qed.

Lemma native_base64 (bs : bytes) :
  base64ToBytes Native.encodingAdapter
    (bytesToBase64 Native.encodingAdapter bs) = Ok bs.
Proof. cbn. f_equal. apply NativeFacts.base64_roundtrip. Qed.

(** The round trip of "hello" on the reference platform. *)
Lemma envelope_roundtrip_witness :
  envelopeRoundTrip Reference.encrypt Reference.decrypt
    Reference.stringify Reference.parse (Ok Native.encodingAdapter)
    Reference.countingBytes (js "hello") Reference.exampleKey.
Proof.
  apply (@envelope_roundtrip bytes Reference.encrypt Reference.decrypt
           Reference.stringify Reference.parse Native.encodingAdapter
           reference_aead reference_json_base64 native_base64
           Reference.countingBytes (js "hello") Reference.exampleKey).
  - reflexivity.
  - reflexivity.
  - eexists. reflexivity.
Defined.

(** C6 as stated fails: a string that starts with U+FEFF comes back
    without it, and an unpaired surrogate comes back as U+FFFD. *)
Lemma envelope_roundtrip_counterexample :
  ~ envelopeRoundTrip Reference.encrypt Reference.decrypt
      Reference.stringify Reference.parse (Ok Native.encodingAdapter)
      Reference.countingBytes [0xFEFF; 104; 105] Reference.exampleKey
  /\ ~ envelopeRoundTrip Reference.encrypt Reference.decrypt
        Reference.stringify Reference.parse (Ok Native.encodingAdapter)
        Reference.countingBytes [0xD800] Reference.exampleKey.
Proof.
  split; intros [json [He Hd]];
    vm_compute in He; inversion He; subst json;
    vm_compute in Hd; discriminate.
Qed.

End CryptoFacts.
(* ================================================================== *)
(** * Properties: the recovery flow *)
(* ================================================================== *)

Module ClientFacts.
Import Shamir Convertors KeyShard Crypto Client.

Section RecoveryFacts.

Variable CryptoKey : Type.
Variable subtleEncrypt :
  string -> bytes -> CryptoKey -> bytes -> result bytes.
Variable subtleDecrypt :
  string -> bytes -> CryptoKey -> bytes -> result bytes.
Variable JSON_stringify : JsonValue -> jsstring.
Variable JSON_parse : jsstring -> result JsonValue.
Variable getEncoding : result EncodingAdapter.
Variable hexToBytes : jsstring -> result bytes.

Let recover :=
  clientRecovery subtleEncrypt subtleDecrypt JSON_stringify JSON_parse
    getEncoding hexToBytes.
Let steps :=
  recoverySteps subtleEncrypt subtleDecrypt JSON_stringify JSON_parse
    getEncoding hexToBytes.
Let decrypt := decryptWithCipher subtleDecrypt JSON_parse getEncoding.

(** C2. For every auth shard, encrypted recovery shard, recovery key
    and new device key: the only error [clientRecovery] raises is
    "Invalid recovery answer"; it raises it whenever a step of the flow
    fails, whatever the error of the step: a malformed envelope, a
    failed decryption of the recovery shard (wrong key, corrupted
    ciphertext or IV), a shard that is not hexadecimal, a failed
    combination, a failed split or encryption of the new shards. *)
Theorem clientRecovery_opaque (entropy : Entropy)
    (authShard recoveryShard : jsstring)
    (recoveryKey newDeviceKey : CryptoKey) :
  (forall e,
      recover entropy authShard recoveryShard recoveryKey newDeviceKey
      = Err e ->
      e = INVALID_RECOVERY_ANSWER)
  /\ (forall e,
        steps entropy authShard recoveryShard recoveryKey newDeviceKey
        = Err e ->
        recover entropy authShard recoveryShard recoveryKey newDeviceKey
        = Err INVALID_RECOVERY_ANSWER)
  /\ (forall e,
        JSON_parse recoveryShard = Err e ->
        recover entropy authShard recoveryShard recoveryKey newDeviceKey
        = Err INVALID_RECOVERY_ANSWER)
  /\ (forall e,
        decrypt recoveryShard recoveryKey AES_GCM = Err e ->
        recover entropy authShard recoveryShard recoveryKey newDeviceKey
        = Err INVALID_RECOVERY_ANSWER)
  /\ (forall e,
        hexToBytes authShard = Err e ->
        recover entropy authShard recoveryShard recoveryKey newDeviceKey
        = Err INVALID_RECOVERY_ANSWER)
  /\ (forall keyShare3 e,
        decrypt recoveryShard recoveryKey AES_GCM = Ok keyShare3 ->
        hexToBytes keyShare3 = Err e ->
        recover entropy authShard recoveryShard recoveryKey newDeviceKey
        = Err INVALID_RECOVERY_ANSWER)
  /\ (forall keyShare3 share2 share3 e,
        decrypt recoveryShard recoveryKey AES_GCM = Ok keyShare3 ->
        hexToBytes authShard = Ok share2 ->
        hexToBytes keyShare3 = Ok share3 ->
        shamirCombine [share2; share3] = Err e ->
        recover entropy authShard recoveryShard recoveryKey newDeviceKey
        = Err INVALID_RECOVERY_ANSWER).
Proof.
  assert (Hsteps : forall e,
             steps entropy authShard recoveryShard recoveryKey newDeviceKey
             = Err e ->
             recover entropy authShard recoveryShard recoveryKey newDeviceKey
             = Err INVALID_RECOVERY_ANSWER).
  { intros e H. unfold recover, clientRecovery. fold steps. now rewrite H. }
  assert (Hdecrypt : forall e,
             decrypt recoveryShard recoveryKey AES_GCM = Err e ->
             recover entropy authShard recoveryShard recoveryKey newDeviceKey
             = Err INVALID_RECOVERY_ANSWER).
  { intros e H. apply (Hsteps e). unfold steps, recoverySteps.
    fold decrypt. now rewrite H. }
  split; [|split; [|split; [|split; [|split; [|split]]]]].
  - intros e. unfold recover, clientRecovery.
    destruct (recoverySteps _ _ _ _ _ _ _ _ _ _ _); intros H;
      [discriminate | now inversion H].
  - exact Hsteps.
  - intros e H. apply (Hdecrypt e). unfold decrypt, decryptWithCipher.
    now rewrite H.
  - exact Hdecrypt.
  - intros e H.
    destruct (decrypt recoveryShard recoveryKey AES_GCM) as [k|e'] eqn:D;
      [|now apply (Hdecrypt e')].
    apply (Hsteps e). unfold steps, recoverySteps. fold decrypt.
    rewrite D. cbn [bind]. now rewrite H.
  - intros keyShare3 e D H.
    destruct (hexToBytes authShard) as [share2|e'] eqn:A.
    + apply (Hsteps e). unfold steps, recoverySteps. fold decrypt.
      rewrite D. cbn [bind]. rewrite A. cbn [bind]. now rewrite H.
    + apply (Hsteps e'). unfold steps, recoverySteps. fold decrypt.
      rewrite D. cbn [bind]. now rewrite A.
  - intros keyShare3 share2 share3 e D A B H.
    apply (Hsteps e). unfold steps, recoverySteps. fold decrypt.
    rewrite D. cbn [bind]. rewrite A. cbn [bind]. rewrite B. cbn [bind].
    now rewrite H.
Qed.

End RecoveryFacts.

End ClientFacts.
(* ================================================================== *)
(** * Properties: the shape of base64 text in the React Native adapter *)
(* ================================================================== *)

Module Base64Facts.
Import Native NativeFacts Forms.

Lemma normalize_urlSafe (s : jsstring) : normalize (urlSafe s) = normalize s.
Proof.
  unfold normalize, urlSafe. rewrite !map_map. apply map_ext. intros c.
  destruct (c =? 43) eqn:E1.
  - apply N.eqb_eq in E1. subst c. reflexivity.
  - destruct (c =? 47) eqn:E2.
    + apply N.eqb_eq in E2. subst c. reflexivity.
    + reflexivity.
Qed.

Lemma normalize_removePadding (s : jsstring) :
  normalize (removePadding s) = removePadding (normalize s).
Proof.
  unfold normalize, removePadding.
  induction s as [|c s IH]; [reflexivity|].
  cbn [filter map].
  destruct (c =? PAD) eqn:E.
  - apply N.eqb_eq in E. subst c. cbn. exact IH.
  - cbn [negb map].
    assert (H : ((if (if c =? 45 then 43 else c) =? 95 then 47
                  else if c =? 45 then 43 else c) =? PAD) = false).
    { destruct (c =? 45) eqn:E1.
      - reflexivity.
      - destruct (c =? 95) eqn:E2; [reflexivity | exact E]. }
    rewrite H. cbn [negb]. now rewrite IH.
Qed.

Lemma removePadding_twice (s : jsstring) :
  removePadding (removePadding s) = removePadding s.
Proof.
  unfold removePadding. induction s as [|c s IH]; [reflexivity|].
  cbn [filter]. destruct (negb (c =? PAD)) eqn:E; [|exact IH].
  cbn [filter]. now rewrite E, IH.
Qed.

Lemma base64ToBytes_clean (s t : jsstring) :
  removePadding (normalize s) = removePadding (normalize t) ->
  base64ToBytes s = base64ToBytes t.
Proof. unfold base64ToBytes. now intros ->. Qed.

(** X1: in the React Native adapter, [base64ToBytes] gives back the
    bytes [bytesToBase64] encoded, and it does so as well from the
    encoding without its [=] padding and from its URL-safe spelling. *)
Theorem base64ToBytes_bytesToBase64 (bs : bytes) :
  base64ToBytes (bytesToBase64 bs) = bs
  /\ base64ToBytes (removePadding (bytesToBase64 bs)) = bs
  /\ base64ToBytes (urlSafe (bytesToBase64 bs)) = bs
  /\ base64ToBytes (urlSafe (removePadding (bytesToBase64 bs))) = bs.
Proof.
  pose proof (base64_roundtrip bs) as R.
  repeat split.
  - exact R.
  - rewrite <- R at 2. apply base64ToBytes_clean.
    now rewrite normalize_removePadding, removePadding_twice.
  - rewrite <- R at 2. apply base64ToBytes_clean.
    now rewrite normalize_urlSafe.
  - rewrite <- R at 2. apply base64ToBytes_clean.
    now rewrite normalize_urlSafe, normalize_removePadding, removePadding_twice.
Qed.

Lemma charAt_isBase64Char (n : N) : n < 64 -> isBase64Char (charAt n) = true.
Proof.
  revert n. apply (forall_below_spec 64). vm_compute. reflexivity.
Qed.

(** Every character [bytesToBase64] writes is of the alphabet or [=]. *)
Lemma base64_characters (bs : bytes) :
  forallb isBase64Char (bytesToBase64 bs) = true.
Proof.
  unfold bytesToBase64.
  induction bs as [| x | x y | x y z bs IH] using triple_induction.
  - reflexivity.
  - destruct (sextets_lt x x00) as [S1 [S2 _]].
    cbn [map base64Encode].
    change (N.lor (N.shiftl (N.land (Byte.to_N x) 3) 4) (N.shiftr 0 4))
      with (sextet2 (Byte.to_N x) (Byte.to_N x00)).
    cbn [forallb].
    now rewrite (charAt_isBase64Char S1), (charAt_isBase64Char S2).
  - destruct (sextets_lt x y) as [S1 [S2 _]].
    destruct (sextets_lt y x00) as [_ [_ [S3 _]]].
    cbn [map base64Encode].
    change (N.lor (N.shiftl (N.land (Byte.to_N y) 15) 2) (N.shiftr 0 6))
      with (sextet3 (Byte.to_N y) (Byte.to_N x00)).
    change (N.lor (N.shiftl (N.land (Byte.to_N x) 3) 4)
                  (N.shiftr (Byte.to_N y) 4))
      with (sextet2 (Byte.to_N x) (Byte.to_N y)).
    cbn [forallb].
    now rewrite (charAt_isBase64Char S1), (charAt_isBase64Char S2),
      (charAt_isBase64Char S3).
  - destruct (sextets_lt x y) as [S1 [S2 _]].
    destruct (sextets_lt y z) as [_ [_ [S3 _]]].
    destruct (sextets_lt z z) as [_ [_ [_ S4]]].
    cbn [map base64Encode].
    change (N.lor (N.shiftl (N.land (Byte.to_N y) 15) 2)
                  (N.shiftr (Byte.to_N z) 6))
      with (sextet3 (Byte.to_N y) (Byte.to_N z)).
    change (N.lor (N.shiftl (N.land (Byte.to_N x) 3) 4)
                  (N.shiftr (Byte.to_N y) 4))
      with (sextet2 (Byte.to_N x) (Byte.to_N y)).
    cbn [forallb].
    now rewrite (charAt_isBase64Char S1), (charAt_isBase64Char S2),
      (charAt_isBase64Char S3), (charAt_isBase64Char S4).
Qed.

(** X2: [bytesToBase64] writes four characters for every three bytes,
    the last group padded with [=]: the text has [4 * ceil(n / 3)]
    characters, all of them from the base64 alphabet or [=]. *)
Theorem bytesToBase64_shape (bs : bytes) :
  length (bytesToBase64 bs) = (4 * ((length bs + 2) / 3))%nat
  /\ forallb isBase64Char (bytesToBase64 bs) = true
  /\ length (removePadding (bytesToBase64 bs))
     = ((4 * length bs + 2) / 3)%nat.
Proof.
  unfold bytesToBase64.
  induction bs as [| x | x y | x y z bs IH] using triple_induction.
  - repeat split.
  - destruct (sextets_lt x x00) as [S1 [S2 _]].
    cbn [map base64Encode].
    change (N.lor (N.shiftl (N.land (Byte.to_N x) 3) 4) (N.shiftr 0 4))
      with (sextet2 (Byte.to_N x) (Byte.to_N x00)).
    repeat split.
    + cbn [forallb]. rewrite (charAt_isBase64Char S1), (charAt_isBase64Char S2).
      reflexivity.
    + unfold removePadding. cbn [filter].
      rewrite (proj1 (proj2 (indexOf_charAt S1))),
        (proj1 (proj2 (indexOf_charAt S2))). reflexivity.
  - destruct (sextets_lt x y) as [S1 [S2 _]].
    destruct (sextets_lt y x00) as [_ [_ [S3 _]]].
    cbn [map base64Encode].
    change (N.lor (N.shiftl (N.land (Byte.to_N y) 15) 2) (N.shiftr 0 6))
      with (sextet3 (Byte.to_N y) (Byte.to_N x00)).
    change (N.lor (N.shiftl (N.land (Byte.to_N x) 3) 4)
                  (N.shiftr (Byte.to_N y) 4))
      with (sextet2 (Byte.to_N x) (Byte.to_N y)).
    repeat split.
    + cbn [forallb].
      rewrite (charAt_isBase64Char S1), (charAt_isBase64Char S2),
        (charAt_isBase64Char S3). reflexivity.
    + unfold removePadding. cbn [filter].
      rewrite (proj1 (proj2 (indexOf_charAt S1))),
        (proj1 (proj2 (indexOf_charAt S2))),
        (proj1 (proj2 (indexOf_charAt S3))). reflexivity.
  - destruct IH as [IH1 [IH2 IH3]].
    destruct (sextets_lt x y) as [S1 [S2 _]].
    destruct (sextets_lt y z) as [_ [_ [S3 _]]].
    destruct (sextets_lt z z) as [_ [_ [_ S4]]].
    cbn [map base64Encode].
    change (N.lor (N.shiftl (N.land (Byte.to_N y) 15) 2)
                  (N.shiftr (Byte.to_N z) 6))
      with (sextet3 (Byte.to_N y) (Byte.to_N z)).
    change (N.lor (N.shiftl (N.land (Byte.to_N x) 3) 4)
                  (N.shiftr (Byte.to_N y) 4))
      with (sextet2 (Byte.to_N x) (Byte.to_N y)).
    repeat split.
    + cbn [length]. rewrite IH1.
      replace (S (S (S (length bs))) + 2)%nat
        with (length bs + 2 + 1 * 3)%nat by lia.
      rewrite Nat.div_add by discriminate. lia.
    + cbn [forallb].
      rewrite (charAt_isBase64Char S1), (charAt_isBase64Char S2),
        (charAt_isBase64Char S3), (charAt_isBase64Char S4). exact IH2.
    + unfold removePadding in *. cbn [filter].
      rewrite (proj1 (proj2 (indexOf_charAt S1))),
        (proj1 (proj2 (indexOf_charAt S2))),
        (proj1 (proj2 (indexOf_charAt S3))),
        (proj1 (proj2 (indexOf_charAt S4))).
      cbn [negb length]. rewrite IH3.
      replace (4 * S (S (S (length bs))) + 2)%nat
        with (4 * length bs + 2 + 4 * 3)%nat by lia.
      rewrite Nat.div_add by discriminate. lia.
Qed.

(** Induction over a string four characters at a time. *)
Lemma quad_induction (P : jsstring -> Prop) :
  P [] -> (forall a, P [a]) -> (forall a b, P [a; b]) ->
  (forall a b c, P [a; b; c]) ->
  (forall a b c d s, P s -> P (a :: b :: c :: d :: s)) ->
  forall s, P s.
Proof.
  intros H0 H1 H2 H3 H4.
  assert (H : forall s, P s /\ (forall a, P (a :: s))
                        /\ (forall a b, P (a :: b :: s))
                        /\ forall a b c, P (a :: b :: c :: s)).
  { induction s as [|x s [I0 [I1 [I2 I3]]]]; repeat split; auto. }
  intros s. apply H.
Qed.

Lemma length_decodeValues (clean : jsstring) :
  length (decodeValues clean) = (3 * ((length clean + 3) / 4))%nat.
Proof.
  induction clean as [| a | a b | a b c | a b c d s IH] using quad_induction;
    try reflexivity.
  cbn [decodeValues length]. rewrite length_app. cbn [decodeGroup length].
  rewrite IH.
  replace (S (S (S (S (length s)))) + 3)%nat
    with (length s + 3 + 1 * 4)%nat by lia.
  rewrite Nat.div_add by discriminate. lia.
Qed.

(** X3: [base64ToBytes] rejects nothing: whatever the characters of its
    argument, it returns [floor(3 * L / 4)] bytes, where [L] counts the
    characters other than [=] (wherever the [=] stand). *)
Theorem base64ToBytes_length (base64 : jsstring) :
  length (base64ToBytes base64)
  = (length (removePadding base64) * 3 / 4)%nat.
Proof.
  unfold base64ToBytes.
  rewrite length_map, length_firstn, length_decodeValues.
  rewrite <- normalize_removePadding.
  unfold normalize at 1 2. rewrite !length_map.
  set (n := length (removePadding base64)).
  apply Nat.min_l.
  assert (H2 : (n * 3 <= 4 * (3 * ((n + 3) / 4)))%nat).
  { pose proof (Nat.div_mod_eq (n + 3) 4) as E.
    pose proof (Nat.mod_upper_bound (n + 3) 4 ltac:(discriminate)) as B. lia. }
  apply Nat.Div0.div_le_upper_bound. exact H2.
Qed.

End Base64Facts.
(* ================================================================== *)
(** * Properties: hexadecimal text and bytes in the adapters *)
(* ================================================================== *)

Module HexFacts.
Import Encoding EncodingFacts Forms.

(** What the check below needs of the two characters of a byte, in
    the case [bytesToHex] writes and in upper case. *)
Definition readsBack (b : byte) : bool :=
  match hexOfByte b, Hash.asciiUpperCase (hexOfByte b) with
  | [c1; c2], [u1; u2] =>
      negb (isLineTerminator c1) && negb (isLineTerminator c2)
      && negb (isLineTerminator u1) && negb (isLineTerminator u2)
      && KeyShard.isLowerHexChar c1 && KeyShard.isLowerHexChar c2
      && Byte.eqb (toUint8 (parseInt16 [c1; c2])) b
      && Byte.eqb (toUint8 (parseInt16 [u1; u2])) b
  | _, _ => false
  end.

Lemma readsBack_all (b : byte) : readsBack b = true.
Proof. revert b. apply forall_bytes_spec. vm_compute. reflexivity. Qed.

Lemma hexOfByte_spec (b : byte) :
  exists c1 c2 u1 u2,
    hexOfByte b = [c1; c2]
    /\ Hash.asciiUpperCase (hexOfByte b) = [u1; u2]
    /\ isLineTerminator c1 = false /\ isLineTerminator c2 = false
    /\ isLineTerminator u1 = false /\ isLineTerminator u2 = false
    /\ KeyShard.isLowerHexChar c1 = true /\ KeyShard.isLowerHexChar c2 = true
    /\ toUint8 (parseInt16 [c1; c2]) = b
    /\ toUint8 (parseInt16 [u1; u2]) = b.
Proof.
  pose proof (readsBack_all b) as H. unfold readsBack in H.
  destruct (hexOfByte b) as [|c1 [|c2 [|? ?]]]; try discriminate.
  destruct (Hash.asciiUpperCase [c1; c2]) as [|u1 [|u2 [|? ?]]];
    try discriminate.
  exists c1, c2, u1, u2.
  repeat (apply andb_true_iff in H; destruct H as [H ?]).
  repeat split;
    try (now apply negb_true_iff); try assumption; now apply byte_eqb_eq.
Qed.

Lemma bytesToHex_cons (b : byte) (bs : bytes) :
  bytesToHex (b :: bs) = hexOfByte b ++ bytesToHex bs.
Proof. reflexivity. Qed.

Lemma matchGroups_pair (c1 c2 : N) (rest : jsstring) :
  isLineTerminator c1 = false -> isLineTerminator c2 = false ->
  matchGroups (c1 :: c2 :: rest) = [c1; c2] :: matchGroups rest.
Proof. intros H1 H2. cbn [matchGroups]. now rewrite H1, H2. Qed.

(** [hexToBytes] reads back what [bytesToHex] wrote, in either case. *)
Lemma hexToBytes_inverts (bs : bytes) :
  hexToBytes (bytesToHex bs) = bs
  /\ hexToBytes (Hash.asciiUpperCase (bytesToHex bs)) = bs.
Proof.
  rewrite !hexToBytes_map.
  induction bs as [|b bs [IH1 IH2]].
  - split; reflexivity.
  - rewrite bytesToHex_cons.
    destruct (hexOfByte_spec b)
      as (c1 & c2 & u1 & u2 & E & U & L1 & L2 & L3 & L4 & _ & _ & P & Q).
    unfold Hash.asciiUpperCase in *. rewrite map_app, U, E.
    cbn [app]. rewrite !matchGroups_pair by assumption.
    cbn [map]. now rewrite P, Q, IH1, IH2.
Qed.

(** X4: [bytesToHex] writes two lower-case hexadecimal digits for every
    byte, and [hexToBytes] reads the bytes back from that text, and
    from the same text in upper case. *)
Theorem hexToBytes_bytesToHex (bs : bytes) :
  hexToBytes (bytesToHex bs) = bs
  /\ hexToBytes (Hash.asciiUpperCase (bytesToHex bs)) = bs
  /\ length (bytesToHex bs) = (2 * length bs)%nat
  /\ forallb KeyShard.isLowerHexChar (bytesToHex bs) = true.
Proof.
  destruct (hexToBytes_inverts bs) as [R U].
  repeat split; try assumption.
  - rewrite KeyShardFacts.length_bytesToHex. lia.
  - apply KeyShardFacts.bytesToHex_lowercase.
Qed.

Lemma jsstring_eqb_eq (a b : jsstring) : jsstring_eqb a b = true -> a = b.
Proof.
  unfold jsstring_eqb. revert b.
  induction a as [|x a IH]; intros [|y b] H; try reflexivity;
    try (cbn in H; discriminate).
  cbn [length combine forallb fst snd] in H.
  apply andb_true_iff in H. destruct H as [Hl H].
  apply andb_true_iff in H. destruct H as [Hx H].
  apply N.eqb_eq in Hx. subst y. f_equal. apply IH.
  apply andb_true_iff. split; assumption.
Qed.

Lemma lowerHex_pair (c1 c2 : N) :
  KeyShard.isLowerHexChar c1 = true -> KeyShard.isLowerHexChar c2 = true ->
  isLineTerminator c1 = false /\ isLineTerminator c2 = false
  /\ hexOfByte (toUint8 (parseInt16 [c1; c2])) = [c1; c2].
Proof.
  intros H1 H2.
  assert (B : forall c, KeyShard.isLowerHexChar c = true -> c < 103).
  { intros c H. unfold KeyShard.isLowerHexChar in H.
    apply orb_true_iff in H. destruct H as [H|H];
      apply andb_true_iff in H; destruct H as [_ H];
      apply N.leb_le in H; lia. }
  assert (K : forall a, a < 103 -> forall b, b < 103 ->
            implb (KeyShard.isLowerHexChar a && KeyShard.isLowerHexChar b)
              (negb (isLineTerminator a) && negb (isLineTerminator b)
               && jsstring_eqb (hexOfByte (toUint8 (parseInt16 [a; b])))
                    [a; b]) = true).
  { intros a Ha.
    apply (forall_below_spec 103
             (fun a => forall_below 103 (fun b =>
                implb (KeyShard.isLowerHexChar a && KeyShard.isLowerHexChar b)
                  (negb (isLineTerminator a) && negb (isLineTerminator b)
                   && jsstring_eqb (hexOfByte (toUint8 (parseInt16 [a; b])))
                        [a; b])))) in Ha.
    - intros b Hb. now apply (forall_below_spec 103 _ Ha).
    - vm_compute. reflexivity. }
  specialize (K c1 (B c1 H1) c2 (B c2 H2)). rewrite H1, H2 in K.
  cbn [andb implb] in K.
  repeat (apply andb_true_iff in K; destruct K as [K ?]).
  repeat split; try (now apply negb_true_iff). now apply jsstring_eqb_eq.
Qed.

(** X5: on a text of lower-case hexadecimal digits of even length,
    [bytesToHex] after [hexToBytes] gives the text back, and
    [hexToBytes] returns one byte for every two characters. *)
Theorem bytesToHex_hexToBytes (hex : jsstring) :
  forallb KeyShard.isLowerHexChar hex = true ->
  Nat.even (length hex) = true ->
  bytesToHex (hexToBytes hex) = hex
  /\ (2 * length (hexToBytes hex))%nat = length hex.
Proof.
  rewrite hexToBytes_map.
  induction hex as [| c | c1 c2 s IH] using pair_induction; intros Hc He.
  - split; reflexivity.
  - discriminate.
  - cbn [forallb] in Hc.
    apply andb_true_iff in Hc. destruct Hc as [H1 Hc].
    apply andb_true_iff in Hc. destruct Hc as [H2 Hc].
    destruct (lowerHex_pair c1 c2 H1 H2) as [L1 [L2 E]].
    rewrite (matchGroups_pair c1 c2 s L1 L2). cbn [map].
    rewrite bytesToHex_cons, E.
    destruct (IH Hc He) as [IH1 IH2].
    rewrite IH1. split; [reflexivity|]. cbn [length]. lia.
Qed.

Lemma bytesToHex_hexToBytes_witness :
  bytesToHex (hexToBytes (js "00ff1a")) = js "00ff1a"
  /\ (2 * length (hexToBytes (js "00ff1a")))%nat = length (js "00ff1a").
Proof.
  apply (bytesToHex_hexToBytes (js "00ff1a")); reflexivity.
Defined.

End HexFacts.
(* ================================================================== *)
(** * Properties: the three shards of a key *)
(* ================================================================== *)

Module ShardFacts.
Import Shamir ShamirFacts Convertors KeyShard.

Lemma stringToBytes_nonempty (secret : jsstring) :
  secret <> [] -> (1 <= length (stringToBytes secret))%nat.
Proof.
  intros Hne. pose proof (TextFacts.utf8Encode_nonempty Hne) as H.
  unfold stringToBytes. destruct (Text.utf8Encode secret);
    [contradiction | simpl; lia].
Qed.

Lemma hexToBytes_of_shard (share : bytes) :
  Encoding.hexToBytes (bytesToHex share) = share.
Proof. exact (proj1 (HexFacts.hexToBytes_inverts share)). Qed.

(** Decoding a duplicate-free selection of encoded shares gives a
    duplicate-free selection of the shares. *)
Lemma decoded_selection (shares : list bytes) (selection : list jsstring) :
  NoDup selection -> incl selection (map bytesToHex shares) ->
  NoDup (map Encoding.hexToBytes selection)
  /\ incl (map Encoding.hexToBytes selection) shares.
Proof.
  intros Hnd Hincl.
  assert (Himage : forall shard, In shard selection ->
                     In (Encoding.hexToBytes shard) shares
                     /\ bytesToHex (Encoding.hexToBytes shard) = shard).
  { intros shard Hin. apply Hincl, in_map_iff in Hin.
    destruct Hin as [share [<- Hshare]].
    now rewrite hexToBytes_of_shard. }
  split.
  - induction selection as [|shard selection IH]; [constructor|].
    inversion Hnd as [|? ? Hnotin Hrest]; subst. cbn [map]. constructor.
    + intros Hin. apply in_map_iff in Hin.
      destruct Hin as [other [E Hother]]. apply Hnotin.
      rewrite <- (proj2 (Himage shard ltac:(now left))), <- E.
      now rewrite (proj2 (Himage other ltac:(now right))).
    + apply IH; [assumption | |].
      * intros x Hx. apply Hincl. now right.
      * intros x Hx. apply Himage. now right.
  - intros share Hin. apply in_map_iff in Hin.
    destruct Hin as [shard [<- Hshard]]. now apply Himage.
Qed.

(** C4. [spiltKeyIntoShards] fails with "secret cannot be empty" on
    the empty string.  On any other string, whatever the split draws,
    it returns exactly three shards: the hexadecimal text of the three
    shares of the 2-of-3 split of the UTF-8 encoding of the string, in
    the order of the split; each of them is lower-case hexadecimal text
    of length [(byteLength(secret) + 1) * 2], where [byteLength] is the
    length of the UTF-8 encoding of the string, and reads back as its
    share.  When the three x-coordinates drawn are distinct and
    nonzero, any two or three different shards of the three, decoded
    and combined in any order, give the UTF-8 encoding of the string. *)
Theorem spiltKeyIntoShards_shards :
  (forall rnd,
      spiltKeyIntoShards rnd [] = Err (Error "secret cannot be empty"))
  /\ (forall rnd secret,
        secret <> [] ->
        exists share1 share2 share3,
          shamirSplit rnd (stringToBytes secret) 3 2
          = Ok [share1; share2; share3]
          /\ spiltKeyIntoShards rnd secret
             = Ok [bytesToHex share1; bytesToHex share2; bytesToHex share3]
          /\ (forall share,
                In share [share1; share2; share3] ->
                length (bytesToHex share)
                = ((length (stringToBytes secret) + 1) * 2)%nat
                /\ forallb isLowerHexChar (bytesToHex share) = true
                /\ Encoding.hexToBytes (bytesToHex share) = share)
          /\ (valid_randomness rnd 3 = true ->
              forall selection,
                NoDup selection ->
                incl selection
                  [bytesToHex share1; bytesToHex share2; bytesToHex share3] ->
                (2 <= length selection)%nat ->
                shamirCombine (map Encoding.hexToBytes selection)
                = Ok (stringToBytes secret))).
Proof.
  split; [reflexivity|].
  intros rnd secret Hne.
  pose proof (stringToBytes_nonempty Hne) as Hbytes.
  set (polynomials := newPolynomials rnd (stringToBytes secret) 2).
  exists (makeShare polynomials (xCoordinates rnd 0)),
         (makeShare polynomials (xCoordinates rnd 1)),
         (makeShare polynomials (xCoordinates rnd 2)).
  assert (Hsplit : shamirSplit rnd (stringToBytes secret) 3 2
                   = Ok [makeShare polynomials (xCoordinates rnd 0);
                         makeShare polynomials (xCoordinates rnd 1);
                         makeShare polynomials (xCoordinates rnd 2)]).
  { rewrite shamirSplit_accepts by lia. reflexivity. }
  split; [exact Hsplit|].
  split.
  { unfold spiltKeyIntoShards. rewrite Hsplit. reflexivity. }
  split.
  - intros share Hin.
    assert (E : exists x, share = makeShare polynomials x).
    { destruct Hin as [<-|[<-|[<-|[]]]]; eauto. }
    destruct E as [x ->]. split; [|split].
    + rewrite KeyShardFacts.length_bytesToHex, length_makeShare.
      unfold polynomials. rewrite length_newPolynomials. lia.
    + apply KeyShardFacts.bytesToHex_lowercase.
    + apply hexToBytes_of_shard.
  - intros Hrnd selection Hnd Hincl Hlen.
    destruct (@decoded_selection
                [makeShare polynomials (xCoordinates rnd 0);
                 makeShare polynomials (xCoordinates rnd 1);
                 makeShare polynomials (xCoordinates rnd 2)]
                selection Hnd Hincl) as [Hdnd Hdincl].
    apply (@combine_selection rnd (stringToBytes secret) 3 2);
      try assumption; try lia.
    now rewrite length_map.
Qed.

(** The shards of a three-letter key under the example draws, and the
    key read back from the second and the third of them. *)
Lemma example_shards :
  spiltKeyIntoShards exampleRandomness (js "key")
  = Ok [js "1c877907"; js "d74e792a"; js "31d979f3"]
  /\ shamirCombine
       (map Encoding.hexToBytes [js "31d979f3"; js "d74e792a"])
     = Ok (stringToBytes (js "key")).
Proof. split; vm_compute; reflexivity. Qed.

End ShardFacts.
(* ================================================================== *)
(** * Properties: the UTF-8 round trip of the adapters *)
(* ================================================================== *)

Module Utf8Facts.
Import Text TextFacts Forms.

Lemma surrogate_not_mark (c : N) :
  isHighSurrogate c = true -> (c =? BYTE_ORDER_MARK) = false.
Proof.
  unfold isHighSurrogate, BYTE_ORDER_MARK. intros H.
  apply andb_true_iff in H. destruct H as [_ H]. apply N.leb_le in H.
  apply N.eqb_neq. lia.
Qed.

Lemma mark_not_surrogate (c : N) :
  (c =? BYTE_ORDER_MARK) = true ->
  isHighSurrogate c = false /\ isLowSurrogate c = false.
Proof.
  intros H. apply N.eqb_eq in H. subst c. split; reflexivity.
Qed.

(** The scalar values of a string, written back as code units, are the
    well-formed version of the string. *)
Lemma scalars_toWellFormed (s : jsstring) :
  codeUnits s = true ->
  Forall (fun cp => isScalarValue cp = true) (toScalarValues s)
  /\ flat_map fromScalarValue (toScalarValues s) = toWellFormed s
  /\ flat_map fromScalarValue (stripByteOrderMark (toScalarValues s))
     = dropByteOrderMark (toWellFormed s)
  /\ wellFormed (toWellFormed s) = true
  /\ length (toWellFormed s) = length s.
Proof.
  assert (G : forall n s, (length s <= n)%nat -> codeUnits s = true ->
    Forall (fun cp => isScalarValue cp = true) (toScalarValues s)
    /\ flat_map fromScalarValue (toScalarValues s) = toWellFormed s
    /\ flat_map fromScalarValue (stripByteOrderMark (toScalarValues s))
       = dropByteOrderMark (toWellFormed s)
    /\ wellFormed (toWellFormed s) = true
    /\ length (toWellFormed s) = length s).
  { induction n as [|n IH]; intros s' Hlen Hu.
    - destruct s'; [|simpl in Hlen; lia]. repeat split. constructor.
    - destruct s' as [|c rest]; [repeat split; constructor|].
      cbn [codeUnits forallb] in Hu.
      apply andb_true_iff in Hu. destruct Hu as [Hc Hu].
      assert (Hc' : (c <=? 0xFFFF) = true).
      { apply N.ltb_lt in Hc. apply N.leb_le. lia. }
      cbn [toScalarValues toWellFormed].
      destruct (isHighSurrogate c) eqn:Hh.
      + destruct rest as [|d rest'].
        * repeat split. repeat constructor.
        * destruct (isLowSurrogate d) eqn:Hd.
          -- cbn [forallb] in Hu.
             apply andb_true_iff in Hu. destruct Hu as [_ Hu].
             destruct (surrogate_pair c d Hh Hd) as [Hsc [Hfrom Hbom]].
             destruct (IH rest' ltac:(simpl in Hlen; lia) Hu)
               as (F & R & _ & W & L).
             repeat split.
             ++ now constructor.
             ++ cbn [flat_map]. rewrite Hfrom, R. reflexivity.
             ++ cbn [stripByteOrderMark dropByteOrderMark].
                rewrite Hbom, (surrogate_not_mark c Hh).
                cbn [flat_map]. rewrite Hfrom, R. reflexivity.
             ++ cbn [wellFormed]. now rewrite Hh, Hd, W.
             ++ cbn [length]. now rewrite L.
          -- destruct (IH (d :: rest') ltac:(simpl in Hlen; simpl; lia) Hu)
               as (F & R & _ & W & L).
             repeat split.
             ++ now constructor.
             ++ cbn [flat_map]. now rewrite R.
             ++ cbn [stripByteOrderMark dropByteOrderMark].
                change (REPLACEMENT =? BYTE_ORDER_MARK) with false.
                cbn [flat_map]. now rewrite R.
             ++ change (wellFormed (REPLACEMENT :: toWellFormed (d :: rest')))
                  with (wellFormed (toWellFormed (d :: rest'))).
                exact W.
             ++ cbn [length]. now rewrite L.
      + destruct (IH rest ltac:(simpl in Hlen; lia) Hu) as (F & R & _ & W & L).
        destruct (isLowSurrogate c) eqn:Hl.
        * repeat split.
          -- now constructor.
          -- cbn [flat_map]. now rewrite R.
          -- cbn [stripByteOrderMark dropByteOrderMark].
             change (REPLACEMENT =? BYTE_ORDER_MARK) with false.
             cbn [flat_map]. now rewrite R.
          -- change (wellFormed (REPLACEMENT :: toWellFormed rest))
               with (wellFormed (toWellFormed rest)).
             exact W.
          -- cbn [length]. now rewrite L.
        * destruct (plain_unit c Hh Hl Hc') as [Hsc Hfrom].
          repeat split.
          -- now constructor.
          -- cbn [flat_map]. now rewrite Hfrom, R.
          -- cbn [stripByteOrderMark dropByteOrderMark].
             destruct (c =? BYTE_ORDER_MARK); [exact R|].
             cbn [flat_map]. now rewrite Hfrom, R.
          -- cbn [wellFormed]. now rewrite Hh, Hl, Hc', W.
          -- cbn [length]. now rewrite L. }
  intros H. now apply (G (length s)).
Qed.

Lemma wellFormed_dropByteOrderMark (s : jsstring) :
  wellFormed s = true -> wellFormed (dropByteOrderMark s) = true.
Proof.
  destruct s as [|c rest]; [reflexivity|]. intros H.
  cbn [dropByteOrderMark]. destruct (c =? BYTE_ORDER_MARK) eqn:E; [|exact H].
  destruct (mark_not_surrogate c E) as [Hh Hl].
  cbn [wellFormed] in H. rewrite Hh, Hl in H.
  apply andb_true_iff in H. now destruct H.
Qed.

(** X6: what the adapters' [bytesToUtf8] returns for the bytes
    [utf8ToBytes] made of a string: the string with every unpaired
    surrogate replaced by U+FFFD and without a U+FEFF at its start.  It
    is the string itself exactly when the string is well-formed UTF-16
    and does not start with U+FEFF. *)
Theorem bytesToUtf8_utf8ToBytes (s : jsstring) :
  codeUnits s = true ->
  bytesToUtf8 Native.encodingAdapter (utf8ToBytes Native.encodingAdapter s)
  = dropByteOrderMark (toWellFormed s)
  /\ wellFormed
       (bytesToUtf8 Native.encodingAdapter
          (utf8ToBytes Native.encodingAdapter s)) = true
  /\ (bytesToUtf8 Native.encodingAdapter
        (utf8ToBytes Native.encodingAdapter s) = s
      <-> wellFormed s = true /\ startsWithByteOrderMark s = false).
Proof.
  intros Hu. cbn [bytesToUtf8 utf8ToBytes Native.encodingAdapter].
  destruct (scalars_toWellFormed s Hu) as (F & R & D & W & L).
  assert (E : utf8Decode (utf8Encode s) = dropByteOrderMark (toWellFormed s)).
  { unfold utf8Decode, utf8Encode.
    rewrite decode_encode_scalars by assumption. exact D. }
  rewrite E. split; [reflexivity|].
  split; [now apply wellFormed_dropByteOrderMark|].
  split.
  - intros Hs.
    assert (Hw : wellFormed s = true).
    { rewrite <- Hs. now apply wellFormed_dropByteOrderMark. }
    split; [exact Hw|].
    destruct s as [|c rest]; [reflexivity|].
    cbn [startsWithByteOrderMark].
    destruct (c =? BYTE_ORDER_MARK) eqn:B; [exfalso | reflexivity].
    destruct (mark_not_surrogate c B) as [Hh Hl].
    apply (f_equal (@length N)) in Hs.
    cbn [toWellFormed] in Hs, L. rewrite Hh, Hl in Hs, L.
    cbn [dropByteOrderMark] in Hs. rewrite B in Hs.
    cbn [length] in Hs, L. lia.
  - intros [Hw Hb]. rewrite <- E. now apply utf8_roundtrip.
Qed.

Lemma bytesToUtf8_utf8ToBytes_witness :
  bytesToUtf8 Native.encodingAdapter
    (utf8ToBytes Native.encodingAdapter [0xFEFF; 0xD83C; 0xDF89; 0xDC00; 104])
  = dropByteOrderMark (toWellFormed [0xFEFF; 0xD83C; 0xDF89; 0xDC00; 104])
  /\ wellFormed
       (bytesToUtf8 Native.encodingAdapter
          (utf8ToBytes Native.encodingAdapter
             [0xFEFF; 0xD83C; 0xDF89; 0xDC00; 104])) = true
  /\ (bytesToUtf8 Native.encodingAdapter
        (utf8ToBytes Native.encodingAdapter
           [0xFEFF; 0xD83C; 0xDF89; 0xDC00; 104])
      = [0xFEFF; 0xD83C; 0xDF89; 0xDC00; 104]
      <-> wellFormed [0xFEFF; 0xD83C; 0xDF89; 0xDC00; 104] = true
          /\ startsWithByteOrderMark [0xFEFF; 0xD83C; 0xDF89; 0xDC00; 104]
             = false).
Proof.
  apply (bytesToUtf8_utf8ToBytes [0xFEFF; 0xD83C; 0xDF89; 0xDC00; 104]).
  reflexivity.
Defined.

End Utf8Facts.
(* ================================================================== *)
(** * Properties: the singleton over any history of calls *)
(* ================================================================== *)

Module SingletonFacts.
Import PlatformContext.

Definition REINITIALIZING : string :=
  "@utxos/sdk: Re-initializing adapters (development mode)".
Definition IGNORING : string :=
  "@utxos/sdk: Adapters already initialized, ignoring".

Section SingletonFacts.

Variables CryptoAdapter StorageAdapter LinkingAdapter EncodingAdapter : Type.

Let Adapters : Type :=
  PlatformAdapters CryptoAdapter StorageAdapter LinkingAdapter EncodingAdapter.
Let ContextState : Type :=
  State CryptoAdapter StorageAdapter LinkingAdapter EncodingAdapter.
Let start : ContextState :=
  initialState CryptoAdapter StorageAdapter LinkingAdapter EncodingAdapter.

(** The bundles of the calls made in development mode. *)
Definition developmentBundles (calls : list (option string * Adapters))
  : list Adapters :=
  map snd (filter (fun call => development (fst call)) calls).

(** The line a call logs when the singleton is already initialized. *)
Definition warningOf (call : option string * Adapters) : string :=
  if development (fst call) then REINITIALIZING else IGNORING.

Lemma runCalls_cons (call : option string * Adapters)
    (later : list (option string * Adapters)) (st : ContextState) :
  runCalls (call :: later) st
  = runCalls later (setAdapters (fst call) (snd call) st).
Proof. reflexivity. Qed.

Lemma runCalls_initialized (later : list (option string * Adapters))
    (st : ContextState) (current : Adapters) :
  _initialized st = true -> _adapters st = Some current ->
  _initialized (runCalls later st) = true
  /\ _adapters (runCalls later st)
     = Some (last (developmentBundles later) current)
  /\ warnings (runCalls later st) = warnings st ++ map warningOf later.
Proof.
  revert st current.
  induction later as [|call later IH]; intros st current Hi Ha.
  - repeat split; try assumption. cbn [map]. now rewrite app_nil_r.
  - rewrite runCalls_cons.
    unfold developmentBundles, warningOf in *. cbn [filter map].
    destruct (development (fst call)) eqn:D.
    + destruct (IH (setAdapters (fst call) (snd call) st) (snd call))
        as (I & A & W).
      * unfold setAdapters. now rewrite Hi, D.
      * unfold setAdapters. now rewrite Hi, D.
      * split; [exact I|]. split.
        -- rewrite A. cbn [map].
           destruct (map snd (filter _ later)) eqn:E; [reflexivity|].
           rewrite <- E. clear.
           generalize (map snd
                         (filter (fun c : option string * Adapters =>
                                    development (fst c)) later)).
           intros l. destruct l as [|x l]; [reflexivity|].
           revert x. induction l as [|y l IHl]; intros x; [reflexivity|].
           cbn [last] in *. apply IHl.
        -- rewrite W. unfold setAdapters. rewrite Hi, D. cbn [warnings].
           now rewrite <- app_assoc.
    + destruct (IH (setAdapters (fst call) (snd call) st) current)
        as (I & A & W).
      * unfold setAdapters. now rewrite Hi, D.
      * unfold setAdapters. now rewrite Hi, D.
      * split; [exact I|]. split; [exact A|].
        rewrite W. unfold setAdapters. rewrite Hi, D. cbn [warnings].
        now rewrite <- app_assoc.
Qed.

(** X7: after a first [setAdapters] call and any later ones, the
    bundle [getAdapters] and the four accessors return is the one of
    the last call made in development mode, or the first call's when no
    later call was made in development mode. *)
Theorem adapters_last_development_call (env : option string) (first : Adapters)
    (later : list (option string * Adapters)) :
  let current := last (developmentBundles later) first in
  let st := runCalls ((env, first) :: later) start in
  getAdapters st = Ok current
  /\ getCrypto st = Ok (crypto current)
  /\ getStorage st = Ok (storage current)
  /\ getLinking st = Ok (linking current)
  /\ getEncoding st = Ok (encoding current).
Proof.
  intros current st.
  destruct (@runCalls_initialized later
              (setAdapters env first start) first eq_refl eq_refl)
    as (_ & A & _).
  unfold getCrypto, getStorage, getLinking, getEncoding, getAdapters.
  subst st. rewrite runCalls_cons. cbn [fst snd]. rewrite A.
  repeat split.
Qed.

(** X8: [isInitialized] answers [true] exactly when [getAdapters] does
    not throw, that is after at least one call; the first call logs
    nothing and every later call logs exactly one warning, which says
    whether the call replaced the bundle (development mode) or was
    ignored. *)
Theorem setAdapters_warnings (calls : list (option string * Adapters)) :
  isInitialized (runCalls calls start)
  = is_ok (getAdapters (runCalls calls start))
  /\ isInitialized (runCalls calls start) = negb (length calls =? 0)%nat
  /\ warnings (runCalls calls start) = map warningOf (tl calls).
Proof.
  destruct calls as [|[env first] later]; [repeat split|].
  destruct (@runCalls_initialized later
              (setAdapters env first start) first eq_refl eq_refl)
    as (I & A & W).
  unfold isInitialized, getAdapters.
  rewrite runCalls_cons. cbn [fst snd]. rewrite I, A, W.
  repeat split.
Qed.

End SingletonFacts.

End SingletonFacts.
(* ================================================================== *)
(** * Properties: algorithm names, from [hashData] to the adapters *)
(* ================================================================== *)

Module AlgorithmFacts.
Import Hash Forms.

Lemma takeDigits_all (digits : jsstring) :
  forallb isDigit digits = true -> takeDigits digits = (digits, []).
Proof.
  induction digits as [|d ds IH]; intros H; [reflexivity|].
  cbn [forallb] in H. apply andb_true_iff in H. destruct H as [Hd Hds].
  cbn [takeDigits]. now rewrite Hd, (IH Hds).
Qed.

Lemma digit_not_hyphen (d : N) : isDigit d = true -> (d =? 45) = false.
Proof.
  unfold isDigit. intros H. apply andb_true_iff in H. destruct H as [H _].
  apply N.leb_le in H. apply N.eqb_neq. lia.
Qed.

Lemma digits_without_hyphen (digits : jsstring) :
  forallb isDigit digits = true -> includes 45 digits = false.
Proof.
  unfold includes. induction digits as [|d ds IH]; intros H; [reflexivity|].
  cbn [forallb] in H. apply andb_true_iff in H. destruct H as [Hd Hds].
  cbn [existsb]. rewrite (IH Hds), orb_false_r.
  rewrite N.eqb_sym. now apply digit_not_hyphen.
Qed.

Lemma digits_plain (digits : jsstring) :
  forallb isDigit digits = true -> forallb isPlainUpper digits = true.
Proof.
  induction digits as [|d ds IH]; intros H; [reflexivity|].
  cbn [forallb] in *. apply andb_true_iff in H. destruct H as [Hd Hds].
  unfold isPlainUpper at 1. now rewrite Hd, (IH Hds).
Qed.

(** The leftmost match of [/SHA-?(\d+)/i] in [SHA<digits>] and in
    [SHA-<digits>] is the whole text. *)
Lemma replaceSha_plain (digits : jsstring) :
  digits <> [] -> forallb isDigit digits = true ->
  replaceSha (js "SHA" ++ digits) = js "SHA-" ++ digits.
Proof.
  intros Hne Hd. destruct digits as [|d ds]; [contradiction|].
  pose proof (takeDigits_all _ Hd) as T.
  cbn [forallb] in Hd. apply andb_true_iff in Hd. destruct Hd as [Hd _].
  change (js "SHA" ++ d :: ds) with (83 :: 72 :: 65 :: d :: ds).
  cbn [replaceSha matchSha N.eqb Pos.eqb orb andb].
  rewrite (digit_not_hyphen _ Hd). cbn [andb].
  rewrite T. now rewrite app_nil_r.
Qed.

Lemma replaceSha_hyphen (digits : jsstring) :
  digits <> [] -> forallb isDigit digits = true ->
  replaceSha (js "SHA-" ++ digits) = js "SHA-" ++ digits.
Proof.
  intros Hne Hd. destruct digits as [|d ds]; [contradiction|].
  pose proof (takeDigits_all _ Hd) as T.
  cbn [forallb] in Hd. apply andb_true_iff in Hd. destruct Hd as [Hd _].
  change (js "SHA-" ++ d :: ds) with (83 :: 72 :: 65 :: 45 :: d :: ds).
  cbn [replaceSha matchSha N.eqb Pos.eqb orb andb].
  rewrite Hd. rewrite T. now rewrite app_nil_r.
Qed.

Section Names.

Variable toUpperCase : jsstring -> jsstring.

(** Of [String.prototype.toUpperCase]: on ASCII text it changes the
    letters [a] to [z] only, and applying it twice is applying it
    once. *)
Hypothesis upper_ascii :
  forall s, forallb isAscii s = true -> toUpperCase s = asciiUpperCase s.
Hypothesis upper_idempotent :
  forall s, toUpperCase (toUpperCase s) = toUpperCase s.

Lemma upper_plain (s : jsstring) :
  forallb isPlainUpper s = true -> toUpperCase s = s.
Proof.
  intros H. rewrite upper_ascii.
  - unfold asciiUpperCase. rewrite <- (map_id s) at 2. apply map_ext_in.
    intros c Hc. rewrite forallb_forall in H. specialize (H c Hc).
    destruct ((97 <=? c) && (c <=? 122)) eqn:E; [|reflexivity].
    exfalso. apply andb_true_iff in E. destruct E as [E1 E2].
    apply N.leb_le in E1, E2.
    unfold isPlainUpper, isDigit in H.
    repeat (apply orb_true_iff in H; destruct H as [H|H]).
    + apply andb_true_iff in H. destruct H as [_ H]. apply N.leb_le in H. lia.
    + apply andb_true_iff in H. destruct H as [_ H]. apply N.leb_le in H. lia.
    + apply N.eqb_eq in H. lia.
    + apply N.eqb_eq in H. lia.
  - rewrite forallb_forall in *. intros c Hc. specialize (H c Hc).
    unfold isAscii. apply N.ltb_lt.
    unfold isPlainUpper, isDigit in H.
    repeat (apply orb_true_iff in H; destruct H as [H|H]).
    + apply andb_true_iff in H. destruct H as [_ H]. apply N.leb_le in H. lia.
    + apply andb_true_iff in H. destruct H as [_ H]. apply N.leb_le in H. lia.
    + apply N.eqb_eq in H. lia.
    + apply N.eqb_eq in H. lia.
Qed.

Let normalize := normalizeAlgorithm toUpperCase.

Lemma upper_sha_hyphen (digits : jsstring) :
  forallb isDigit digits = true ->
  toUpperCase (js "SHA-" ++ digits) = js "SHA-" ++ digits.
Proof.
  intros Hd. apply upper_plain.
  change (js "SHA-" ++ digits) with (83 :: 72 :: 65 :: 45 :: digits).
  cbn [forallb]. now rewrite (digits_plain _ Hd).
Qed.

Lemma normalize_plain (algorithm digits : jsstring) :
  digits <> [] -> forallb isDigit digits = true ->
  toUpperCase algorithm = js "SHA" ++ digits ->
  normalize algorithm = js "SHA-" ++ digits.
Proof.
  intros Hne Hd E. unfold normalize, normalizeAlgorithm. rewrite E.
  change (js "SHA" ++ digits) with (83 :: 72 :: 65 :: digits).
  cbn [startsWith js map list_ascii_of_string N_of_ascii N.eqb Pos.eqb andb].
  unfold includes. cbn [existsb N.eqb orb].
  fold (includes 45 digits). rewrite (digits_without_hyphen _ Hd).
  cbn [negb skipn]. rewrite (takeDigits_all _ Hd).
  destruct digits; [contradiction | reflexivity].
Qed.

Lemma normalize_hyphen (algorithm digits : jsstring) :
  toUpperCase algorithm = js "SHA-" ++ digits ->
  normalize algorithm = js "SHA-" ++ digits.
Proof.
  intros E. unfold normalize, normalizeAlgorithm. rewrite E.
  change (js "SHA-" ++ digits) with (83 :: 72 :: 65 :: 45 :: digits).
  cbn [startsWith js map list_ascii_of_string N_of_ascii N.eqb Pos.eqb andb].
  unfold includes. cbn [existsb N.eqb Pos.eqb orb negb]. reflexivity.
Qed.

Lemma normalize_spelling (algorithm digits : jsstring) :
  spellsSha toUpperCase algorithm digits ->
  normalize algorithm = js "SHA-" ++ digits.
Proof.
  intros (Hne & Hd & [E|E]);
    [now apply normalize_plain | now apply normalize_hyphen].
Qed.

Lemma takeDigits_spec (s digits after : jsstring) :
  takeDigits s = (digits, after) ->
  s = digits ++ after /\ forallb isDigit digits = true.
Proof.
  revert digits after. induction s as [|c s IH]; intros digits after H.
  - inversion H. now split.
  - cbn [takeDigits] in H. destruct (isDigit c) eqn:D.
    + destruct (takeDigits s) as [ds rest] eqn:T.
      inversion H; subst. destruct (IH ds after eq_refl) as [-> F].
      split; [reflexivity|]. cbn [forallb]. now rewrite D, F.
    + inversion H. now split.
Qed.

Lemma startsWith_sha (s : jsstring) :
  startsWith (js "SHA") s = true -> s = js "SHA" ++ skipn 3 s.
Proof.
  destruct s as [|c1 [|c2 [|c3 rest]]]; try discriminate;
    cbn [startsWith js map list_ascii_of_string N_of_ascii andb];
    try (intros H; repeat (apply andb_true_iff in H; destruct H as [? H]);
         discriminate).
  intros H. repeat (apply andb_true_iff in H; destruct H as [? H]).
  repeat match goal with E : (_ =? _) = true |- _ =>
    apply N.eqb_eq in E end.
  subst. reflexivity.
Qed.

(** What [normalizeAlgorithm] returns: the upper-case name, but
    [SHA-<digits>] for a name that in upper case is [SHA<digits>]. *)
Lemma normalize_cases (algorithm : jsstring) :
  normalize algorithm = toUpperCase algorithm
  \/ exists digits,
       digits <> [] /\ forallb isDigit digits = true
       /\ toUpperCase algorithm = js "SHA" ++ digits
       /\ normalize algorithm = js "SHA-" ++ digits.
Proof.
  unfold normalize, normalizeAlgorithm.
  destruct (startsWith (js "SHA") (toUpperCase algorithm)
            && negb (includes 45 (toUpperCase algorithm))) eqn:C;
    [|now left].
  apply andb_true_iff in C. destruct C as [S _].
  apply startsWith_sha in S.
  destruct (takeDigits (skipn 3 (toUpperCase algorithm)))
    as [digits after] eqn:T.
  destruct digits as [|d ds]; [now left|].
  destruct after as [|? ?]; [|now left].
  right. exists (d :: ds).
  destruct (takeDigits_spec _ T) as [E F]. rewrite app_nil_r in E.
  repeat split; try assumption; try discriminate.
  now rewrite S, E at 1.
Qed.

Lemma normalize_upper (algorithm : jsstring) :
  normalize (toUpperCase algorithm) = normalize algorithm.
Proof.
  unfold normalize, normalizeAlgorithm. now rewrite upper_idempotent.
Qed.

(** X10: normalizing an algorithm name twice is normalizing it once,
    and the browser adapter's own normalization absorbs that of
    [hashData]: [getHmacAlgorithm] gives the same hash name for a name
    and for the normalized name. *)
Theorem normalizeAlgorithm_stable (algorithm : jsstring) :
  normalizeAlgorithm toUpperCase (normalizeAlgorithm toUpperCase algorithm)
  = normalizeAlgorithm toUpperCase algorithm
  /\ getHmacAlgorithm toUpperCase (normalizeAlgorithm toUpperCase algorithm)
     = getHmacAlgorithm toUpperCase algorithm.
Proof.
  change (normalize (normalize algorithm) = normalize algorithm
          /\ getHmacAlgorithm toUpperCase (normalize algorithm)
             = getHmacAlgorithm toUpperCase algorithm).
  destruct (normalize_cases algorithm) as [E | (digits & Hne & Hd & U & E)].
  - rewrite E. split; [rewrite normalize_upper; exact E|].
    unfold getHmacAlgorithm. now rewrite upper_idempotent.
  - rewrite E. split.
    + apply normalize_hyphen. now apply upper_sha_hyphen.
    + unfold getHmacAlgorithm.
      rewrite (upper_sha_hyphen _ Hd), U.
      now rewrite replaceSha_plain, replaceSha_hyphen.
Qed.

Section Hashing.

Variable encoding : EncodingAdapter.
Variable crypto : CryptoAdapter.

Let hash := hashData toUpperCase (Ok encoding) (Ok crypto).

(** X9: [hashData] takes every spelling of a SHA name alike: a name
    that in upper case is [SHA<digits>] or [SHA-<digits>] is normalized
    to [SHA-<digits>], so two such names with the same digits give the
    same result, and leaving the algorithm out is asking for
    [SHA-256]. *)
Theorem hashData_sha_spellings (data : jsstring) (privateKey : option jsstring)
    (algorithm digits : jsstring) :
  spellsSha toUpperCase algorithm digits ->
  normalizeAlgorithm toUpperCase algorithm = js "SHA-" ++ digits
  /\ (forall other,
        spellsSha toUpperCase other digits ->
        hash data privateKey (Some algorithm)
        = hash data privateKey (Some other))
  /\ (digits = js "256" ->
      hash data privateKey (Some algorithm) = hash data privateKey None).
Proof.
  intros Hs. pose proof (normalize_spelling Hs) as E. unfold normalize in E.
  split; [exact E|]. split.
  - intros other Ho. pose proof (normalize_spelling Ho) as E'.
    unfold normalize in E'.
    unfold hash, hashData. cbn [bind orDefault]. now rewrite E, E'.
  - intros ->.
    assert (D : normalizeAlgorithm toUpperCase DEFAULT_ALGORITHM
                = js "SHA-" ++ js "256").
    { apply (@normalize_plain DEFAULT_ALGORITHM (js "256"));
        [discriminate | reflexivity |].
      now rewrite upper_ascii. }
    unfold hash, hashData. cbn [bind orDefault]. now rewrite E, D.
Qed.

End Hashing.

(** X11: for a name that spells a SHA hash, the hash name under which
    the HMAC key is imported is [SHA-<digits>] on both platforms: the
    browser adapter normalizes the name it is given, the React Native
    adapter passes it on as it is, and [hashData] has normalized it
    before.  The React Native adapter takes the Web Crypto of
    react-native-quick-crypto first, then the global one, and fails
    when there is neither. *)
Theorem hmacSign_hash_name (webcrypto other : NativeCrypto.WebCrypto)
    (algorithm digits : jsstring) (key data : bytes) :
  spellsSha toUpperCase algorithm digits ->
  let name := normalizeAlgorithm toUpperCase algorithm in
  let signed := NativeCrypto.subtleHmac webcrypto (js "SHA-" ++ digits) key data in
  hmacSign (browserCryptoAdapter toUpperCase
              (NativeCrypto.subtleHmac webcrypto)) name key data = signed
  /\ hmacSign (NativeCrypto.cryptoAdapter (Some webcrypto) (Some other))
       name key data = signed
  /\ hmacSign (NativeCrypto.cryptoAdapter (Some webcrypto) None)
       name key data = signed
  /\ hmacSign (NativeCrypto.cryptoAdapter None (Some webcrypto))
       name key data = signed
  /\ hmacSign (NativeCrypto.cryptoAdapter None None) name key data
     = Err NativeCrypto.NO_CRYPTO.
Proof.
  intros Hs name signed.
  pose proof (normalize_spelling Hs) as E. unfold normalize in E.
  destruct Hs as (Hne & Hd & _).
  subst name signed. rewrite E.
  cbn [hmacSign browserCryptoAdapter NativeCrypto.cryptoAdapter].
  unfold getHmacAlgorithm, NativeCrypto.hmacSign, NativeCrypto.getCrypto.
  cbn [bind].
  rewrite (upper_sha_hyphen _ Hd), (replaceSha_hyphen Hne Hd).
  repeat split.
Qed.

End Names.

(** ** The laws of [toUpperCase], for the ASCII version *)

Lemma asciiUpperCase_ascii (s : jsstring) :
  forallb isAscii s = true -> asciiUpperCase s = asciiUpperCase s.
Proof. reflexivity. Qed.

Lemma asciiUpperCase_idempotent (s : jsstring) :
  asciiUpperCase (asciiUpperCase s) = asciiUpperCase s.
Proof.
  unfold asciiUpperCase. rewrite map_map. apply map_ext. intros c.
  destruct ((97 <=? c) && (c <=? 122)) eqn:E; [|now rewrite E].
  apply andb_true_iff in E. destruct E as [E1 E2]. apply N.leb_le in E1, E2.
  destruct (N.leb_spec 97 (c - 32)); [lia | reflexivity].
Qed.

Lemma normalizeAlgorithm_stable_witness :
  normalizeAlgorithm asciiUpperCase
    (normalizeAlgorithm asciiUpperCase (js "sha512"))
  = normalizeAlgorithm asciiUpperCase (js "sha512")
  /\ getHmacAlgorithm asciiUpperCase
       (normalizeAlgorithm asciiUpperCase (js "sha512"))
     = getHmacAlgorithm asciiUpperCase (js "sha512").
Proof.
  apply (@normalizeAlgorithm_stable asciiUpperCase asciiUpperCase_ascii
           asciiUpperCase_idempotent (js "sha512")).
Defined.

Lemma sha256_spelling :
  spellsSha asciiUpperCase (js "Sha256") (js "256").
Proof.
  split; [discriminate|]. split; [reflexivity|]. now left.
Qed.

Lemma hashData_sha_spellings_witness :
  normalizeAlgorithm asciiUpperCase (js "Sha256") = js "SHA-" ++ js "256"
  /\ (forall other,
        spellsSha asciiUpperCase other (js "256") ->
        referenceHashData (js "abc") (Some (js "key")) (Some (js "Sha256"))
        = referenceHashData (js "abc") (Some (js "key")) (Some other))
  /\ (js "256" = js "256" ->
      referenceHashData (js "abc") (Some (js "key")) (Some (js "Sha256"))
      = referenceHashData (js "abc") (Some (js "key")) None).
Proof.
  apply (@hashData_sha_spellings asciiUpperCase asciiUpperCase_ascii
           Native.encodingAdapter
           (browserCryptoAdapter asciiUpperCase referenceHmac)
           (js "abc") (Some (js "key")) (js "Sha256") (js "256")
           sha256_spelling).
Defined.

Lemma hmacSign_hash_name_witness :
  let name := normalizeAlgorithm asciiUpperCase (js "Sha256") in
  let signed :=
    NativeCrypto.subtleHmac NativeCrypto.referenceWebCrypto (js "SHA-" ++ js "256")
      [x01] [x02] in
  hmacSign (browserCryptoAdapter asciiUpperCase
              (NativeCrypto.subtleHmac NativeCrypto.referenceWebCrypto)) name [x01] [x02]
  = signed
  /\ hmacSign (NativeCrypto.cryptoAdapter (Some NativeCrypto.referenceWebCrypto)
                 (Some NativeCrypto.referenceWebCrypto)) name [x01] [x02] = signed
  /\ hmacSign (NativeCrypto.cryptoAdapter (Some NativeCrypto.referenceWebCrypto) None)
       name [x01] [x02] = signed
  /\ hmacSign (NativeCrypto.cryptoAdapter None (Some NativeCrypto.referenceWebCrypto))
       name [x01] [x02] = signed
  /\ hmacSign (NativeCrypto.cryptoAdapter None None) name [x01] [x02]
     = Err NativeCrypto.NO_CRYPTO.
Proof.
  apply (@hmacSign_hash_name asciiUpperCase asciiUpperCase_ascii
           NativeCrypto.referenceWebCrypto NativeCrypto.referenceWebCrypto (js "Sha256") (js "256")
           [x01] [x02] sha256_spelling).
Defined.

End AlgorithmFacts.
(* ================================================================== *)
(** * Properties: [importKey] of the browser adapter, [generateHash] *)
(* ================================================================== *)

Module BrowserCryptoFacts.
Import Hash BrowserCrypto Forms AlgorithmFacts.

(** Writes the ASCII literals of the goal as lists of code units. *)
Ltac spell :=
  repeat match goal with
         | |- context [js ?s] =>
             let v := eval vm_compute in (js s) in change (js s) with v
         end.

Lemma takeDigits_app (digits rest : jsstring) :
  forallb isDigit digits = true ->
  match rest with c :: _ => isDigit c = false | [] => True end ->
  takeDigits (digits ++ rest) = (digits, rest).
Proof.
  intros Hd Hr. induction digits as [|d ds IH].
  - cbn [app]. destruct rest as [|c rest]; [reflexivity|].
    cbn [takeDigits]. now rewrite Hr.
  - cbn [forallb] in Hd. apply andb_true_iff in Hd. destruct Hd as [Hd Hds].
    cbn [app takeDigits]. now rewrite Hd, (IH Hds).
Qed.

Lemma digit_not_separator (d : N) : isDigit d = true -> isSeparator d = false.
Proof.
  unfold isDigit, isSeparator. intros H.
  apply andb_true_iff in H. destruct H as [H _]. apply N.leb_le in H.
  destruct (N.eqb_spec d 45); [lia|]. destruct (N.eqb_spec d 32); [lia|].
  reflexivity.
Qed.

Lemma dashes_digits (digits : jsstring) :
  forallb isDigit digits = true -> dashes digits = digits.
Proof.
  unfold dashes. induction digits as [|d ds IH]; intros H; [reflexivity|].
  cbn [forallb] in H. apply andb_true_iff in H. destruct H as [Hd Hds].
  cbn [map]. now rewrite (digit_not_separator _ Hd), (IH Hds).
Qed.

(** Nothing, a hyphen or a space. *)
Definition optionalSeparator (text : jsstring) : Prop :=
  text = [] \/ text = [45] \/ text = [32].

Lemma not_text (a b : jsstring) : a <> b -> jsstring_eqb a b = false.
Proof.
  intros H. destruct (jsstring_eqb a b) eqn:E; [|reflexivity].
  exfalso. now apply H, HexFacts.jsstring_eqb_eq.
Qed.

(** [SHA], in any case. *)
Definition isShaWord (word : jsstring) : bool :=
  match word with
  | [c1; c2; c3] =>
      ((c1 =? 83) || (c1 =? 115)) && ((c2 =? 72) || (c2 =? 104))
      && ((c3 =? 65) || (c3 =? 97))
  | _ => false
  end.

(** [normalized] names a hash after [HMAC]: an optional separator,
    then [word], which is [SHA], then an optional [separator] and
    [digits], which are all the digits there. *)
Definition namesHash (normalized word separator digits : jsstring) : Prop :=
  exists separator1 rest,
    optionalSeparator separator1 /\ optionalSeparator separator
    /\ isShaWord word = true
    /\ digits <> [] /\ forallb isDigit digits = true
    /\ match rest with c :: _ => isDigit c = false | [] => True end
    /\ normalized
       = js "HMAC" ++ separator1 ++ word ++ separator ++ digits ++ rest.

Lemma isShaWord_spec (word : jsstring) :
  isShaWord word = true ->
  exists c1 c2 c3,
    word = [c1; c2; c3] /\ (c1 = 83 \/ c1 = 115) /\ (c2 = 72 \/ c2 = 104)
    /\ (c3 = 65 \/ c3 = 97).
Proof.
  destruct word as [|c1 [|c2 [|c3 [|c4 rest]]]]; try discriminate.
  cbn [isShaWord]. intros H.
  apply andb_true_iff in H. destruct H as [H H3].
  apply andb_true_iff in H. destruct H as [H1 H2].
  apply orb_true_iff in H1, H2, H3.
  exists c1, c2, c3. rewrite <- !N.eqb_eq. now repeat split.
Qed.

(** The group of a name that names a hash. *)
Lemma hmacHashGroup_names (normalized word separator digits : jsstring) :
  namesHash normalized word separator digits ->
  hmacHashGroup normalized = Some (word ++ separator ++ digits).
Proof.
  intros (separator1 & rest & H1 & H2 & W & Hne & Hd & Hr & ->).
  pose proof (takeDigits_app _ _ Hd Hr) as T.
  destruct digits as [|d ds]; [contradiction|].
  assert (Hd0 : isDigit d = true).
  { cbn [forallb] in Hd. apply andb_true_iff in Hd. now destruct Hd. }
  pose proof (digit_not_separator _ Hd0) as Hs.
  destruct (isShaWord_spec _ W) as (c1 & c2 & c3 & -> & L1 & L2 & L3).
  destruct H1 as [-> | [-> | ->]], H2 as [-> | [-> | ->]],
    L1 as [-> | ->], L2 as [-> | ->], L3 as [-> | ->];
    spell;
    cbn [app hmacHashGroup skipn isSeparator N.eqb Pos.eqb orb andb];
    fold (isSeparator d); rewrite ?Hs, ?Hd0; cbn [andb];
    change (takeDigits (d :: ds ++ rest))
      with (takeDigits ((d :: ds) ++ rest));
    rewrite T; reflexivity.
Qed.

Lemma takeDigits_stop (s digits after : jsstring) :
  takeDigits s = (digits, after) ->
  match after with c :: _ => isDigit c = false | [] => True end.
Proof.
  revert digits after. induction s as [|c s IH]; intros digits after H.
  - inversion H. exact I.
  - cbn [takeDigits] in H. destruct (isDigit c) eqn:D.
    + destruct (takeDigits s) as [ds rest] eqn:T.
      inversion H; subst. now apply (IH ds).
    + inversion H. exact D.
Qed.

Lemma startsWith_hmac (s : jsstring) :
  startsWith (js "HMAC") s = true -> s = js "HMAC" ++ skipn 4 s.
Proof.
  destruct s as [|c1 [|c2 [|c3 [|c4 rest]]]];
    cbn [startsWith js map list_ascii_of_string N_of_ascii andb];
    try discriminate;
    try (intros H; repeat (apply andb_true_iff in H; destruct H as [? H]);
         discriminate).
  intros H. repeat (apply andb_true_iff in H; destruct H as [? H]).
  repeat match goal with E : (_ =? _) = true |- _ =>
    apply N.eqb_eq in E end.
  subst. reflexivity.
Qed.

Lemma isSeparator_spec (c : N) :
  isSeparator c = true -> optionalSeparator [c].
Proof.
  unfold isSeparator, optionalSeparator. intros H.
  apply orb_true_iff in H. destruct H as [H | H]; apply N.eqb_eq in H;
    subst; auto.
Qed.

(** A name whose group takes part in the match names a hash, and the
    group is what names it. *)
Lemma hmacHashGroup_inv (normalized group : jsstring) :
  startsWith (js "HMAC") normalized = true ->
  hmacHashGroup normalized = Some group ->
  exists word separator digits,
    namesHash normalized word separator digits
    /\ group = word ++ separator ++ digits.
Proof.
  intros Hs H. apply startsWith_hmac in Hs.
  set (tail := skipn 4 normalized) in *.
  unfold hmacHashGroup in H. fold tail in H.
  assert (S1 : exists separator1 afterSeparator,
             optionalSeparator separator1
             /\ tail = separator1 ++ afterSeparator
             /\ match tail with
                | c :: rest => if isSeparator c then rest else tail
                | [] => []
                end = afterSeparator).
  { destruct tail as [|c rest]; [exists [], []; repeat split; now left|].
    destruct (isSeparator c) eqn:E.
    - exists [c], rest. repeat split. now apply isSeparator_spec.
    - exists [], (c :: rest). repeat split. now left. }
  destruct S1 as (separator1 & afterSeparator & O1 & Etail & E1).
  rewrite E1 in H. clear E1.
  destruct afterSeparator as [|c1 [|c2 [|c3 rest]]]; try discriminate.
  destruct (((c1 =? 83) || (c1 =? 115)) && ((c2 =? 72) || (c2 =? 104))
            && ((c3 =? 65) || (c3 =? 97))) eqn:W; [|discriminate].
  assert (S2 : exists separator afterSha,
             optionalSeparator separator
             /\ rest = separator ++ afterSha
             /\ match rest with
                | c :: rest' =>
                    if isSeparator c && match rest' with
                                        | d :: _ => isDigit d
                                        | [] => false
                                        end
                    then ([c], rest') else ([], rest)
                | [] => ([], rest)
                end = (separator, afterSha)).
  { destruct rest as [|c rest']; [exists [], []; repeat split; now left|].
    destruct (isSeparator c) eqn:E; cbn [andb].
    - destruct (match rest' with d :: _ => isDigit d | [] => false end).
      + exists [c], rest'. repeat split. now apply isSeparator_spec.
      + exists [], (c :: rest'). repeat split. now left.
    - exists [], (c :: rest'). repeat split. now left. }
  destruct S2 as (separator & afterSha & O2 & Erest & E2).
  rewrite E2 in H. clear E2.
  destruct (takeDigits afterSha) as [digits after] eqn:T.
  pose proof (takeDigits_spec _ T) as [Eafter Hd].
  pose proof (takeDigits_stop _ T) as Hstop.
  destruct digits as [|d ds]; [discriminate|].
  inversion H. subst group. clear H.
  exists [c1; c2; c3], separator, (d :: ds). split; [|reflexivity].
  exists separator1, after.
  repeat split; try assumption; try discriminate.
  rewrite Hs, Etail, Erest, Eafter. reflexivity.
Qed.

Section ImportKeyFacts.

Variable toUpperCase : jsstring -> jsstring.

Let params := importKeyAlgorithm toUpperCase.

(** X12: the algorithm parameters the browser adapter's [importKey]
    chooses.  [AES-GCM] and [AESGCM], in any case, give AES-GCM.  A
    name that starts with [HMAC] gives HMAC.  When the name goes on
    with an optional separator, [SHA], an optional separator and
    digits, the hash name is [SHA], a hyphen if there was a separator
    before the digits, and the digits ([HMAC-SHA256] gives the hash
    name [SHA256], [HMAC SHA 256] gives [SHA-256]); in every other
    case, also when something else follows ([HMAC-], [HMAC-SHA],
    [HMAC-MD5]), the hash name is [SHA-256].  Any other name that
    spells a SHA hash gives HMAC with [SHA-<digits>], and a name with
    neither [HMAC] at its start nor [SHA] inside is passed on as it was
    given. *)
Theorem importKey_algorithm (algorithm : jsstring) :
  (toUpperCase algorithm = js "AES-GCM" \/ toUpperCase algorithm = js "AESGCM"
   -> params algorithm = Named (js "AES-GCM"))
  /\ (startsWith (js "HMAC") (toUpperCase algorithm) = true ->
      (forall word separator digits,
          namesHash (toUpperCase algorithm) word separator digits ->
          params algorithm = Hmac (word ++ dashes separator ++ digits))
      /\ ((forall word separator digits,
              ~ namesHash (toUpperCase algorithm) word separator digits) ->
          params algorithm = Hmac (js "SHA-256")))
  /\ (toUpperCase algorithm = js "HMAC" \/ toUpperCase algorithm = js "HMAC-"
      \/ toUpperCase algorithm = js "HMAC-SHA"
      \/ toUpperCase algorithm = js "HMAC-MD5"
      -> params algorithm = Hmac (js "SHA-256"))
  /\ (toUpperCase algorithm = js "HMAC-SHA256"
      -> params algorithm = Hmac (js "SHA256"))
  /\ (forall digits,
        spellsSha toUpperCase algorithm digits ->
        params algorithm = Hmac (js "SHA-" ++ digits))
  /\ (startsWith (js "HMAC") (toUpperCase algorithm) = false ->
      includesText (js "SHA") (toUpperCase algorithm) = false ->
      toUpperCase algorithm <> js "AES-GCM" ->
      toUpperCase algorithm <> js "AESGCM" ->
      params algorithm = Named algorithm).
Proof.
  unfold params, importKeyAlgorithm.
  split; [|split; [|split; [|split; [|split]]]].
  - intros [-> | ->]; reflexivity.
  - intros Hs.
    assert (A : jsstring_eqb (toUpperCase algorithm) (js "AES-GCM")
                || jsstring_eqb (toUpperCase algorithm) (js "AESGCM")
                = false).
    { rewrite (startsWith_hmac _ Hs).
      rewrite !not_text by (spell; discriminate). reflexivity. }
    rewrite A, Hs. split.
    + intros word separator digits N.
      rewrite (hmacHashGroup_names N).
      destruct N as (_ & _ & _ & _ & W & _ & Hd & _).
      destruct (isShaWord_spec _ W) as (c1 & c2 & c3 & -> & L1 & L2 & L3).
      f_equal. unfold dashes at 1. rewrite !map_app.
      fold (dashes separator) (dashes digits).
      rewrite (dashes_digits _ Hd). f_equal.
      destruct L1 as [-> | ->], L2 as [-> | ->], L3 as [-> | ->];
        reflexivity.
    + intros N.
      destruct (hmacHashGroup (toUpperCase algorithm)) as [group|] eqn:G;
        [|reflexivity].
      destruct (hmacHashGroup_inv _ Hs G) as (word & separator & digits & H & _).
      exfalso. exact (N _ _ _ H).
  - intros [-> | [-> | [-> | ->]]]; reflexivity.
  - intros ->. reflexivity.
  - intros digits (Hne & Hd & [E | E]); rewrite E.
    + rewrite (replaceSha_plain Hne Hd).
      rewrite !not_text by (spell; discriminate).
      reflexivity.
    + rewrite (replaceSha_hyphen Hne Hd).
      rewrite !not_text by (spell; discriminate).
      reflexivity.
  - intros H S N1 N2. now rewrite (not_text N1), (not_text N2), H, S.
Qed.

End ImportKeyFacts.

Section GenerateHashFacts.

Variable webcrypto : NativeCrypto.WebCrypto.
Variable encoding : EncodingAdapter.

(** [getRandomValues] fills the array it is given, and the installed
    encoding adapter has the [bytesToHex] of the two adapters of the
    SDK. *)
Hypothesis fills :
  forall buffer filled,
    NativeCrypto.getRandomValues webcrypto buffer = Ok filled ->
    length filled = length buffer.
Hypothesis adapter_hex : bytesToHex encoding = Encoding.bytesToHex.

(** X13: [generateHash] returns the random bytes the crypto adapter
    drew, written in hexadecimal: a text of [2 * size] lower-case
    hexadecimal digits, 128 of them when no size is given, from which
    [hexToBytes] reads the bytes back; on the browser adapter and on the
    React Native adapter alike. *)
Theorem generateHash_hex (size : option nat) (other : option NativeCrypto.WebCrypto)
    (text : jsstring) :
  HashRandom.generateHash
    (Ok (BrowserCrypto.getRandomBytes (NativeCrypto.getRandomValues webcrypto)))
    (Ok encoding) size = Ok text ->
  HashRandom.generateHash
    (Ok (NativeCrypto.getRandomBytes (Some webcrypto) other))
    (Ok encoding) size = Ok text
  /\ length text
     = (2 * match size with Some given => given | None => 64 end)%nat
  /\ forallb KeyShard.isLowerHexChar text = true
  /\ NativeCrypto.getRandomValues webcrypto
       (repeat x00 (match size with Some given => given | None => 64 end))
     = Ok (Encoding.hexToBytes text).
Proof.
  unfold HashRandom.generateHash, BrowserCrypto.getRandomBytes,
    NativeCrypto.getRandomBytes, NativeCrypto.getCrypto,
    HashRandom.DEFAULT_SIZE.
  cbn [bind]. rewrite adapter_hex.
  set (n := match size with Some given => given | None => 64%nat end).
  destruct (NativeCrypto.getRandomValues webcrypto (repeat x00 n))
    as [filled|e] eqn:E; [|discriminate].
  cbn [bind]. intros H. inversion H; subst text. clear H.
  destruct (HexFacts.hexToBytes_inverts filled) as (R & _).
  apply fills in E. rewrite repeat_length in E.
  rewrite R, KeyShardFacts.length_bytesToHex, E. repeat split.
  - lia.
  - apply KeyShardFacts.bytesToHex_lowercase.
Qed.

End GenerateHashFacts.

Lemma referenceWebCrypto_fills (buffer filled : bytes) :
  NativeCrypto.getRandomValues NativeCrypto.referenceWebCrypto buffer
  = Ok filled ->
  length filled = length buffer.
Proof.
  cbn [NativeCrypto.getRandomValues NativeCrypto.referenceWebCrypto].
  intros H. inversion H. unfold Crypto.Reference.countingBytes.
  now rewrite length_map, length_seq.
Qed.

Lemma generateHash_hex_witness :
  HashRandom.generateHash
    (Ok (NativeCrypto.getRandomBytes
           (Some NativeCrypto.referenceWebCrypto) None))
    (Ok Native.encodingAdapter) (Some 3%nat) = Ok (js "010203")
  /\ length (js "010203") = (2 * 3)%nat
  /\ forallb KeyShard.isLowerHexChar (js "010203") = true
  /\ NativeCrypto.getRandomValues NativeCrypto.referenceWebCrypto
       (repeat x00 3)
     = Ok (Encoding.hexToBytes (js "010203")).
Proof.
  apply (@generateHash_hex NativeCrypto.referenceWebCrypto
           Native.encodingAdapter referenceWebCrypto_fills eq_refl
           (Some 3%nat) None (js "010203")).
  reflexivity.
Defined.

End BrowserCryptoFacts.
(* ================================================================== *)
(** * Properties: [hashData] on the two crypto adapters *)
(* ================================================================== *)

Module HmacFacts.
Import Hash Forms AlgorithmFacts.

Section Adapters.

Variable toUpperCase : jsstring -> jsstring.
Variable webcrypto : NativeCrypto.WebCrypto.

(** Of [String.prototype.toUpperCase]: on ASCII text it changes the
    letters [a] to [z] only. *)
Hypothesis upper_ascii :
  forall s, forallb isAscii s = true -> toUpperCase s = asciiUpperCase s.

(** [hashData] in the browser and on React Native, over the same Web
    Crypto. *)
Let browser :=
  hashData toUpperCase (Ok Browser.encodingAdapter)
    (Ok (browserCryptoAdapter toUpperCase
           (NativeCrypto.subtleHmac webcrypto))).
Let native (other : option NativeCrypto.WebCrypto) :=
  hashData toUpperCase (Ok Native.encodingAdapter)
    (Ok (NativeCrypto.cryptoAdapter (Some webcrypto) other)).

(** What both adapters ask of the platform for a name that spells a
    SHA hash. *)
Lemma hashData_signs (data : jsstring) (privateKey algorithm : option jsstring)
    (digits : jsstring) (other : option NativeCrypto.WebCrypto) :
  spellsSha toUpperCase (orDefault DEFAULT_ALGORITHM algorithm) digits ->
  let answer :=
    signature <-
      NativeCrypto.subtleHmac webcrypto (js "SHA-" ++ digits)
        (Text.utf8Encode (orDefault [] privateKey)) (Text.utf8Encode data) ;;
    Ok (Encoding.bytesToHex signature) in
  browser data privateKey algorithm = answer
  /\ native other data privateKey algorithm = answer.
Proof.
  intros Hs answer.
  pose proof (normalize_spelling Hs) as E.
  destruct Hs as (Hne & Hd & _).
  unfold browser, native, hashData.
  cbn [bind utf8ToBytes bytesToHex Browser.encodingAdapter
       Native.encodingAdapter hmacSign browserCryptoAdapter
       NativeCrypto.cryptoAdapter].
  unfold getHmacAlgorithm, NativeCrypto.hmacSign, NativeCrypto.getCrypto.
  cbn [bind]. rewrite E.
  rewrite (@upper_sha_hyphen toUpperCase upper_ascii digits Hd),
    (replaceSha_hyphen Hne Hd).
  split; reflexivity.
Qed.

(** C7, amended.  [hashData] computes no plain hash: with or without
    a key, on both platforms, the adapter's [hmacSign] imports the
    UTF-8 bytes of the key (of the empty string when no key is given)
    for HMAC with the hash [SHA-<digits>] the algorithm name spells
    ([sha256] when none is given) and signs the UTF-8 bytes of the
    data.  The outcome is a function of (data, key, algorithm) and of
    the platform; a result that is returned is the signature in
    lower-case hexadecimal, two characters per byte, from which
    [hexToBytes] reads the signature back. *)
Theorem hashData_hmac (data : jsstring) (privateKey algorithm : option jsstring)
    (digits : jsstring) (other : option NativeCrypto.WebCrypto) :
  spellsSha toUpperCase (orDefault DEFAULT_ALGORITHM algorithm) digits ->
  let signed :=
    NativeCrypto.subtleHmac webcrypto (js "SHA-" ++ digits)
      (Text.utf8Encode (orDefault [] privateKey)) (Text.utf8Encode data) in
  browser data privateKey algorithm
  = (signature <- signed ;; Ok (Encoding.bytesToHex signature))
  /\ native other data privateKey algorithm
     = browser data privateKey algorithm
  /\ (forall text,
        browser data privateKey algorithm = Ok text ->
        forallb KeyShard.isLowerHexChar text = true
        /\ exists signature,
             signed = Ok signature
             /\ length text = (length signature * 2)%nat
             /\ Encoding.hexToBytes text = signature).
Proof.
  intros Hs signed.
  destruct (@hashData_signs data privateKey algorithm digits other Hs)
    as [B N].
  fold signed in B, N.
  split; [exact B|]. split; [now rewrite N, B|].
  intros text H. rewrite B in H.
  destruct signed as [signature|e]; [|discriminate].
  cbn [bind] in H. inversion H; subst text. split.
  - apply KeyShardFacts.bytesToHex_lowercase.
  - exists signature. split; [reflexivity|]. split.
    + apply KeyShardFacts.length_bytesToHex.
    + apply HexFacts.hexToBytes_inverts.
Qed.

(** The import of an HMAC key of length zero fails, as it does in Web
    Crypto. *)
Hypothesis zero_length_key :
  forall hash data,
    exists e, NativeCrypto.subtleHmac webcrypto hash [] data = Err e.

(** X24: where the platform refuses to import an HMAC key of length
    zero, [hashData] without a key never returns a hash: the default
    key is the empty string, whose bytes are what [hmacSign] imports,
    so the call fails on both adapters for every data and every
    algorithm name, as it does with the empty string for a key; for a
    name that spells a SHA hash the error is the one of the import
    under [SHA-<digits>]. *)
Theorem hashData_without_key (data : jsstring) (algorithm : option jsstring)
    (other : option NativeCrypto.WebCrypto) :
  (exists e, browser data None algorithm = Err e)
  /\ (exists e, native other data None algorithm = Err e)
  /\ browser data (Some []) algorithm = browser data None algorithm
  /\ native other data (Some []) algorithm = native other data None algorithm
  /\ (forall digits e,
        spellsSha toUpperCase (orDefault DEFAULT_ALGORITHM algorithm) digits ->
        NativeCrypto.subtleHmac webcrypto (js "SHA-" ++ digits) []
          (Text.utf8Encode data) = Err e ->
        browser data None algorithm = Err e
        /\ native other data None algorithm = Err e).
Proof.
  split; [|split; [|split; [|split]]].
  - unfold browser, hashData.
    cbn [bind utf8ToBytes Browser.encodingAdapter hmacSign
         browserCryptoAdapter orDefault].
    change (Text.utf8Encode []) with (@nil byte).
    destruct (zero_length_key
                (getHmacAlgorithm toUpperCase
                   (normalizeAlgorithm toUpperCase
                      (orDefault DEFAULT_ALGORITHM algorithm)))
                (Text.utf8Encode data)) as [e E].
    exists e. now rewrite E.
  - unfold native, hashData.
    cbn [bind utf8ToBytes Native.encodingAdapter hmacSign
         NativeCrypto.cryptoAdapter orDefault].
    unfold NativeCrypto.hmacSign, NativeCrypto.getCrypto. cbn [bind].
    change (Text.utf8Encode []) with (@nil byte).
    destruct (zero_length_key
                (normalizeAlgorithm toUpperCase
                   (orDefault DEFAULT_ALGORITHM algorithm))
                (Text.utf8Encode data)) as [e E].
    exists e. now rewrite E.
  - reflexivity.
  - reflexivity.
  - intros digits e Hs E.
    destruct (@hashData_signs data None algorithm digits other Hs) as [B N].
    cbn [orDefault] in B, N.
    change (Text.utf8Encode []) with (@nil byte) in B, N.
    rewrite E in B, N. now split.
Qed.

End Adapters.

(** The algorithm names of the tests, normalized. *)
Lemma normalizeAlgorithm_examples :
  normalizeAlgorithm asciiUpperCase (js "sha256") = js "SHA-256"
  /\ normalizeAlgorithm asciiUpperCase (js "sha512") = js "SHA-512"
  /\ normalizeAlgorithm asciiUpperCase (js "sha1") = js "SHA-1"
  /\ normalizeAlgorithm asciiUpperCase (js "SHA-256") = js "SHA-256".
Proof. repeat split. Qed.

Lemma default_spelling :
  spellsSha asciiUpperCase (orDefault DEFAULT_ALGORITHM None) (js "256").
Proof.
  split; [discriminate|]. split; [reflexivity|]. now left.
Qed.

(** [hashData] of "abc" under the key "key" over a Web Crypto that
    computes HMAC-SHA-256. *)
Lemma hashData_hmac_witness :
  let signed :=
    NativeCrypto.subtleHmac NativeCrypto.referenceWebCrypto
      (js "SHA-" ++ js "256")
      (Text.utf8Encode (js "key")) (Text.utf8Encode (js "abc")) in
  hashData asciiUpperCase (Ok Browser.encodingAdapter)
    (Ok (browserCryptoAdapter asciiUpperCase
           (NativeCrypto.subtleHmac NativeCrypto.referenceWebCrypto)))
    (js "abc") (Some (js "key")) None
  = (signature <- signed ;; Ok (Encoding.bytesToHex signature))
  /\ hashData asciiUpperCase (Ok Native.encodingAdapter)
       (Ok (NativeCrypto.cryptoAdapter
              (Some NativeCrypto.referenceWebCrypto) None))
       (js "abc") (Some (js "key")) None
     = hashData asciiUpperCase (Ok Browser.encodingAdapter)
         (Ok (browserCryptoAdapter asciiUpperCase
                (NativeCrypto.subtleHmac NativeCrypto.referenceWebCrypto)))
         (js "abc") (Some (js "key")) None
  /\ (forall text,
        hashData asciiUpperCase (Ok Browser.encodingAdapter)
          (Ok (browserCryptoAdapter asciiUpperCase
                 (NativeCrypto.subtleHmac NativeCrypto.referenceWebCrypto)))
          (js "abc") (Some (js "key")) None = Ok text ->
        forallb KeyShard.isLowerHexChar text = true
        /\ exists signature,
             signed = Ok signature
             /\ length text = (length signature * 2)%nat
             /\ Encoding.hexToBytes text = signature).
Proof.
  apply (@hashData_hmac asciiUpperCase NativeCrypto.referenceWebCrypto
           asciiUpperCase_ascii (js "abc") (Some (js "key")) None (js "256")
           None default_spelling).
Defined.

(** C7 as stated fails: without a key, [hashData] of "abc" does not
    return the SHA-256 digest of "abc". *)
Lemma hashData_counterexample :
  ~ plainHashWithoutKey asciiUpperCase (Ok Native.encodingAdapter)
      (Ok (browserCryptoAdapter asciiUpperCase referenceHmac))
      SHA256.digest.
Proof.
  intros H. specialize (H (js "abc")).
  vm_compute in H. discriminate.
Qed.

Lemma reference_zero_length_key (hash : jsstring) (data : bytes) :
  exists e,
    NativeCrypto.subtleHmac NativeCrypto.referenceWebCrypto hash [] data
    = Err e.
Proof.
  cbn [NativeCrypto.subtleHmac NativeCrypto.referenceWebCrypto].
  unfold referenceHmac.
  destruct (negb (jsstring_eqb hash (js "SHA-256"))); eauto.
Qed.

Lemma hashData_without_key_witness :
  (exists e,
      hashData asciiUpperCase (Ok Browser.encodingAdapter)
        (Ok (browserCryptoAdapter asciiUpperCase
               (NativeCrypto.subtleHmac NativeCrypto.referenceWebCrypto)))
        (js "hello world") None None = Err e)
  /\ (exists e,
        hashData asciiUpperCase (Ok Native.encodingAdapter)
          (Ok (NativeCrypto.cryptoAdapter
                 (Some NativeCrypto.referenceWebCrypto) None))
          (js "hello world") None None = Err e)
  /\ hashData asciiUpperCase (Ok Browser.encodingAdapter)
       (Ok (browserCryptoAdapter asciiUpperCase
              (NativeCrypto.subtleHmac NativeCrypto.referenceWebCrypto)))
       (js "hello world") (Some []) None
     = hashData asciiUpperCase (Ok Browser.encodingAdapter)
         (Ok (browserCryptoAdapter asciiUpperCase
                (NativeCrypto.subtleHmac NativeCrypto.referenceWebCrypto)))
         (js "hello world") None None
  /\ hashData asciiUpperCase (Ok Native.encodingAdapter)
       (Ok (NativeCrypto.cryptoAdapter
              (Some NativeCrypto.referenceWebCrypto) None))
       (js "hello world") (Some []) None
     = hashData asciiUpperCase (Ok Native.encodingAdapter)
         (Ok (NativeCrypto.cryptoAdapter
                (Some NativeCrypto.referenceWebCrypto) None))
         (js "hello world") None None
  /\ (forall digits e,
        spellsSha asciiUpperCase (orDefault DEFAULT_ALGORITHM None) digits ->
        NativeCrypto.subtleHmac NativeCrypto.referenceWebCrypto
          (js "SHA-" ++ digits) [] (Text.utf8Encode (js "hello world"))
        = Err e ->
        hashData asciiUpperCase (Ok Browser.encodingAdapter)
          (Ok (browserCryptoAdapter asciiUpperCase
                 (NativeCrypto.subtleHmac NativeCrypto.referenceWebCrypto)))
          (js "hello world") None None = Err e
        /\ hashData asciiUpperCase (Ok Native.encodingAdapter)
             (Ok (NativeCrypto.cryptoAdapter
                    (Some NativeCrypto.referenceWebCrypto) None))
             (js "hello world") None None = Err e).
Proof.
  apply (@hashData_without_key asciiUpperCase NativeCrypto.referenceWebCrypto
           asciiUpperCase_ascii reference_zero_length_key
           (js "hello world") None None).
Defined.

End HmacFacts.
(* ================================================================== *)
(** * Properties: base64 in the browser adapter, and across platforms *)
(* ================================================================== *)

Module BrowserFacts.
Import Browser Forms NativeFacts Base64Facts.

(** ** Facts checked over all 6-bit values and all bytes *)

Definition plainCharacter (c : N) : bool :=
  negb (isAsciiWhitespace c) && negb (c =? 61)
  && negb (c =? 45) && negb (c =? 95).

Lemma charOfSextet_spec (v : N) :
  v < 64 ->
  sextetOf (charOfSextet v) = Some v
  /\ plainCharacter (charOfSextet v) = true
  /\ charOfSextet v = Native.charAt v.
Proof.
  intros Hv.
  assert (H : (match sextetOf (charOfSextet v) with
               | Some w => w =? v
               | None => false
               end
               && plainCharacter (charOfSextet v)
               && (charOfSextet v =? Native.charAt v))%bool = true).
  { revert v Hv. apply (forall_below_spec 64). vm_compute. reflexivity. }
  repeat (apply andb_true_iff in H; destruct H as [H ?]).
  repeat split; try assumption.
  - destruct (sextetOf (charOfSextet v)) as [w|]; [|discriminate].
    apply N.eqb_eq in H. now subst.
  - now apply N.eqb_eq.
Qed.

(** The four values of three bytes, in arithmetic and in bit
    operations. *)
Definition value2 (a b : N) : N := (a mod 4) * 16 + b / 16.
Definition value3 (b c : N) : N := (b mod 16) * 4 + c / 64.

Lemma values_spec (x y : byte) :
  let a := Byte.to_N x in
  let b := Byte.to_N y in
  (a / 4 < 64 /\ value2 a b < 64 /\ value3 a b < 64 /\ a mod 64 < 64)
  /\ (N.shiftr a 2 = a / 4 /\ sextet2 a b = value2 a b
      /\ sextet3 a b = value3 a b /\ N.land a 63 = a mod 64)
  /\ ((a / 4) * 4 + value2 a b / 16 = a
      /\ value2 a b mod 16 = b / 16
      /\ value3 a b / 4 = a mod 16
      /\ value3 a b mod 4 = b / 64
      /\ (a / 16) * 16 + a mod 16 = a
      /\ (a / 64) * 64 + a mod 64 = a).
Proof.
  intros a b. subst a b.
  assert (H : (let a := Byte.to_N x in
               let b := Byte.to_N y in
               (a / 4 <? 64) && (value2 a b <? 64) && (value3 a b <? 64)
               && (a mod 64 <? 64)
               && (N.shiftr a 2 =? a / 4) && (sextet2 a b =? value2 a b)
               && (sextet3 a b =? value3 a b) && (N.land a 63 =? a mod 64)
               && ((a / 4) * 4 + value2 a b / 16 =? a)
               && (value2 a b mod 16 =? b / 16)
               && (value3 a b / 4 =? a mod 16)
               && (value3 a b mod 4 =? b / 64)
               && ((a / 16) * 16 + a mod 16 =? a)
               && ((a / 64) * 64 + a mod 64 =? a))%bool = true).
  { revert x y.
    apply (forall_bytes2_spec
             (fun x y =>
                let a := Byte.to_N x in
                let b := Byte.to_N y in
                ((a / 4 <? 64) && (value2 a b <? 64) && (value3 a b <? 64)
                 && (a mod 64 <? 64)
                 && (N.shiftr a 2 =? a / 4) && (sextet2 a b =? value2 a b)
                 && (sextet3 a b =? value3 a b) && (N.land a 63 =? a mod 64)
                 && ((a / 4) * 4 + value2 a b / 16 =? a)
                 && (value2 a b mod 16 =? b / 16)
                 && (value3 a b / 4 =? a mod 16)
                 && (value3 a b mod 4 =? b / 64)
                 && ((a / 16) * 16 + a mod 16 =? a)
                 && ((a / 64) * 64 + a mod 64 =? a))%bool)).
    vm_compute. reflexivity. }
  cbv zeta in H.
  repeat (apply andb_true_iff in H; destruct H as [H ?]).
  repeat split;
    try (now apply N.ltb_lt); now apply N.eqb_eq.
Qed.

(** ** The two adapters write the same text *)

Lemma encodeOctets_base64Encode (bs : bytes) :
  encodeOctets (map Byte.to_N bs) = Native.base64Encode (map Byte.to_N bs).
Proof.
  induction bs as [| x | x y | x y z bs IH] using triple_induction.
  - reflexivity.
  - destruct (values_spec x x00) as ((V1 & V2 & _) & (S1 & S2 & _) & _).
    cbn zeta in *. cbn [map encodeOctets Native.base64Encode].
    change (N.lor (N.shiftl (N.land (Byte.to_N x) 3) 4) (N.shiftr 0 4))
      with (sextet2 (Byte.to_N x) (Byte.to_N x00)).
    rewrite S1, S2.
    rewrite <- (proj2 (proj2 (charOfSextet_spec V1))),
      <- (proj2 (proj2 (charOfSextet_spec V2))).
    unfold value2. change (Byte.to_N x00 / 16) with 0.
    now rewrite N.add_0_r.
  - destruct (values_spec x y) as ((V1 & V2 & _) & (S1 & S2 & _) & _).
    destruct (values_spec y x00) as ((_ & _ & V3 & _) & (_ & _ & S3 & _) & _).
    cbn zeta in *. cbn [map encodeOctets Native.base64Encode].
    change (N.lor (N.shiftl (N.land (Byte.to_N y) 15) 2) (N.shiftr 0 6))
      with (sextet3 (Byte.to_N y) (Byte.to_N x00)).
    change (N.lor (N.shiftl (N.land (Byte.to_N x) 3) 4)
                  (N.shiftr (Byte.to_N y) 4))
      with (sextet2 (Byte.to_N x) (Byte.to_N y)).
    rewrite S1, S2, S3.
    rewrite <- (proj2 (proj2 (charOfSextet_spec V1))),
      <- (proj2 (proj2 (charOfSextet_spec V2))),
      <- (proj2 (proj2 (charOfSextet_spec V3))).
    unfold value2, value3. change (Byte.to_N x00 / 64) with 0.
    now rewrite N.add_0_r.
  - destruct (values_spec x y) as ((V1 & V2 & _) & (S1 & S2 & _) & _).
    destruct (values_spec y z) as ((_ & _ & V3 & _) & (_ & _ & S3 & _) & _).
    destruct (values_spec z z) as ((_ & _ & _ & V4) & (_ & _ & _ & S4) & _).
    cbn zeta in *. cbn [map encodeOctets Native.base64Encode].
    change (N.lor (N.shiftl (N.land (Byte.to_N y) 15) 2)
                  (N.shiftr (Byte.to_N z) 6))
      with (sextet3 (Byte.to_N y) (Byte.to_N z)).
    change (N.lor (N.shiftl (N.land (Byte.to_N x) 3) 4)
                  (N.shiftr (Byte.to_N y) 4))
      with (sextet2 (Byte.to_N x) (Byte.to_N y)).
    rewrite S1, S2, S3, S4.
    rewrite <- (proj2 (proj2 (charOfSextet_spec V1))),
      <- (proj2 (proj2 (charOfSextet_spec V2))),
      <- (proj2 (proj2 (charOfSextet_spec V3))),
      <- (proj2 (proj2 (charOfSextet_spec V4))).
    unfold value2, value3. now rewrite IH.
Qed.

Lemma btoa_bytes (bs : bytes) :
  btoa (map Byte.to_N bs) = Ok (bytesToBase64 bs).
Proof.
  unfold btoa, bytesToBase64.
  assert (H : forallb (fun c => c <=? 255) (map Byte.to_N bs) = true).
  { apply forallb_forall. intros c Hc. apply in_map_iff in Hc.
    destruct Hc as [b [<- _]]. apply N.leb_le.
    pose proof (to_N_lt b). lia. }
  now rewrite H.
Qed.

(** ** [atob], four characters of the alphabet at a time *)

Lemma plain_parts (c : N) :
  plainCharacter c = true ->
  isAsciiWhitespace c = false /\ (c =? 61) = false
  /\ (c =? 45) = false /\ (c =? 95) = false.
Proof.
  unfold plainCharacter. intros H.
  repeat (apply andb_true_iff in H; destruct H as [H ?]).
  repeat split; now apply negb_true_iff.
Qed.

Lemma stripPadding_quad (c1 c2 c3 c4 : N) (rest : jsstring) :
  (c4 =? 61) = false ->
  stripPadding (c1 :: c2 :: c3 :: c4 :: rest)
  = c1 :: c2 :: c3 :: c4 :: stripPadding rest.
Proof.
  intros H4. unfold stripPadding.
  change (length (c1 :: c2 :: c3 :: c4 :: rest)) with (4 + length rest)%nat.
  replace ((4 + length rest) mod 4)%nat with (length rest mod 4)%nat
    by (rewrite Nat.add_comm;
        change 4%nat with (1 * 4)%nat at 2;
        now rewrite Nat.Div0.mod_add).
  destruct (length rest mod 4 =? 0)%nat eqn:M; [|reflexivity].
  change (c1 :: c2 :: c3 :: c4 :: rest) with ([c1; c2; c3; c4] ++ rest).
  rewrite rev_app_distr.
  destruct (rev rest) as [|last1 [|last2 before]] eqn:R.
  - cbn [rev app]. now rewrite H4.
  - exfalso. apply (f_equal (@length N)) in R.
    rewrite length_rev in R. cbn [length] in R. rewrite R in M. discriminate.
  - cbn [app].
    destruct (last1 =? 61); [|reflexivity].
    destruct (last2 =? 61).
    + rewrite rev_app_distr, rev_involutive. reflexivity.
    + change (last2 :: before ++ rev [c1; c2; c3; c4])
        with ((last2 :: before) ++ rev [c1; c2; c3; c4]).
      rewrite rev_app_distr, rev_involutive. reflexivity.
Qed.

(** [atob] on four characters of the alphabet and the rest of the
    text. *)
Lemma atob_quad (v1 v2 v3 v4 : N) (rest : jsstring) :
  v1 < 64 -> v2 < 64 -> v3 < 64 -> v4 < 64 ->
  atob (charOfSextet v1 :: charOfSextet v2 :: charOfSextet v3
        :: charOfSextet v4 :: rest)
  = (octets <- atob rest ;;
     Ok ((v1 * 4 + v2 / 16) :: ((v2 mod 16) * 16 + v3 / 4)
         :: ((v3 mod 4) * 64 + v4) :: octets)).
Proof.
  intros H1 H2 H3 H4.
  destruct (charOfSextet_spec H1) as (E1 & P1 & _).
  destruct (charOfSextet_spec H2) as (E2 & P2 & _).
  destruct (charOfSextet_spec H3) as (E3 & P3 & _).
  destruct (charOfSextet_spec H4) as (E4 & P4 & _).
  destruct (plain_parts _ P1) as (W1 & _).
  destruct (plain_parts _ P2) as (W2 & _).
  destruct (plain_parts _ P3) as (W3 & _).
  destruct (plain_parts _ P4) as (W4 & Q4 & _).
  unfold atob. cbn [filter]. rewrite W1, W2, W3, W4. cbn [negb].
  rewrite (stripPadding_quad _ _ _ _ _ Q4).
  set (stripped :=
         stripPadding (filter (fun c => negb (isAsciiWhitespace c)) rest)).
  change (length (charOfSextet v1 :: charOfSextet v2 :: charOfSextet v3
                  :: charOfSextet v4 :: stripped))
    with (4 + length stripped)%nat.
  replace ((4 + length stripped) mod 4)%nat with (length stripped mod 4)%nat
    by (rewrite Nat.add_comm;
        change 4%nat with (1 * 4)%nat at 2;
        now rewrite Nat.Div0.mod_add).
  destruct (length stripped mod 4 =? 1)%nat; [reflexivity|].
  cbn [sextets]. rewrite E1, E2, E3, E4.
  destruct (sextets stripped) as [values|]; reflexivity.
Qed.

Definition decodesTo (text : jsstring) (octets : list N) : bool :=
  match atob text with
  | Ok decoded => jsstring_eqb decoded octets
  | Err _ => false
  end.

Lemma decodesTo_spec (text : jsstring) (octets : list N) :
  decodesTo text octets = true -> atob text = Ok octets.
Proof.
  unfold decodesTo. destruct (atob text) as [decoded|]; [|discriminate].
  intros H. now rewrite (HexFacts.jsstring_eqb_eq _ _ H).
Qed.

(** The last group, of one byte or of two, with its padding and
    without. *)
Lemma atob_last_groups (x y : byte) :
  let a := Byte.to_N x in
  let b := Byte.to_N y in
  atob (encodeOctets [a]) = Ok [a]
  /\ atob (Native.removePadding (encodeOctets [a])) = Ok [a]
  /\ atob (encodeOctets [a; b]) = Ok [a; b]
  /\ atob (Native.removePadding (encodeOctets [a; b])) = Ok [a; b].
Proof.
  intros a b. subst a b.
  assert (H : (let a := Byte.to_N x in
               let b := Byte.to_N y in
               decodesTo (encodeOctets [a]) [a]
               && decodesTo (Native.removePadding (encodeOctets [a])) [a]
               && decodesTo (encodeOctets [a; b]) [a; b]
               && decodesTo (Native.removePadding (encodeOctets [a; b]))
                    [a; b])%bool = true).
  { revert x y.
    apply (forall_bytes2_spec
             (fun x y =>
                let a := Byte.to_N x in
                let b := Byte.to_N y in
                (decodesTo (encodeOctets [a]) [a]
                 && decodesTo (Native.removePadding (encodeOctets [a])) [a]
                 && decodesTo (encodeOctets [a; b]) [a; b]
                 && decodesTo (Native.removePadding (encodeOctets [a; b]))
                      [a; b])%bool)).
    vm_compute. reflexivity. }
  cbv zeta in H.
  repeat (apply andb_true_iff in H; destruct H as [H ?]).
  repeat split; now apply decodesTo_spec.
Qed.

Lemma removePadding_quad (v1 v2 v3 v4 : N) (rest : jsstring) :
  v1 < 64 -> v2 < 64 -> v3 < 64 -> v4 < 64 ->
  Native.removePadding
    (charOfSextet v1 :: charOfSextet v2 :: charOfSextet v3
     :: charOfSextet v4 :: rest)
  = charOfSextet v1 :: charOfSextet v2 :: charOfSextet v3
    :: charOfSextet v4 :: Native.removePadding rest.
Proof.
  intros H1 H2 H3 H4.
  destruct (plain_parts _ (proj1 (proj2 (charOfSextet_spec H1)))) as (_ & Q1 & _).
  destruct (plain_parts _ (proj1 (proj2 (charOfSextet_spec H2)))) as (_ & Q2 & _).
  destruct (plain_parts _ (proj1 (proj2 (charOfSextet_spec H3)))) as (_ & Q3 & _).
  destruct (plain_parts _ (proj1 (proj2 (charOfSextet_spec H4)))) as (_ & Q4 & _).
  unfold Native.removePadding, Native.PAD. cbn [filter].
  now rewrite Q1, Q2, Q3, Q4.
Qed.

(** [atob] reads back what [btoa] wrote for bytes, with the padding
    and without it. *)
Lemma atob_encodeOctets (bs : bytes) :
  atob (encodeOctets (map Byte.to_N bs)) = Ok (map Byte.to_N bs)
  /\ atob (Native.removePadding (encodeOctets (map Byte.to_N bs)))
     = Ok (map Byte.to_N bs).
Proof.
  induction bs as [| x | x y | x y z bs [IH1 IH2]] using triple_induction.
  - split; reflexivity.
  - destruct (atob_last_groups x x) as (A & B & _). now split.
  - destruct (atob_last_groups x y) as (_ & _ & A & B). now split.
  - destruct (values_spec x y) as ((V1 & V2 & _) & _ & (D1 & D2 & _)).
    destruct (values_spec y z)
      as ((_ & _ & V3 & _) & _ & (_ & _ & D3 & D4 & D5 & _)).
    destruct (values_spec z z)
      as ((_ & _ & _ & V4) & _ & (_ & _ & _ & _ & _ & D6)).
    cbn zeta in *. cbn [map encodeOctets].
    fold (value2 (Byte.to_N x) (Byte.to_N y)).
    fold (value3 (Byte.to_N y) (Byte.to_N z)).
    rewrite (removePadding_quad _ V1 V2 V3 V4).
    rewrite !(atob_quad _ V1 V2 V3 V4), IH1, IH2. cbn [bind].
    rewrite D1, D2, D3, D4, D5, D6. now split.
Qed.

Lemma normalize_plain_text (text : jsstring) :
  forallb isBase64Char text = true -> Native.normalize text = text.
Proof.
  intros H. unfold Native.normalize. rewrite map_map.
  rewrite <- (map_id text) at 2. apply map_ext_in. intros c Hc.
  rewrite forallb_forall in H. specialize (H c Hc).
  assert (K : forall d, isBase64Char d = true ->
                (d =? 45) = false /\ (d =? 95) = false).
  { intros d Hd. unfold isBase64Char in Hd.
    apply orb_true_iff in Hd. destruct Hd as [Hd|Hd].
    - apply existsb_exists in Hd. destruct Hd as [e [He Hde]].
      apply N.eqb_eq in Hde. subst e.
      assert (F : Forall (fun e => (e =? 45) = false /\ (e =? 95) = false)
                    Native.BASE64_CHARS).
      { repeat constructor. }
      rewrite Forall_forall in F. now apply F.
    - apply N.eqb_eq in Hd. subst d. now split. }
  destruct (K c H) as [-> E]. now rewrite E.
Qed.

Lemma browser_text (bs : bytes) :
  bytesToBase64 bs = Native.bytesToBase64 bs.
Proof. apply encodeOctets_base64Encode. Qed.

Lemma browser_text_plain (bs : bytes) :
  forallb isBase64Char (bytesToBase64 bs) = true.
Proof.
  rewrite browser_text. apply base64_characters.
Qed.

Lemma bytes_of_octets (bs : bytes) : map byte_of_N (map Byte.to_N bs) = bs.
Proof.
  rewrite map_map. rewrite <- (map_id bs) at 2.
  apply map_ext. intros b. apply byte_of_to_N.
Qed.

(** The browser adapter reads back what it wrote. *)
Lemma browser_base64 (bs : bytes) :
  base64ToBytes (bytesToBase64 bs) = Ok bs.
Proof.
  unfold base64ToBytes.
  rewrite (normalize_plain_text _ (browser_text_plain bs)).
  destruct (atob_encodeOctets bs) as [A _]. fold (bytesToBase64 bs) in A.
  rewrite A. cbn [bind]. now rewrite bytes_of_octets.
Qed.

(** X14: the browser adapter and the React Native adapter write the
    same base64 text for the same bytes, and each reads the bytes back
    from it: the browser's [base64ToBytes], which goes through [atob],
    accepts the text with its padding, without it, and in its URL-safe
    spelling. *)
Theorem base64_across_platforms (bs : bytes) :
  bytesToBase64 bs = Native.bytesToBase64 bs
  /\ base64ToBytes (bytesToBase64 bs) = Ok bs
  /\ base64ToBytes (Native.removePadding (bytesToBase64 bs)) = Ok bs
  /\ base64ToBytes (urlSafe (bytesToBase64 bs)) = Ok bs
  /\ Native.base64ToBytes (bytesToBase64 bs) = bs.
Proof.
  pose proof (browser_text_plain bs) as C.
  destruct (atob_encodeOctets bs) as [A B]. fold (bytesToBase64 bs) in A, B.
  split; [apply browser_text|]. split; [apply browser_base64|].
  unfold base64ToBytes. repeat split.
  - rewrite normalize_removePadding, (normalize_plain_text _ C), B.
    cbn [bind]. now rewrite bytes_of_octets.
  - rewrite normalize_urlSafe, (normalize_plain_text _ C), A.
    cbn [bind]. now rewrite bytes_of_octets.
  - rewrite browser_text. apply base64_roundtrip.
Qed.

(** ** What [atob] rejects *)

Lemma sextetOf_alphabet (c v : N) :
  sextetOf c = Some v -> isBase64Char c = true.
Proof.
  intros H.
  assert (B : c < 123).
  { unfold sextetOf in H.
    destruct (N.leb_spec 65 c), (N.leb_spec c 90); cbn [andb] in H; try lia;
      destruct (N.leb_spec 97 c), (N.leb_spec c 122); cbn [andb] in H;
        try lia;
      destruct (N.leb_spec 48 c), (N.leb_spec c 57); cbn [andb] in H;
        try lia;
      destruct (N.eqb_spec c 43); try lia;
      destruct (N.eqb_spec c 47); try lia; discriminate. }
  assert (K : forall d, d < 123 ->
                implb (match sextetOf d with Some _ => true | None => false end)
                  (isBase64Char d) = true).
  { apply (forall_below_spec 123). vm_compute. reflexivity. }
  specialize (K c B). rewrite H in K. exact K.
Qed.

Lemma sextets_none (c : N) (data : jsstring) :
  In c data -> sextetOf c = None -> sextets data = None.
Proof.
  intros Hin Hc. induction data as [|d data IH]; [contradiction|].
  cbn [sextets]. destruct Hin as [-> | Hin].
  - now rewrite Hc.
  - rewrite (IH Hin). now destruct (sextetOf d).
Qed.

Lemma stripPadding_keeps (c : N) (data : jsstring) :
  In c data -> (c =? 61) = false -> In c (stripPadding data).
Proof.
  intros Hin Hc. unfold stripPadding.
  destruct (length data mod 4 =? 0)%nat; [|exact Hin].
  destruct (rev data) as [|last1 [|last2 before]] eqn:R; try exact Hin.
  destruct (last1 =? 61) eqn:E1; [|exact Hin].
  apply N.eqb_eq in E1. apply N.eqb_neq in Hc.
  apply in_rev in Hin. rewrite R in Hin.
  destruct Hin as [<- | Hin]; [contradiction|].
  destruct (last2 =? 61) eqn:E2.
  - apply N.eqb_eq in E2. destruct Hin as [<- | Hin]; [contradiction|].
    now apply -> in_rev.
  - now apply -> in_rev.
Qed.

(** X15: the browser's [base64ToBytes] throws an
    [InvalidCharacterError] for every text that holds a character which
    is not of the base64 alphabet or its URL-safe spelling, a [=] or
    ASCII whitespace. *)
Theorem base64ToBytes_rejects (base64 : jsstring) (c : N) :
  In c base64 -> isBase64Text c = false ->
  base64ToBytes base64 = Err INVALID_CHARACTER.
Proof.
  intros Hin Hc.
  unfold isBase64Text in Hc.
  apply orb_false_iff in Hc. destruct Hc as [Hc Hw].
  apply orb_false_iff in Hc. destruct Hc as [Hc Hu].
  apply orb_false_iff in Hc. destruct Hc as [Hc Hm].
  assert (Hs : sextetOf c = None).
  { destruct (sextetOf c) as [v|] eqn:S; [|reflexivity].
    apply sextetOf_alphabet in S. congruence. }
  assert (Hp : (c =? 61) = false).
  { unfold isBase64Char in Hc. apply orb_false_iff in Hc. now destruct Hc. }
  assert (Hn : In c (Native.normalize base64)).
  { unfold Native.normalize. rewrite map_map. apply in_map_iff.
    exists c. split; [|exact Hin]. now rewrite Hm, Hu. }
  unfold base64ToBytes, atob.
  set (stripped := stripPadding _).
  assert (Hk : In c stripped).
  { apply stripPadding_keeps; [|exact Hp].
    apply filter_In. split; [exact Hn|]. now rewrite Hw. }
  destruct (length stripped mod 4 =? 1)%nat; [reflexivity|].
  now rewrite (sextets_none c stripped Hk Hs).
Qed.

Lemma base64ToBytes_rejects_witness :
  base64ToBytes (js "QUJD!A==") = Err INVALID_CHARACTER.
Proof.
  apply (base64ToBytes_rejects (js "QUJD!A==") 33); [|reflexivity].
  vm_compute. tauto.
Defined.

End BrowserFacts.
(* ================================================================== *)
(** * Properties: encryption to a public key *)
(* ================================================================== *)

Module AsymmetricFacts.
Import Crypto Asymmetric.

Section PlatformFacts.

Variables PublicKey PrivateKey CryptoKey : Type.
Variable exportSpki : PublicKey -> result bytes.
Variable exportPkcs8 : PrivateKey -> result bytes.
Variable importSpki : bytes -> result PublicKey.
Variable importPkcs8 : bytes -> result PrivateKey.
Variable deriveKey : PublicKey -> PrivateKey -> string -> result CryptoKey.
Variable subtleEncrypt :
  string -> bytes -> CryptoKey -> bytes -> result bytes.
Variable subtleDecrypt :
  string -> bytes -> CryptoKey -> bytes -> result bytes.
Variable JSON_stringify : JsonValue -> jsstring.
Variable JSON_parse : jsstring -> result JsonValue.
Variable encoding : EncodingAdapter.

(** The key pairs [generateKey] makes. *)
Variable keyPair : PublicKey -> PrivateKey -> Prop.

(** What the functions rely on.  An exported key is imported back.
    ECDH and the AEAD: the key derived from the recipient's public key
    and the ephemeral private key encrypts what the key derived from
    the ephemeral public key and the recipient's private key decrypts.
    [JSON.parse] reads back the envelope [JSON.stringify] wrote, and the
    adapter's base64 decoder inverts its encoder. *)
Hypothesis spki_correct :
  forall key exported,
    exportSpki key = Ok exported -> importSpki exported = Ok key.
Hypothesis pkcs8_correct :
  forall key exported,
    exportPkcs8 key = Ok exported -> importPkcs8 exported = Ok key.
Hypothesis ecdh_aead :
  forall public private ephemeralPublic ephemeralPrivate shared iv data
         encrypted,
    keyPair public private ->
    keyPair ephemeralPublic ephemeralPrivate ->
    deriveKey public ephemeralPrivate ENCRYPT = Ok shared ->
    subtleEncrypt AES_GCM iv shared data = Ok encrypted ->
    exists shared',
      deriveKey ephemeralPublic private DECRYPT = Ok shared'
      /\ subtleDecrypt AES_GCM iv shared' encrypted = Ok data.
Hypothesis json_envelope :
  forall key iv encrypted : bytes,
    JSON_parse
      (JSON_stringify
         (publicEnvelope (bytesToBase64 encoding key)
            (bytesToBase64 encoding iv)
            (bytesToBase64 encoding encrypted)))
    = Ok (publicEnvelope (bytesToBase64 encoding key)
            (bytesToBase64 encoding iv)
            (bytesToBase64 encoding encrypted)).
Hypothesis base64_correct :
  forall bs, base64ToBytes encoding (bytesToBase64 encoding bs) = Ok bs.

Let generate :=
  generateKeyPair exportSpki exportPkcs8 (Ok encoding).
Let encrypt :=
  encryptWithPublicKey exportSpki importSpki deriveKey subtleEncrypt
    JSON_stringify (Ok encoding).
Let decrypt :=
  decryptWithPrivateKey importSpki importPkcs8 deriveKey subtleDecrypt
    JSON_parse (Ok encoding).

(** X17: what [encryptWithPublicKey] made for the public key of a pair
    that [generateKeyPair] returned, [decryptWithPrivateKey] opens with
    the private key of the pair: it returns the text [TextDecoder]
    reads from the UTF-8 bytes of the data, which is the data itself
    when the data is well-formed UTF-16 and does not start with
    U+FEFF. *)
Theorem public_key_roundtrip
    (public ephemeralPublic : PublicKey)
    (private ephemeralPrivate : PrivateKey)
    (getRandomValues : nat -> bytes)
    (keys : KeyPairText) (data json : jsstring) :
  keyPair public private ->
  keyPair ephemeralPublic ephemeralPrivate ->
  generate (Ok (public, private)) = Ok keys ->
  encrypt (Ok (ephemeralPublic, ephemeralPrivate)) getRandomValues
    (publicKey keys) data = Ok json ->
  decrypt (privateKey keys) json
  = Ok (Text.utf8Decode (Text.utf8Encode data))
  /\ (Text.wellFormed data = true ->
      Text.startsWithByteOrderMark data = false ->
      decrypt (privateKey keys) json = Ok data).
Proof.
  intros Hpair Hephemeral Hkeys Hjson.
  assert (R : decrypt (privateKey keys) json
              = Ok (Text.utf8Decode (Text.utf8Encode data))).
  { unfold generate, generateKeyPair in Hkeys. cbn [bind fst snd] in Hkeys.
    destruct (exportSpki public) as [publicBytes|] eqn:Ep; [|discriminate].
    destruct (exportPkcs8 private) as [privateBytes|] eqn:Es;
      [|discriminate].
    cbn [bind] in Hkeys. inversion Hkeys. subst keys. clear Hkeys.
    cbn [publicKey privateKey] in *.
    unfold encrypt, encryptWithPublicKey in Hjson.
    cbn [bind fst snd] in Hjson.
    rewrite base64_correct in Hjson. cbn [bind] in Hjson.
    rewrite (spki_correct Ep) in Hjson. cbn [bind] in Hjson.
    destruct (deriveKey public ephemeralPrivate ENCRYPT) as [shared|] eqn:Ed;
      [|discriminate].
    cbn [bind] in Hjson.
    destruct (subtleEncrypt AES_GCM (getRandomValues PUBLIC_IV_LENGTH) shared
                (Text.utf8Encode data)) as [encrypted|] eqn:Ee;
      [|discriminate].
    cbn [bind] in Hjson.
    destruct (exportSpki ephemeralPublic) as [ephemeralBytes|] eqn:Ex;
      [|discriminate].
    cbn [bind] in Hjson. inversion Hjson. subst json. clear Hjson.
    destruct (ecdh_aead Hpair Hephemeral Ed Ee) as (shared' & Ed' & Ea).
    unfold decrypt, decryptWithPrivateKey. cbn [bind].
    rewrite base64_correct. cbn [bind].
    rewrite json_envelope. cbn [bind].
    change (getMember (publicEnvelope ?a ?b ?c) (js "ephemeralPublicKey"))
      with (Ok (Some (JString a))).
    cbn [bind asString]. rewrite base64_correct. cbn [bind].
    change (getMember (publicEnvelope ?a ?b ?c) (js "iv"))
      with (Ok (Some (JString b))).
    cbn [bind asString]. rewrite base64_correct. cbn [bind].
    change (getMember (publicEnvelope ?a ?b ?c) (js "ciphertext"))
      with (Ok (Some (JString c))).
    cbn [bind asString]. rewrite base64_correct. cbn [bind].
    rewrite (pkcs8_correct Es). cbn [bind].
    rewrite (spki_correct Ex). cbn [bind].
    rewrite Ed'. cbn [bind]. now rewrite Ea. }
  split; [exact R|].
  intros Hwf Hbom. rewrite R. now rewrite TextFacts.utf8_roundtrip.
Qed.

End PlatformFacts.

(** ** The reference platform is correct *)

Lemma reference_export (key : byte) (exported : bytes) :
  Reference.exportKey key = Ok exported ->
  Reference.importKey exported = Ok key.
Proof. intros H. inversion H. reflexivity. Qed.

Definition referencePair (public private : byte) : Prop :=
  public = Reference.publicOf private.

Lemma reference_agreement (a b : byte) :
  (Byte.to_N (Reference.publicOf a) * Byte.to_N b) mod Reference.MODULUS
  = (Byte.to_N (Reference.publicOf b) * Byte.to_N a) mod Reference.MODULUS.
Proof.
  unfold Reference.publicOf, Reference.MODULUS, Reference.BASE.
  rewrite !to_N_byte_of_N.
  assert (S : forall n, (n mod 251) mod 256 = n mod 251).
  { intros n. apply N.mod_small.
    pose proof (N.mod_upper_bound n 251 ltac:(discriminate)). lia. }
  rewrite !S, !N.Div0.mul_mod_idemp_l. f_equal. lia.
Qed.

Lemma reference_ecdh_aead
    (public private ephemeralPublic ephemeralPrivate : byte)
    (shared iv data encrypted : bytes) :
  referencePair public private ->
  referencePair ephemeralPublic ephemeralPrivate ->
  Reference.deriveKey public ephemeralPrivate ENCRYPT = Ok shared ->
  Crypto.Reference.encrypt AES_GCM iv shared data = Ok encrypted ->
  exists shared',
    Reference.deriveKey ephemeralPublic private DECRYPT = Ok shared'
    /\ Crypto.Reference.decrypt AES_GCM iv shared' encrypted = Ok data.
Proof.
  unfold referencePair. intros -> -> D E.
  exists shared. split.
  - unfold Reference.deriveKey in *. inversion D.
    now rewrite reference_agreement.
  - now apply CryptoFacts.reference_aead.
Qed.

(** One member and what follows it. *)
Lemma parseMembers_member (fuel : nat) (name text after : jsstring) :
  Forall (fun c => c <> Crypto.Reference.QUOTE) name ->
  Forall (fun c => c <> Crypto.Reference.QUOTE) text ->
  Reference.parseMembers (S fuel)
    ([Crypto.Reference.QUOTE] ++ name ++ [Crypto.Reference.QUOTE]
     ++ js ":" ++ [Crypto.Reference.QUOTE] ++ text
     ++ [Crypto.Reference.QUOTE] ++ after)
  = if jsstring_eqb after (js "}") then Some [(name, JString text)]
    else
      match Crypto.Reference.dropPrefix (js ",") after with
      | None => None
      | Some more =>
          match Reference.parseMembers fuel more with
          | Some rest => Some ((name, JString text) :: rest)
          | None => None
          end
      end.
Proof.
  intros Hn Ht. cbn [Reference.parseMembers app].
  change (Crypto.Reference.dropPrefix [Crypto.Reference.QUOTE]
            (Crypto.Reference.QUOTE :: ?s)) with (Some s).
  cbv iota beta.
  rewrite (CryptoFacts.untilQuote_app _ Hn).
  change (Crypto.Reference.dropPrefix (js ":" ++ [Crypto.Reference.QUOTE])
            (js ":" ++ Crypto.Reference.QUOTE :: ?s)) with (Some s).
  cbv iota beta.
  rewrite (CryptoFacts.untilQuote_app _ Ht). reflexivity.
Qed.

(** Members that are strings without a quote. *)
Definition plainMember (member : jsstring * JsonValue) : Prop :=
  exists text,
    snd member = JString text
    /\ Forall (fun c => c <> Crypto.Reference.QUOTE) (fst member)
    /\ Forall (fun c => c <> Crypto.Reference.QUOTE) text.

Lemma reference_members (member : jsstring * JsonValue)
    (members : list (jsstring * JsonValue)) :
  Forall plainMember (member :: members) ->
  exists text,
    Reference.membersText (member :: members)
    = Some (Crypto.Reference.QUOTE :: text)
    /\ (length members < length text)%nat
    /\ forall fuel,
         (length members < fuel)%nat ->
         Reference.parseMembers fuel
           (Crypto.Reference.QUOTE :: text ++ js "}")
         = Some (member :: members).
Proof.
  revert member. induction members as [|next members IH]; intros member H.
  - inversion H as [|m ms Hm _]. subst.
    destruct member as [name value].
    destruct Hm as (text & Hv & Hn & Ht). cbn [fst snd] in *. subst value.
    eexists. split; [reflexivity|]. split.
    + rewrite !length_app. cbn [length]. lia.
    + intros [|fuel] Hf; [cbn [length] in Hf; lia|].
      repeat rewrite <- app_assoc.
      change (Crypto.Reference.QUOTE :: name ++ ?s)
        with ([Crypto.Reference.QUOTE] ++ name ++ s).
      now rewrite (parseMembers_member fuel (js "}") Hn Ht).
  - inversion H as [|m ms Hm Hrest]. subst.
    destruct (IH next Hrest) as (others & E & L & P).
    destruct member as [name value].
    destruct Hm as (text & Hv & Hn & Ht). cbn [fst snd] in *. subst value.
    cbn [Reference.membersText]. cbn [Reference.membersText] in E.
    rewrite E.
    eexists. split; [reflexivity|]. split.
    + rewrite !length_app. cbn [length] in *. lia.
    + intros [|fuel] Hf; [cbn [length] in Hf; lia|].
      repeat rewrite <- app_assoc.
      change (Crypto.Reference.QUOTE :: name ++ ?s)
        with ([Crypto.Reference.QUOTE] ++ name ++ s).
      rewrite (parseMembers_member fuel _ Hn Ht).
      cbn [app].
      rewrite BrowserCryptoFacts.not_text by discriminate.
      change (Crypto.Reference.dropPrefix (js ",") (js "," ++ ?s))
        with (Some s).
      cbv iota beta.
      rewrite P by (cbn [length] in Hf; lia). reflexivity.
Qed.

(** [parse] reads back what [stringify] wrote for an object of strings
    without quotes. *)
Lemma reference_object (member : jsstring * JsonValue)
    (members : list (jsstring * JsonValue)) :
  Forall plainMember (member :: members) ->
  Reference.parse (Reference.stringify (JObject (member :: members)))
  = Ok (JObject (member :: members)).
Proof.
  intros H. destruct (reference_members H) as (text & E & L & P).
  unfold Reference.stringify. rewrite E.
  unfold Reference.parse.
  change (Crypto.Reference.dropPrefix (js "{") (js "{" ++ ?s)) with (Some s).
  cbv iota beta. cbn [app].
  rewrite BrowserCryptoFacts.not_text.
  - rewrite P; [reflexivity|]. cbn [length]. rewrite length_app. lia.
  - destruct text; [cbn [length] in L; lia | discriminate].
Qed.

Lemma reference_public_json (key iv encrypted : bytes) :
  Reference.parse
    (Reference.stringify
       (publicEnvelope (bytesToBase64 Native.encodingAdapter key)
          (bytesToBase64 Native.encodingAdapter iv)
          (bytesToBase64 Native.encodingAdapter encrypted)))
  = Ok (publicEnvelope (bytesToBase64 Native.encodingAdapter key)
          (bytesToBase64 Native.encodingAdapter iv)
          (bytesToBase64 Native.encodingAdapter encrypted)).
Proof.
  apply reference_object.
  repeat constructor; eexists; (split; [reflexivity|]); cbn [fst];
    (split; [repeat constructor; discriminate
            |apply CryptoFacts.base64Encode_no_quote]).
Qed.

Lemma public_key_roundtrip_witness :
  Reference.decryptWithPrivateKey (js "BQ==")
    (Reference.stringify
       (publicEnvelope (js "Pw==") (js "AQIDBAUGBwgJCgsM") (js "JCkgICPv")))
  = Ok (Text.utf8Decode (Text.utf8Encode (js "hello")))
  /\ (Text.wellFormed (js "hello") = true ->
      Text.startsWithByteOrderMark (js "hello") = false ->
      Reference.decryptWithPrivateKey (js "BQ==")
        (Reference.stringify
           (publicEnvelope (js "Pw==") (js "AQIDBAUGBwgJCgsM")
              (js "JCkgICPv")))
      = Ok (js "hello")).
Proof.
  apply (@public_key_roundtrip byte byte bytes
           Reference.exportKey Reference.exportKey
           Reference.importKey Reference.importKey Reference.deriveKey
           Crypto.Reference.encrypt Crypto.Reference.decrypt
           Reference.stringify Reference.parse Native.encodingAdapter
           referencePair reference_export reference_export
           reference_ecdh_aead reference_public_json
           CryptoFacts.native_base64
           (Reference.publicOf x05) (Reference.publicOf x09) x05 x09
           Crypto.Reference.countingBytes
           {| publicKey := js "Iw=="; privateKey := js "BQ==" |}
           (js "hello")
           (Reference.stringify
              (publicEnvelope (js "Pw==") (js "AQIDBAUGBwgJCgsM")
                 (js "JCkgICPv"))));
    reflexivity.
Defined.

End AsymmetricFacts.
(* ================================================================== *)
(** * Properties: the random draws of the two encryptions *)
(* ================================================================== *)

Module FreshnessFacts.
Import Crypto Asymmetric.

Section PlatformFacts.

Variables PublicKey PrivateKey CryptoKey : Type.
Variable exportSpki : PublicKey -> result bytes.
Variable importSpki : bytes -> result PublicKey.
Variable deriveKey : PublicKey -> PrivateKey -> string -> result CryptoKey.
Variable subtleEncrypt :
  string -> bytes -> CryptoKey -> bytes -> result bytes.
Variable JSON_stringify : JsonValue -> jsstring.
Variable JSON_parse : jsstring -> result JsonValue.
Variable encoding : EncodingAdapter.

(** [JSON.parse] reads back the two envelopes [JSON.stringify] wrote,
    and the adapter's base64 decoder inverts its encoder. *)
Hypothesis json_envelope :
  forall iv encrypted : bytes,
    JSON_parse
      (JSON_stringify
         (envelope (bytesToBase64 encoding iv)
                   (bytesToBase64 encoding encrypted)))
    = Ok (envelope (bytesToBase64 encoding iv)
                   (bytesToBase64 encoding encrypted)).
Hypothesis json_public_envelope :
  forall key iv encrypted : bytes,
    JSON_parse
      (JSON_stringify
         (publicEnvelope (bytesToBase64 encoding key)
            (bytesToBase64 encoding iv)
            (bytesToBase64 encoding encrypted)))
    = Ok (publicEnvelope (bytesToBase64 encoding key)
            (bytesToBase64 encoding iv)
            (bytesToBase64 encoding encrypted)).
Hypothesis base64_correct :
  forall bs, base64ToBytes encoding (bytesToBase64 encoding bs) = Ok bs.






End PlatformFacts.

(** ** On the reference platform *)




End FreshnessFacts.
(* ================================================================== *)
(** * Properties: envelopes across platforms, generated wallets *)
(* ================================================================== *)

Module WalletFacts.
Import Crypto KeyShard Wallet.

(** A text of lower-case hexadecimal digits is well-formed UTF-16 and
    does not start with U+FEFF. *)
Lemma hex_wellFormed (text : jsstring) :
  forallb isLowerHexChar text = true ->
  Text.wellFormed text = true /\ Text.startsWithByteOrderMark text = false.
Proof.
  assert (K : forall c, isLowerHexChar c = true ->
                Text.isHighSurrogate c = false /\ Text.isLowSurrogate c = false
                /\ (c <=? 0xFFFF) = true /\ (c =? Text.BYTE_ORDER_MARK) = false).
  { intros c H.
    assert (B : c < 103).
    { unfold isLowerHexChar in H.
      apply orb_true_iff in H. destruct H as [H|H];
        apply andb_true_iff in H; destruct H as [_ H];
        apply N.leb_le in H; lia. }
    unfold Text.isHighSurrogate, Text.isLowSurrogate, Text.BYTE_ORDER_MARK.
    destruct (N.leb_spec 0xD800 c); [lia|].
    destruct (N.leb_spec 0xDC00 c); [lia|].
    destruct (N.leb_spec c 0xFFFF); [|lia].
    destruct (N.eqb_spec c 0xFEFF); [lia|]. repeat split. }
  intros H. split.
  - induction text as [|c text IH]; [reflexivity|].
    cbn [forallb] in H. apply andb_true_iff in H. destruct H as [Hc H].
    destruct (K c Hc) as (Hh & Hl & Hu & _).
    cbn [Text.wellFormed]. now rewrite Hh, Hl, Hu, (IH H).
  - destruct text as [|c text]; [reflexivity|].
    cbn [forallb] in H. apply andb_true_iff in H. destruct H as [Hc _].
    cbn [Text.startsWithByteOrderMark]. now destruct (K c Hc) as (_ & _ & _ & E).
Qed.

Section EnvelopeAcrossPlatforms.

Variable CryptoKey : Type.
Variable subtleEncrypt :
  string -> bytes -> CryptoKey -> bytes -> result bytes.
Variable subtleDecrypt :
  string -> bytes -> CryptoKey -> bytes -> result bytes.
Variable JSON_stringify : JsonValue -> jsstring.
Variable JSON_parse : jsstring -> result JsonValue.

(** The AEAD decrypts what it encrypted, and [JSON.parse] reads back
    the envelope [JSON.stringify] wrote. *)
Hypothesis aead_correct :
  forall algorithm iv key data encrypted,
    subtleEncrypt algorithm iv key data = Ok encrypted ->
    subtleDecrypt algorithm iv key encrypted = Ok data.
Hypothesis json_envelope :
  forall iv encrypted : bytes,
    JSON_parse
      (JSON_stringify
         (envelope (Native.bytesToBase64 iv) (Native.bytesToBase64 encrypted)))
    = Ok (envelope (Native.bytesToBase64 iv) (Native.bytesToBase64 encrypted)).

Let encryptOn (adapter : EncodingAdapter) :=
  encryptWithCipher subtleEncrypt JSON_stringify (Ok adapter).
Let decryptOn (adapter : EncodingAdapter) :=
  decryptWithCipher subtleDecrypt JSON_parse (Ok adapter).

(** X16: the envelope [encryptWithCipher] makes does not depend on the
    platform: the React Native adapter and the browser adapter give the
    same text, and [decryptWithCipher] opens it on either platform,
    whichever of the two made it. *)
Theorem envelope_across_platforms (getRandomValues : nat -> bytes)
    (data : jsstring) (key : CryptoKey) (algorithm : string) (size : nat)
    (json : jsstring) :
  encryptOn Native.encodingAdapter getRandomValues data key algorithm size
  = Ok json ->
  encryptOn Browser.encodingAdapter getRandomValues data key algorithm size
  = Ok json
  /\ decryptOn Browser.encodingAdapter json key algorithm
     = Ok (Text.utf8Decode (Text.utf8Encode data))
  /\ decryptOn Native.encodingAdapter json key algorithm
     = Ok (Text.utf8Decode (Text.utf8Encode data))
  /\ (Text.wellFormed data = true ->
      Text.startsWithByteOrderMark data = false ->
      decryptOn Browser.encodingAdapter json key algorithm = Ok data
      /\ decryptOn Native.encodingAdapter json key algorithm = Ok data).
Proof.
  intros H.
  assert (B : encryptOn Browser.encodingAdapter getRandomValues data key
                algorithm size = Ok json).
  { rewrite <- H. unfold encryptOn, encryptWithCipher.
    destruct (subtleEncrypt algorithm (getRandomValues size) key
                (Text.utf8Encode data)); [|reflexivity].
    cbn [bind bytesToBase64 Browser.encodingAdapter Native.encodingAdapter].
    now rewrite !BrowserFacts.browser_text. }
  assert (DB : decryptOn Browser.encodingAdapter json key algorithm
               = Ok (Text.utf8Decode (Text.utf8Encode data))).
  { apply (@CryptoFacts.decrypt_encrypt CryptoKey subtleEncrypt subtleDecrypt
             JSON_stringify JSON_parse Browser.encodingAdapter aead_correct)
      with (getRandomValues := getRandomValues) (size := size).
    - intros iv encrypted.
      cbn [bytesToBase64 Browser.encodingAdapter].
      rewrite !BrowserFacts.browser_text. apply json_envelope.
    - apply BrowserFacts.browser_base64.
    - exact B. }
  assert (DN : decryptOn Native.encodingAdapter json key algorithm
               = Ok (Text.utf8Decode (Text.utf8Encode data))).
  { apply (@CryptoFacts.decrypt_encrypt CryptoKey subtleEncrypt subtleDecrypt
             JSON_stringify JSON_parse Native.encodingAdapter aead_correct)
      with (getRandomValues := getRandomValues) (size := size).
    - exact json_envelope.
    - apply CryptoFacts.native_base64.
    - exact H. }
  split; [exact B|]. split; [exact DB|]. split; [exact DN|].
  intros Hw Hb. rewrite DB, DN.
  now rewrite TextFacts.utf8_roundtrip.
Qed.

End EnvelopeAcrossPlatforms.

Lemma envelope_across_platforms_witness :
  exists json,
    Reference.encryptWithCipher Reference.countingBytes (js "hello")
      Reference.exampleKey AES_GCM IV_LENGTH = Ok json
    /\ encryptWithCipher Reference.encrypt Reference.stringify
         (Ok Browser.encodingAdapter) Reference.countingBytes (js "hello")
         Reference.exampleKey AES_GCM IV_LENGTH = Ok json
    /\ decryptWithCipher Reference.decrypt Reference.parse
         (Ok Browser.encodingAdapter) json Reference.exampleKey AES_GCM
       = Ok (Text.utf8Decode (Text.utf8Encode (js "hello")))
    /\ decryptWithCipher Reference.decrypt Reference.parse
         (Ok Native.encodingAdapter) json Reference.exampleKey AES_GCM
       = Ok (Text.utf8Decode (Text.utf8Encode (js "hello")))
    /\ (Text.wellFormed (js "hello") = true ->
        Text.startsWithByteOrderMark (js "hello") = false ->
        decryptWithCipher Reference.decrypt Reference.parse
          (Ok Browser.encodingAdapter) json Reference.exampleKey AES_GCM
        = Ok (js "hello")
        /\ decryptWithCipher Reference.decrypt Reference.parse
             (Ok Native.encodingAdapter) json Reference.exampleKey AES_GCM
           = Ok (js "hello")).
Proof.
  eexists. split; [vm_compute; reflexivity|].
  apply (@envelope_across_platforms bytes Reference.encrypt Reference.decrypt
           Reference.stringify Reference.parse
           CryptoFacts.reference_aead CryptoFacts.reference_json_base64
           Reference.countingBytes (js "hello") Reference.exampleKey
           AES_GCM IV_LENGTH).
  vm_compute. reflexivity.
Defined.

Section ClientFacts.

Variable CryptoKey : Type.
Variable subtleEncrypt :
  string -> bytes -> CryptoKey -> bytes -> result bytes.
Variable subtleDecrypt :
  string -> bytes -> CryptoKey -> bytes -> result bytes.
Variable JSON_stringify : JsonValue -> jsstring.
Variable JSON_parse : jsstring -> result JsonValue.
Variable encoding : EncodingAdapter.
Variables BitcoinProvider Fetcher : Type.
Variables BitcoinWallet CardanoWallet SparkWallet : Type.
Variable spiltKeyIntoShards : jsstring -> result (list jsstring).
Variable hexToBytes : jsstring -> result bytes.
Variable newEmbeddedWallet :
  BitcoinNetwork -> list jsstring -> option BitcoinProvider ->
  result BitcoinWallet.
Variable getPublicKey : BitcoinWallet -> result jsstring.
Variable cardanoFromMnemonic :
  list jsstring -> NetworkId -> option Fetcher -> result CardanoWallet.
Variable getChangeAddressBech32 : CardanoWallet -> result jsstring.
Variable deserializeBech32Address : jsstring -> result KeyHashes.
Variable sparkInitialize : jsstring -> SparkNetwork -> result SparkWallet.
Variable sparkKeys : SparkWallet -> SparkWallet -> result SparkKeys.

(** The platform laws of the envelope round trip. *)
Hypothesis aead_correct :
  forall algorithm iv key data encrypted,
    subtleEncrypt algorithm iv key data = Ok encrypted ->
    subtleDecrypt algorithm iv key encrypted = Ok data.
Hypothesis json_envelope :
  forall iv encrypted : bytes,
    JSON_parse
      (JSON_stringify
         (envelope (bytesToBase64 encoding iv)
                   (bytesToBase64 encoding encrypted)))
    = Ok (envelope (bytesToBase64 encoding iv)
                   (bytesToBase64 encoding encrypted)).
Hypothesis base64_correct :
  forall bs, base64ToBytes encoding (bytesToBase64 encoding bs) = Ok bs.

Let generate :=
  clientGenerateWallet subtleEncrypt JSON_stringify (Ok encoding)
    spiltKeyIntoShards newEmbeddedWallet getPublicKey cardanoFromMnemonic
    getChangeAddressBech32 deserializeBech32Address sparkInitialize sparkKeys.
Let derive :=
  clientDeriveWallet subtleDecrypt JSON_parse (Ok encoding) hexToBytes
    newEmbeddedWallet cardanoFromMnemonic sparkInitialize.
Let build :=
  combineShardsBuildWallet hexToBytes newEmbeddedWallet cardanoFromMnemonic
    sparkInitialize.
Let encrypt := encryptWithCipher subtleEncrypt JSON_stringify (Ok encoding).
Let decrypt := decryptWithCipher subtleDecrypt JSON_parse (Ok encoding).

(** An envelope of a shard opens to the shard. *)
Lemma shard_envelope (getRandomValues : nat -> bytes) (shard : jsstring)
    (key : CryptoKey) (json : jsstring) :
  forallb isLowerHexChar shard = true ->
  encrypt getRandomValues shard key AES_GCM IV_LENGTH = Ok json ->
  decrypt json key AES_GCM = Ok shard.
Proof.
  intros Hhex H. destruct (hex_wellFormed _ Hhex) as [Hw Hb].
  unfold decrypt.
  rewrite (@CryptoFacts.decrypt_encrypt CryptoKey subtleEncrypt subtleDecrypt
             JSON_stringify JSON_parse encoding aead_correct json_envelope
             base64_correct getRandomValues shard key AES_GCM IV_LENGTH json H).
  now rewrite TextFacts.utf8_roundtrip.
Qed.

(** What a successful [clientGenerateWallet] did with the shards. *)
Lemma generate_inversion (mnemonic : jsstring)
    (deviceRandomValues recoveryRandomValues : nat -> bytes)
    (deviceKey recoveryKey : CryptoKey) (wallet : GeneratedWallet)
    (shards : list jsstring) :
  spiltKeyIntoShards mnemonic = Ok shards ->
  generate (Ok mnemonic) deviceRandomValues recoveryRandomValues
    deviceKey recoveryKey = Ok wallet ->
  encrypt deviceRandomValues (nth 0 shards []) deviceKey AES_GCM IV_LENGTH
  = Ok (encryptedDeviceShard wallet)
  /\ encrypt recoveryRandomValues (nth 2 shards []) recoveryKey AES_GCM
       IV_LENGTH
     = Ok (encryptedRecoveryShard wallet)
  /\ authShard wallet = nth_error shards 1.
Proof.
  intros Hs H. unfold generate, clientGenerateWallet in H.
  cbn [bind] in H. rewrite Hs in H. cbn [bind] in H.
  fold encrypt in H.
  destruct (encrypt deviceRandomValues (nth 0 shards []) deviceKey AES_GCM
              IV_LENGTH) as [json1|]; [|discriminate].
  cbn [bind] in H.
  destruct (encrypt recoveryRandomValues (nth 2 shards []) recoveryKey AES_GCM
              IV_LENGTH) as [json3|]; [|discriminate].
  cbn [bind] in H.
  repeat match type of H with
         | bind ?r _ = Ok _ =>
             destruct r; [cbn [bind] in H | discriminate]
         end.
  inversion H. repeat split.
Qed.

(** X18: what [clientGenerateWallet] returns for a mnemonic that was
    split in three shards: the device shard is the first shard in an
    envelope that opens under the device key, the recovery shard is the
    third shard in an envelope that opens under the recovery key, and
    the auth shard is the second shard as it is. *)
Theorem clientGenerateWallet_shards (mnemonic : jsstring)
    (deviceRandomValues recoveryRandomValues : nat -> bytes)
    (deviceKey recoveryKey : CryptoKey) (wallet : GeneratedWallet)
    (shard1 shard2 shard3 : jsstring) :
  spiltKeyIntoShards mnemonic = Ok [shard1; shard2; shard3] ->
  forallb isLowerHexChar shard1 = true ->
  forallb isLowerHexChar shard3 = true ->
  generate (Ok mnemonic) deviceRandomValues recoveryRandomValues
    deviceKey recoveryKey = Ok wallet ->
  decrypt (encryptedDeviceShard wallet) deviceKey AES_GCM = Ok shard1
  /\ decrypt (encryptedRecoveryShard wallet) recoveryKey AES_GCM = Ok shard3
  /\ authShard wallet = Some shard2.
Proof.
  intros Hs H1 H3 H.
  destruct (generate_inversion _ _ _ _ Hs H) as (E1 & E3 & A).
  cbn [nth nth_error] in *.
  split; [exact (@shard_envelope _ shard1 _ _ H1 E1)|].
  split; [exact (@shard_envelope _ shard3 _ _ H3 E3) | exact A].
Qed.

(** X19: [clientDeriveWallet] on the device shard and the auth shard of
    a generated wallet does what [combineShardsBuildWallet] does on the
    first two shards of the split, so the key it returns is the one
    those two shards combine to; and when the envelope does not open,
    [clientDeriveWallet] fails with the error of [decryptWithCipher],
    unchanged. *)
Theorem clientDeriveWallet_after_generate (mnemonic : jsstring)
    (deviceRandomValues recoveryRandomValues : nat -> bytes)
    (deviceKey recoveryKey : CryptoKey) (wallet : GeneratedWallet)
    (shard1 shard2 shard3 : jsstring) :
  spiltKeyIntoShards mnemonic = Ok [shard1; shard2; shard3] ->
  forallb isLowerHexChar shard1 = true ->
  generate (Ok mnemonic) deviceRandomValues recoveryRandomValues
    deviceKey recoveryKey = Ok wallet ->
  (forall networkId bitcoinProvider fetcher,
      derive (encryptedDeviceShard wallet) deviceKey shard2 networkId
        bitcoinProvider fetcher
      = build networkId shard1 shard2 bitcoinProvider fetcher)
  /\ (forall encrypted key custodialShard networkId bitcoinProvider fetcher e,
        decrypt encrypted key AES_GCM = Err e ->
        derive encrypted key custodialShard networkId bitcoinProvider fetcher
        = Err e).
Proof.
  intros Hs H1 H. split.
  - intros networkId bitcoinProvider fetcher.
    destruct (generate_inversion _ _ _ _ Hs H) as (E1 & _).
    cbn [nth] in E1.
    unfold derive, clientDeriveWallet. fold decrypt.
    rewrite (@shard_envelope _ shard1 _ _ H1 E1). cbn [bind]. fold build.
    destruct (build networkId shard1 shard2 bitcoinProvider fetcher)
      as [[k b c s]|]; reflexivity.
  - intros encrypted key custodialShard networkId bitcoinProvider fetcher e E.
    unfold derive, clientDeriveWallet. fold decrypt. now rewrite E.
Qed.

(** What a successful [clientGenerateWallet] read from the wallets it
    built. *)
Lemma generate_wallets (mnemonic : jsstring)
    (deviceRandomValues recoveryRandomValues : nat -> bytes)
    (deviceKey recoveryKey : CryptoKey) (wallet : GeneratedWallet) :
  generate (Ok mnemonic) deviceRandomValues recoveryRandomValues
    deviceKey recoveryKey = Ok wallet ->
  exists testnet mainnet cardano address hashes sparkMainnet sparkRegtest
         fromSpark,
    newEmbeddedWallet BitcoinTestnet (split SPACE mnemonic) None = Ok testnet
    /\ newEmbeddedWallet BitcoinMainnet (split SPACE mnemonic) None
       = Ok mainnet
    /\ getPublicKey testnet = Ok (bitcoinTestnetPubKeyHash wallet)
    /\ getPublicKey mainnet = Ok (bitcoinMainnetPubKeyHash wallet)
    /\ cardanoFromMnemonic (split SPACE mnemonic) Mainnet None = Ok cardano
    /\ getChangeAddressBech32 cardano = Ok address
    /\ deserializeBech32Address address = Ok hashes
    /\ pubKeyHash hashes = cardanoPubKeyHash wallet
    /\ stakeCredentialHash hashes = cardanoStakeCredentialHash wallet
    /\ sparkInitialize mnemonic SparkMAINNET = Ok sparkMainnet
    /\ sparkInitialize mnemonic SparkREGTEST = Ok sparkRegtest
    /\ sparkKeys sparkMainnet sparkRegtest = Ok fromSpark
    /\ mainnetIdentityPublicKey fromSpark = sparkMainnetPubKeyHash wallet
    /\ regtestIdentityPublicKey fromSpark = sparkRegtestPubKeyHash wallet
    /\ mainnetStaticDepositAddress fromSpark
       = sparkMainnetStaticDepositAddress wallet
    /\ regtestStaticDepositAddress fromSpark
       = sparkRegtestStaticDepositAddress wallet.
Proof.
  intros H. unfold generate, clientGenerateWallet in H. cbn [bind] in H.
  destruct (spiltKeyIntoShards mnemonic) as [shards|]; [|discriminate].
  cbn [bind] in H.
  do 2 (match type of H with
        | bind ?r _ = Ok _ =>
            destruct r; [cbn [bind] in H | discriminate]
        end).
  destruct (newEmbeddedWallet BitcoinTestnet (split SPACE mnemonic) None)
    as [testnet|] eqn:Bt; [|discriminate].
  destruct (newEmbeddedWallet BitcoinMainnet (split SPACE mnemonic) None)
    as [mainnet|] eqn:Bm; [|discriminate].
  cbn [bind] in H.
  destruct (getPublicKey testnet) as [testnetHash|] eqn:Pt; [|discriminate].
  destruct (getPublicKey mainnet) as [mainnetHash|] eqn:Pm; [|discriminate].
  cbn [bind] in H.
  destruct (cardanoFromMnemonic (split SPACE mnemonic) Mainnet None)
    as [cardano|] eqn:Cw; [|discriminate].
  cbn [bind] in H.
  destruct (getChangeAddressBech32 cardano) as [address|] eqn:Ca; [|discriminate].
  cbn [bind] in H.
  destruct (deserializeBech32Address address) as [hashes|] eqn:Ch; [|discriminate].
  cbn [bind] in H.
  destruct (sparkInitialize mnemonic SparkMAINNET) as [sparkMainnet|] eqn:Sm;
    [|discriminate].
  destruct (sparkInitialize mnemonic SparkREGTEST) as [sparkRegtest|] eqn:Sr;
    [|discriminate].
  cbn [bind] in H.
  destruct (sparkKeys sparkMainnet sparkRegtest) as [fromSpark|] eqn:Sk;
    [|discriminate].
  cbn [bind] in H. inversion H.
  exists testnet, mainnet, cardano, address, hashes, sparkMainnet,
    sparkRegtest, fromSpark.
  repeat split; assumption.
Qed.

(** X20: the wallets [clientDeriveWallet] rebuilds, without provider and
    fetcher, from the device shard and the auth shard of a generated
    wallet are the ones [clientGenerateWallet] read the key hashes from,
    when the first two shards combine to the mnemonic.  On network 1
    the call succeeds, its key is the mnemonic, the Bitcoin wallet has
    the Mainnet key hash that was reported, the Cardano wallet the
    reported key and stake hashes, and the Spark wallet the reported
    mainnet identity key and deposit address.  On network 0, a call
    that succeeds gives the Bitcoin wallet of the reported Testnet hash
    and the Spark wallet of the reported regtest values. *)
Theorem clientDeriveWallet_rebuilds (mnemonic : jsstring)
    (deviceRandomValues recoveryRandomValues : nat -> bytes)
    (deviceKey recoveryKey : CryptoKey) (wallet : GeneratedWallet)
    (shard1 shard2 shard3 : jsstring) (share1 share2 secret : bytes) :
  spiltKeyIntoShards mnemonic = Ok [shard1; shard2; shard3] ->
  forallb isLowerHexChar shard1 = true ->
  hexToBytes shard1 = Ok share1 ->
  hexToBytes shard2 = Ok share2 ->
  Shamir.shamirCombine [share1; share2] = Ok secret ->
  Convertors.bytesToString secret = mnemonic ->
  generate (Ok mnemonic) deviceRandomValues recoveryRandomValues
    deviceKey recoveryKey = Ok wallet ->
  (exists derived,
      derive (encryptedDeviceShard wallet) deviceKey shard2 Mainnet None None
      = Ok derived
      /\ key derived = mnemonic
      /\ getPublicKey (bitcoinWallet derived)
         = Ok (bitcoinMainnetPubKeyHash wallet)
      /\ (exists address hashes,
             getChangeAddressBech32 (cardanoWallet derived) = Ok address
             /\ deserializeBech32Address address = Ok hashes
             /\ pubKeyHash hashes = cardanoPubKeyHash wallet
             /\ stakeCredentialHash hashes = cardanoStakeCredentialHash wallet)
      /\ (exists regtest fromSpark,
             sparkKeys (sparkWallet derived) regtest = Ok fromSpark
             /\ mainnetIdentityPublicKey fromSpark
                = sparkMainnetPubKeyHash wallet
             /\ mainnetStaticDepositAddress fromSpark
                = sparkMainnetStaticDepositAddress wallet))
  /\ (forall derived,
        derive (encryptedDeviceShard wallet) deviceKey shard2 Testnet None None
        = Ok derived ->
        key derived = mnemonic
        /\ getPublicKey (bitcoinWallet derived)
           = Ok (bitcoinTestnetPubKeyHash wallet)
        /\ (exists mainnet fromSpark,
               sparkKeys mainnet (sparkWallet derived) = Ok fromSpark
               /\ regtestIdentityPublicKey fromSpark
                  = sparkRegtestPubKeyHash wallet
               /\ regtestStaticDepositAddress fromSpark
                  = sparkRegtestStaticDepositAddress wallet)).
Proof.
  intros Hs H1 Hx1 Hx2 Hc Hm H.
  destruct (generate_inversion _ _ _ _ Hs H) as (E1 & _).
  cbn [nth] in E1.
  pose proof (@shard_envelope _ shard1 _ _ H1 E1) as D.
  assert (Run : forall networkId,
             derive (encryptedDeviceShard wallet) deviceKey shard2 networkId
               None None
             = (bitcoin <-
                  newEmbeddedWallet
                    (match networkId with
                     | Mainnet => BitcoinMainnet
                     | Testnet => BitcoinTestnet
                     end) (split SPACE mnemonic) None ;;
                cardano' <-
                  cardanoFromMnemonic (split SPACE mnemonic) networkId None ;;
                spark <-
                  sparkInitialize mnemonic
                    (match networkId with
                     | Mainnet => SparkMAINNET
                     | Testnet => SparkREGTEST
                     end) ;;
                Ok {| key := mnemonic; bitcoinWallet := bitcoin;
                      cardanoWallet := cardano'; sparkWallet := spark |})).
  { intros networkId. unfold derive, clientDeriveWallet. fold decrypt.
    rewrite D. cbn [bind]. unfold combineShardsBuildWallet.
    rewrite Hx1, Hx2. cbn [bind]. rewrite Hc. cbn [bind]. rewrite Hm.
    destruct (newEmbeddedWallet _ (split SPACE mnemonic) None);
      [|reflexivity].
    destruct (cardanoFromMnemonic (split SPACE mnemonic) networkId None);
      [|reflexivity].
    destruct (sparkInitialize mnemonic _); reflexivity. }
  destruct (@generate_wallets _ _ _ _ _ _ H)
    as (testnet & mainnet & cardano & address & hashes & sparkMainnet
        & sparkRegtest & fromSpark & Bt & Bm & Pt & Pm & Cw & Ca & Ch & Hk
        & Hst & Sm & Sr & Sk & K1 & K2 & K3 & K4).
  split.
  - rewrite Run, Bm, Cw, Sm. cbn [bind].
    eexists. split; [reflexivity|].
    cbn [key bitcoinWallet cardanoWallet sparkWallet].
    split; [reflexivity|]. split; [exact Pm|]. split.
    + exists address, hashes. repeat split; assumption.
    + exists sparkRegtest, fromSpark. repeat split; assumption.
  - intros derived Hd. rewrite Run, Bt, Sr in Hd. cbn [bind] in Hd.
    destruct (cardanoFromMnemonic (split SPACE mnemonic) Testnet None)
      as [cardano'|]; [|discriminate].
    cbn [bind] in Hd. inversion Hd.
    cbn [key bitcoinWallet cardanoWallet sparkWallet].
    split; [reflexivity|]. split; [exact Pt|].
    exists sparkMainnet, fromSpark. repeat split; assumption.
Qed.

End ClientFacts.

(** ** The two functions on the reference platform *)

Definition recoveryKey : bytes := [x01; x02].

Lemma clientGenerateWallet_shards_witness :
  exists wallet,
    Wallet.Reference.clientGenerateWallet (Ok (js "abc"))
      Reference.countingBytes Reference.countingBytes
      Reference.exampleKey recoveryKey = Ok wallet
    /\ (Reference.decryptWithCipher (encryptedDeviceShard wallet)
          Reference.exampleKey AES_GCM = Ok (js "16806307")
        /\ Reference.decryptWithCipher (encryptedRecoveryShard wallet)
             recoveryKey AES_GCM = Ok (js "3bde63f3")
        /\ authShard wallet = Some (js "dd49632a")).
Proof.
  eexists. split; [vm_compute; reflexivity|].
  apply (@clientGenerateWallet_shards bytes Reference.encrypt Reference.decrypt
           Reference.stringify Reference.parse Native.encodingAdapter
           unit unit _ _ _
           (spiltKeyIntoShards Shamir.exampleRandomness)
           Wallet.Reference.newEmbeddedWallet Wallet.Reference.getPublicKey
           Wallet.Reference.cardanoFromMnemonic
           Wallet.Reference.getChangeAddressBech32
           Wallet.Reference.deserializeBech32Address
           Wallet.Reference.sparkInitialize Wallet.Reference.sparkKeys
           CryptoFacts.reference_aead CryptoFacts.reference_json_base64
           CryptoFacts.native_base64
           (js "abc") Reference.countingBytes Reference.countingBytes
           Reference.exampleKey recoveryKey _
           (js "16806307") (js "dd49632a") (js "3bde63f3"));
    vm_compute; reflexivity.
Defined.

Lemma clientDeriveWallet_after_generate_witness :
  exists wallet,
    Wallet.Reference.clientGenerateWallet (Ok (js "abc"))
      Reference.countingBytes Reference.countingBytes
      Reference.exampleKey recoveryKey = Ok wallet
    /\ ((forall networkId bitcoinProvider fetcher,
           Wallet.Reference.clientDeriveWallet (encryptedDeviceShard wallet)
             Reference.exampleKey (js "dd49632a") networkId bitcoinProvider
             fetcher
           = combineShardsBuildWallet Wallet.Reference.hexToBytes
               Wallet.Reference.newEmbeddedWallet
               Wallet.Reference.cardanoFromMnemonic
               Wallet.Reference.sparkInitialize
               networkId (js "16806307") (js "dd49632a") bitcoinProvider
               fetcher)
        /\ (forall encrypted key custodialShard networkId bitcoinProvider
                   fetcher e,
              Reference.decryptWithCipher encrypted key AES_GCM = Err e ->
              Wallet.Reference.clientDeriveWallet encrypted key custodialShard
                networkId bitcoinProvider fetcher
              = Err e)).
Proof.
  eexists. split; [vm_compute; reflexivity|].
  apply (@clientDeriveWallet_after_generate bytes Reference.encrypt
           Reference.decrypt Reference.stringify Reference.parse
           Native.encodingAdapter unit unit _ _ _
           (spiltKeyIntoShards Shamir.exampleRandomness)
           Wallet.Reference.hexToBytes
           Wallet.Reference.newEmbeddedWallet Wallet.Reference.getPublicKey
           Wallet.Reference.cardanoFromMnemonic
           Wallet.Reference.getChangeAddressBech32
           Wallet.Reference.deserializeBech32Address
           Wallet.Reference.sparkInitialize Wallet.Reference.sparkKeys
           CryptoFacts.reference_aead CryptoFacts.reference_json_base64
           CryptoFacts.native_base64
           (js "abc") Reference.countingBytes Reference.countingBytes
           Reference.exampleKey recoveryKey _
           (js "16806307") (js "dd49632a") (js "3bde63f3"));
    vm_compute; reflexivity.
Defined.

Lemma clientDeriveWallet_rebuilds_witness :
  exists wallet,
    Wallet.Reference.clientGenerateWallet (Ok (js "abc"))
      Reference.countingBytes Reference.countingBytes
      Reference.exampleKey recoveryKey = Ok wallet
    /\ ((exists derived,
            Wallet.Reference.clientDeriveWallet (encryptedDeviceShard wallet)
              Reference.exampleKey (js "dd49632a") Mainnet None None
            = Ok derived
            /\ key derived = js "abc"
            /\ Wallet.Reference.getPublicKey (bitcoinWallet derived)
               = Ok (bitcoinMainnetPubKeyHash wallet)
            /\ (exists address hashes,
                   Wallet.Reference.getChangeAddressBech32
                     (cardanoWallet derived) = Ok address
                   /\ Wallet.Reference.deserializeBech32Address address
                      = Ok hashes
                   /\ pubKeyHash hashes = cardanoPubKeyHash wallet
                   /\ stakeCredentialHash hashes
                      = cardanoStakeCredentialHash wallet)
            /\ (exists regtest fromSpark,
                   Wallet.Reference.sparkKeys (sparkWallet derived) regtest
                   = Ok fromSpark
                   /\ mainnetIdentityPublicKey fromSpark
                      = sparkMainnetPubKeyHash wallet
                   /\ mainnetStaticDepositAddress fromSpark
                      = sparkMainnetStaticDepositAddress wallet))
        /\ (forall derived,
              Wallet.Reference.clientDeriveWallet (encryptedDeviceShard wallet)
                Reference.exampleKey (js "dd49632a") Testnet None None
              = Ok derived ->
              key derived = js "abc"
              /\ Wallet.Reference.getPublicKey (bitcoinWallet derived)
                 = Ok (bitcoinTestnetPubKeyHash wallet)
              /\ (exists mainnet fromSpark,
                     Wallet.Reference.sparkKeys mainnet (sparkWallet derived)
                     = Ok fromSpark
                     /\ regtestIdentityPublicKey fromSpark
                        = sparkRegtestPubKeyHash wallet
                     /\ regtestStaticDepositAddress fromSpark
                        = sparkRegtestStaticDepositAddress wallet))).
Proof.
  eexists. split; [vm_compute; reflexivity|].
  apply (@clientDeriveWallet_rebuilds bytes Reference.encrypt
           Reference.decrypt Reference.stringify Reference.parse
           Native.encodingAdapter unit unit _ _ _
           (spiltKeyIntoShards Shamir.exampleRandomness)
           Wallet.Reference.hexToBytes
           Wallet.Reference.newEmbeddedWallet Wallet.Reference.getPublicKey
           Wallet.Reference.cardanoFromMnemonic
           Wallet.Reference.getChangeAddressBech32
           Wallet.Reference.deserializeBech32Address
           Wallet.Reference.sparkInitialize Wallet.Reference.sparkKeys
           CryptoFacts.reference_aead CryptoFacts.reference_json_base64
           CryptoFacts.native_base64
           (js "abc") Reference.countingBytes Reference.countingBytes
           Reference.exampleKey recoveryKey _
           (js "16806307") (js "dd49632a") (js "3bde63f3")
           (Encoding.hexToBytes (js "16806307"))
           (Encoding.hexToBytes (js "dd49632a"))
           (Convertors.stringToBytes (js "abc")));
    vm_compute; reflexivity.
Defined.

End WalletFacts.
(* ================================================================== *)
(** * Properties: the functions and the singleton they read *)
(* ================================================================== *)

Module ContextFacts.
Import PlatformContext.

Section Calls.

Variables StorageAdapter LinkingAdapter : Type.
Variable toUpperCase : jsstring -> jsstring.
Variables PublicKey PrivateKey CryptoKey : Type.
Variable exportSpki : PublicKey -> result bytes.
Variable importSpki : bytes -> result PublicKey.
Variable importPkcs8 : bytes -> result PrivateKey.
Variable deriveKey : PublicKey -> PrivateKey -> string -> result CryptoKey.
Variable subtleEncrypt :
  string -> bytes -> CryptoKey -> bytes -> result bytes.
Variable subtleDecrypt :
  string -> bytes -> CryptoKey -> bytes -> result bytes.
Variable JSON_stringify : JsonValue -> jsstring.
Variable JSON_parse : jsstring -> result JsonValue.

Let Adapters : Type :=
  PlatformAdapters Hash.CryptoAdapter StorageAdapter LinkingAdapter
    EncodingAdapter.
Let ContextState : Type :=
  State Hash.CryptoAdapter StorageAdapter LinkingAdapter EncodingAdapter.
Let start : ContextState :=
  initialState Hash.CryptoAdapter StorageAdapter LinkingAdapter
    EncodingAdapter.

(** The functions, reading the singleton in state [st]. *)
Let hashData (st : ContextState) :=
  Hash.hashData toUpperCase (getEncoding st) (getCrypto st).
Let decryptWithCipher (st : ContextState) :=
  Crypto.decryptWithCipher subtleDecrypt JSON_parse (getEncoding st).
Let encryptWithPublicKey (st : ContextState) :=
  Asymmetric.encryptWithPublicKey exportSpki importSpki deriveKey
    subtleEncrypt JSON_stringify (getEncoding st).
Let decryptWithPrivateKey (st : ContextState) :=
  Asymmetric.decryptWithPrivateKey importSpki importPkcs8 deriveKey
    subtleDecrypt JSON_parse (getEncoding st).

(** X21: before the first [setAdapters] call, [hashData],
    [encryptWithPublicKey] and [decryptWithPrivateKey] fail with the
    "Platform adapters not initialized" error whatever their arguments,
    and [decryptWithCipher] fails with it for every text that
    [JSON.parse] accepts, and with the error of [JSON.parse] for the
    others.  After a first call and any later ones, [hashData] runs on
    the encoding and the crypto adapter of the last bundle installed:
    the first call's, or the last development-mode call's. *)
Theorem functions_before_setAdapters :
  (forall data privateKey algorithm,
      hashData start data privateKey algorithm = Err NOT_INITIALIZED)
  /\ (forall generated getRandomValues publicKey data,
        encryptWithPublicKey start generated getRandomValues publicKey data
        = Err NOT_INITIALIZED)
  /\ (forall privateKey encryptedDataJSON,
        decryptWithPrivateKey start privateKey encryptedDataJSON
        = Err NOT_INITIALIZED)
  /\ (forall encryptedDataJSON key algorithm,
        decryptWithCipher start encryptedDataJSON key algorithm
        = match JSON_parse encryptedDataJSON with
          | Ok _ => Err NOT_INITIALIZED
          | Err e => Err e
          end)
  /\ (forall env (first : Adapters) later data privateKey algorithm,
        let current :=
          last (SingletonFacts.developmentBundles later) first in
        hashData (runCalls ((env, first) :: later) start) data privateKey
          algorithm
        = Hash.hashData toUpperCase (Ok (encoding current))
            (Ok (crypto current)) data privateKey algorithm).
Proof.
  do 4 (split; [reflexivity|]).
  intros env first later data privateKey algorithm current.
  destruct (@SingletonFacts.runCalls_initialized _ _ _ _ later
              (setAdapters env first start) first eq_refl eq_refl)
    as (_ & A & _).
  unfold hashData, getEncoding, getCrypto, getAdapters.
  rewrite SingletonFacts.runCalls_cons. cbn [fst snd]. rewrite A.
  reflexivity.
Qed.

End Calls.

End ContextFacts.
(* ================================================================== *)
(** * Properties: the React Native adapter without [TextEncoder] and
      [TextDecoder] *)
(* ================================================================== *)

Module FallbackFacts.
Import Text TextFacts NativeFallback Forms.

(** ** [unescape] reads back the escapes of [encodeURIComponent] *)

Definition percentReadsBack (b : byte) : bool :=
  let octet := Byte.to_N b in
  negb (upperHexDigit (octet / 16) =? LOWER_U)
  && match hexOctet (upperHexDigit (octet / 16))
             (upperHexDigit (octet mod 16)) with
     | Some n => n =? octet
     | None => false
     end.

Lemma percentReadsBack_all (b : byte) : percentReadsBack b = true.
Proof. revert b. apply forall_bytes_spec. vm_compute. reflexivity. Qed.

Lemma percentEncode_spec (b : byte) :
  (upperHexDigit (Byte.to_N b / 16) =? LOWER_U) = false
  /\ hexOctet (upperHexDigit (Byte.to_N b / 16))
       (upperHexDigit (Byte.to_N b mod 16)) = Some (Byte.to_N b).
Proof.
  pose proof (percentReadsBack_all b) as H. unfold percentReadsBack in H.
  apply andb_true_iff in H. destruct H as [Hu Hx].
  apply negb_true_iff in Hu. split; [exact Hu|].
  destruct (hexOctet _ _) as [n|]; [|discriminate].
  apply N.eqb_eq in Hx. now subst n.
Qed.

Lemma unescape_percentEncode (b : byte) (rest : jsstring) :
  unescape (percentEncode (Byte.to_N b) ++ rest)
  = Byte.to_N b :: unescape rest.
Proof.
  destruct (percentEncode_spec b) as [Hu Hx].
  unfold percentEncode. cbn [app unescape].
  change (PERCENT =? PERCENT) with true. cbn [negb].
  now rewrite Hu, Hx.
Qed.

Lemma unescape_octets (bs : bytes) (rest : jsstring) :
  unescape (flat_map percentEncode (map Byte.to_N bs) ++ rest)
  = map Byte.to_N bs ++ unescape rest.
Proof.
  induction bs as [|b bs IH]; [reflexivity|].
  cbn [map flat_map]. rewrite <- app_assoc, unescape_percentEncode, IH.
  reflexivity.
Qed.

Lemma unescape_kept (c : N) (rest : jsstring) :
  (c =? PERCENT) = false -> unescape (c :: rest) = c :: unescape rest.
Proof. intros H. cbn [unescape]. now rewrite H. Qed.

(** A character of the unescaped set is an ASCII character other than
    the percent sign. *)
Lemma uriUnescaped_ascii (c : N) :
  uriUnescaped c = true ->
  c < 128 /\ (c =? PERCENT) = false
  /\ isHighSurrogate c = false /\ isLowSurrogate c = false.
Proof.
  intros H.
  assert (Hc : c < 128).
  { unfold uriUnescaped, isAlphanumeric in H.
    apply orb_true_iff in H. destruct H as [H | H].
    - repeat (apply orb_true_iff in H; destruct H as [H | H]);
        apply andb_true_iff in H; destruct H as [_ H];
        apply N.leb_le in H; lia.
    - apply existsb_exists in H. destruct H as [x [Hin Hx]].
      apply N.eqb_eq in Hx. subst x. vm_compute in Hin.
      repeat (destruct Hin as [<- | Hin]; [lia|]). contradiction. }
  assert (K : forall d, d < 128 ->
                negb (uriUnescaped d && (d =? PERCENT)) = true)
    by (apply (forall_below_spec 128); vm_compute; reflexivity).
  specialize (K c Hc). rewrite H in K. cbn [andb] in K.
  apply negb_true_iff in K.
  split; [exact Hc|]. split; [exact K|].
  unfold isHighSurrogate, isLowSurrogate.
  split; apply andb_false_iff; left; apply N.leb_gt; lia.
Qed.

Lemma encodeScalar_ascii (c : N) :
  c < 128 -> map Byte.to_N (encodeScalar c) = [c].
Proof.
  intros H. unfold encodeScalar.
  destruct (N.leb_spec c 0x7F); [|lia].
  cbn [map]. rewrite to_N_byte_of_N, N.mod_small by lia. reflexivity.
Qed.

Lemma high_not_low (c : N) :
  isHighSurrogate c = true -> isLowSurrogate c = false.
Proof.
  unfold isHighSurrogate, isLowSurrogate. intros H.
  apply andb_true_iff in H. destruct H as [_ H]. apply N.leb_le in H.
  apply andb_false_iff. left. apply N.leb_gt. lia.
Qed.

Lemma utf8Encode_pair (c d : N) (rest : jsstring) :
  isHighSurrogate c = true -> isLowSurrogate d = true ->
  utf8Encode (c :: d :: rest)
  = encodeScalar (0x10000 + (c - 0xD800) * 0x400 + (d - 0xDC00))
    ++ utf8Encode rest.
Proof.
  intros Hc Hd. unfold utf8Encode. cbn [toScalarValues].
  now rewrite Hc, Hd.
Qed.

Lemma utf8Encode_unit (c : N) (rest : jsstring) :
  isHighSurrogate c = false -> isLowSurrogate c = false ->
  utf8Encode (c :: rest) = encodeScalar c ++ utf8Encode rest.
Proof.
  intros Hc Hd. unfold utf8Encode. cbn [toScalarValues].
  now rewrite Hc, Hd.
Qed.

(** On a well-formed string [encodeURIComponent] returns, and
    [unescape] of what it returns is the string of the UTF-8 bytes. *)
Lemma unescape_encodeURIComponent (s : jsstring) :
  wellFormed s = true ->
  exists component,
    encodeURIComponent s = Returns component
    /\ unescape component = map Byte.to_N (utf8Encode s).
Proof.
  assert (G : forall n s, (length s <= n)%nat -> wellFormed s = true ->
                exists component,
                  encodeURIComponent s = Returns component
                  /\ unescape component = map Byte.to_N (utf8Encode s)).
  { induction n as [|n IH]; intros s' Hlen Hwf.
    - destruct s'; [|simpl in Hlen; lia]. exists []. split; reflexivity.
    - destruct s' as [|c rest]; [exists []; split; reflexivity|].
      cbn [wellFormed] in Hwf. cbn [encodeURIComponent].
      destruct (isHighSurrogate c) eqn:Hh.
      + destruct (uriUnescaped c) eqn:U.
        { apply uriUnescaped_ascii in U. destruct U as (_ & _ & U & _).
          congruence. }
        rewrite (high_not_low c Hh).
        destruct rest as [|d rest']; [discriminate|].
        apply andb_true_iff in Hwf. destruct Hwf as [Hd Hwf]. rewrite Hd.
        destruct (IH rest' ltac:(simpl in Hlen; lia) Hwf)
          as [component [E R]].
        rewrite E. cbn [after]. eexists. split; [reflexivity|].
        rewrite unescape_octets, R, (@utf8Encode_pair c d rest' Hh Hd), map_app.
        reflexivity.
      + apply andb_true_iff in Hwf. destruct Hwf as [Hwf Hrest].
        apply andb_true_iff in Hwf. destruct Hwf as [Hl Hc].
        apply negb_true_iff in Hl.
        destruct (IH rest ltac:(simpl in Hlen; lia) Hrest)
          as [component [E R]].
        rewrite E, Hl. cbn [after].
        destruct (uriUnescaped c) eqn:U.
        * apply uriUnescaped_ascii in U. destruct U as (A & P & _).
          eexists. split; [reflexivity|].
          cbn [app]. rewrite (@unescape_kept c component P), R.
          rewrite (@utf8Encode_unit c rest Hh Hl), map_app.
          now rewrite (@encodeScalar_ascii c A).
        * eexists. split; [reflexivity|].
          rewrite unescape_octets, R, (@utf8Encode_unit c rest Hh Hl), map_app.
          reflexivity. }
  intros H. now apply (G (length s)).
Qed.

(** On a string with a surrogate that is not half of a pair,
    [encodeURIComponent] throws. *)
Lemma encodeURIComponent_throws (s : jsstring) :
  codeUnits s = true -> wellFormed s = false ->
  encodeURIComponent s = ThrowsURIError.
Proof.
  assert (G : forall n s, (length s <= n)%nat -> codeUnits s = true ->
                wellFormed s = false ->
                encodeURIComponent s = ThrowsURIError).
  { induction n as [|n IH]; intros s' Hlen Hu Hwf.
    - destruct s'; [discriminate | simpl in Hlen; lia].
    - destruct s' as [|c rest]; [discriminate|].
      cbn [codeUnits forallb] in Hu.
      apply andb_true_iff in Hu. destruct Hu as [Hc Hu].
      assert (Hc' : (c <=? 0xFFFF) = true).
      { apply N.ltb_lt in Hc. apply N.leb_le. lia. }
      cbn [wellFormed] in Hwf. cbn [encodeURIComponent].
      destruct (uriUnescaped c) eqn:U.
      + apply uriUnescaped_ascii in U. destruct U as (_ & _ & Hh & Hl).
        rewrite Hh, Hl, Hc' in Hwf. cbn [negb andb] in Hwf.
        now rewrite (IH rest ltac:(simpl in Hlen; lia) Hu Hwf).
      + destruct (isLowSurrogate c) eqn:Hl; [reflexivity|].
        destruct (isHighSurrogate c) eqn:Hh.
        * destruct rest as [|d rest']; [reflexivity|].
          destruct (isLowSurrogate d) eqn:Hd; [|reflexivity].
          cbn [andb] in Hwf. cbn [forallb] in Hu.
          apply andb_true_iff in Hu. destruct Hu as [_ Hu].
          now rewrite (IH rest' ltac:(simpl in Hlen; lia) Hu Hwf).
        * rewrite Hc' in Hwf. cbn [negb andb] in Hwf.
          now rewrite (IH rest ltac:(simpl in Hlen; lia) Hu Hwf). }
  intros Hu Hwf. now apply (G (length s)).
Qed.

(** X22: without [TextEncoder], [utf8ToBytes] returns the bytes the
    [TextEncoder] path returns exactly for the strings that are
    well-formed UTF-16; for a string with a surrogate that is not half
    of a pair it throws a [URIError], where the [TextEncoder] path
    encodes U+FFFD. *)
Theorem utf8ToBytes_without_TextEncoder (s : jsstring) :
  codeUnits s = true ->
  utf8ToBytes false s
  = if wellFormed s then utf8ToBytes true s else ThrowsURIError.
Proof.
  intros Hu. unfold utf8ToBytes.
  destruct (wellFormed s) eqn:Hwf.
  - destruct (unescape_encodeURIComponent s Hwf) as [component [E R]].
    now rewrite E, R, BrowserFacts.bytes_of_octets.
  - now rewrite (encodeURIComponent_throws s Hu Hwf).
Qed.

Lemma utf8ToBytes_without_TextEncoder_witness :
  utf8ToBytes false [0xD83C; 0xDF89; 104; 0xD83C]
  = if wellFormed [0xD83C; 0xDF89; 104; 0xD83C]
    then utf8ToBytes true [0xD83C; 0xDF89; 104; 0xD83C]
    else ThrowsURIError.
Proof.
  apply (utf8ToBytes_without_TextEncoder [0xD83C; 0xDF89; 104; 0xD83C]).
  reflexivity.
Defined.

(** ** [decodeURIComponent] reads back the escapes of [escape] *)

(** The octets of the UTF-8 encoder, as numbers. *)
Lemma lor_shift (v x : N) : x < 64 -> N.lor (N.shiftl v 6) x = v * 64 + x.
Proof.
  intros Hx. rewrite N.shiftl_mul_pow2. change (2 ^ 6) with 64.
  rewrite <- N.lxor_lor, <- N.add_nocarry_lxor; try reflexivity.
  - apply N.bits_inj_0. intros n. rewrite N.land_spec.
    destruct (N.lt_ge_cases n 6) as [Hn | Hn].
    + change 64 with (2 ^ 6). now rewrite N.mul_pow2_bits_low.
    + rewrite (N.testbit_eqb x n), (N.div_small x (2 ^ n)).
      * apply andb_false_r.
      * apply N.lt_le_trans with (2 ^ 6); [exact Hx|].
        now apply N.pow_le_mono_r.
  - apply N.bits_inj_0. intros n. rewrite N.land_spec.
    destruct (N.lt_ge_cases n 6) as [Hn | Hn].
    + change 64 with (2 ^ 6). now rewrite N.mul_pow2_bits_low.
    + rewrite (N.testbit_eqb x n), (N.div_small x (2 ^ n)).
      * apply andb_false_r.
      * apply N.lt_le_trans with (2 ^ 6); [exact Hx|].
        now apply N.pow_le_mono_r.
Qed.

Lemma continuation_spec (cp shift : N) :
  Byte.to_N (continuation cp shift) = 128 + (cp / 2 ^ shift) mod 64.
Proof.
  unfold continuation. rewrite to_N_byte_of_N, N.shiftr_div_pow2.
  change 0x3F with (N.ones 6). rewrite N.land_ones. change (2 ^ 6) with 64.
  assert (Hx : (cp / 2 ^ shift) mod 64 < 64) by (apply N.mod_lt; lia).
  revert Hx. generalize ((cp / 2 ^ shift) mod 64). intros x Hx.
  assert (K : forall d, d < 64 -> (N.lor 0x80 d mod 256 =? 128 + d) = true)
    by (apply (forall_below_spec 64); vm_compute; reflexivity).
  now apply N.eqb_eq, K.
Qed.

Lemma octets2 (cp : N) :
  0x80 <= cp -> cp <= 0x7FF ->
  map Byte.to_N (encodeScalar cp) = [cp / 64 + 192; 128 + cp mod 64].
Proof.
  intros Hlo Hhi. unfold encodeScalar.
  destruct (N.leb_spec cp 0x7F); [lia|].
  destruct (N.leb_spec cp 0x7FF); [|lia].
  cbn [map]. rewrite continuation_spec, to_N_byte_of_N, N.shiftr_div_pow2.
  change (2 ^ 6) with 64. change (2 ^ 0) with 1. rewrite N.div_1_r.
  assert (cp / 64 < 32) by (apply N.Div0.div_lt_upper_bound; lia).
  rewrite N.mod_small by lia. reflexivity.
Qed.

Lemma octets3 (cp : N) :
  0x800 <= cp -> cp <= 0xFFFF ->
  map Byte.to_N (encodeScalar cp)
  = [cp / 4096 + 224; 128 + (cp / 64) mod 64; 128 + cp mod 64].
Proof.
  intros Hlo Hhi. unfold encodeScalar.
  destruct (N.leb_spec cp 0x7F); [lia|].
  destruct (N.leb_spec cp 0x7FF); [lia|].
  destruct (N.leb_spec cp 0xFFFF); [|lia].
  cbn [map]. rewrite !continuation_spec, to_N_byte_of_N, N.shiftr_div_pow2.
  change (2 ^ 12) with 4096. change (2 ^ 6) with 64. change (2 ^ 0) with 1.
  rewrite N.div_1_r.
  assert (cp / 4096 < 16) by (apply N.Div0.div_lt_upper_bound; lia).
  rewrite N.mod_small by lia. reflexivity.
Qed.

Lemma octets4 (cp : N) :
  0x10000 <= cp -> cp <= 0x10FFFF ->
  map Byte.to_N (encodeScalar cp)
  = [cp / 262144 + 240; 128 + (cp / 4096) mod 64; 128 + (cp / 64) mod 64;
     128 + cp mod 64].
Proof.
  intros Hlo Hhi. unfold encodeScalar.
  destruct (N.leb_spec cp 0x7F); [lia|].
  destruct (N.leb_spec cp 0x7FF); [lia|].
  destruct (N.leb_spec cp 0xFFFF); [lia|].
  cbn [map]. rewrite !continuation_spec, to_N_byte_of_N, N.shiftr_div_pow2.
  change (2 ^ 18) with 262144. change (2 ^ 12) with 4096.
  change (2 ^ 6) with 64. change (2 ^ 0) with 1. rewrite N.div_1_r.
  assert (cp / 262144 < 8) by (apply N.Div0.div_lt_upper_bound; lia).
  rewrite N.mod_small by lia. reflexivity.
Qed.

(** What [escape] and the hexadecimal reader do with an octet. *)
Lemma escape_octet (o : N) :
  128 <= o -> o < 256 -> escapeUnit o = percentEncode o.
Proof.
  intros Hlo Hhi.
  assert (K : forall d, d < 256 ->
                ((d <? 128) || negb (escapeUnescaped d)) = true)
    by (apply (forall_below_spec 256); vm_compute; reflexivity).
  specialize (K o Hhi). apply orb_true_iff in K. destruct K as [K | K].
  - apply N.ltb_lt in K. lia.
  - apply negb_true_iff in K. unfold escapeUnit. rewrite K.
    destruct (N.ltb_spec o 256); [reflexivity | lia].
Qed.

Lemma escape_octets (os : list N) :
  Forall (fun o => 128 <= o /\ o < 256) os ->
  escape os = flat_map percentEncode os.
Proof.
  induction 1 as [|o os [Hlo Hhi] _ IH]; [reflexivity|].
  unfold escape in *. cbn [flat_map]. now rewrite IH, escape_octet.
Qed.

Lemma hexOctet_percent (o : N) :
  o < 256 ->
  hexOctet (upperHexDigit (o / 16)) (upperHexDigit (o mod 16)) = Some o.
Proof.
  intros Ho.
  assert (K : forall d, d < 256 ->
                match hexOctet (upperHexDigit (d / 16))
                        (upperHexDigit (d mod 16)) with
                | Some n => n =? d
                | None => false
                end = true)
    by (apply (forall_below_spec 256); vm_compute; reflexivity).
  specialize (K o Ho).
  destruct (hexOctet _ _) as [n|]; [|discriminate].
  apply N.eqb_eq in K. now subst n.
Qed.

Lemma continuationOctets_percent (os : list N) :
  Forall (fun o => 128 <= o /\ o < 256) os ->
  continuationOctets (length os) (flat_map percentEncode os) = Some (os, []).
Proof.
  induction 1 as [|o os [Hlo Hhi] _ IH]; [reflexivity|].
  cbn [length flat_map]. unfold percentEncode at 1.
  cbn [app continuationOctets].
  change (PERCENT =? PERCENT) with true. cbv iota.
  now rewrite (hexOctet_percent Hhi), IH.
Qed.

Lemma payload_spec (x : N) : x < 64 -> payload (128 + x) = Some x.
Proof.
  intros Hx.
  assert (K : forall d, d < 64 ->
                match payload (128 + d) with
                | Some n => n =? d
                | None => false
                end = true)
    by (apply (forall_below_spec 64); vm_compute; reflexivity).
  specialize (K x Hx).
  destruct (payload (128 + x)) as [n|]; [|discriminate].
  apply N.eqb_eq in K. now subst n.
Qed.

Lemma lead_spec (mask base : N) (count : nat) (q : N) :
  (forall_below (N.to_nat mask + 1)
     (fun d => (N.land (d + base) mask =? d)
               && Nat.eqb (leadingOnes (d + base)) count)) = true ->
  q <= mask ->
  N.land (q + base) mask = q /\ leadingOnes (q + base) = count.
Proof.
  intros K Hq.
  pose proof (@forall_below_spec _ _ K q ltac:(lia)) as H.
  apply andb_true_iff in H. destruct H as [H1 H2].
  split; [now apply N.eqb_eq | now apply Nat.eqb_eq].
Qed.

(** One round of the loop on the escapes of a lead octet and its
    continuation octets. *)
Lemma decodeStep_sequence (o0 : N) (os : list N) (cp : N) (more : nat) :
  128 <= o0 -> o0 < 256 ->
  Forall (fun o => 128 <= o /\ o < 256) os ->
  leadingOnes o0 = S (S more) -> (more <= 2)%nat -> length os = S more ->
  codePointOf (o0 :: os) = Some cp ->
  decodeStep (escape (o0 :: os)) = Returns (fromScalarValue cp, []).
Proof.
  intros Hlo Hhi Hos Hlead Hmore Hlen Hcp.
  rewrite escape_octets by (constructor; [split|]; assumption).
  cbn [flat_map]. unfold percentEncode at 1. cbn [app decodeStep].
  change (PERCENT =? PERCENT) with true. cbn [negb].
  rewrite (hexOctet_percent Hhi), Hlead.
  destruct (Nat.ltb_spec 2 more); [lia|].
  rewrite <- Hlen, (continuationOctets_percent Hos), Hcp. reflexivity.
Qed.

Lemma step2 (q x cp : N) :
  q <= 0x1F -> x < 64 -> cp = q * 64 + x -> 0x80 <= cp ->
  decodeStep (escape [q + 192; 128 + x]) = Returns (fromScalarValue cp, []).
Proof.
  intros Hq Hx E Hcp.
  destruct (@lead_spec 0x1F 192 2 q eq_refl Hq) as [L1 L2].
  apply decodeStep_sequence with (more := 0%nat); try lia.
  - repeat (apply Forall_cons; [split; lia|]). apply Forall_nil.
  - reflexivity.
  - unfold codePointOf. cbn [tl withPayloads].
    rewrite L1, (payload_spec Hx), (lor_shift _ Hx), <- E.
    destruct (N.leb_spec 0x80 cp); [reflexivity | lia].
Qed.

Lemma step3 (q x1 x2 cp : N) :
  q <= 0xF -> x1 < 64 -> x2 < 64 -> cp = (q * 64 + x1) * 64 + x2 ->
  0x800 <= cp -> (0xD800 <=? cp) && (cp <=? 0xDFFF) = false ->
  decodeStep (escape [q + 224; 128 + x1; 128 + x2])
  = Returns (fromScalarValue cp, []).
Proof.
  intros Hq Hx1 Hx2 E Hcp Hsur.
  destruct (@lead_spec 0xF 224 3 q eq_refl Hq) as [L1 L2].
  apply decodeStep_sequence with (more := 1%nat); try lia.
  - repeat (apply Forall_cons; [split; lia|]). apply Forall_nil.
  - reflexivity.
  - unfold codePointOf. cbn [tl withPayloads].
    rewrite L1, (payload_spec Hx1), (lor_shift _ Hx1),
      (payload_spec Hx2), (lor_shift _ Hx2), <- E, Hsur.
    destruct (N.leb_spec 0x800 cp); [reflexivity | lia].
Qed.

Lemma step4 (q x1 x2 x3 cp : N) :
  q <= 7 -> x1 < 64 -> x2 < 64 -> x3 < 64 ->
  cp = ((q * 64 + x1) * 64 + x2) * 64 + x3 ->
  0x10000 <= cp -> cp <= 0x10FFFF ->
  decodeStep (escape [q + 240; 128 + x1; 128 + x2; 128 + x3])
  = Returns (fromScalarValue cp, []).
Proof.
  intros Hq Hx1 Hx2 Hx3 E Hlo Hhi.
  destruct (@lead_spec 7 240 4 q eq_refl Hq) as [L1 L2].
  apply decodeStep_sequence with (more := 2%nat); try lia.
  - repeat (apply Forall_cons; [split; lia|]). apply Forall_nil.
  - reflexivity.
  - unfold codePointOf. cbn [tl withPayloads].
    rewrite L1, (payload_spec Hx1), (lor_shift _ Hx1),
      (payload_spec Hx2), (lor_shift _ Hx2),
      (payload_spec Hx3), (lor_shift _ Hx3), <- E.
    destruct (N.leb_spec 0x10000 cp); [|lia].
    destruct (N.leb_spec cp 0x10FFFF); [reflexivity | lia].
Qed.

Lemma mod64 (n : N) : n mod 64 < 64.
Proof. apply N.mod_lt. lia. Qed.

(** One round of the loop on the escaped UTF-8 bytes of a scalar value
    takes all of them and gives the code units of the scalar value. *)
Lemma decodeStep_scalar (cp : N) :
  isScalarValue cp = true ->
  decodeStep (escape (map Byte.to_N (encodeScalar cp)))
  = Returns (fromScalarValue cp, []).
Proof.
  intros H. unfold isScalarValue in H.
  apply andb_true_iff in H. destruct H as [Hmax Hsur].
  apply N.leb_le in Hmax. apply negb_true_iff in Hsur.
  pose proof (N.div_mod cp 64 ltac:(lia)) as E1.
  pose proof (N.div_mod (cp / 64) 64 ltac:(lia)) as E2.
  pose proof (N.div_mod (cp / 4096) 64 ltac:(lia)) as E3.
  rewrite N.Div0.div_div in E2. change (64 * 64) with 4096 in E2.
  rewrite N.Div0.div_div in E3. change (4096 * 64) with 262144 in E3.
  destruct (N.le_gt_cases cp 0x7F) as [H1 | H1].
  { assert (K : forall d, d < 128 ->
                  match decodeStep (escape (map Byte.to_N (encodeScalar d)))
                  with
                  | Returns (text, []) =>
                      jsstring_eqb text (fromScalarValue d)
                  | _ => false
                  end = true)
      by (apply (forall_below_spec 128); vm_compute; reflexivity).
    specialize (K cp ltac:(lia)).
    destruct (decodeStep _) as [[text [|? ?]]|]; try discriminate.
    now rewrite (HexFacts.jsstring_eqb_eq _ _ K). }
  destruct (N.le_gt_cases cp 0x7FF) as [H2 | H2].
  { rewrite octets2 by lia.
    apply step2; try lia; [|apply mod64].
    apply N.lt_succ_r. apply N.Div0.div_lt_upper_bound. lia. }
  destruct (N.le_gt_cases cp 0xFFFF) as [H3 | H3].
  { rewrite octets3 by lia.
    apply step3; try lia; try apply mod64; [|exact Hsur].
    apply N.lt_succ_r. apply N.Div0.div_lt_upper_bound. lia. }
  rewrite octets4 by lia.
  apply step4; try lia; try apply mod64.
  apply N.lt_succ_r. apply N.Div0.div_lt_upper_bound. lia.
Qed.

Lemma continuationOctets_app (count : nat) (a b : jsstring)
    (octets : list N) (rest : jsstring) :
  continuationOctets count a = Some (octets, rest) ->
  continuationOctets count (a ++ b) = Some (octets, rest ++ b).
Proof.
  revert a octets rest.
  induction count as [|count IH]; intros a octets rest H.
  - cbn [continuationOctets] in *. now inversion H.
  - cbn [continuationOctets] in *.
    destruct a as [|p [|x [|y a']]]; try discriminate.
    cbn [app].
    destruct (p =? PERCENT); [|discriminate].
    destruct (hexOctet x y) as [octet|]; [|discriminate].
    destruct (continuationOctets count a') as [[octets' rest']|] eqn:E;
      [|discriminate].
    rewrite (IH _ _ _ E). now inversion H.
Qed.

(** A round does not look beyond the characters it takes. *)
Lemma decodeStep_app (taken after : jsstring) (text rest : jsstring) :
  decodeStep taken = Returns (text, rest) ->
  decodeStep (taken ++ after) = Returns (text, rest ++ after).
Proof.
  intros H. destruct taken as [|c taken]; [discriminate|].
  cbn [app decodeStep] in *.
  destruct (negb (c =? PERCENT)); [now inversion H|].
  destruct taken as [|x [|y taken]]; try discriminate.
  cbn [app].
  destruct (hexOctet x y) as [octet|]; [|discriminate].
  destruct (leadingOnes octet) as [|[|more]]; try discriminate.
  - now inversion H.
  - destruct (2 <? more)%nat; [discriminate|].
    destruct (continuationOctets (S more) taken) as [[octets rest']|] eqn:E;
      [|discriminate].
    rewrite (@continuationOctets_app _ taken after _ _ E).
    destruct (codePointOf (octet :: octets)); [|discriminate].
    now inversion H.
Qed.

Lemma decodeRounds_scalars (cps : list N) :
  Forall (fun cp => isScalarValue cp = true) cps ->
  forall rounds,
    (length (escape (map Byte.to_N (flat_map encodeScalar cps))) <= rounds)%nat ->
    decodeRounds rounds (escape (map Byte.to_N (flat_map encodeScalar cps)))
    = Returns (flat_map fromScalarValue cps).
Proof.
  induction 1 as [|cp cps Hcp _ IH]; intros rounds Hlen.
  - destruct rounds; reflexivity.
  - cbn [flat_map] in *. unfold escape in *.
    rewrite map_app, flat_map_app in *.
    fold (escape (map Byte.to_N (encodeScalar cp))) in *.
    fold (escape (map Byte.to_N (flat_map encodeScalar cps))) in *.
    pose proof (decodeStep_scalar cp Hcp) as E.
    destruct (escape (map Byte.to_N (encodeScalar cp))) as [|c taken] eqn:T;
      [discriminate|].
    rewrite length_app in Hlen. cbn [length] in Hlen.
    destruct rounds as [|rounds]; [lia|].
    cbn [app decodeRounds].
    change (c :: taken ++ escape (map Byte.to_N (flat_map encodeScalar cps)))
      with ((c :: taken) ++ escape (map Byte.to_N (flat_map encodeScalar cps))).
    rewrite (@decodeStep_app (c :: taken) _ _ _ E). cbn [app].
    rewrite IH by lia. reflexivity.
Qed.

Lemma wellFormed_codeUnits (s : jsstring) :
  wellFormed s = true -> codeUnits s = true.
Proof.
  assert (G : forall n s, (length s <= n)%nat -> wellFormed s = true ->
                codeUnits s = true).
  { induction n as [|n IH]; intros s' Hlen Hwf.
    - destruct s'; [reflexivity | simpl in Hlen; lia].
    - destruct s' as [|c rest]; [reflexivity|].
      cbn [wellFormed] in Hwf. cbn [codeUnits forallb].
      destruct (isHighSurrogate c) eqn:Hh.
      + destruct rest as [|d rest']; [discriminate|].
        apply andb_true_iff in Hwf. destruct Hwf as [Hd Hwf].
        cbn [forallb].
        unfold isHighSurrogate in Hh. unfold isLowSurrogate in Hd.
        apply andb_true_iff in Hh, Hd.
        destruct Hh as [_ Hh], Hd as [_ Hd]. apply N.leb_le in Hh, Hd.
        apply andb_true_iff. split; [apply N.ltb_lt; lia|].
        apply andb_true_iff. split; [apply N.ltb_lt; lia|].
        exact (IH rest' ltac:(simpl in Hlen; lia) Hwf).
      + apply andb_true_iff in Hwf. destruct Hwf as [Hwf Hrest].
        apply andb_true_iff in Hwf. destruct Hwf as [_ Hc].
        apply N.leb_le in Hc.
        apply andb_true_iff. split; [apply N.ltb_lt; lia|].
        exact (IH rest ltac:(simpl in Hlen; lia) Hrest). }
  intros H. now apply (G (length s)).
Qed.

(** X23: without [TextDecoder], [bytesToUtf8] reads the UTF-8 bytes of
    a well-formed string back in full, so that without [TextEncoder] and
    [TextDecoder] the round trip through [utf8ToBytes] and [bytesToUtf8]
    returns every well-formed string unchanged; the [TextDecoder] path
    returns the string without the U+FEFF it may start with. *)
Theorem bytesToUtf8_without_TextDecoder (s : jsstring) :
  wellFormed s = true ->
  bytesToUtf8 false (utf8Encode s) = Returns s
  /\ (exists bytes,
        utf8ToBytes false s = Returns bytes
        /\ bytesToUtf8 false bytes = Returns s)
  /\ bytesToUtf8 true (utf8Encode s) = Returns (dropByteOrderMark s).
Proof.
  intros Hwf.
  destruct (wellFormed_scalars s Hwf) as (F & R & _).
  assert (D : bytesToUtf8 false (utf8Encode s) = Returns s).
  { unfold bytesToUtf8, decodeURIComponent, utf8Encode.
    rewrite (decodeRounds_scalars F) by lia. now rewrite R. }
  split; [exact D|]. split.
  - exists (utf8Encode s). split; [|exact D].
    unfold utf8ToBytes.
    destruct (unescape_encodeURIComponent s Hwf) as [component [E U]].
    now rewrite E, U, BrowserFacts.bytes_of_octets.
  - destruct (Utf8Facts.scalars_toWellFormed s (wellFormed_codeUnits s Hwf))
      as (_ & R' & D' & _).
    unfold bytesToUtf8, utf8Decode, utf8Encode.
    rewrite (decode_encode_scalars F), D'.
    now rewrite <- R', R.
Qed.

Lemma bytesToUtf8_without_TextDecoder_witness :
  bytesToUtf8 false (utf8Encode [0xFEFF; 0xD83C; 0xDF89; 104])
  = Returns [0xFEFF; 0xD83C; 0xDF89; 104]
  /\ (exists bytes,
        utf8ToBytes false [0xFEFF; 0xD83C; 0xDF89; 104] = Returns bytes
        /\ bytesToUtf8 false bytes = Returns [0xFEFF; 0xD83C; 0xDF89; 104])
  /\ bytesToUtf8 true (utf8Encode [0xFEFF; 0xD83C; 0xDF89; 104])
     = Returns (dropByteOrderMark [0xFEFF; 0xD83C; 0xDF89; 104]).
Proof.
  apply (bytesToUtf8_without_TextDecoder [0xFEFF; 0xD83C; 0xDF89; 104]).
  reflexivity.
Defined.

End FallbackFacts.
